(** * touchgrass.city: the realtime game server ([routes/ws/game.ts])

    A shallow embedding of the authoritative game-state server, in the
    version that has the city layout (streets and buildings): the layout,
    collision-aware placement, movement resolution, the enemy tick, powerup
    timers, scoring, colour handling, the upgrade request and the
    per-connection hooks.

    Conventions of the embedding.
    - A JavaScript [number] that holds a coordinate, a size or a speed is an
      exact rational ([Q]): comparisons, [Math.min]/[Math.max], [Math.floor],
      [Math.ceil] and [Math.round] are exact; rounding error, overflow and
      [NaN] do not occur on these values.  Timestamps and scores are integers
      ([Z]).  The one place where the source coerces untrusted input
      ([Number(payload.dx) || 0]) is modelled on IEEE-like values ([JsNum]).
    - Runtime primitives with no rational closed form ([Math.sin],
      [Math.cos], [Math.sqrt], [Math.PI], [Math.SQRT1_2]), the entropy
      sources ([Math.random], [crypto.randomUUID]) and the string-to-number
      conversion are variables of the section [Server].
    - Module-level mutable state is the record [World]; every hook is a
      function from [World] to [World] that also returns the list of effects
      it performed (messages sent, sockets closed, persistence requests,
      timers), in order.
    - [Map<string, ServerPlayer>] is an insertion-ordered association list
      (iteration order matters to the enemy tick); [Map<string, number>] and
      [Map<string, string>] are [gmap]s; [Set<string>] is a duplicate-free
      list in insertion order. *)

From Stdlib Require Import ZArith QArith Qround Qminmax Lqa Lia Bool Ascii String.
From stdpp Require Import base strings gmap list pretty.

Local Open Scope Q_scope.

(** ** Protocol constants ([lib/game-protocol.ts]) *)

Definition MAP_WIDTH : Q := 10000.
Definition MAP_HEIGHT : Q := 10000.
Definition PLAYER_RADIUS : Q := 16.
Definition GRASS_RADIUS : Q := 14.
Definition PLAYER_SPEED : Q := 10.

Inductive PowerupType := speed | magnet | double.

Record RectSnapshot := mkRect {
  r_id : string; r_x : Q; r_y : Q; r_width : Q; r_height : Q }.

(** ** Server constants *)

Definition GRASS_COUNT : nat := 220.
Definition GRASS_PLAYER_PADDING : Q := 8.
Definition GRASS_SPACING : Q := 6.
Definition POWERUP_COUNT : nat := 18.
Definition POWERUP_RADIUS : Q := 16.
Definition POWERUP_PLAYER_PADDING : Q := 20.
Definition POWERUP_GRASS_PADDING : Q := 10.
Definition POWERUP_SPACING : Q := 28.
Definition POWERUP_TYPES : list PowerupType := [speed; magnet; double].
Definition SPEED_MULTIPLIER : Q := 1.7.
Definition MAGNET_EXTRA_RADIUS : Q := 108.
Definition MAGNET_PULL_PER_TICK : Q := 8.
Definition ENEMY_COUNT : nat := 20.
Definition ENEMY_RADIUS : Q := 20.
Definition ENEMY_SPEED_PER_TICK : Q := 7.
Definition ENEMY_RETURN_SPEED_MULTIPLIER : Q := 1.2.
Definition SPEED_DURATION_MS : Z := 8000.
Definition MAGNET_DURATION_MS : Z := 9000.
Definition DOUBLE_DURATION_MS : Z := 10000.
Definition OVERGROWTH_THRESHOLD : Z := 4.
Definition OVERGROWTH_BONUS : Z := 3.
Definition JOIN_DELAY_MS : Z := 5000.
Definition CITY_COLS : nat := 8.
Definition CITY_ROWS : nat := 8.
Definition STREET_WIDTH : Q := 170.
Definition BUILDING_MARGIN : Q := 46.

(** ** Numbers *)

Definition Qnat (n : nat) : Q := inject_Z (Z.of_nat n).
Definition Math_floor (v : Q) : Q := inject_Z (Qfloor v).
Definition Math_ceil (v : Q) : Q := inject_Z (Qceiling v).
(** [Math.round] rounds half-way cases up. *)
Definition Math_round (v : Q) : Q := inject_Z (Qfloor (v + (1 # 2))).
Definition Qgtb (a b : Q) : bool := negb (Qle_bool a b).
Definition Qltb (a b : Q) : bool := negb (Qle_bool b a).
Definition sq (v : Q) : Q := v * v.

Definition clamp (value min max : Q) : Q := Qmin max (Qmax min value).

(** [randomBetween] applied to one draw [u] of [Math.random()]. *)
Definition randomBetweenOf (u min max : Q) : Q :=
  Math_floor (u * (max - min + 1)) + min.

(** ** Entities *)

Record CityLayout := mkLayout {
  streets : list RectSnapshot; buildings : list RectSnapshot }.

Record GrassSpot := mkGrass { g_x : Q; g_y : Q }.

Record PowerupSpot := mkPowerup {
  pu_id : string; pu_type : PowerupType; pu_x : Q; pu_y : Q }.

Record EnemySpot := mkEnemy {
  en_id : string; en_x : Q; en_y : Q;
  en_homeX : Q; en_homeY : Q; en_territoryRadius : Q }.

(** A peer is identified by [peer.id]; sending to it is an effect. *)
Record ServerPlayer := mkPlayer {
  pl_peer : string;
  pl_connectionId : string;
  pl_userId : string;
  pl_name : string;
  pl_color : string;
  pl_x : Q; pl_y : Q;
  pl_score : Z;
  pl_speedUntil : Z; pl_magnetUntil : Z; pl_doubleUntil : Z }.

Definition set_pos (p : ServerPlayer) (x y : Q) : ServerPlayer :=
  mkPlayer (pl_peer p) (pl_connectionId p) (pl_userId p) (pl_name p)
    (pl_color p) x y (pl_score p)
    (pl_speedUntil p) (pl_magnetUntil p) (pl_doubleUntil p).
Definition set_score (p : ServerPlayer) (s : Z) : ServerPlayer :=
  mkPlayer (pl_peer p) (pl_connectionId p) (pl_userId p) (pl_name p)
    (pl_color p) (pl_x p) (pl_y p) s
    (pl_speedUntil p) (pl_magnetUntil p) (pl_doubleUntil p).
Definition set_color (p : ServerPlayer) (c : string) : ServerPlayer :=
  mkPlayer (pl_peer p) (pl_connectionId p) (pl_userId p) (pl_name p)
    c (pl_x p) (pl_y p) (pl_score p)
    (pl_speedUntil p) (pl_magnetUntil p) (pl_doubleUntil p).
Definition set_until (p : ServerPlayer) (s m d : Z) : ServerPlayer :=
  mkPlayer (pl_peer p) (pl_connectionId p) (pl_userId p) (pl_name p)
    (pl_color p) (pl_x p) (pl_y p) (pl_score p) s m d.
Definition enemy_at (e : EnemySpot) (x y : Q) : EnemySpot :=
  mkEnemy (en_id e) x y (en_homeX e) (en_homeY e) (en_territoryRadius e).

(** ** Geometry *)

Definition circleIntersectsRect (x y radius : Q) (rect : RectSnapshot) : bool :=
  let closestX := clamp x (r_x rect) (r_x rect + r_width rect) in
  let closestY := clamp y (r_y rect) (r_y rect + r_height rect) in
  let dx := x - closestX in
  let dy := y - closestY in
  Qle_bool (dx * dx + dy * dy) (radius * radius).

(** [a.some(f)] *)
Definition some {A} (f : A -> bool) (l : list A) : bool := existsb f l.

(** [a.some((v, index) => ...)] with the element index. *)
Fixpoint some_indexed {A} (f : A -> nat -> bool) (i : nat) (l : list A) : bool :=
  match l with
  | [] => false
  | a :: l' => f a i || some_indexed f (S i) l'
  end.

(** Squared-distance test shared by the placement routines:
    [dx * dx + dy * dy <= minDistance * minDistance]. *)
Definition within (ax ay bx by' minDistance : Q) : bool :=
  let dx := ax - bx in
  let dy := ay - by' in
  Qle_bool (dx * dx + dy * dy) (minDistance * minDistance).

(** ** Entropy

    [Math.random()] and [crypto.randomUUID()] are read from two oracles
    indexed by the number of draws made so far; a computation that draws is
    a function of that counter (a state monad over it). *)

Definition Rand (A : Type) : Type := nat -> A * nat.
Definition ret {A} (a : A) : Rand A := fun n => (a, n).
Definition bind {A B} (c : Rand A) (k : A -> Rand B) : Rand B :=
  fun n => let (a, n') := c n in k a n'.

Notation "'let*' x ':=' c 'in' k" := (bind c (fun x => k))
  (at level 10, x name, c at level 100, k at level 200).

(** [for (let i = from; i < from + count; i++) { ...; if (found) return r }
    rest]: the body returns [Some r] to leave the function with [r]. *)
Fixpoint for_return {A} (count from : nat) (body : nat -> Rand (option A))
    (rest : Rand A) : Rand A :=
  match count with
  | O => rest
  | S count' =>
      let* r := body from in
      match r with
      | Some a => ret a
      | None => for_return count' (S from) body rest
      end
  end.

(** [arr[i]] for a numeric index; [None] is [undefined]. *)
Definition at_index {A} (l : list A) (i : Q) : option A :=
  if Qltb i 0 then None else l !! Z.to_nat (Qfloor i).

Section Server.

Set Default Proof Using "Type".

Variable Math_sin : Q -> Q.
Variable Math_cos : Q -> Q.
Variable Math_sqrt : Q -> Q.
Variable Math_PI : Q.
Variable Math_SQRT1_2 : Q.
Variable Math_random : nat -> Q.
Variable randomUUID : nat -> string.

Definition random : Rand Q := fun n => (Math_random n, S n).
Definition uuid : Rand string := fun n => (randomUUID n, S n).

Definition randomBetween (min max : Q) : Rand Q :=
  let* u := random in ret (randomBetweenOf u min max).

(** [POWERUP_TYPES[...]]: the index is in range for every draw in [0, 1);
    outside that range the source would yield [undefined], which has no
    [PowerupType] and is mapped to the last type here. *)
Definition randomPowerupType : Rand PowerupType :=
  let* i := randomBetween 0 (Qnat (length POWERUP_TYPES) - 1) in
  ret (default double (at_index POWERUP_TYPES i)).

(** ** City layout *)

Definition seededUnit (seed : Q) : Q :=
  let value := Math_sin (seed * 12.9898) * 43758.5453123 in
  value - Math_floor value.

Definition blockWidth : Q :=
  (MAP_WIDTH - STREET_WIDTH * (Qnat CITY_COLS + 1)) / Qnat CITY_COLS.
Definition blockHeight : Q :=
  (MAP_HEIGHT - STREET_WIDTH * (Qnat CITY_ROWS + 1)) / Qnat CITY_ROWS.

Definition streetV (col : nat) : RectSnapshot :=
  let x := Qnat col * (blockWidth + STREET_WIDTH) in
  mkRect ("street-v-" +:+ pretty col) x 0 STREET_WIDTH MAP_HEIGHT.

Definition streetH (row : nat) : RectSnapshot :=
  let y := Qnat row * (blockHeight + STREET_WIDTH) in
  mkRect ("street-h-" +:+ pretty row) 0 y MAP_WIDTH STREET_WIDTH.

(** The buildings pushed by one iteration of the inner loop. *)
Definition blockBuildings (row col : nat) : list RectSnapshot :=
  let blockX := STREET_WIDTH + Qnat col * (blockWidth + STREET_WIDTH) in
  let blockY := STREET_WIDTH + Qnat row * (blockHeight + STREET_WIDTH) in
  let usableWidth := Qmax 80 (blockWidth - BUILDING_MARGIN * 2) in
  let usableHeight := Qmax 80 (blockHeight - BUILDING_MARGIN * 2) in
  let seedBase := Qnat row * 101 + Qnat col * 37 + 1 in
  let widthFactor := 0.52 + seededUnit seedBase * 0.3 in
  let heightFactor := 0.5 + seededUnit (seedBase + 1) * 0.34 in
  let mainWidth := usableWidth * widthFactor in
  let mainHeight := usableHeight * heightFactor in
  let offsetX := (usableWidth - mainWidth) * seededUnit (seedBase + 2) in
  let offsetY := (usableHeight - mainHeight) * seededUnit (seedBase + 3) in
  let main :=
    mkRect ("tower-main-" +:+ pretty row +:+ "-" +:+ pretty col)
      (blockX + BUILDING_MARGIN + offsetX) (blockY + BUILDING_MARGIN + offsetY)
      mainWidth mainHeight in
  if Qgtb (seededUnit (seedBase + 4)) 0.35 then
    let corner := Qfloor (seededUnit (seedBase + 5) * 4) in
    let annexWidth :=
      Qmax 60 (usableWidth * (0.2 + seededUnit (seedBase + 6) * 0.22)) in
    let annexHeight :=
      Qmax 60 (usableHeight * (0.2 + seededUnit (seedBase + 7) * 0.22)) in
    let annexX := blockX + BUILDING_MARGIN in
    let annexY := blockY + BUILDING_MARGIN in
    let annexX' :=
      if (corner =? 1)%Z then annexX + (usableWidth - annexWidth)
      else if (corner =? 2)%Z then annexX
      else if (corner =? 3)%Z then annexX + (usableWidth - annexWidth)
      else annexX in
    let annexY' :=
      if (corner =? 1)%Z then annexY
      else if (corner =? 2)%Z then annexY + (usableHeight - annexHeight)
      else if (corner =? 3)%Z then annexY + (usableHeight - annexHeight)
      else annexY in
    [main;
     mkRect ("tower-annex-" +:+ pretty row +:+ "-" +:+ pretty col)
       annexX' annexY' annexWidth annexHeight]
  else [main].

Definition createCityLayout : CityLayout :=
  mkLayout
    (map streetV (seq 0 (S CITY_COLS)) ++ map streetH (seq 0 (S CITY_ROWS)))
    (flat_map (fun row => flat_map (blockBuildings row) (seq 0 CITY_COLS))
       (seq 0 CITY_ROWS)).

Definition cityLayout : CityLayout := createCityLayout.

Definition isCircleBlockedByBuildings (x y radius : Q) : bool :=
  some (circleIntersectsRect x y radius) (buildings cityLayout).

(** ** Movement resolution *)

Record Moved := mkMoved { mv_x : Q; mv_y : Q; mv_movedSquared : Q }.

Inductive Order := xy | yx.

Definition tryOrder (currentX currentY boundedTargetX boundedTargetY radius : Q)
    (order : Order) : Moved :=
  let '(nextX, nextY) :=
    match order with
    | xy =>
        let nextX :=
          if negb (isCircleBlockedByBuildings boundedTargetX currentY radius)
          then boundedTargetX else currentX in
        let nextY :=
          if negb (isCircleBlockedByBuildings nextX boundedTargetY radius)
          then boundedTargetY else currentY in
        (nextX, nextY)
    | yx =>
        let nextY :=
          if negb (isCircleBlockedByBuildings currentX boundedTargetY radius)
          then boundedTargetY else currentY in
        let nextX :=
          if negb (isCircleBlockedByBuildings boundedTargetX nextY radius)
          then boundedTargetX else currentX in
        (nextX, nextY)
    end in
  let movedX := nextX - currentX in
  let movedY := nextY - currentY in
  mkMoved nextX nextY (movedX * movedX + movedY * movedY).

Definition resolveBlockedMovement (currentX currentY targetX targetY radius : Q)
    : Moved :=
  let boundedTargetX := clamp targetX radius (MAP_WIDTH - radius) in
  let boundedTargetY := clamp targetY radius (MAP_HEIGHT - radius) in
  let rxy := tryOrder currentX currentY boundedTargetX boundedTargetY radius xy in
  let ryx := tryOrder currentX currentY boundedTargetX boundedTargetY radius yx in
  if Qle_bool (mv_movedSquared ryx) (mv_movedSquared rxy) then rxy else ryx.

(** ** Module state *)

Record World := mkWorld {
  players : list (string * ServerPlayer);
  userScores : gmap string Z;
  userColors : gmap string string;
  userScoreLoads : gset string;
  userColorLoads : gset string;
  pendingJoinTimers : gmap string nat;
  grasses : list GrassSpot;
  powerups : list PowerupSpot;
  enemies : list EnemySpot;
  draws : nat;       (* entropy consumed so far *)
  nextTimer : nat    (* handle returned by the next [setTimeout] *)
}.

Definition with_players (W : World) (ps : list (string * ServerPlayer)) : World :=
  mkWorld ps (userScores W) (userColors W) (userScoreLoads W) (userColorLoads W)
    (pendingJoinTimers W) (grasses W) (powerups W) (enemies W) (draws W)
    (nextTimer W).
Definition with_userScores (W : World) (m : gmap string Z) : World :=
  mkWorld (players W) m (userColors W) (userScoreLoads W) (userColorLoads W)
    (pendingJoinTimers W) (grasses W) (powerups W) (enemies W) (draws W)
    (nextTimer W).
Definition with_userColors (W : World) (m : gmap string string) : World :=
  mkWorld (players W) (userScores W) m (userScoreLoads W) (userColorLoads W)
    (pendingJoinTimers W) (grasses W) (powerups W) (enemies W) (draws W)
    (nextTimer W).
Definition with_userScoreLoads (W : World) (l : gset string) : World :=
  mkWorld (players W) (userScores W) (userColors W) l (userColorLoads W)
    (pendingJoinTimers W) (grasses W) (powerups W) (enemies W) (draws W)
    (nextTimer W).
Definition with_userColorLoads (W : World) (l : gset string) : World :=
  mkWorld (players W) (userScores W) (userColors W) (userScoreLoads W) l
    (pendingJoinTimers W) (grasses W) (powerups W) (enemies W) (draws W)
    (nextTimer W).
Definition with_pendingJoinTimers (W : World) (m : gmap string nat) : World :=
  mkWorld (players W) (userScores W) (userColors W) (userScoreLoads W)
    (userColorLoads W) m (grasses W) (powerups W) (enemies W) (draws W)
    (nextTimer W).
Definition with_grasses (W : World) (l : list GrassSpot) : World :=
  mkWorld (players W) (userScores W) (userColors W) (userScoreLoads W)
    (userColorLoads W) (pendingJoinTimers W) l (powerups W) (enemies W)
    (draws W) (nextTimer W).
Definition with_powerups (W : World) (l : list PowerupSpot) : World :=
  mkWorld (players W) (userScores W) (userColors W) (userScoreLoads W)
    (userColorLoads W) (pendingJoinTimers W) (grasses W) l (enemies W)
    (draws W) (nextTimer W).
Definition with_enemies (W : World) (l : list EnemySpot) : World :=
  mkWorld (players W) (userScores W) (userColors W) (userScoreLoads W)
    (userColorLoads W) (pendingJoinTimers W) (grasses W) (powerups W) l
    (draws W) (nextTimer W).
Definition with_draws (W : World) (n : nat) : World :=
  mkWorld (players W) (userScores W) (userColors W) (userScoreLoads W)
    (userColorLoads W) (pendingJoinTimers W) (grasses W) (powerups W)
    (enemies W) n (nextTimer W).
Definition with_nextTimer (W : World) (n : nat) : World :=
  mkWorld (players W) (userScores W) (userColors W) (userScoreLoads W)
    (userColorLoads W) (pendingJoinTimers W) (grasses W) (powerups W)
    (enemies W) (draws W) n.

(** [Array.from(players.values())] *)
Definition players_values (W : World) : list ServerPlayer := map snd (players W).

(** [players.get(id)], [players.set(id, p)] (a new key goes last, an existing
    key keeps its place) and [players.delete(id)]. *)
Fixpoint players_get (id : string) (ps : list (string * ServerPlayer))
    : option ServerPlayer :=
  match ps with
  | [] => None
  | (k, p) :: ps' => if String.eqb k id then Some p else players_get id ps'
  end.
Fixpoint players_set (id : string) (p : ServerPlayer)
    (ps : list (string * ServerPlayer)) : list (string * ServerPlayer) :=
  match ps with
  | [] => [(id, p)]
  | (k, q) :: ps' =>
      if String.eqb k id then (k, p) :: ps' else (k, q) :: players_set id p ps'
  end.
Definition players_delete (id : string) (ps : list (string * ServerPlayer))
    : list (string * ServerPlayer) :=
  List.filter (fun kp => negb (String.eqb (fst kp) id)) ps.

(** Run a drawing computation against the world's entropy counter. *)
Definition run {A} (c : Rand A) (W : World) : A * World :=
  let (a, n) := c (draws W) in (a, with_draws W n).

(** ** Placement *)

Definition spawnGrass (W : World) (existing : list GrassSpot)
    (skipIndex : option nat) : Rand GrassSpot :=
  let minX := GRASS_RADIUS in
  let maxX := MAP_WIDTH - GRASS_RADIUS in
  let minY := GRASS_RADIUS in
  let maxY := MAP_HEIGHT - GRASS_RADIUS in
  for_return 32 0 (fun _ =>
    let* nx := randomBetween minX maxX in
    let* ny := randomBetween minY maxY in
    let hasPlayerCollision :=
      some (fun player => within (pl_x player) (pl_y player) nx ny
              (PLAYER_RADIUS + GRASS_RADIUS + GRASS_PLAYER_PADDING))
        (players_values W) in
    let hasGrassCollision :=
      some_indexed (fun grassSpot index =>
          if bool_decide (Some index = skipIndex) then false
          else within (g_x grassSpot) (g_y grassSpot) nx ny
                 (GRASS_RADIUS * 2 + GRASS_SPACING))
        0 existing in
    let hasPowerupCollision :=
      some (fun powerup => within (pu_x powerup) (pu_y powerup) nx ny
              (GRASS_RADIUS + POWERUP_RADIUS + POWERUP_GRASS_PADDING))
        (powerups W) in
    let hasEnemyCollision :=
      some (fun enemy => within (en_x enemy) (en_y enemy) nx ny
              (GRASS_RADIUS + ENEMY_RADIUS + GRASS_PLAYER_PADDING))
        (enemies W) in
    let hasBuildingCollision := isCircleBlockedByBuildings nx ny GRASS_RADIUS in
    ret (if negb hasPlayerCollision && negb hasGrassCollision
            && negb hasPowerupCollision && negb hasEnemyCollision
            && negb hasBuildingCollision
         then Some (mkGrass nx ny) else None))
  (for_return 32 0 (fun _ =>
    let* fx := randomBetween minX maxX in
    let* fy := randomBetween minY maxY in
    ret (if negb (isCircleBlockedByBuildings fx fy GRASS_RADIUS)
         then Some (mkGrass fx fy) else None))
  (ret (mkGrass minX minY))).

(** [{ id: crypto.randomUUID(), type: randomPowerupType(), x, y }] *)
Definition newPowerup (x y : Q) : Rand PowerupSpot :=
  let* id := uuid in
  let* type := randomPowerupType in
  ret (mkPowerup id type x y).

Definition spawnPowerup (W : World) (existing : list PowerupSpot)
    (skipIndex : option nat) : Rand PowerupSpot :=
  let minX := POWERUP_RADIUS in
  let maxX := MAP_WIDTH - POWERUP_RADIUS in
  let minY := POWERUP_RADIUS in
  let maxY := MAP_HEIGHT - POWERUP_RADIUS in
  for_return 32 0 (fun _ =>
    let* nx := randomBetween minX maxX in
    let* ny := randomBetween minY maxY in
    let hasPlayerCollision :=
      some (fun player => within (pl_x player) (pl_y player) nx ny
              (PLAYER_RADIUS + POWERUP_RADIUS + POWERUP_PLAYER_PADDING))
        (players_values W) in
    let hasGrassCollision :=
      some (fun grassSpot => within (g_x grassSpot) (g_y grassSpot) nx ny
              (GRASS_RADIUS + POWERUP_RADIUS + POWERUP_GRASS_PADDING))
        (grasses W) in
    let hasPowerupCollision :=
      some_indexed (fun powerup index =>
          if bool_decide (Some index = skipIndex) then false
          else within (pu_x powerup) (pu_y powerup) nx ny
                 (POWERUP_RADIUS * 2 + POWERUP_SPACING))
        0 existing in
    let hasEnemyCollision :=
      some (fun enemy => within (en_x enemy) (en_y enemy) nx ny
              (POWERUP_RADIUS + ENEMY_RADIUS + POWERUP_PLAYER_PADDING))
        (enemies W) in
    let hasBuildingCollision := isCircleBlockedByBuildings nx ny POWERUP_RADIUS in
    if negb hasPlayerCollision && negb hasGrassCollision
       && negb hasPowerupCollision && negb hasEnemyCollision
       && negb hasBuildingCollision
    then let* p := newPowerup nx ny in ret (Some p)
    else ret None)
  (for_return 32 0 (fun _ =>
    let* fx := randomBetween minX maxX in
    let* fy := randomBetween minY maxY in
    if negb (isCircleBlockedByBuildings fx fy POWERUP_RADIUS)
    then let* p := newPowerup fx fy in ret (Some p)
    else ret None)
  (newPowerup minX minY)).

Record EnemyHome := mkHome { homeX : Q; homeY : Q; territoryRadius : Q }.

(** [a % b] on numbers: the remainder has the sign of the dividend. *)
Definition Math_trunc (v : Q) : Q := if Qltb v 0 then Math_ceil v else Math_floor v.
Definition js_rem (a b : Q) : Q := a - b * Math_trunc (a / b).

(** One iteration of the street loop of [getEnemyHome]; the running best is
    the pair of the closest point and its squared distance, [None] standing
    for [Number.POSITIVE_INFINITY]. *)
Definition closerStreetPoint (hx hy : Q) (best : (Q * Q) * option Q)
    (street : RectSnapshot) : (Q * Q) * option Q :=
  let pointX :=
    clamp hx (r_x street + ENEMY_RADIUS)
      (r_x street + r_width street - ENEMY_RADIUS) in
  let pointY :=
    clamp hy (r_y street + ENEMY_RADIUS)
      (r_y street + r_height street - ENEMY_RADIUS) in
  if Qltb pointX ENEMY_RADIUS || Qltb pointY ENEMY_RADIUS then best
  else
    let dx := hx - pointX in
    let dy := hy - pointY in
    let distanceSquared := dx * dx + dy * dy in
    let closer :=
      match snd best with
      | None => true
      | Some closestDistanceSquared => Qltb distanceSquared closestDistanceSquared
      end in
    if closer then ((pointX, pointY), Some distanceSquared) else best.

Definition getEnemyHome (index : nat) : Rand EnemyHome :=
  let cols := Math_ceil (Math_sqrt (Qnat ENEMY_COUNT)) in
  let rows := Math_ceil (Qnat ENEMY_COUNT / cols) in
  let col := js_rem (Qnat index) cols in
  let row := Math_floor (Qnat index / cols) in
  let cellWidth := MAP_WIDTH / cols in
  let cellHeight := MAP_HEIGHT / rows in
  let jitterXRange := Qmax 20 (Math_floor (cellWidth * 0.2)) in
  let jitterYRange := Qmax 20 (Math_floor (cellHeight * 0.2)) in
  let* jx := randomBetween (- jitterXRange) jitterXRange in
  let hx :=
    clamp (Math_round ((col + 0.5) * cellWidth + jx))
      ENEMY_RADIUS (MAP_WIDTH - ENEMY_RADIUS) in
  let* jy := randomBetween (- jitterYRange) jitterYRange in
  let hy :=
    clamp (Math_round ((row + 0.5) * cellHeight + jy))
      ENEMY_RADIUS (MAP_HEIGHT - ENEMY_RADIUS) in
  let tr := Qmax 900 (Math_floor (Qmin cellWidth cellHeight * 0.8)) in
  let snapped := resolveBlockedMovement hx hy hx hy ENEMY_RADIUS in
  if negb (isCircleBlockedByBuildings (mv_x snapped) (mv_y snapped) ENEMY_RADIUS)
  then ret (mkHome (mv_x snapped) (mv_y snapped) tr)
  else
    let closestStreetPoint :=
      fst (fold_left (closerStreetPoint hx hy) (streets cityLayout)
             ((hx, hy), None)) in
    ret (mkHome (fst closestStreetPoint) (snd closestStreetPoint) tr).

(** [cityLayout.streets[i]]; the index is in range for every draw in
    [0, 1), and the source would fail on [undefined] otherwise: the empty
    rectangle stands for that case. *)
Definition streetAt (i : Q) : RectSnapshot :=
  default (mkRect "" 0 0 0 0) (at_index (streets cityLayout) i).

Definition randomStreet : Rand RectSnapshot :=
  let* i := randomBetween 0 (Qnat (length (streets cityLayout)) - 1) in
  ret (streetAt i).

Definition enemyTooClose (existing : list EnemySpot) (x y : Q) : bool :=
  some (fun enemy => within (en_x enemy) (en_y enemy) x y (ENEMY_RADIUS * 2 + 28))
    existing.

Definition spawnEnemy (existing : list EnemySpot) (enemyIndex : nat)
    : Rand EnemySpot :=
  let* home := getEnemyHome enemyIndex in
  for_return 16 0 (fun i =>
    let* spawnDistance :=
      if Nat.eqb i 0 then ret 0
      else randomBetween 0 (Math_floor (territoryRadius home * 0.4)) in
    let angle := Math_PI * 2 * Qnat i / 16 in
    let x :=
      clamp (Math_round (homeX home + Math_cos angle * spawnDistance))
        ENEMY_RADIUS (MAP_WIDTH - ENEMY_RADIUS) in
    let y :=
      clamp (Math_round (homeY home + Math_sin angle * spawnDistance))
        ENEMY_RADIUS (MAP_HEIGHT - ENEMY_RADIUS) in
    let hasEnemyCollision := enemyTooClose existing x y in
    let hasBuildingCollision := isCircleBlockedByBuildings x y ENEMY_RADIUS in
    if negb hasEnemyCollision && negb hasBuildingCollision
    then
      let* id := uuid in
      ret (Some (mkEnemy id x y (homeX home) (homeY home) (territoryRadius home)))
    else ret None)
  (for_return 32 0 (fun _ =>
    let* street := randomStreet in
    let* x :=
      randomBetween (Math_ceil (r_x street + ENEMY_RADIUS))
        (Math_floor (r_x street + r_width street - ENEMY_RADIUS)) in
    let* y :=
      randomBetween (Math_ceil (r_y street + ENEMY_RADIUS))
        (Math_floor (r_y street + r_height street - ENEMY_RADIUS)) in
    let hasEnemyCollision := enemyTooClose existing x y in
    if negb hasEnemyCollision && negb (isCircleBlockedByBuildings x y ENEMY_RADIUS)
    then
      let* id := uuid in
      ret (Some (mkEnemy id x y (homeX home) (homeY home) (territoryRadius home)))
    else ret None)
  (let* id := uuid in
   ret (mkEnemy id (homeX home) (homeY home)
          (homeX home) (homeY home) (territoryRadius home)))).

(** [spawnPlayerPosition] reads the module's [enemies]. *)
Definition spawnPlayerPosition (enemies : list EnemySpot) : Rand (Q * Q) :=
  for_return 32 0 (fun _ =>
    let* x := randomBetween PLAYER_RADIUS (MAP_WIDTH - PLAYER_RADIUS) in
    let* y := randomBetween PLAYER_RADIUS (MAP_HEIGHT - PLAYER_RADIUS) in
    let hasEnemyCollision :=
      some (fun enemy => within (en_x enemy) (en_y enemy) x y
              (PLAYER_RADIUS + ENEMY_RADIUS + 60))
        enemies in
    let hasBuildingCollision := isCircleBlockedByBuildings x y PLAYER_RADIUS in
    ret (if negb hasEnemyCollision && negb hasBuildingCollision
         then Some (x, y) else None))
  (for_return 64 0 (fun _ =>
    let* street := randomStreet in
    let minStreetX := Math_ceil (r_x street + PLAYER_RADIUS) in
    let maxStreetX := Math_floor (r_x street + r_width street - PLAYER_RADIUS) in
    let minStreetY := Math_ceil (r_y street + PLAYER_RADIUS) in
    let maxStreetY := Math_floor (r_y street + r_height street - PLAYER_RADIUS) in
    if Qgtb minStreetX maxStreetX || Qgtb minStreetY maxStreetY then ret None
    else
      let* x := randomBetween minStreetX maxStreetX in
      let* y := randomBetween minStreetY maxStreetY in
      ret (if negb (isCircleBlockedByBuildings x y PLAYER_RADIUS)
           then Some (x, y) else None))
  (ret (PLAYER_RADIUS, PLAYER_RADIUS))).

(** ** Initial pools *)

(** [for (i < count) all.push(spawn(all, i))] *)
Fixpoint fill {A} (count from : nat) (spawn : list A -> nat -> Rand A)
    (all : list A) : Rand (list A) :=
  match count with
  | O => ret all
  | S count' =>
      let* a := spawn all from in
      fill count' (S from) spawn (all ++ [a])
  end.

Definition emptyWorld : World :=
  mkWorld [] ∅ ∅ ∅ ∅ ∅ [] [] [] 0 0.

(** Module initialisation, in source order: [powerups] and [enemies] are
    still empty while [grasses] is filled, and [enemies] is still empty while
    [powerups] is filled. *)
Definition initializeGrass (W : World) : Rand (list GrassSpot) :=
  fill GRASS_COUNT 0 (fun allGrass _ => spawnGrass W allGrass None) [].
Definition initializePowerups (W : World) : Rand (list PowerupSpot) :=
  fill POWERUP_COUNT 0 (fun allPowerups _ => spawnPowerup W allPowerups None) [].
Definition initializeEnemies : Rand (list EnemySpot) :=
  fill ENEMY_COUNT 0 (fun allEnemies i => spawnEnemy allEnemies i) [].

Definition initialWorld : World :=
  let (g, W1) := run (initializeGrass emptyWorld) emptyWorld in
  let W1 := with_grasses W1 g in
  let (p, W2) := run (initializePowerups W1) W1 in
  let W2 := with_powerups W2 p in
  let (e, W3) := run initializeEnemies W2 in
  with_enemies W3 e.

(** ** Powerups *)

Definition extendPowerup (currentUntil now durationMs : Z) : Z :=
  let base := if (currentUntil >? now)%Z then currentUntil else now in
  (base + durationMs)%Z.

Definition applyPowerup (player : ServerPlayer) (type : PowerupType) (now : Z)
    : ServerPlayer :=
  match type with
  | speed =>
      set_until player (extendPowerup (pl_speedUntil player) now SPEED_DURATION_MS)
        (pl_magnetUntil player) (pl_doubleUntil player)
  | magnet =>
      set_until player (pl_speedUntil player)
        (extendPowerup (pl_magnetUntil player) now MAGNET_DURATION_MS)
        (pl_doubleUntil player)
  | double =>
      set_until player (pl_speedUntil player) (pl_magnetUntil player)
        (extendPowerup (pl_doubleUntil player) now DOUBLE_DURATION_MS)
  end.

Definition getActivePowerups (player : ServerPlayer) (now : Z) : list PowerupType :=
  (if (pl_speedUntil player >? now)%Z then [speed] else [])
  ++ (if (pl_magnetUntil player >? now)%Z then [magnet] else [])
  ++ (if (pl_doubleUntil player >? now)%Z then [double] else []).

Definition getPlayerMoveSpeed (player : ServerPlayer) (now : Z) : Q :=
  if (pl_speedUntil player >? now)%Z then PLAYER_SPEED * SPEED_MULTIPLIER
  else PLAYER_SPEED.

Definition getGrassTouchRadius : Q := PLAYER_RADIUS + GRASS_RADIUS.

Definition getGrassMagnetRadius (player : ServerPlayer) (now : Z) : Q :=
  let base := getGrassTouchRadius in
  if (pl_magnetUntil player >? now)%Z then base + MAGNET_EXTRA_RADIUS else base.

(** ** Untrusted values

    A value read from a parsed JSON payload or a database row.  Strings are
    sequences of code units below 256. *)

Inductive JsNum := NaN | NegInf | Fin (q : Q) | PosInf.

Inductive JsVal :=
| V_undefined
| V_null
| V_bool (b : bool)
| V_number (n : JsNum)
| V_string (s : string)
| V_object (toString : string).  (* an array or object, with its string form *)

Variable StringToNumber : string -> JsNum.

(** [Number(v)] *)
Definition Number (v : JsVal) : JsNum :=
  match v with
  | V_undefined => NaN
  | V_null => Fin 0
  | V_bool b => if b then Fin 1 else Fin 0
  | V_number n => n
  | V_string s => StringToNumber s
  | V_object s => StringToNumber s
  end.

(** [n || 0]: [NaN] and zero are falsy. *)
Definition orZero (n : JsNum) : JsNum :=
  match n with
  | NaN => Fin 0
  | Fin q => if Qeq_bool q 0 then Fin 0 else Fin q
  | _ => n
  end.

(** [Math.max] and [Math.min] on two numbers; [NaN] is contagious. *)
Definition js_max (a b : JsNum) : JsNum :=
  match a, b with
  | NaN, _ | _, NaN => NaN
  | PosInf, _ | _, PosInf => PosInf
  | NegInf, c | c, NegInf => c
  | Fin x, Fin y => Fin (Qmax x y)
  end.
Definition js_min (a b : JsNum) : JsNum :=
  match a, b with
  | NaN, _ | _, NaN => NaN
  | NegInf, _ | _, NegInf => NegInf
  | PosInf, c | c, PosInf => c
  | Fin x, Fin y => Fin (Qmin x y)
  end.

(** [clamp] applied to a coerced value. *)
Definition clampNum (value min max : JsNum) : JsNum :=
  js_min max (js_max min value).

(** [clamp(Number(v) || 0, -1, 1)] *)
Definition moveComponent (v : JsVal) : JsNum :=
  clampNum (orZero (Number v)) (Fin (-1)) (Fin 1).

(** ** Colours *)

Definition isWhiteSpace (c : ascii) : bool :=
  match c with
  | "009" | "010" | "011" | "012" | "013" | " " | "160" => true
  | _ => false
  end%char.

Fixpoint trimStart (s : string) : string :=
  match s with
  | String c r => if isWhiteSpace c then trimStart r else s
  | EmptyString => EmptyString
  end.
Definition trim (s : string) : string :=
  String.rev (trimStart (String.rev (trimStart s))).

Definition lowerChar (c : ascii) : ascii :=
  let n := nat_of_ascii c in
  if ((65 <=? n) && (n <=? 90))%nat then ascii_of_nat (n + 32)
  else if ((192 <=? n) && (n <=? 222) && negb (n =? 215))%nat
       then ascii_of_nat (n + 32)
  else c.
Fixpoint toLowerCase (s : string) : string :=
  match s with
  | String c r => String (lowerChar c) (toLowerCase r)
  | EmptyString => EmptyString
  end.

(** The class [[0-9a-f]] under the [i] flag. *)
Definition isHexDigit (c : ascii) : bool :=
  let n := nat_of_ascii c in
  ((48 <=? n) && (n <=? 57) || (97 <=? n) && (n <=? 102)
   || (65 <=? n) && (n <=? 70))%nat.

Fixpoint allHex (s : string) : bool :=
  match s with
  | String c r => isHexDigit c && allHex r
  | EmptyString => true
  end.

(** [/^#?([0-9a-f]{n})$/i.exec(s)]: the captured group, if the whole string
    matches. *)
Definition hexMatch (n : nat) (s : string) : option string :=
  let body :=
    match s with
    | String c r => if Ascii.eqb c "#" then r else s
    | EmptyString => s
    end in
  if Nat.eqb (String.length body) n && allHex body then Some body else None.

Definition sanitizeColor (value : JsVal) : option string :=
  match value with
  | V_string value =>
      let trimmed := toLowerCase (trim value) in
      match hexMatch 3 trimmed with
      | Some (String r (String g (String b EmptyString))) =>
          Some (String "#" (String r (String r (String g (String g
                 (String b (String b EmptyString)))))))
      | Some _ => None
      | None =>
          match hexMatch 6 trimmed with
          | None => None
          | Some full => Some (String "#" full)
          end
      end
  | _ => None
  end.

(** [x | 0] *)
Definition toInt32 (z : Z) : Z :=
  ((z + 2147483648) mod 4294967296 - 2147483648)%Z.

Fixpoint hashChars (hash : Z) (s : string) : Z :=
  match s with
  | String c r => hashChars (toInt32 (hash * 31 + Z.of_nat (nat_of_ascii c))) r
  | EmptyString => hash
  end.

Definition colorFromUser (userId : string) : string :=
  let hash := hashChars 0 userId in
  let hue := (Z.abs hash mod 360)%Z in
  "hsl(" +:+ pretty hue +:+ " 75% 55%)".

Definition getUserColor (W : World) (userId : string) : string :=
  default (colorFromUser userId) (userColors W !! userId).

(** ** Protocol *)

Record PlayerSnapshot := mkPlayerSnapshot {
  ps_connectionId : string; ps_userId : string; ps_name : string;
  ps_color : string; ps_x : Q; ps_y : Q; ps_score : Z;
  ps_activePowerups : list PowerupType }.

Record EnemySnapshot := mkEnemySnapshot { es_id : string; es_x : Q; es_y : Q }.

Record WorldState := mkWorldState {
  ws_map : Q * Q;
  ws_streets : list RectSnapshot;
  ws_buildings : list RectSnapshot;
  ws_grasses : list GrassSpot;
  ws_powerups : list PowerupSpot;
  ws_enemies : list EnemySnapshot;
  ws_players : list PlayerSnapshot }.

Inductive ServerToClientMessage :=
| connected (connectionId : string)
| world_state (world : WorldState)
| error (message : string).

(** A parsed client payload, by its [type] tag; [payload_other] is any other
    tag. *)
Inductive ClientToServerMessage :=
| payload_set_color (color : JsVal)
| payload_move (dx dy : JsVal)
| payload_other.

(** The handle returned by [setTimeout] in [open], with the values the
    callback's closure holds. *)
Record JoinTimer := mkJoinTimer {
  jt_handle : nat; jt_peer : string; jt_userId : string; jt_displayName : string }.

(** What a hook does to the outside world, in order. *)
Inductive Effect :=
| Send (peer : string) (message : ServerToClientMessage)
| ClosePeer (peer : string) (code : Z) (reason : string)
| SetTimeout (timer : JoinTimer) (ms : Z)
| ClearTimeout (timer : nat)
| DbSelectScore (userId : string)
| DbSelectColor (userId : string)
| DbAddScore (userId : string) (delta : Z)     (* upsert, score + delta *)
| DbSetScore (userId : string) (score : Z)     (* upsert, absolute *)
| DbSetColor (userId : string) (color : string)
| LogError (text : string).

Definition snapshotPlayer (now : Z) (player : ServerPlayer) : PlayerSnapshot :=
  mkPlayerSnapshot (pl_connectionId player) (pl_userId player) (pl_name player)
    (pl_color player) (pl_x player) (pl_y player) (pl_score player)
    (getActivePowerups player now).

(** [now] is the value of [Date.now()] read by the snapshot. *)
Definition getWorldState (W : World) (now : Z) : WorldState :=
  mkWorldState (MAP_WIDTH, MAP_HEIGHT)
    (streets cityLayout) (buildings cityLayout)
    (grasses W) (powerups W)
    (map (fun enemy => mkEnemySnapshot (en_id enemy) (en_x enemy) (en_y enemy))
       (enemies W))
    (map (snapshotPlayer now) (players_values W)).

Definition sendToPeer (peer : string) (message : ServerToClientMessage)
    : list Effect := [Send peer message].

Definition broadcastWorld (W : World) (now : Z) : list Effect :=
  let message := world_state (getWorldState W now) in
  flat_map (fun player => sendToPeer (pl_peer player) message) (players_values W).

Definition applyScoreToConnectedPlayers (userId : string) (score : Z)
    (ps : list (string * ServerPlayer)) : list (string * ServerPlayer) :=
  map (fun kp =>
         if String.eqb (pl_userId (snd kp)) userId
         then (fst kp, set_score (snd kp) score) else kp) ps.

Definition applyColorToConnectedPlayers (userId : string) (color : string)
    (ps : list (string * ServerPlayer)) : list (string * ServerPlayer) :=
  map (fun kp =>
         if String.eqb (pl_userId (snd kp)) userId
         then (fst kp, set_color (snd kp) color) else kp) ps.

Definition hasConnectedPlayer (W : World) (userId : string) : bool :=
  some (fun connectedPlayer => String.eqb (pl_userId connectedPlayer) userId)
    (players_values W).

(** ** Persistence requests (started, never awaited) *)

Definition persistScoreDelta (userId : string) (delta : Z) : list Effect :=
  if (delta <=? 0)%Z then [] else [DbAddScore userId delta].

Definition persistUserScore (userId : string) (score : Z) : list Effect :=
  [DbSetScore userId score].

Definition persistUserColor (userId : string) (color : string) : list Effect :=
  [DbSetColor userId color].

(** ** Enemy tick *)

Definition resetUserScore (W : World) (userId : string) : World * list Effect :=
  let W1 := with_userScores W (<[userId := 0%Z]> (userScores W)) in
  let W2 := with_players W1 (applyScoreToConnectedPlayers userId 0 (players W1)) in
  (W2, persistUserScore userId 0).

Record Step := mkStep {
  st_x : Q; st_y : Q; st_moved : bool; st_distanceSquared : Q }.

Definition movePointToward (currentX currentY targetX targetY maxStep : Q) : Step :=
  let dx := targetX - currentX in
  let dy := targetY - currentY in
  let distanceSquared := dx * dx + dy * dy in
  if Qle_bool distanceSquared 0.0001 then mkStep currentX currentY false 0
  else
    let distance := Math_sqrt distanceSquared in
    let step := Qmin maxStep distance in
    let next :=
      resolveBlockedMovement currentX currentY
        (currentX + (dx / distance) * step)
        (currentY + (dy / distance) * step)
        ENEMY_RADIUS in
    mkStep (mv_x next) (mv_y next) (Qgtb (mv_movedSquared next) 0.0001)
      distanceSquared.

(** The inner loop that finds the closest player; the running best is the
    player and its squared distance, [None] before any player was seen
    ([null] and [Number.POSITIVE_INFINITY]). *)
Definition closerPlayer (enemy : EnemySpot) (best : option (ServerPlayer * Q))
    (player : ServerPlayer) : option (ServerPlayer * Q) :=
  let dx := pl_x player - en_x enemy in
  let dy := pl_y player - en_y enemy in
  let distanceSquared := dx * dx + dy * dy in
  match best with
  | None => Some (player, distanceSquared)
  | Some (_, closestDistanceSquared) =>
      if Qltb distanceSquared closestDistanceSquared
      then Some (player, distanceSquared) else best
  end.

Definition closestPlayer (enemy : EnemySpot) (allPlayers : list ServerPlayer)
    : option ServerPlayer :=
  fst <$> fold_left (closerPlayer enemy) allPlayers None.

Definition shouldReturnHome (enemy : EnemySpot) (closest : option ServerPlayer)
    : bool :=
  let homeDx := en_homeX enemy - en_x enemy in
  let homeDy := en_homeY enemy - en_y enemy in
  let homeDistanceSquared := homeDx * homeDx + homeDy * homeDy in
  let leashSquared := sq (en_territoryRadius enemy * 1.35) in
  Qgtb homeDistanceSquared leashSquared
  || match closest with None => true | Some _ => false end.

(** Target and speed chosen for one enemy. *)
Definition enemyTarget (enemy : EnemySpot) (closest : option ServerPlayer)
    : Q * Q * Q :=
  match closest with
  | Some closestPlayer =>
      if shouldReturnHome enemy closest
      then (en_homeX enemy, en_homeY enemy,
            ENEMY_SPEED_PER_TICK * ENEMY_RETURN_SPEED_MULTIPLIER)
      else (pl_x closestPlayer, pl_y closestPlayer, ENEMY_SPEED_PER_TICK)
  | None =>
      (en_homeX enemy, en_homeY enemy,
       ENEMY_SPEED_PER_TICK * ENEMY_RETURN_SPEED_MULTIPLIER)
  end.

Definition moveEnemy (enemy : EnemySpot) (allPlayers : list ServerPlayer) : Step :=
  let '(targetX, targetY, maxStep) :=
    enemyTarget enemy (closestPlayer enemy allPlayers) in
  movePointToward (en_x enemy) (en_y enemy) targetX targetY maxStep.

Definition addHit (hitUserIds : list string) (userId : string) : list string :=
  if bool_decide (userId ∈ hitUserIds) then hitUserIds else hitUserIds ++ [userId].

(** [dx * dx + dy * dy <= hitDistanceSquared] for one player and one enemy. *)
Definition hitBy (enemy : EnemySpot) (player : ServerPlayer) : bool :=
  within (pl_x player) (pl_y player) (en_x enemy) (en_y enemy)
    (PLAYER_RADIUS + ENEMY_RADIUS).

(** The collision loop of one enemy over [allPlayers]; the player objects
    are the ones held by [players], so a respawn is seen by later enemies.
    [enemiesNow] is the module's [enemies] at that point. *)
Fixpoint hitLoop (enemy : EnemySpot) (enemiesNow : list EnemySpot)
    (ps : list (string * ServerPlayer)) (hitUserIds : list string)
    (changed : bool) : Rand (list (string * ServerPlayer) * list string * bool) :=
  match ps with
  | [] => ret ([], hitUserIds, changed)
  | (k, player) :: ps' =>
      if hitBy enemy player
      then
        let* next := spawnPlayerPosition enemiesNow in
        let* r := hitLoop enemy enemiesNow ps'
                    (addHit hitUserIds (pl_userId player)) true in
        ret ((k, set_pos player (fst next) (snd next)) :: fst (fst r),
             snd (fst r), snd r)
      else
        let* r := hitLoop enemy enemiesNow ps' hitUserIds changed in
        ret ((k, player) :: fst (fst r), snd (fst r), snd r)
  end.

(** The enemy after its step of this tick: [enemy.x] and [enemy.y] are
    assigned only when the step moved it. *)
Definition steppedEnemy (enemy : EnemySpot) (allPlayers : list ServerPlayer)
    : EnemySpot :=
  let moved := moveEnemy enemy allPlayers in
  if st_moved moved then enemy_at enemy (st_x moved) (st_y moved) else enemy.

(** [for (const enemy of enemies)], from index [i], for [n] more enemies. *)
Fixpoint enemyLoop (n i : nat) (W : World) (hitUserIds : list string)
    (changed : bool) : World * list string * bool :=
  match n with
  | O => (W, hitUserIds, changed)
  | S n' =>
      match enemies W !! i with
      | None => (W, hitUserIds, changed)
      | Some enemy =>
          let moved := moveEnemy enemy (players_values W) in
          let enemy1 := steppedEnemy enemy (players_values W) in
          let W1 := with_enemies W (<[i := enemy1]> (enemies W)) in
          let changed1 := st_moved moved || changed in
          let '(ps, hit1, changed2, d) :=
            hitLoop enemy1 (enemies W1) (players W1) hitUserIds changed1
              (draws W1) in
          enemyLoop n' (S i) (with_draws (with_players W1 ps) d) hit1 changed2
      end
  end.

Fixpoint resetAll (W : World) (hitUserIds : list string) : World * list Effect :=
  match hitUserIds with
  | [] => (W, [])
  | userId :: rest =>
      let (W1, e1) := resetUserScore W userId in
      let (W2, e2) := resetAll W1 rest in
      (W2, e1 ++ e2)
  end.

(** Returns the new state, the effects, and the function's result. *)
Definition updateEnemies (W : World) : World * list Effect * bool :=
  if Nat.eqb (length (players W)) 0 || Nat.eqb (length (enemies W)) 0
  then (W, [], false)
  else
    let '(W1, hitUserIds, changed) :=
      enemyLoop (length (enemies W)) 0 W [] false in
    let (W2, effects) := resetAll W1 hitUserIds in
    (W2, effects, changed || negb (Nat.eqb (length hitUserIds) 0)).

(** The interval callback. *)
Definition enemyTicker (W : World) (now : Z) : World * list Effect :=
  let '(W1, effects, changed) := updateEnemies W in
  (W1, effects ++ (if changed then broadcastWorld W1 now else [])).

(** ** Hydration

    [hydrateUserScore] and [hydrateUserColor] up to the database read, and
    their continuations once the read settles ([None] is a failed read, the
    inner option is the row). *)

Definition hydrateUserScore (W : World) (userId : string) : World * list Effect :=
  if bool_decide (is_Some (userScores W !! userId)) then (W, [])
  else if bool_decide (userId ∈ userScoreLoads W) then (W, [])
  else (with_userScoreLoads W ({[userId]} ∪ userScoreLoads W),
        [DbSelectScore userId]).

Definition hydrateUserColor (W : World) (userId : string) : World * list Effect :=
  if bool_decide (is_Some (userColors W !! userId)) then (W, [])
  else if bool_decide (userId ∈ userColorLoads W) then (W, [])
  else (with_userColorLoads W ({[userId]} ∪ userColorLoads W),
        [DbSelectColor userId]).

Definition scoreLoaded (W : World) (userId : string) (result : option (option Z))
    (now : Z) : World * list Effect :=
  let (W3, effects) :=
    match result with
    | Some row =>
        let persistedScore := default 0%Z row in
        let existingScore := default 0%Z (userScores W !! userId) in
        let mergedScore := Z.max existingScore persistedScore in
        let W1 := with_userScores W (<[userId := mergedScore]> (userScores W)) in
        let W2 :=
          with_players W1
            (applyScoreToConnectedPlayers userId mergedScore (players W1)) in
        (W2, if hasConnectedPlayer W2 userId then broadcastWorld W2 now else [])
    | None => (W, [LogError ("Failed to hydrate score for user " +:+ userId)])
    end in
  (with_userScoreLoads W3 (userScoreLoads W3 ∖ {[userId]}), effects).

Definition colorLoaded (W : World) (userId : string)
    (result : option (option JsVal)) (now : Z) : World * list Effect :=
  let (W3, effects) :=
    match result with
    | Some row =>
        let persistedColor := sanitizeColor (default V_undefined row) in
        let fallbackColor := colorFromUser userId in
        let preferredColor := default fallbackColor persistedColor in
        let mergedColor := default preferredColor (userColors W !! userId) in
        let W1 := with_userColors W (<[userId := mergedColor]> (userColors W)) in
        let W2 :=
          with_players W1
            (applyColorToConnectedPlayers userId mergedColor (players W1)) in
        (W2, if hasConnectedPlayer W2 userId then broadcastWorld W2 now else [])
    | None => (W, [LogError ("Failed to hydrate color for user " +:+ userId)])
    end in
  (with_userColorLoads W3 (userColorLoads W3 ∖ {[userId]}), effects).

(** ** Connection hooks *)

Record PeerContext := mkContext {
  ctx_userId : option string; ctx_name : option string }.

(** [open(peer)]: the join timer is only registered here. *)
Definition open (W : World) (peer : string) (context : PeerContext)
    : World * list Effect :=
  match ctx_userId context with
  | None => (W, [ClosePeer peer 4401 "Unauthorized"])
  | Some userId =>
      if String.eqb userId "" then (W, [ClosePeer peer 4401 "Unauthorized"])
      else
        let displayName := default "Player" (ctx_name context) in
        let (W1, e1) := hydrateUserScore W userId in
        let (W2, e2) := hydrateUserColor W1 userId in
        let timer := mkJoinTimer (nextTimer W2) peer userId displayName in
        let W3 := with_nextTimer W2 (S (nextTimer W2)) in
        let W4 :=
          with_pendingJoinTimers W3
            (<[peer := jt_handle timer]> (pendingJoinTimers W3)) in
        (W4, e1 ++ e2 ++ [SetTimeout timer JOIN_DELAY_MS])
  end.

(** The callback given to [setTimeout] by [open]; [now] is read by the
    broadcast. *)
Definition joinTimerFired (W : World) (timer : JoinTimer) (now : Z)
    : World * list Effect :=
  let peer := jt_peer timer in
  let userId := jt_userId timer in
  let displayName := jt_displayName timer in
  if negb (bool_decide (pendingJoinTimers W !! peer = Some (jt_handle timer)))
  then (W, [])
  else
    let W1 := with_pendingJoinTimers W (delete peer (pendingJoinTimers W)) in
    let persistedScore := default 0%Z (userScores W1 !! userId) in
    let (start, W2) := run (spawnPlayerPosition (enemies W1)) W1 in
    let player :=
      mkPlayer peer peer userId displayName (getUserColor W2 userId)
        (fst start) (snd start) persistedScore 0 0 0 in
    let W3 := with_players W2 (players_set peer player (players W2)) in
    (W3, sendToPeer peer (connected peer) ++ broadcastWorld W3 now).

Definition close (W : World) (peer : string) (now : Z) : World * list Effect :=
  let (W1, e1) :=
    match pendingJoinTimers W !! peer with
    | Some pendingTimer =>
        (with_pendingJoinTimers W (delete peer (pendingJoinTimers W)),
         [ClearTimeout pendingTimer])
    | None => (W, [])
    end in
  let closedPlayer := players_get peer (players W1) in
  let hadPlayer := bool_decide (is_Some closedPlayer) in
  let W2 := with_players W1 (players_delete peer (players W1)) in
  let W3 :=
    match closedPlayer with
    | Some closedPlayer =>
        if hasConnectedPlayer W2 (pl_userId closedPlayer) then W2
        else
          with_userColors
            (with_userScores W2 (delete (pl_userId closedPlayer) (userScores W2)))
            (delete (pl_userId closedPlayer) (userColors W2))
    | None => W2
    end in
  (W3, e1 ++ (if hadPlayer then broadcastWorld W3 now else [])).

(** ** Move intent *)

(** The powerup loop, from index [i], for [n] more slots. *)
Fixpoint powerupLoop (n i : nat) (peer : string) (now : Z) (W : World) : World :=
  match n with
  | O => W
  | S n' =>
      match powerups W !! i, players_get peer (players W) with
      | Some powerup, Some player =>
          if within (pl_x player) (pl_y player) (pu_x powerup) (pu_y powerup)
               (PLAYER_RADIUS + POWERUP_RADIUS)
          then
            let W1 :=
              with_players W
                (players_set peer (applyPowerup player (pu_type powerup) now)
                   (players W)) in
            let (fresh, W2) := run (spawnPowerup W1 (powerups W1) (Some i)) W1 in
            powerupLoop n' (S i) peer now
              (with_powerups W2 (<[i := fresh]> (powerups W2)))
          else powerupLoop n' (S i) peer now W
      | _, _ => W
      end
  end.

(** The magnet pull of one grass item towards the player at [(px, py)];
    returns the item, moved or not. *)
Definition pullGrass (px py : Q) (grass : GrassSpot) (distanceSquared : Q)
    : GrassSpot :=
  let distanceX := px - g_x grass in
  let distanceY := py - g_y grass in
  let touchingDistance := getGrassTouchRadius in
  let distance := Math_sqrt distanceSquared in
  if Qgtb distance 0.001 then
    let pullAmount :=
      Qmin MAGNET_PULL_PER_TICK (Qmax 0 (distance - touchingDistance)) in
    if Qgtb pullAmount 0 then
      let pulledX :=
        clamp (g_x grass + (distanceX / distance) * pullAmount)
          GRASS_RADIUS (MAP_WIDTH - GRASS_RADIUS) in
      let pulledY :=
        clamp (g_y grass + (distanceY / distance) * pullAmount)
          GRASS_RADIUS (MAP_HEIGHT - GRASS_RADIUS) in
      if negb (isCircleBlockedByBuildings pulledX pulledY GRASS_RADIUS)
      then mkGrass pulledX pulledY else grass
    else grass
  else grass.

(** The grass loop, from index [i], for [n] more slots; returns the world and
    [touchedGrassCount]. *)
Fixpoint grassLoop (n i : nat) (px py : Q) (isMagnetActive : bool)
    (magnetDistanceSquared : Q) (W : World) (touchedGrassCount : Z) : World * Z :=
  match n with
  | O => (W, touchedGrassCount)
  | S n' =>
      match grasses W !! i with
      | None => (W, touchedGrassCount)
      | Some grass =>
          let touchingDistance := getGrassTouchRadius in
          let touching (g : GrassSpot) :=
            within px py (g_x g) (g_y g) touchingDistance in
          let respawn (W : World) :=
            let (fresh, W1) := run (spawnGrass W (grasses W) (Some i)) W in
            with_grasses W1 (<[i := fresh]> (grasses W1)) in
          if touching grass then
            grassLoop n' (S i) px py isMagnetActive magnetDistanceSquared
              (respawn W) (touchedGrassCount + 1)%Z
          else
            let distanceSquared := sq (px - g_x grass) + sq (py - g_y grass) in
            let grass1 :=
              if isMagnetActive && Qle_bool distanceSquared magnetDistanceSquared
              then pullGrass px py grass distanceSquared else grass in
            let W1 := with_grasses W (<[i := grass1]> (grasses W)) in
            if touching grass1 then
              grassLoop n' (S i) px py isMagnetActive magnetDistanceSquared
                (respawn W1) (touchedGrassCount + 1)%Z
            else
              grassLoop n' (S i) px py isMagnetActive magnetDistanceSquared
                W1 touchedGrassCount
      end
  end.

Definition pointsFor (touchedGrassCount : Z) (player : ServerPlayer) (now : Z) : Z :=
  let pointsAwarded := touchedGrassCount in
  let pointsAwarded :=
    if (pointsAwarded >? 0)%Z && (pl_doubleUntil player >? now)%Z
    then (pointsAwarded * 2)%Z else pointsAwarded in
  if (touchedGrassCount >=? OVERGROWTH_THRESHOLD)%Z
  then (pointsAwarded + OVERGROWTH_BONUS)%Z else pointsAwarded.

(** The scoring block of the move handler for the player of [peer]. *)
Definition awardPoints (W : World) (player : ServerPlayer)
    (touchedGrassCount : Z) (now : Z) : World * list Effect :=
  let pointsAwarded := pointsFor touchedGrassCount player now in
  if (pointsAwarded >? 0)%Z then
    let nextScore :=
      (default (pl_score player) (userScores W !! pl_userId player)
       + pointsAwarded)%Z in
    let W1 :=
      with_userScores W (<[pl_userId player := nextScore]> (userScores W)) in
    let W2 :=
      with_players W1
        (applyScoreToConnectedPlayers (pl_userId player) nextScore (players W1)) in
    (W2, persistScoreDelta (pl_userId player) pointsAwarded)
  else (W, []).

(** The state after movement and pickups, with the grass count. *)
Definition moveAndCollect (W : World) (peer : string) (player : ServerPlayer)
    (dx dy : Q) (now : Z) : World * Z :=
  let diagonalScale :=
    if negb (Qeq_bool dx 0) && negb (Qeq_bool dy 0) then Math_SQRT1_2 else 1 in
  let moveSpeed := getPlayerMoveSpeed player now in
  let movedPlayer :=
    resolveBlockedMovement (pl_x player) (pl_y player)
      (pl_x player + dx * moveSpeed * diagonalScale)
      (pl_y player + dy * moveSpeed * diagonalScale)
      PLAYER_RADIUS in
  let player1 := set_pos player (mv_x movedPlayer) (mv_y movedPlayer) in
  let W1 := with_players W (players_set peer player1 (players W)) in
  let W2 := powerupLoop (length (powerups W1)) 0 peer now W1 in
  let player2 := default player1 (players_get peer (players W2)) in
  let isMagnetActive := (pl_magnetUntil player2 >? now)%Z in
  let magnetDistanceSquared := sq (getGrassMagnetRadius player2 now) in
  grassLoop (length (grasses W2)) 0 (pl_x player2) (pl_y player2)
    isMagnetActive magnetDistanceSquared W2 0.

(** [message(peer, message)]: [payload] is [None] when [message.json()]
    throws; [now] is the handler's [Date.now()], [sentAt] the one read by
    the broadcast. *)
Definition message (W : World) (peer : string)
    (payload : option ClientToServerMessage) (now sentAt : Z)
    : World * list Effect :=
  match players_get peer (players W) with
  | None => (W, [])
  | Some player =>
      match payload with
      | None => (W, sendToPeer peer (error "Invalid message payload."))
      | Some (payload_set_color color) =>
          match sanitizeColor color with
          | None => (W, sendToPeer peer (error "Invalid color format."))
          | Some nextColor =>
              let W1 :=
                with_userColors W
                  (<[pl_userId player := nextColor]> (userColors W)) in
              let W2 :=
                with_players W1
                  (applyColorToConnectedPlayers (pl_userId player) nextColor
                     (players W1)) in
              (W2, persistUserColor (pl_userId player) nextColor
                   ++ broadcastWorld W2 sentAt)
          end
      | Some payload_other => (W, [])
      | Some (payload_move dx dy) =>
          match moveComponent dx, moveComponent dy with
          | Fin dx, Fin dy =>
              if Qeq_bool dx 0 && Qeq_bool dy 0 then (W, [])
              else
                let (W1, touchedGrassCount) :=
                  moveAndCollect W peer player dx dy now in
                let player1 := default player (players_get peer (players W1)) in
                let (W2, e2) := awardPoints W1 player1 touchedGrassCount now in
                let '(W3, e3, _) := updateEnemies W2 in
                (W3, e2 ++ e3 ++ broadcastWorld W3 sentAt)
          | _, _ => (W, [])  (* not reachable: the components are finite *)
          end
      end
  end.

(** ** The server as a transition system *)

Inductive Event :=
| ev_open (peer : string) (context : PeerContext)
| ev_joinTimer (timer : JoinTimer) (now : Z)
| ev_close (peer : string) (now : Z)
| ev_message (peer : string) (payload : option ClientToServerMessage)
    (now sentAt : Z)
| ev_enemyTick (now : Z)
| ev_scoreLoaded (userId : string) (result : option (option Z)) (now : Z)
| ev_colorLoaded (userId : string) (result : option (option JsVal)) (now : Z).

Definition step (W : World) (e : Event) : World * list Effect :=
  match e with
  | ev_open peer context => open W peer context
  | ev_joinTimer timer now => joinTimerFired W timer now
  | ev_close peer now => close W peer now
  | ev_message peer payload now sentAt => message W peer payload now sentAt
  | ev_enemyTick now => enemyTicker W now
  | ev_scoreLoaded userId result now => scoreLoaded W userId result now
  | ev_colorLoaded userId result now => colorLoaded W userId result now
  end.

(** Handle the events in order; the effects are concatenated. *)
Fixpoint steps (W : World) (es : list Event) : World * list Effect :=
  match es with
  | [] => (W, [])
  | e :: es' =>
      let (W1, out1) := step W e in
      let (W2, out2) := steps W1 es' in
      (W2, out1 ++ out2)
  end.

(** ** The upgrade request

    [resolveUser] awaits the session of the request; [sessionUser] is the
    [user] of that session, [None] when the lookup timed out after 1500 ms,
    was rejected, or returned no session or no user. *)

Record SessionUser := mkUser {
  user_id : string; user_name : option string; user_email : option string }.

(** [s.split("@")[0]] *)
Fixpoint beforeAt (s : string) : string :=
  match s with
  | String c r => if Ascii.eqb c "@" then EmptyString else String c (beforeAt r)
  | EmptyString => EmptyString
  end.

Definition sanitizeName (user : SessionUser) : string :=
  let fromEmail :=
    match user_email user with
    | Some email =>
        let fallback := trim (beforeAt email) in
        if String.eqb fallback "" then "Player" else fallback
    | None => "Player"
    end in
  match user_name user with
  | Some name =>
      let trimmed := trim name in
      if String.eqb trimmed "" then fromEmail else trimmed
  | None => fromEmail
  end.

Definition resolveUser (sessionUser : option SessionUser) : option SessionUser :=
  match sessionUser with
  | Some user => if String.eqb (user_id user) "" then None else Some user
  | None => None
  end.

(** The result of the [upgrade] hook: a 401 response, or the context given
    to the peer. *)
Inductive UpgradeResult :=
| Unauthorized
| Accepted (context : PeerContext).

Definition upgrade (sessionUser : option SessionUser) : UpgradeResult :=
  match resolveUser sessionUser with
  | None => Unauthorized
  | Some user =>
      Accepted (mkContext (Some (user_id user)) (Some (sanitizeName user)))
  end.

(** * Sample data

    Simple computable stand-ins for the runtime primitives, and small
    worlds on which the hooks are run in the examples at the end. *)

Definition demo_sin (v : Q) : Q := 0.
Definition demo_cos (v : Q) : Q := 1.
Definition demo_sqrt (v : Q) : Q := inject_Z (Z.sqrt (Qfloor v)).
Definition demo_PI : Q := 3.14159.
Definition demo_SQRT1_2 : Q := 0.70710678.
Definition demo_random (n : nat) : Q := Z.of_nat (n mod 10) # 10.
Definition demo_uuid (n : nat) : string := "uuid-" +:+ pretty n.
Definition demo_StringToNumber (s : string) : JsNum :=
  if String.eqb s "Infinity" then PosInf else NaN.

Definition demoPlayer (id user : string) (x y : Q) (score : Z) : ServerPlayer :=
  mkPlayer id id user "Ann" "#336699" x y score 0 0 0.

Definition demoEnemy (id : string) (x y hx hy : Q) : EnemySpot :=
  mkEnemy id x y hx hy 900.

Definition demoWorld (ps : list (string * ServerPlayer)) (es : list EnemySpot)
    : World :=
  mkWorld ps ∅ ∅ ∅ ∅ ∅ [mkGrass 300 100] [] es 0 0.

(** One player standing on an enemy. *)
Definition caughtWorld : World :=
  demoWorld [("a", demoPlayer "a" "u1" 100 100 7)]
    [demoEnemy "enemy-0" 100 100 100 100].

(** One player, and an enemy a hundred units from its home. *)
Definition chaseWorld : World :=
  demoWorld [("a", demoPlayer "a" "u1" 100 100 7)]
    [demoEnemy "enemy-0" 600 100 500 100].

(** Nobody connected, and an enemy four hundred units from its home. *)
Definition emptyStreets : World :=
  demoWorld [] [demoEnemy "enemy-0" 100 100 500 100].

(** Two connections of one user, each standing on an enemy. *)
Definition twoTabsWorld : World :=
  demoWorld
    [("a", demoPlayer "a" "u1" 100 100 7); ("b", demoPlayer "b" "u1" 100 1000 7)]
    [demoEnemy "enemy-0" 100 100 100 100; demoEnemy "enemy-1" 100 1000 100 1000].

Definition bobContext : PeerContext := mkContext (Some "u2") (Some "Bob").

(** * Specification vocabulary *)

(** Every building has a non-negative width and lies at least one street
    width plus the margin away from the left and top edges of the map. *)
Definition setBack (b : RectSnapshot) : Prop :=
  STREET_WIDTH + BUILDING_MARGIN <= r_x b /\
  STREET_WIDTH + BUILDING_MARGIN <= r_y b /\
  0 <= r_width b /\ 0 <= r_height b.

(** The centre [(x, y)] of a circle of the given radius is within
    [[radius, bound - radius]] on both axes. *)
Definition inBounds (radius x y : Q) : Prop :=
  (radius <= x <= MAP_WIDTH - radius) /\ (radius <= y <= MAP_HEIGHT - radius).

(** The circle intersects no building. *)
Definition clear (radius x y : Q) : Prop :=
  isCircleBlockedByBuildings x y radius = false.

(** The centre itself lies in the rectangle. *)
Definition centreInside (x y : Q) (rect : RectSnapshot) : Prop :=
  (r_x rect <= x <= r_x rect + r_width rect) /\
  (r_y rect <= y <= r_y rect + r_height rect).

Definition placed (radius x y : Q) : Prop :=
  inBounds radius x y /\ clear radius x y.

Definition playerPlaced (p : ServerPlayer) : Prop :=
  placed PLAYER_RADIUS (pl_x p) (pl_y p).

Definition enemyPlaced (e : EnemySpot) : Prop :=
  placed ENEMY_RADIUS (en_x e) (en_y e).

(** The drawing computation [c], started at any counter, returns a value
    satisfying [P] after at most [k] further draws. *)
Definition yields {A} (c : Rand A) (k : nat) (P : A -> Prop) : Prop :=
  forall n, P (fst (c n)) /\ (n <= snd (c n) <= n + k)%nat.

(** A street lies in the map and is wide enough for every entity. *)
Definition streetFits (s : RectSnapshot) : Prop :=
  0 <= r_x s /\ r_x s + r_width s <= MAP_WIDTH /\
  0 <= r_y s /\ r_y s + r_height s <= MAP_HEIGHT /\
  STREET_WIDTH <= r_width s /\ STREET_WIDTH <= r_height s.

(** The same connection of the same user, at a position that is [Good] if
    the old one was. *)
Definition carried (Good : Q -> Q -> Prop) (kp kp' : string * ServerPlayer)
    : Prop :=
  fst kp' = fst kp /\
  pl_peer (snd kp') = pl_peer (snd kp) /\
  pl_connectionId (snd kp') = pl_connectionId (snd kp) /\
  pl_userId (snd kp') = pl_userId (snd kp) /\
  (Good (pl_x (snd kp)) (pl_y (snd kp)) ->
   Good (pl_x (snd kp')) (pl_y (snd kp'))).

(** Every connection still present keeps a [Good] position if it had one (or
    was not a player yet). *)
Definition keepsPlayers (Good : Q -> Q -> Prop)
    (ps ps' : list (string * ServerPlayer)) : Prop :=
  forall k p', players_get k ps' = Some p' ->
    (forall p, players_get k ps = Some p -> Good (pl_x p) (pl_y p)) ->
    Good (pl_x p') (pl_y p').

(** Slot by slot, an enemy that was placed is still placed. *)
Definition keepsEnemies (es es' : list EnemySpot) : Prop :=
  Forall2 (fun e e' => enemyPlaced e -> enemyPlaced e') es es'.

(** User [u]'s score is zero in the score map and on each of its
    connections. *)
Definition zeroed (W : World) (u : string) : Prop :=
  userScores W !! u = Some 0%Z /\
  Forall (fun kp => pl_userId (snd kp) = u -> pl_score (snd kp) = 0%Z) (players W).

(** The effect is an absolute write of score 0 for user [u]. *)
Definition isScoreReset (u : string) (e : Effect) : bool :=
  match e with
  | DbSetScore v s => String.eqb v u && (s =? 0)%Z
  | _ => false
  end.



(** A three-digit colour, with or without the leading [#], and the
    six-digit form with each digit doubled. *)
Definition shortHex (withHash : bool) (r g b : ascii) : string :=
  let digits := String r (String g (String b EmptyString)) in
  if withHash then String "#" digits else digits.

Definition doubledHex (r g b : ascii) : string :=
  String "#" (String r (String r (String g (String g
    (String b (String b EmptyString)))))).

(** What one event may do to the list of players: a join timer adds (or
    replaces) the connection's player, on a [Good] position, or does nothing;
    a close removes the connection; any other event carries every player
    over. *)
Definition playersStep (Good : Q -> Q -> Prop) (e : Event)
    (ps ps' : list (string * ServerPlayer)) : Prop :=
  match e with
  | ev_joinTimer timer _ =>
      ps' = ps \/
      exists player,
        ps' = players_set (jt_peer timer) player ps /\
        pl_peer player = jt_peer timer /\
        pl_connectionId player = jt_peer timer /\
        Good (pl_x player) (pl_y player)
  | ev_close peer _ => ps' = players_delete peer ps
  | _ => Forall2 (carried Good) ps ps'
  end.

(** A message goes to a connection registered in [W'], and a snapshot that
    is sent is a snapshot of [W']. *)
Definition wellSent (W' : World) (eff : Effect) : Prop :=
  match eff with
  | Send q m =>
      (exists kp, kp ∈ players W' /\ (fst kp = q \/ pl_peer (snd kp) = q)) /\
      match m with
      | world_state ws => exists t, ws = getWorldState W' t
      | _ => True
      end
  | _ => True
  end.

(** Every player is filed under the id of its own peer. *)
Definition keyed (ps : list (string * ServerPlayer)) : Prop :=
  Forall (fun kp => pl_peer (snd kp) = fst kp /\ pl_connectionId (snd kp) = fst kp)
    ps.

(** The event is the firing of [peer]'s join timer, which ends its wait. *)
Definition isJoinOf (peer : string) (e : Event) : bool :=
  match e with
  | ev_joinTimer timer _ => String.eqb (jt_peer timer) peer
  | _ => false
  end.

(** The effect is a message delivered to [peer]. *)
Definition reaches (peer : string) (eff : Effect) : Prop :=
  match eff with
  | Send q _ => q = peer
  | _ => False
  end.

(** The effect is a world snapshot whose players list names [peer]. *)
Definition lists (peer : string) (eff : Effect) : Prop :=
  match eff with
  | Send _ (world_state ws) =>
      exists s, s ∈ ws_players ws /\ ps_connectionId s = peer
  | _ => False
  end.

(** The event closes connection [peer]. *)
Definition isCloseOf (peer : string) (e : Event) : bool :=
  match e with
  | ev_close p _ => String.eqb p peer
  | _ => false
  end.

(** The number a coerced move component is handled as: 0 for [NaN], 1 and
    -1 for the infinities. *)
Definition handledAs (n : JsNum) : JsVal :=
  match n with
  | NaN => V_number (Fin 0)
  | PosInf => V_number (Fin 1)
  | NegInf => V_number (Fin (-1))
  | Fin q => V_number (Fin q)
  end.

(** The peers that are sent a world snapshot by a list of effects. *)
Definition snapshotRecipients (out : list Effect) : list string :=
  flat_map (fun eff =>
              match eff with
              | Send q (world_state _) => [q]
              | _ => []
              end) out.

(** The centre lies outside the rectangle expanded by [radius] on every
    side. *)
Definition outsideExpanded (radius x y : Q) (rect : RectSnapshot) : Prop :=
  x < r_x rect - radius \/ r_x rect + r_width rect + radius < x \/
  y < r_y rect - radius \/ r_y rect + r_height rect + radius < y.

(** The left (or top) edge of the block in column (or row) [i]. *)
Definition blockOrigin (i : nat) : Q :=
  STREET_WIDTH + Qnat i * (blockWidth + STREET_WIDTH).

(** The rectangle lies in block [(row, col)], at least [BUILDING_MARGIN]
    away from each of the four streets around the block. *)
Definition insideBlock (row col : nat) (b : RectSnapshot) : Prop :=
  (row < CITY_ROWS)%nat /\ (col < CITY_COLS)%nat /\
  0 <= r_width b /\ 0 <= r_height b /\
  blockOrigin col + BUILDING_MARGIN <= r_x b /\
  r_x b + r_width b <= blockOrigin col + blockWidth - BUILDING_MARGIN /\
  blockOrigin row + BUILDING_MARGIN <= r_y b /\
  r_y b + r_height b <= blockOrigin row + blockHeight - BUILDING_MARGIN.

(** The point lies in the rectangle, borders included. *)
Definition onRect (x y : Q) (rect : RectSnapshot) : Prop :=
  r_x rect <= x <= r_x rect + r_width rect /\
  r_y rect <= y <= r_y rect + r_height rect.

(** The duration a powerup of each type is applied with. *)
Definition durationOf (type : PowerupType) : Z :=
  match type with
  | speed => SPEED_DURATION_MS
  | magnet => MAGNET_DURATION_MS
  | double => DOUBLE_DURATION_MS
  end.

(** The expiry time of the timer of one powerup type. *)
Definition timerOf (type : PowerupType) (player : ServerPlayer) : Z :=
  match type with
  | speed => pl_speedUntil player
  | magnet => pl_magnetUntil player
  | double => pl_doubleUntil player
  end.

(** The class [[0-9a-f]]. *)
Definition isLowerHex (c : ascii) : bool :=
  let n := nat_of_ascii c in
  ((48 <=? n) && (n <=? 57) || (97 <=? n) && (n <=? 102))%nat.

Fixpoint allLowerHex (s : string) : bool :=
  match s with
  | String c r => isLowerHex c && allLowerHex r
  | EmptyString => true
  end.

(** The same connection with the same account data: only the position and
    the powerup timers may differ. *)
Definition sameAccount (kp kp' : string * ServerPlayer) : Prop :=
  fst kp' = fst kp /\
  pl_peer (snd kp') = pl_peer (snd kp) /\
  pl_connectionId (snd kp') = pl_connectionId (snd kp) /\
  pl_userId (snd kp') = pl_userId (snd kp) /\
  pl_name (snd kp') = pl_name (snd kp) /\
  pl_color (snd kp') = pl_color (snd kp) /\
  pl_score (snd kp') = pl_score (snd kp).

(** The same enemy: identifier, home and territory. *)
Definition sameHome (e e' : EnemySpot) : Prop :=
  en_id e' = en_id e /\ en_homeX e' = en_homeX e /\ en_homeY e' = en_homeY e /\
  en_territoryRadius e' = en_territoryRadius e.

(** Slot by slot, [P] is kept. *)
Definition keeps {A} (P : A -> Prop) (l l' : list A) : Prop :=
  Forall2 (fun a a' => P a -> P a') l l'.

(** What the movement loops may do: players keep their account data, the
    caches are untouched, every pool keeps its slots, with [GoodG] and
    [GoodP] kept by the grass and powerup in each slot, and every enemy
    keeps its identity. *)
Definition moves (GoodG : GrassSpot -> Prop) (GoodP : PowerupSpot -> Prop)
    (W W' : World) : Prop :=
  Forall2 sameAccount (players W) (players W') /\
  userScores W' = userScores W /\ userColors W' = userColors W /\
  keeps GoodG (grasses W) (grasses W') /\
  keeps GoodP (powerups W) (powerups W') /\
  Forall2 sameHome (enemies W) (enemies W').

(** The pools after a step: the same slots, [GoodG] and [GoodP] kept, every
    enemy with its identity. *)
Definition pools (GoodG : GrassSpot -> Prop) (GoodP : PowerupSpot -> Prop)
    (W W' : World) : Prop :=
  keeps GoodG (grasses W) (grasses W') /\
  keeps GoodP (powerups W) (powerups W') /\
  Forall2 sameHome (enemies W) (enemies W').

(** Every connection shows the cached score of its user (0 without one)
    and the colour of its user. *)
Definition cachesAgree (W : World) : Prop :=
  Forall (fun kp =>
            pl_score (snd kp) = default 0%Z (userScores W !! pl_userId (snd kp)) /\
            pl_color (snd kp) = getUserColor W (pl_userId (snd kp)))
    (players W).

(** No cached score and no player's score is negative. *)
Definition nonNegative (W : World) : Prop :=
  (forall u s, userScores W !! u = Some s -> (0 <= s)%Z) /\
  Forall (fun kp => (0 <= pl_score (snd kp))%Z) (players W).

Definition grassPlaced (g : GrassSpot) : Prop :=
  placed GRASS_RADIUS (g_x g) (g_y g).

Definition powerupPlaced (p : PowerupSpot) : Prop :=
  placed POWERUP_RADIUS (pu_x p) (pu_y p).

(** What may be written to the database: a positive score increment, the
    absolute score 0, a colour in the form the sanitizer returns. *)
Definition soundWrite (eff : Effect) : Prop :=
  match eff with
  | DbAddScore _ delta => (0 < delta)%Z
  | DbSetScore _ score => score = 0%Z
  | DbSetColor _ color => sanitizeColor (V_string color) = Some color
  | _ => True
  end.

(** The list of players is a map: every player is filed under the id of
    its own peer, and no id occurs twice. *)
Definition wellKeyed (ps : list (string * ServerPlayer)) : Prop :=
  keyed ps /\ NoDup (map fst ps).

(** A colour text, in the claim's words: once surrounding blanks are
    dropped, an optional [#] followed by exactly three or exactly six
    hexadecimal digits, in either case. *)
Definition hexColourText (s : string) : Prop :=
  exists digits,
    (trim s = digits \/ trim s = String "#" digits) /\
    (String.length digits = 3%nat \/ String.length digits = 6%nat) /\
    allHex digits = true.

(** The value is a colour text; everything that is not a string is not. *)
Definition hexColourValue (v : JsVal) : Prop :=
  exists s, v = V_string s /\ hexColourText s.

(** The position is the result of a [spawnPlayerPosition()] call that read
    its first random number at draw [n], for some [n] from [lo] on and
    before [hi]: with [lo] and [hi] the numbers of draws made when an
    invocation starts and when it returns, a call made during that
    invocation. *)
Definition respawnedWithin (lo hi : nat) (x y : Q) : Prop :=
  exists es n, (lo <= n < hi)%nat /\ fst (spawnPlayerPosition es n) = (x, y).

(** The same connection of the same user; a position respawned before draw
    [mid] is carried over or replaced by one respawned before draw [hi]. *)
Definition keepsFresh (mid hi : nat) (kp kp' : string * ServerPlayer) : Prop :=
  fst kp' = fst kp /\
  pl_userId (snd kp') = pl_userId (snd kp) /\
  forall lo, (lo <= mid)%nat ->
    respawnedWithin lo mid (pl_x (snd kp)) (pl_y (snd kp)) ->
    respawnedWithin lo hi (pl_x (snd kp')) (pl_y (snd kp')).

(** * Properties *)

(** ** Numbers and geometry *)

Lemma Qle_bool_false (a b : Q) : Qle_bool a b = false <-> b < a.
Proof.
  split; intros H.
  - apply Qnot_le_lt. intros Hle. apply Qle_bool_iff in Hle. congruence.
  - destruct (Qle_bool a b) eqn:E; [|reflexivity].
    apply Qle_bool_iff in E. lra.
Qed.

Lemma Qgtb_true (a b : Q) : Qgtb a b = true <-> b < a.
Proof. unfold Qgtb. rewrite negb_true_iff. apply Qle_bool_false. Qed.


Lemma Qltb_false (a b : Q) : Qltb a b = false <-> b <= a.
Proof. unfold Qltb. rewrite negb_false_iff. apply Qle_bool_iff. Qed.

Lemma Qgtb_false (a b : Q) : Qgtb a b = false <-> a <= b.
Proof. unfold Qgtb. rewrite negb_false_iff. apply Qle_bool_iff. Qed.

Lemma clamp_le_max (v lo hi : Q) : clamp v lo hi <= hi.
Proof. unfold clamp. apply Q.le_min_l. Qed.

Lemma clamp_ge_min (v lo hi : Q) : lo <= hi -> lo <= clamp v lo hi.
Proof.
  intros H. unfold clamp. apply Q.min_glb; [exact H|apply Q.le_max_l].
Qed.

Lemma clamp_bounds (v lo hi : Q) : lo <= hi -> lo <= clamp v lo hi <= hi.
Proof. split; [apply clamp_ge_min; assumption|apply clamp_le_max]. Qed.

Lemma clamp_id (v lo hi : Q) : lo <= v <= hi -> clamp v lo hi == v.
Proof.
  intros [H1 H2]. unfold clamp.
  rewrite (Q.max_r lo v) by assumption. apply Q.min_r. assumption.
Qed.

Lemma clamp_below (v lo hi : Q) : v <= lo -> lo <= hi -> clamp v lo hi == lo.
Proof.
  intros H1 H2. unfold clamp.
  rewrite (Q.max_l lo v) by assumption. apply Q.min_r. assumption.
Qed.

Lemma inject_Z_sub (x y : Z) : inject_Z (x - y) = inject_Z x - inject_Z y.
Proof. unfold Z.sub. rewrite inject_Z_plus, inject_Z_opp. reflexivity. Qed.

Lemma Qsquare_nonneg (a : Q) : 0 <= a * a.
Proof. nra. Qed.

Lemma Qsquare_far (radius d : Q) : 0 <= radius -> radius < d -> radius * radius < d * d.
Proof. intros Hr Hd. nra. Qed.

Lemma Math_floor_le (v : Q) : Math_floor v <= v.
Proof. apply Qfloor_le. Qed.

Lemma Math_floor_lt (v : Q) : v < Math_floor v + 1.
Proof.
  unfold Math_floor. pose proof (Qlt_floor v) as H.
  rewrite inject_Z_plus in H. exact H.
Qed.

(** A circle left of and above a rectangle by more than its radius does not
    touch it. *)
Lemma circle_clear_of_far_rect (x y radius : Q) (rect : RectSnapshot) :
  0 <= radius -> 0 <= r_width rect ->
  x + radius < r_x rect ->
  circleIntersectsRect x y radius rect = false.
Proof.
  intros Hr Hw Hx. unfold circleIntersectsRect. cbv zeta.
  apply Qle_bool_false.
  assert (Hc : clamp x (r_x rect) (r_x rect + r_width rect) == r_x rect).
  { apply clamp_below; lra. }
  rewrite Hc.
  set (dy := y - clamp y (r_y rect) (r_y rect + r_height rect)).
  assert (0 <= dy * dy) by nra.
  nra.
Qed.

(** ** The city layout *)

Lemma seededUnit_range (seed : Q) : 0 <= seededUnit seed < 1.
Proof.
  unfold seededUnit. cbv zeta.
  set (value := Math_sin (seed * 12.9898) * 43758.5453123).
  pose proof (Math_floor_le value). pose proof (Math_floor_lt value).
  split; lra.
Qed.

Lemma blockWidth_value : blockWidth == 1058.75.
Proof. reflexivity. Qed.

Lemma blockHeight_value : blockHeight == 1058.75.
Proof. reflexivity. Qed.

Lemma usable_value : Qmax 80 (blockWidth - BUILDING_MARGIN * 2) == 966.75.
Proof. reflexivity. Qed.

Lemma usableHeight_value : Qmax 80 (blockHeight - BUILDING_MARGIN * 2) == 966.75.
Proof. reflexivity. Qed.

Lemma Qnat_nonneg (n : nat) : 0 <= Qnat n.
Proof.
  unfold Qnat. change 0 with (inject_Z 0). rewrite <- Zle_Qle. lia.
Qed.

Lemma blockBuildings_setBack (row col : nat) :
  Forall setBack (blockBuildings row col).
Proof.
  pose proof (Qnat_nonneg row) as Hrow. pose proof (Qnat_nonneg col) as Hcol.
  unfold blockBuildings. cbv zeta.
  set (seedBase := Qnat row * 101 + Qnat col * 37 + 1).
  pose proof (seededUnit_range seedBase) as H0.
  pose proof (seededUnit_range (seedBase + 1)) as H1.
  pose proof (seededUnit_range (seedBase + 2)) as H2.
  pose proof (seededUnit_range (seedBase + 3)) as H3.
  pose proof (seededUnit_range (seedBase + 6)) as H6.
  pose proof (seededUnit_range (seedBase + 7)) as H7.
  set (uw := Qmax 80 (blockWidth - BUILDING_MARGIN * 2)).
  set (uh := Qmax 80 (blockHeight - BUILDING_MARGIN * 2)).
  assert (Huw : uw == 966.75) by apply usable_value.
  assert (Huh : uh == 966.75) by apply usableHeight_value.
  pose proof blockWidth_value as Hbw. pose proof blockHeight_value as Hbh.
  set (aw := Qmax 60 (uw * (0.2 + seededUnit (seedBase + 6) * 0.22))).
  set (ah := Qmax 60 (uh * (0.2 + seededUnit (seedBase + 7) * 0.22))).
  assert (Haw : 60 <= aw <= uw).
  { split; [apply Q.le_max_l|]. apply Q.max_lub; nra. }
  assert (Hah : 60 <= ah <= uh).
  { split; [apply Q.le_max_l|]. apply Q.max_lub; nra. }
  assert (Hmain : setBack
    (mkRect ("tower-main-" +:+ pretty row +:+ "-" +:+ pretty col)
       (STREET_WIDTH + Qnat col * (blockWidth + STREET_WIDTH) + BUILDING_MARGIN
        + (uw - uw * (0.52 + seededUnit seedBase * 0.3))
          * seededUnit (seedBase + 2))
       (STREET_WIDTH + Qnat row * (blockHeight + STREET_WIDTH) + BUILDING_MARGIN
        + (uh - uh * (0.5 + seededUnit (seedBase + 1) * 0.34))
          * seededUnit (seedBase + 3))
       (uw * (0.52 + seededUnit seedBase * 0.3))
       (uh * (0.5 + seededUnit (seedBase + 1) * 0.34)))).
  { unfold setBack, STREET_WIDTH, BUILDING_MARGIN in *. simpl.
    repeat split; nra. }
  destruct (Qgtb (seededUnit (seedBase + 4)) 0.35).
  - constructor; [exact Hmain|]. constructor; [|constructor].
    unfold setBack, STREET_WIDTH, BUILDING_MARGIN in *. simpl.
    repeat split; try lra;
      repeat match goal with |- context [if ?c then _ else _] => destruct c end;
      nra.
  - constructor; [exact Hmain|constructor].
Qed.

Lemma buildings_setBack : Forall setBack (buildings cityLayout).
Proof.
  unfold cityLayout, createCityLayout. cbn [buildings].
  apply Forall_flat_map, Forall_forall. intros row _.
  apply Forall_flat_map, Forall_forall. intros col _.
  apply blockBuildings_setBack.
Qed.

(** The last-resort corner of every placement routine is clear of buildings. *)
Lemma corner_clear (x y radius : Q) :
  0 <= radius -> x + radius < STREET_WIDTH + BUILDING_MARGIN ->
  isCircleBlockedByBuildings x y radius = false.
Proof.
  intros Hr Hx. unfold isCircleBlockedByBuildings, some.
  apply not_true_is_false. intros H.
  apply existsb_exists in H as (b & Hb & Hhit).
  pose proof buildings_setBack as HF. rewrite Forall_forall in HF.
  destruct (HF b) as (Hbx & _ & Hbw & _); [apply list_elem_of_In; exact Hb|].
  rewrite circle_clear_of_far_rect in Hhit; [discriminate|assumption..|lra].
Qed.

(** ** Movement resolution *)

Lemma clear_not_centreInside (radius x y : Q) (b : RectSnapshot) :
  clear radius x y -> In b (buildings cityLayout) -> ~ centreInside x y b.
Proof.
  unfold clear, isCircleBlockedByBuildings, some. intros Hc Hb [Hx Hy].
  assert (Hhit : circleIntersectsRect x y radius b = true).
  { unfold circleIntersectsRect. cbv zeta. apply Qle_bool_iff.
    rewrite (clamp_id x) by exact Hx. rewrite (clamp_id y) by exact Hy.
    nra. }
  assert (existsb (circleIntersectsRect x y radius) (buildings cityLayout) = true).
  { apply existsb_exists. exists b. split; assumption. }
  congruence.
Qed.

Lemma outsideExpanded_clear (radius x y : Q) :
  0 <= radius ->
  (forall b, In b (buildings cityLayout) -> outsideExpanded radius x y b) ->
  clear radius x y.
Proof.
  intros Hr Hout. unfold clear, isCircleBlockedByBuildings, some.
  apply not_true_is_false. intros H.
  apply existsb_exists in H as (b & Hb & Hhit).
  pose proof buildings_setBack as HF. rewrite Forall_forall in HF.
  destruct (HF b) as (_ & _ & Hw & Hh); [apply list_elem_of_In; exact Hb|].
  specialize (Hout b Hb). unfold circleIntersectsRect in Hhit. cbv zeta in Hhit.
  apply Qle_bool_iff in Hhit.
  pose proof (clamp_bounds x (r_x b) (r_x b + r_width b)) as Hcx.
  pose proof (clamp_bounds y (r_y b) (r_y b + r_height b)) as Hcy.
  set (cx := clamp x (r_x b) (r_x b + r_width b)) in *.
  set (cy := clamp y (r_y b) (r_y b + r_height b)) in *.
  assert (Hcx' : r_x b <= cx <= r_x b + r_width b) by (apply Hcx; lra).
  assert (Hcy' : r_y b <= cy <= r_y b + r_height b) by (apply Hcy; lra).
  clear Hcx Hcy. clearbody cx cy.
  pose proof (Qsquare_nonneg (x - cx)) as Hsx.
  pose proof (Qsquare_nonneg (y - cy)) as Hsy.
  destruct Hout as [Ho|[Ho|[Ho|Ho]]].
  - pose proof (Qsquare_far radius (cx - x) Hr). nra.
  - pose proof (Qsquare_far radius (x - cx) Hr). nra.
  - pose proof (Qsquare_far radius (cy - y) Hr). nra.
  - pose proof (Qsquare_far radius (y - cy) Hr). nra.
Qed.

Lemma tryOrder_placed (radius cx cy tx ty : Q) (order : Order) :
  placed radius cx cy -> inBounds radius tx ty ->
  placed radius
    (mv_x (tryOrder cx cy tx ty radius order))
    (mv_y (tryOrder cx cy tx ty radius order)).
Proof.
  intros [[Hx Hy] Hc] [Htx Hty]. unfold tryOrder, placed, inBounds, clear in *.
  destruct order.
  - destruct (isCircleBlockedByBuildings tx cy radius) eqn:E1; cbn [negb].
    + destruct (isCircleBlockedByBuildings cx ty radius) eqn:E2;
        cbn [negb mv_x mv_y]; auto.
    + destruct (isCircleBlockedByBuildings tx ty radius) eqn:E2;
        cbn [negb mv_x mv_y]; auto.
  - destruct (isCircleBlockedByBuildings cx ty radius) eqn:E1; cbn [negb].
    + destruct (isCircleBlockedByBuildings tx cy radius) eqn:E2;
        cbn [negb mv_x mv_y]; auto.
    + destruct (isCircleBlockedByBuildings tx ty radius) eqn:E2;
        cbn [negb mv_x mv_y]; auto.
Qed.

(** Whatever the target, a resolved move from a placed position ends on a
    placed position. *)
Lemma resolveBlockedMovement_placed (radius cx cy tx ty : Q) :
  radius <= MAP_WIDTH - radius ->
  placed radius cx cy ->
  placed radius
    (mv_x (resolveBlockedMovement cx cy tx ty radius))
    (mv_y (resolveBlockedMovement cx cy tx ty radius)).
Proof.
  intros Hr Hp. unfold resolveBlockedMovement. cbv zeta.
  assert (Hb : inBounds radius (clamp tx radius (MAP_WIDTH - radius))
                 (clamp ty radius (MAP_HEIGHT - radius))).
  { split; apply clamp_bounds; unfold MAP_HEIGHT, MAP_WIDTH in *; lra. }
  destruct (Qle_bool _ _); apply tryOrder_placed; assumption.
Qed.

(** ** Drawing computations *)

Lemma yields_ret {A} (a : A) (P : A -> Prop) : P a -> yields (ret a) 0 P.
Proof. intros H n. cbn. split; [exact H|lia]. Qed.

Lemma yields_weaken {A} (c : Rand A) (k k' : nat) (P P' : A -> Prop) :
  yields c k P -> (k <= k')%nat -> (forall a, P a -> P' a) -> yields c k' P'.
Proof.
  intros H Hk HP n. destruct (H n) as [H1 H2]. split; [auto|lia].
Qed.

Lemma yields_le {A} (c : Rand A) (k k' : nat) (P : A -> Prop) :
  yields c k P -> (k <= k')%nat -> yields c k' P.
Proof. intros H Hk. eapply yields_weaken; eauto. Qed.

Lemma yields_bind {A B} (c : Rand A) (f : A -> Rand B) (k1 k2 : nat)
    (P : A -> Prop) (P' : B -> Prop) :
  yields c k1 P -> (forall a, P a -> yields (f a) k2 P') ->
  yields (bind c f) (k1 + k2) P'.
Proof.
  intros Hc Hf n. unfold bind. destruct (Hc n) as [H1 H2].
  destruct (c n) as [a n']. cbn in *.
  destruct (Hf a H1 n') as [H3 H4]. split; [exact H3|lia].
Qed.

Lemma yields_for_return {A} (count from k kr : nat)
    (body : nat -> Rand (option A)) (rest : Rand A) (P : A -> Prop) :
  (forall i, yields (body i) k (fun r => forall a, r = Some a -> P a)) ->
  yields rest kr P ->
  yields (for_return count from body rest) (count * k + kr) P.
Proof.
  intros Hbody Hrest. revert from.
  induction count as [|count IH]; intros from; cbn [for_return].
  - exact Hrest.
  - eapply yields_weaken with (k := (k + (count * k + kr))%nat) (P := P);
      [|cbn; lia|auto].
    eapply yields_bind; [apply Hbody|].
    intros [a|] Ha.
    + eapply yields_weaken; [apply yields_ret, Ha; reflexivity|lia|auto].
    + apply IH.
Qed.

Lemma yields_uuid : yields uuid 1 (fun _ => True).
Proof. intros n. cbn. split; [exact I|lia]. Qed.

Lemma yields_and {A} (c : Rand A) (k : nat) (P P' : A -> Prop) :
  yields c k P -> yields c k P' -> yields c k (fun a => P a /\ P' a).
Proof.
  intros H H' n. destruct (H n) as [H1 H2]. destruct (H' n) as [H3 _].
  split; [split|]; assumption.
Qed.

(** A draw that only has to be counted. *)
Lemma yields_randomBetween_any (min max : Q) :
  yields (randomBetween min max) 1 (fun _ => True).
Proof. intros n. cbn. split; [exact I|lia]. Qed.

Lemma yields_randomStreet_any : yields randomStreet 1 (fun _ => True).
Proof. intros n. cbn. split; [exact I|lia]. Qed.

(** Whatever [Math.random()] returns, a spawn position is clear of
    buildings: both retry loops test it, and the last resort is the corner. *)
Lemma yields_spawnPlayerPosition_clear (es : list EnemySpot) :
  yields (spawnPlayerPosition es) 256
    (fun xy => clear PLAYER_RADIUS (fst xy) (snd xy)).
Proof.
  unfold spawnPlayerPosition.
  eapply yields_le with (k := (32 * 2 + (64 * 3 + 0))%nat); [|cbn; lia].
  apply yields_for_return; [intros _|apply yields_for_return; [intros _|]].
  - eapply yields_le with (k := (1 + (1 + 0))%nat); [|lia].
    eapply yields_bind; [apply yields_randomBetween_any|]. intros x _. cbn beta.
    eapply yields_bind; [apply yields_randomBetween_any|]. intros y _. cbn beta.
    apply yields_ret. intros a Ha.
    destruct (isCircleBlockedByBuildings x y PLAYER_RADIUS) eqn:E;
      [rewrite andb_false_r in Ha; discriminate|].
    destruct (negb _ && _); [|discriminate]. injection Ha as <-. exact E.
  - eapply yields_le with (k := (1 + (1 + (1 + 0)))%nat); [|lia].
    eapply yields_bind; [apply yields_randomStreet_any|]. intros street _.
    cbv zeta. cbn beta.
    destruct (_ || _).
    { eapply yields_le; [apply yields_ret|lia]. intros a [=]. }
    eapply yields_bind; [apply yields_randomBetween_any|]. intros x _. cbn beta.
    eapply yields_bind; [apply yields_randomBetween_any|]. intros y _. cbn beta.
    apply yields_ret. intros a Ha.
    destruct (isCircleBlockedByBuildings x y PLAYER_RADIUS) eqn:E;
      [discriminate|].
    injection Ha as <-. exact E.
  - apply yields_ret. apply corner_clear; unfold PLAYER_RADIUS, STREET_WIDTH,
      BUILDING_MARGIN; cbn; lra.
Qed.

(** ** Score resets *)

Lemma resetUserScore_zeroes (W : World) (u : string) :
  zeroed (fst (resetUserScore W u)) u.
Proof.
  unfold resetUserScore, zeroed. cbn. split; [apply lookup_insert_eq|].
  induction (players W) as [|[k p] ps IH]; cbn; constructor; [|exact IH].
  destruct (String.eqb (pl_userId p) u) eqn:E; cbn; [reflexivity|].
  intros Heq. rewrite Heq, String.eqb_refl in E. discriminate.
Qed.

Lemma resetUserScore_keeps (W : World) (u v : string) :
  zeroed W u -> zeroed (fst (resetUserScore W v)) u.
Proof.
  intros [Hs Hp]. unfold resetUserScore, zeroed. cbn. split.
  - destruct (decide (v = u)) as [->|Hne];
      [apply lookup_insert_eq|rewrite lookup_insert_ne; assumption].
  - induction Hp as [|[k p] ps Hkp Hp IH]; cbn; constructor; [|exact IH].
    destruct (String.eqb (pl_userId p) v); cbn; auto.
Qed.

Lemma resetAll_keeps (W : World) (hit : list string) (u : string) :
  zeroed W u -> zeroed (fst (resetAll W hit)) u.
Proof.
  revert W. induction hit as [|v hit IH]; intros W Hz; cbn [resetAll].
  - exact Hz.
  - pose proof (resetUserScore_keeps W u v Hz) as H1.
    destruct (resetUserScore W v) as [W1 e1]. cbn [fst] in H1.
    specialize (IH W1 H1). destruct (resetAll W1 hit) as [W2 e2]. exact IH.
Qed.

Lemma resetAll_zeroes (W : World) (hit : list string) (u : string) :
  u ∈ hit -> zeroed (fst (resetAll W hit)) u.
Proof.
  revert W. induction hit as [|v hit IH]; intros W Hin; cbn [resetAll].
  - inversion Hin.
  - destruct (decide (u = v)) as [->|Hne].
    + pose proof (resetUserScore_zeroes W v) as H1.
      destruct (resetUserScore W v) as [W1 e1]. cbn [fst] in H1.
      pose proof (resetAll_keeps W1 hit v H1) as H2.
      destruct (resetAll W1 hit) as [W2 e2]. exact H2.
    + apply elem_of_cons in Hin as [Heq|Hin]; [contradiction|].
      destruct (resetUserScore W v) as [W1 e1].
      specialize (IH W1 Hin). destruct (resetAll W1 hit) as [W2 e2]. exact IH.
Qed.

Lemma resetAll_effects (W : World) (hit : list string) :
  snd (resetAll W hit) = map (fun u => DbSetScore u 0) hit.
Proof.
  revert W. induction hit as [|v hit IH]; intros W; cbn [resetAll].
  - reflexivity.
  - unfold resetUserScore, persistUserScore.
    set (W1 := with_players _ _). specialize (IH W1).
    destruct (resetAll W1 hit) as [W2 e2]. cbn in *. rewrite IH. reflexivity.
Qed.

(** ** Respawns and the enemy loop

    The lemmas of this section hold for whatever property of a position
    [spawnPlayerPosition] guarantees. *)

Section Respawn.

Variable Good : Q -> Q -> Prop.
Hypothesis spawn_good :
  forall es, yields (spawnPlayerPosition es) 256 (fun xy => Good (fst xy) (snd xy)).

Lemma carried_refl (kp : string * ServerPlayer) : carried Good kp kp.
Proof. repeat split; auto. Qed.

Lemma carried_all_refl (ps : list (string * ServerPlayer)) :
  Forall2 (carried Good) ps ps.
Proof. induction ps; constructor; auto using carried_refl. Qed.

Lemma carried_all_trans (ps1 ps2 ps3 : list (string * ServerPlayer)) :
  Forall2 (carried Good) ps1 ps2 -> Forall2 (carried Good) ps2 ps3 ->
  Forall2 (carried Good) ps1 ps3.
Proof.
  intros H12. revert ps3. induction H12 as [|a b l1 l2 Hab H12 IH]; intros ps3 H23.
  - inversion H23. constructor.
  - inversion H23 as [|b' c l2' l3 Hbc H23']; subst. constructor; [|auto].
    destruct Hab as (Ha1 & Ha2 & Ha3 & Ha4 & Ha5).
    destruct Hbc as (Hb1 & Hb2 & Hb3 & Hb4 & Hb5).
    repeat split; [congruence..|auto].
Qed.

Lemma carried_get (ps ps' : list (string * ServerPlayer)) (k : string)
    (p' : ServerPlayer) :
  Forall2 (carried Good) ps ps' -> players_get k ps' = Some p' ->
  exists p, players_get k ps = Some p /\ carried Good (k, p) (k, p').
Proof.
  induction 1 as [|[k1 p1] [k2 p2] l1 l2 (Hk & Hrest) HF IH]; cbn;
    [discriminate|].
  cbn in Hk. subst k2. destruct (String.eqb k1 k) eqn:E.
  - intros [= <-]. exists p1. split; [reflexivity|]. split; [reflexivity|].
    exact Hrest.
  - exact IH.
Qed.

Lemma carried_get_fwd (ps ps' : list (string * ServerPlayer)) (k : string)
    (p : ServerPlayer) :
  Forall2 (carried Good) ps ps' -> players_get k ps = Some p ->
  exists p', players_get k ps' = Some p' /\ carried Good (k, p) (k, p').
Proof.
  induction 1 as [|[k1 p1] [k2 p2] l1 l2 (Hk & Hrest) HF IH]; cbn;
    [discriminate|].
  cbn in Hk. subst k2. destruct (String.eqb k1 k) eqn:E.
  - intros [= <-]. exists p2. split; [reflexivity|]. split; [reflexivity|].
    exact Hrest.
  - exact IH.
Qed.

Lemma carried_keeps (ps ps' : list (string * ServerPlayer)) :
  Forall2 (carried Good) ps ps' -> keepsPlayers Good ps ps'.
Proof.
  intros HF k p' Hget Hold.
  destruct (carried_get ps ps' k p' HF Hget) as (p & Hp & _ & _ & _ & _ & Hg).
  apply Hg, Hold, Hp.
Qed.

Lemma keepsPlayers_refl (ps : list (string * ServerPlayer)) :
  keepsPlayers Good ps ps.
Proof. intros k p' Hget Hold. apply Hold, Hget. Qed.

Lemma keepsPlayers_trans (ps1 ps2 ps3 : list (string * ServerPlayer)) :
  keepsPlayers Good ps1 ps2 -> keepsPlayers Good ps2 ps3 ->
  keepsPlayers Good ps1 ps3.
Proof.
  intros H12 H23 k p3 Hget Hold. apply (H23 k p3 Hget).
  intros p2 Hp2. apply (H12 k p2 Hp2 Hold).
Qed.

Lemma addHit_elem (hit : list string) (u v : string) :
  v ∈ addHit hit u <-> v ∈ hit \/ v = u.
Proof.
  unfold addHit. case_bool_decide as Hin.
  - split; [auto|]. intros [H| ->]; assumption.
  - rewrite elem_of_app, list_elem_of_singleton. reflexivity.
Qed.

Lemma addHit_NoDup (hit : list string) (u : string) :
  NoDup hit -> NoDup (addHit hit u).
Proof.
  intros H. unfold addHit. case_bool_decide as Hin; [exact H|].
  apply NoDup_app. split; [exact H|]. split.
  - intros x Hx Hx'. apply list_elem_of_singleton in Hx'. subst. contradiction.
  - apply NoDup_singleton.
Qed.

(** One collision loop: every player is carried over, a player that was hit
    is on a [Good] position with its user recorded, and the set of hit users
    only grows, without duplicates. *)
Lemma hitLoop_spec (enemy : EnemySpot) (es : list EnemySpot)
    (ps : list (string * ServerPlayer)) (hit : list string) (changed : bool)
    (n : nat) :
  let r := hitLoop enemy es ps hit changed n in
  let ps' := fst (fst (fst r)) in
  let hit' := snd (fst (fst r)) in
  Forall2 (carried Good) ps ps' /\
  (forall u, u ∈ hit -> u ∈ hit') /\
  (NoDup hit -> NoDup hit') /\
  (forall k p, players_get k ps = Some p -> hitBy enemy p = true ->
     pl_userId p ∈ hit' /\
     exists p', players_get k ps' = Some p' /\ Good (pl_x p') (pl_y p')).
Proof using spawn_good.
  revert hit changed n. induction ps as [|[k0 p0] ps IH]; intros hit changed n.
  - cbn. split; [constructor|]. split; [auto|]. split; [auto|].
    intros k p [=].
  - cbn [hitLoop]. destruct (hitBy enemy p0) eqn:Ehit.
    + unfold bind. destruct (spawn_good es n) as [Hg _].
      destruct (spawnPlayerPosition es n) as [[x y] n1]. cbn [fst snd] in Hg.
      specialize (IH (addHit hit (pl_userId p0)) true n1).
      destruct (hitLoop enemy es ps (addHit hit (pl_userId p0)) true n1)
        as [[[ps1 hit1] c1] n2].
      cbn [fst snd ret] in *. destruct IH as (IH1 & IH2 & IH3 & IH4).
      split; [|split; [|split]].
      * constructor; [|exact IH1]. repeat (split; [reflexivity|]).
        intros _. exact Hg.
      * intros u Hu. apply IH2, addHit_elem. auto.
      * intros Hnd. apply IH3, addHit_NoDup, Hnd.
      * intros k p Hget Hh. cbn [players_get] in Hget |- *.
        destruct (String.eqb k0 k).
        -- injection Hget as <-. split; [apply IH2, addHit_elem; auto|].
           eexists. split; [reflexivity|]. exact Hg.
        -- apply (IH4 k p Hget Hh).
    + unfold bind. specialize (IH hit changed n).
      destruct (hitLoop enemy es ps hit changed n) as [[[ps1 hit1] c1] n2].
      cbn [fst snd ret] in *. destruct IH as (IH1 & IH2 & IH3 & IH4).
      split; [|split; [|split]].
      * constructor; [apply carried_refl|exact IH1].
      * exact IH2.
      * exact IH3.
      * intros k p Hget Hh. cbn [players_get] in Hget |- *.
        destruct (String.eqb k0 k).
        -- injection Hget as <-. congruence.
        -- apply (IH4 k p Hget Hh).
Qed.

Lemma movePointToward_placed (cx cy tx ty maxStep : Q) :
  placed ENEMY_RADIUS cx cy ->
  placed ENEMY_RADIUS
    (st_x (movePointToward cx cy tx ty maxStep))
    (st_y (movePointToward cx cy tx ty maxStep)).
Proof.
  intros Hp. unfold movePointToward. cbv zeta.
  destruct (Qle_bool _ _); cbn [st_x st_y]; [exact Hp|].
  apply resolveBlockedMovement_placed; [|exact Hp].
  unfold ENEMY_RADIUS, MAP_WIDTH. lra.
Qed.

Lemma steppedEnemy_placed (enemy : EnemySpot) (allPlayers : list ServerPlayer) :
  enemyPlaced enemy -> enemyPlaced (steppedEnemy enemy allPlayers).
Proof.
  intros Hp. unfold steppedEnemy, moveEnemy. cbv zeta.
  destruct (enemyTarget enemy (closestPlayer enemy allPlayers)) as [[tx ty] maxStep].
  destruct (st_moved _); [|exact Hp].
  unfold enemyPlaced, enemy_at. cbn [en_x en_y].
  apply movePointToward_placed. exact Hp.
Qed.

Lemma keepsEnemies_refl (es : list EnemySpot) : keepsEnemies es es.
Proof. unfold keepsEnemies. induction es; constructor; auto. Qed.

Lemma keepsEnemies_trans (es1 es2 es3 : list EnemySpot) :
  keepsEnemies es1 es2 -> keepsEnemies es2 es3 -> keepsEnemies es1 es3.
Proof.
  unfold keepsEnemies. intros H12. revert es3.
  induction H12 as [|a b l1 l2 Hab H12 IH]; intros es3 H23.
  - inversion H23. constructor.
  - inversion H23 as [|b' c l2' l3 Hbc H23']; subst. constructor; auto.
Qed.

Lemma keepsEnemies_step (es : list EnemySpot) (i : nat) (enemy : EnemySpot)
    (allPlayers : list ServerPlayer) :
  es !! i = Some enemy ->
  keepsEnemies es (<[i := steppedEnemy enemy allPlayers]> es).
Proof.
  intros Hi. unfold keepsEnemies.
  rewrite <- (list_insert_id es i enemy Hi) at 1.
  apply Forall2_insert; [apply keepsEnemies_refl|].
  apply steppedEnemy_placed.
Qed.

(** The enemy loop carries every player and every enemy over, and only adds
    to the set of hit users. *)
Lemma enemyLoop_spec (n i : nat) (W : World) (hit : list string) (changed : bool) :
  let r := enemyLoop n i W hit changed in
  Forall2 (carried Good) (players W) (players (fst (fst r))) /\
  keepsEnemies (enemies W) (enemies (fst (fst r))) /\
  (forall u, u ∈ hit -> u ∈ snd (fst r)) /\
  (NoDup hit -> NoDup (snd (fst r))).
Proof using spawn_good.
  revert i W hit changed. induction n as [|n IH]; intros i W hit changed.
  - cbn. split; [apply carried_all_refl|]. split; [apply keepsEnemies_refl|]. auto.
  - cbn [enemyLoop]. destruct (enemies W !! i) as [enemy|] eqn:Ei.
    + cbv zeta.
      set (enemy1 := steppedEnemy enemy (players_values W)).
      set (W1 := with_enemies W (<[i := enemy1]> (enemies W))).
      pose proof (hitLoop_spec enemy1 (enemies W1) (players W1) hit
                    (st_moved (moveEnemy enemy (players_values W)) || changed)
                    (draws W1)) as Hh.
      destruct (hitLoop enemy1 (enemies W1) (players W1) hit
                  (st_moved (moveEnemy enemy (players_values W)) || changed)
                  (draws W1)) as [[[ps hit1] changed2] d].
      cbn [fst snd] in Hh. destruct Hh as (Hh1 & Hh2 & Hh3 & _).
      specialize (IH (S i) (with_draws (with_players W1 ps) d) hit1 changed2).
      cbv zeta in IH. destruct IH as (IH1 & IH2 & IH3 & IH4).
      split; [|split; [|split]].
      * eapply carried_all_trans; [exact Hh1|exact IH1].
      * eapply keepsEnemies_trans; [|exact IH2].
        apply keepsEnemies_step. exact Ei.
      * auto.
      * auto.
    + cbn. split; [apply carried_all_refl|]. split; [apply keepsEnemies_refl|].
      auto.
Qed.

Lemma applyScore_carried (userId : string) (score : Z)
    (ps : list (string * ServerPlayer)) :
  Forall2 (carried Good) ps (applyScoreToConnectedPlayers userId score ps).
Proof.
  induction ps as [|[k p] ps IH]; cbn; constructor; [|exact IH].
  destruct (String.eqb (pl_userId p) userId); cbn; repeat split; auto.
Qed.

Lemma applyColor_carried (userId color : string)
    (ps : list (string * ServerPlayer)) :
  Forall2 (carried Good) ps (applyColorToConnectedPlayers userId color ps).
Proof.
  induction ps as [|[k p] ps IH]; cbn; constructor; [|exact IH].
  destruct (String.eqb (pl_userId p) userId); cbn; repeat split; auto.
Qed.

Lemma resetAll_carried (W : World) (hit : list string) :
  Forall2 (carried Good) (players W) (players (fst (resetAll W hit))) /\
  enemies (fst (resetAll W hit)) = enemies W.
Proof.
  revert W. induction hit as [|u hit IH]; intros W; cbn [resetAll].
  - cbn. split; [apply carried_all_refl|reflexivity].
  - unfold resetUserScore.
    set (W2 := with_players _ _).
    specialize (IH W2). destruct (resetAll W2 hit) as [W3 e3].
    cbn [fst] in *. destruct IH as [IH1 IH2]. split.
    + eapply carried_all_trans; [|exact IH1]. apply applyScore_carried.
    + rewrite IH2. reflexivity.
Qed.

Lemma updateEnemies_carried (W : World) :
  Forall2 (carried Good) (players W) (players (fst (fst (updateEnemies W)))) /\
  keepsEnemies (enemies W) (enemies (fst (fst (updateEnemies W)))).
Proof using spawn_good.
  unfold updateEnemies. destruct (_ || _).
  { cbn. split; [apply carried_all_refl|apply keepsEnemies_refl]. }
  pose proof (enemyLoop_spec (length (enemies W)) 0 W [] false) as He.
  destruct (enemyLoop (length (enemies W)) 0 W [] false) as [[W1 hit] changed].
  cbn [fst snd] in He. destruct He as (He1 & He2 & _).
  pose proof (resetAll_carried W1 hit) as [Hr1 Hr2].
  destruct (resetAll W1 hit) as [W2 effects]. cbn [fst] in *. split.
  - eapply carried_all_trans; eassumption.
  - rewrite Hr2. exact He2.
Qed.

(** *** The hooks carry players over *)

Hypothesis move_good :
  forall cx cy tx ty, Good cx cy ->
    Good (mv_x (resolveBlockedMovement cx cy tx ty PLAYER_RADIUS))
         (mv_y (resolveBlockedMovement cx cy tx ty PLAYER_RADIUS)).

Lemma players_set_carried (ps : list (string * ServerPlayer)) (k : string)
    (p p' : ServerPlayer) :
  players_get k ps = Some p -> carried Good (k, p) (k, p') ->
  Forall2 (carried Good) ps (players_set k p' ps).
Proof.
  intros Hget Hc. induction ps as [|[k0 p0] ps IH]; [discriminate|].
  cbn [players_get players_set] in *. destruct (String.eqb k0 k) eqn:E.
  - injection Hget as ->. apply String.eqb_eq in E. subst k0.
    constructor; [exact Hc|apply carried_all_refl].
  - constructor; [apply carried_refl|apply IH, Hget].
Qed.

Lemma powerupLoop_carried (n i : nat) (peer : string) (now : Z) (W : World) :
  Forall2 (carried Good) (players W) (players (powerupLoop n i peer now W)) /\
  enemies (powerupLoop n i peer now W) = enemies W.
Proof.
  revert i W. induction n as [|n IH]; intros i W; cbn [powerupLoop].
  - split; [apply carried_all_refl|reflexivity].
  - destruct (powerups W !! i) as [powerup|];
      [|split; [apply carried_all_refl|reflexivity]].
    destruct (players_get peer (players W)) as [player|] eqn:Ep;
      [|split; [apply carried_all_refl|reflexivity]].
    destruct (within _ _ _ _ _); [|apply IH].
    unfold run.
    set (W1 := with_players W _).
    destruct (spawnPowerup W1 (powerups W1) (Some i) (draws W1)) as [fresh d].
    set (W2 := with_powerups _ _).
    destruct (IH (S i) W2) as [IH1 IH2]. split.
    + eapply carried_all_trans; [|exact IH1].
      apply (players_set_carried (players W) peer player); [exact Ep|].
      destruct powerup as [id [] x y]; cbn; repeat split; auto.
    + rewrite IH2. reflexivity.
Qed.

Lemma grassLoop_players (n i : nat) (px py : Q) (magnetOn : bool) (md : Q)
    (W : World) (count : Z) :
  players (fst (grassLoop n i px py magnetOn md W count)) = players W /\
  enemies (fst (grassLoop n i px py magnetOn md W count)) = enemies W.
Proof.
  revert i W count. induction n as [|n IH]; intros i W count; cbn [grassLoop].
  - split; reflexivity.
  - destruct (grasses W !! i) as [grass|]; [|split; reflexivity].
    cbv zeta. unfold run.
    destruct (within px py (g_x grass) (g_y grass) getGrassTouchRadius).
    + destruct (spawnGrass W (grasses W) (Some i) (draws W)) as [fresh d].
      destruct (IH (S i) (with_grasses (with_draws W d)
                            (<[i := fresh]> (grasses (with_draws W d))))
                  (count + 1)%Z) as [IH1 IH2].
      rewrite IH1, IH2. split; reflexivity.
    + match goal with
      | |- context [with_grasses W (<[i := ?g]> (grasses W))] =>
          set (W1 := with_grasses W (<[i := g]> (grasses W)))
      end.
      match goal with
      | |- context [if ?c then _ else _] => destruct c
      end.
      * destruct (spawnGrass W1 (grasses W1) (Some i) (draws W1)) as [fresh d].
        destruct (IH (S i) (with_grasses (with_draws W1 d)
                              (<[i := fresh]> (grasses (with_draws W1 d))))
                    (count + 1)%Z) as [IH1 IH2].
        rewrite IH1, IH2. split; reflexivity.
      * destruct (IH (S i) W1 count) as [IH1 IH2].
        rewrite IH1, IH2. split; reflexivity.
Qed.

Lemma moveAndCollect_carried (W : World) (peer : string) (player : ServerPlayer)
    (dx dy : Q) (now : Z) :
  players_get peer (players W) = Some player ->
  Forall2 (carried Good) (players W)
    (players (fst (moveAndCollect W peer player dx dy now))) /\
  enemies (fst (moveAndCollect W peer player dx dy now)) = enemies W.
Proof using move_good.
  intros Hp. unfold moveAndCollect. cbv zeta.
  match goal with
  | |- context [powerupLoop ?n 0 peer now ?W1] =>
      set (W2 := powerupLoop n 0 peer now W1);
      destruct (powerupLoop_carried n 0 peer now W1) as [Hc He];
      fold W2 in Hc, He
  end.
  match goal with
  | |- context [grassLoop ?n 0 ?px ?py ?m ?md W2 0%Z] =>
      destruct (grassLoop_players n 0 px py m md W2 0%Z) as [Hg1 Hg2]
  end.
  rewrite Hg1, Hg2. split; [|exact He].
  eapply carried_all_trans; [|exact Hc].
  cbn [players with_players].
  apply (players_set_carried (players W) peer player); [exact Hp|].
  repeat (split; [reflexivity|]).
  cbn [snd pl_x pl_y set_pos]. apply move_good.
Qed.

Lemma awardPoints_carried (W : World) (player : ServerPlayer) (n now : Z) :
  Forall2 (carried Good) (players W) (players (fst (awardPoints W player n now))) /\
  enemies (fst (awardPoints W player n now)) = enemies W.
Proof.
  unfold awardPoints. cbv zeta. destruct (_ >? 0)%Z; cbn.
  - split; [apply applyScore_carried|reflexivity].
  - split; [apply carried_all_refl|reflexivity].
Qed.

Lemma players_get_elem (k : string) (p : ServerPlayer)
    (ps : list (string * ServerPlayer)) :
  players_get k ps = Some p -> (k, p) ∈ ps.
Proof.
  induction ps as [|[k0 p0] ps IH]; cbn; [discriminate|].
  destruct (String.eqb k0 k) eqn:E.
  - intros [= ->]. apply String.eqb_eq in E. subst. left.
  - intros H. right. apply IH, H.
Qed.

Lemma players_set_elem (k : string) (p : ServerPlayer)
    (ps : list (string * ServerPlayer)) :
  (k, p) ∈ players_set k p ps.
Proof.
  induction ps as [|[k0 p0] ps IH]; cbn; [left|].
  destruct (String.eqb k0 k) eqn:E.
  - apply String.eqb_eq in E. subst. left.
  - right. exact IH.
Qed.

Lemma broadcastWorld_wellSent (W : World) (now : Z) :
  Forall (wellSent W) (broadcastWorld W now).
Proof.
  unfold broadcastWorld, sendToPeer. apply Forall_forall. intros eff Hin.
  apply list_elem_of_In, in_flat_map in Hin as (player & Hp & Heff).
  destruct Heff as [<-|[]]. cbn. split; [|exists now; reflexivity].
  unfold players_values in Hp. apply in_map_iff in Hp as (kp & <- & Hkp).
  exists kp. split; [apply list_elem_of_In, Hkp|right; reflexivity].
Qed.

Lemma updateEnemies_effects (W : World) (W' : World) :
  Forall (wellSent W') (snd (fst (updateEnemies W))).
Proof.
  unfold updateEnemies. destruct (_ || _); [constructor|].
  destruct (enemyLoop _ _ _ _ _) as [[W1 hit] changed].
  pose proof (resetAll_effects W1 hit) as He.
  destruct (resetAll W1 hit) as [W2 effects]. cbn [fst snd] in *. subst effects.
  apply Forall_forall. intros eff Hin.
  apply list_elem_of_fmap in Hin as (u & -> & _). exact I.
Qed.

(** One event: what it does to the players and the enemies, and where its
    messages go. *)
Lemma step_spec (W : World) (e : Event) :
  playersStep Good e (players W) (players (fst (step W e))) /\
  keepsEnemies (enemies W) (enemies (fst (step W e))) /\
  Forall (wellSent (fst (step W e))) (snd (step W e)).
Proof using move_good spawn_good.
  destruct e as [peer context|timer now|peer now
                |peer payload now sentAt|now|userId result now
                |userId result now]; cbn [step playersStep].
  - (* open *)
    unfold open. destruct (ctx_userId context) as [userId|];
      [|cbn; split; [apply carried_all_refl|split;
         [apply keepsEnemies_refl|repeat constructor]]].
    destruct (String.eqb userId "");
      [cbn; split; [apply carried_all_refl|split;
         [apply keepsEnemies_refl|repeat constructor]]|].
    unfold hydrateUserScore, hydrateUserColor.
    repeat case_bool_decide; cbn;
      (split; [apply carried_all_refl|split;
         [apply keepsEnemies_refl|repeat constructor]]).
  - (* join timer *)
    unfold joinTimerFired. cbv zeta. destruct (negb _).
    { cbn. split; [left; reflexivity|split;
        [apply keepsEnemies_refl|constructor]]. }
    unfold run. cbn [enemies with_pendingJoinTimers draws].
    destruct (spawn_good (enemies W) (draws W)) as [Hg _].
    destruct (spawnPlayerPosition (enemies W) (draws W)) as [[x y] d].
    cbn [fst snd] in *. split; [|split].
    + right. eexists. split; [reflexivity|]. cbn. auto.
    + apply keepsEnemies_refl.
    + constructor.
      * cbn. split; [|exact I]. eexists. split; [apply players_set_elem|].
        left. reflexivity.
      * apply broadcastWorld_wellSent.
  - (* close *)
    unfold close.
    destruct (pendingJoinTimers W !! peer) as [pendingTimer|];
      cbn [players with_pendingJoinTimers fst snd enemies];
      destruct (players_get peer (players W)) as [closedPlayer|];
      cbn [players with_players with_userColors with_userScores enemies fst snd];
      try destruct (hasConnectedPlayer _ _);
      cbn [players with_players with_userColors with_userScores enemies fst snd];
      (split; [reflexivity|split; [apply keepsEnemies_refl|]]);
      repeat (apply Forall_cons; split; [exact I|]);
      cbn [app]; first [apply broadcastWorld_wellSent | constructor
                        | (constructor; [exact I|]);
                          first [apply broadcastWorld_wellSent|constructor]].
  - (* message *)
    unfold message.
    destruct (players_get peer (players W)) as [player|] eqn:Ep;
      [|cbn; split; [apply carried_all_refl|split;
         [apply keepsEnemies_refl|constructor]]].
    destruct payload as [[color|dx dy|]|].
    + destruct (sanitizeColor color) as [nextColor|].
      * cbn [fst snd players enemies with_players with_userColors].
        split; [apply applyColor_carried|].
        split; [apply keepsEnemies_refl|].
        constructor; [exact I|]. apply broadcastWorld_wellSent.
      * cbn. split; [apply carried_all_refl|].
        split; [apply keepsEnemies_refl|].
        constructor; [|constructor]. split; [|exact I].
        exists (peer, player). split; [apply players_get_elem, Ep|left; reflexivity].
    + destruct (moveComponent dx) as [| |qx|];
        try (cbn; split; [apply carried_all_refl|split;
               [apply keepsEnemies_refl|constructor]]).
      destruct (moveComponent dy) as [| |qy|];
        try (cbn; split; [apply carried_all_refl|split;
               [apply keepsEnemies_refl|constructor]]).
      destruct (_ && _);
        [cbn; split; [apply carried_all_refl|split;
               [apply keepsEnemies_refl|constructor]]|].
      destruct (moveAndCollect_carried W peer player qx qy now Ep) as [Hm1 Hm2].
      destruct (moveAndCollect W peer player qx qy now) as [W1 count].
      cbn [fst snd] in Hm1, Hm2.
      set (player1 := default player (players_get peer (players W1))).
      destruct (awardPoints_carried W1 player1 count now) as [Ha1 Ha2].
      assert (Haeff : forall W', Forall (wellSent W')
                                   (snd (awardPoints W1 player1 count now))).
      { intros W'. unfold awardPoints, persistScoreDelta. cbv zeta.
        destruct (_ >? 0)%Z; cbn; [|constructor].
        destruct (_ <=? 0)%Z; repeat constructor. }
      destruct (awardPoints W1 player1 count now) as [W2 e2].
      cbn [fst snd] in Ha1, Ha2, Haeff.
      destruct (updateEnemies_carried W2) as [Hu1 Hu2].
      pose proof (updateEnemies_effects W2) as Hueff.
      destruct (updateEnemies W2) as [[W3 e3] changed].
      cbn [fst snd] in *. split; [|split].
      * eapply carried_all_trans; [exact Hm1|].
        eapply carried_all_trans; [exact Ha1|exact Hu1].
      * rewrite <- Hm2, <- Ha2. exact Hu2.
      * apply Forall_app. split; [apply Haeff|].
        apply Forall_app. split; [apply Hueff|apply broadcastWorld_wellSent].
    + cbn. split; [apply carried_all_refl|].
      split; [apply keepsEnemies_refl|constructor].
    + cbn. split; [apply carried_all_refl|].
      split; [apply keepsEnemies_refl|].
      constructor; [|constructor]. split; [|exact I].
      exists (peer, player). split; [apply players_get_elem, Ep|left; reflexivity].
  - (* enemy tick *)
    unfold enemyTicker.
    destruct (updateEnemies_carried W) as [Hu1 Hu2].
    pose proof (updateEnemies_effects W) as Hueff.
    destruct (updateEnemies W) as [[W1 e1] changed]. cbn [fst snd] in *.
    split; [exact Hu1|]. split; [exact Hu2|].
    apply Forall_app. split; [apply Hueff|].
    destruct changed; [apply broadcastWorld_wellSent|constructor].
  - (* score loaded *)
    unfold scoreLoaded. destruct result as [row|].
    + cbn [fst snd players enemies with_players with_userScores
             with_userScoreLoads].
      split; [apply applyScore_carried|]. split; [apply keepsEnemies_refl|].
      destruct (hasConnectedPlayer _ _); [|constructor].
      match goal with
      | |- Forall (wellSent ?W') (broadcastWorld ?W0 now) =>
          change (Forall (wellSent W0) (broadcastWorld W0 now))
      end.
      apply broadcastWorld_wellSent.
    + cbn. split; [apply carried_all_refl|].
      split; [apply keepsEnemies_refl|repeat constructor].
  - (* colour loaded *)
    unfold colorLoaded. destruct result as [row|].
    + cbn [fst snd players enemies with_players with_userColors
             with_userColorLoads].
      split; [apply applyColor_carried|]. split; [apply keepsEnemies_refl|].
      destruct (hasConnectedPlayer _ _); [|constructor].
      match goal with
      | |- Forall (wellSent ?W') (broadcastWorld ?W0 now) =>
          change (Forall (wellSent W0) (broadcastWorld W0 now))
      end.
      apply broadcastWorld_wellSent.
    + cbn. split; [apply carried_all_refl|].
      split; [apply keepsEnemies_refl|repeat constructor].
Qed.

End Respawn.

(** ** The enemy tick *)

Lemma enemyLoop_enemies_length (n i : nat) (W : World) (hit : list string)
    (changed : bool) :
  length (enemies (fst (fst (enemyLoop n i W hit changed)))) = length (enemies W).
Proof.
  destruct (enemyLoop_spec (clear PLAYER_RADIUS)
              yields_spawnPlayerPosition_clear n i W hit changed)
    as (_ & He & _).
  symmetry. eapply Forall2_length. exact He.
Qed.

(** Running the loop for [a + b] enemies is running it for [a] and then for
    [b] more. *)
Lemma enemyLoop_app (a b i : nat) (W : World) (hit : list string)
    (changed : bool) :
  enemyLoop (a + b) i W hit changed =
  let r := enemyLoop a i W hit changed in
  enemyLoop b (i + a) (fst (fst r)) (snd (fst r)) (snd r).
Proof.
  revert i W hit changed. induction a as [|a IH]; intros i W hit changed.
  - cbn. rewrite Nat.add_0_r. reflexivity.
  - cbn [Nat.add enemyLoop]. destruct (enemies W !! i) as [enemy|] eqn:Ei.
    + cbv zeta.
      destruct (hitLoop _ _ _ _ _ _) as [[[ps hit1] changed2] d].
      rewrite IH. cbv zeta. rewrite Nat.add_succ_r. reflexivity.
    + cbn [fst snd]. destruct b as [|b]; [reflexivity|].
      cbn [enemyLoop].
      rewrite (lookup_ge_None_2 (enemies W) (i + S a)); [reflexivity|].
      apply lookup_ge_None_1 in Ei. lia.
Qed.

(** *** Respawns are drawn during the invocation *)

Lemma for_return_grows {A} (count from : nat) (body : nat -> Rand (option A))
    (rest : Rand A) :
  (forall i m, (m <= snd (body i m))%nat) ->
  (forall m, (m <= snd (rest m))%nat) ->
  forall m, (m <= snd (for_return count from body rest m))%nat.
Proof.
  intros Hbody Hrest. revert from.
  induction count as [|count IH]; intros from m; cbn [for_return].
  - apply Hrest.
  - unfold bind. pose proof (Hbody from m) as Hb.
    destruct (body from m) as [[a|] m1]; cbn [snd] in *.
    + exact Hb.
    + etransitivity; [exact Hb|apply IH].
Qed.

Lemma for_return_draws {A} (count from : nat) (body : nat -> Rand (option A))
    (rest : Rand A) :
  (forall i m, (m < snd (body i m))%nat) ->
  (forall m, (m <= snd (rest m))%nat) ->
  forall m, (m < snd (for_return (S count) from body rest m))%nat.
Proof.
  intros Hbody Hrest m. cbn [for_return]. unfold bind.
  pose proof (Hbody from m) as Hb.
  pose proof (for_return_grows count (S from) body rest
                (fun i m' => Nat.lt_le_incl _ _ (Hbody i m')) Hrest) as Hg.
  destruct (body from m) as [[a|] m1]; cbn [snd] in *.
  - exact Hb.
  - eapply Nat.lt_le_trans; [exact Hb|apply Hg].
Qed.

(** A call of [spawnPlayerPosition] reads at least one random number. *)
Lemma spawnPlayerPosition_draws (es : list EnemySpot) (n : nat) :
  (n < snd (spawnPlayerPosition es n))%nat.
Proof.
  unfold spawnPlayerPosition. change 32%nat with (S 31).
  apply for_return_draws.
  - intros i m. cbv beta iota zeta delta [bind randomBetween random ret snd].
    lia.
  - apply for_return_grows.
    + intros i m. unfold randomStreet.
      cbv beta iota zeta delta [bind randomBetween random ret].
      match goal with
      | |- context [if ?c then _ else _] => destruct c
      end; cbn [snd]; lia.
    + intros m. cbn. lia.
Qed.

Lemma respawnedWithin_widen (lo lo' hi hi' : nat) (x y : Q) :
  (lo' <= lo)%nat -> (hi <= hi')%nat ->
  respawnedWithin lo hi x y -> respawnedWithin lo' hi' x y.
Proof.
  intros Hlo Hhi (es & n & Hn & Hxy). exists es, n. split; [lia|exact Hxy].
Qed.

Lemma keepsFresh_same (mid hi : nat) (kp : string * ServerPlayer) :
  (mid <= hi)%nat -> keepsFresh mid hi kp kp.
Proof.
  intros Hle. split; [reflexivity|]. split; [reflexivity|].
  intros lo _. apply respawnedWithin_widen; [lia|exact Hle].
Qed.

Lemma keepsFresh_all_same (mid hi : nat) (ps : list (string * ServerPlayer)) :
  (mid <= hi)%nat -> Forall2 (keepsFresh mid hi) ps ps.
Proof.
  intros Hle. induction ps; constructor; [apply keepsFresh_same, Hle|assumption].
Qed.

Lemma keepsFresh_all_trans (lo mid hi : nat)
    (ps1 ps2 ps3 : list (string * ServerPlayer)) :
  (lo <= mid)%nat ->
  Forall2 (keepsFresh lo mid) ps1 ps2 -> Forall2 (keepsFresh mid hi) ps2 ps3 ->
  Forall2 (keepsFresh lo hi) ps1 ps3.
Proof.
  intros Hle H12. revert ps3.
  induction H12 as [|a b l1 l2 Hab H12 IH]; intros ps3 H23.
  - inversion H23. constructor.
  - inversion H23 as [|? c ? l3 Hbc H23']; subst. constructor; [|apply IH, H23'].
    destruct Hab as (A1 & A2 & A3). destruct Hbc as (B1 & B2 & B3).
    split; [congruence|]. split; [congruence|].
    intros lo0 Hlo0 Hfresh. apply B3; [lia|]. apply A3; assumption.
Qed.

Lemma keepsFresh_get_fwd (mid hi : nat) (ps ps' : list (string * ServerPlayer))
    (k : string) (p : ServerPlayer) :
  Forall2 (keepsFresh mid hi) ps ps' -> players_get k ps = Some p ->
  exists p', players_get k ps' = Some p' /\ keepsFresh mid hi (k, p) (k, p').
Proof.
  induction 1 as [|[k0 p0] [k1 p1] ps ps' Hkp HF IH]; cbn [players_get];
    [discriminate|].
  pose proof Hkp as (Hk & Hrest). cbn [fst snd] in Hk, Hrest. subst k1.
  destruct (String.eqb k0 k) eqn:E.
  - intros [= <-]. exists p1. split; [reflexivity|].
    split; [reflexivity|exact Hrest].
  - exact IH.
Qed.

Lemma hitLoop_fresh (enemy : EnemySpot) (es : list EnemySpot)
    (ps : list (string * ServerPlayer)) (hit : list string) (changed : bool)
    (n : nat) :
  let r := hitLoop enemy es ps hit changed n in
  (n <= snd r)%nat /\
  Forall2 (keepsFresh n (snd r)) ps (fst (fst (fst r))) /\
  forall k p, players_get k ps = Some p -> hitBy enemy p = true ->
    exists p', players_get k (fst (fst (fst r))) = Some p' /\
               respawnedWithin n (snd r) (pl_x p') (pl_y p').
Proof.
  revert hit changed n. induction ps as [|[k0 p0] ps IH]; intros hit changed n.
  - cbn. split; [lia|]. split; [constructor|]. intros k p [=].
  - cbn [hitLoop]. destruct (hitBy enemy p0) eqn:Ehit.
    + unfold bind. pose proof (spawnPlayerPosition_draws es n) as Hdraw.
      destruct (spawnPlayerPosition es n) as [[x y] n1] eqn:Espawn.
      cbn [fst snd] in Hdraw.
      specialize (IH (addHit hit (pl_userId p0)) true n1).
      destruct (hitLoop enemy es ps (addHit hit (pl_userId p0)) true n1)
        as [[[ps1 hit1] c1] n2].
      cbn [fst snd ret] in *. destruct IH as (IH1 & IH2 & IH3).
      assert (Hhere : respawnedWithin n n2 x y).
      { exists es, n. split; [lia|]. rewrite Espawn. reflexivity. }
      split; [lia|]. split.
      * constructor.
        -- split; [reflexivity|]. split; [reflexivity|].
           intros lo Hlo _. cbn [snd set_pos pl_x pl_y].
           eapply respawnedWithin_widen; [exact Hlo| |exact Hhere]. lia.
        -- eapply keepsFresh_all_trans; [|apply keepsFresh_all_same|exact IH2];
             lia.
      * intros k p Hget Hh. cbn [players_get] in Hget |- *.
        destruct (String.eqb k0 k).
        -- injection Hget as <-. eexists. split; [reflexivity|].
           cbn [set_pos pl_x pl_y]. exact Hhere.
        -- destruct (IH3 k p Hget Hh) as (p' & Hp' & Hf).
           exists p'. split; [exact Hp'|].
           eapply respawnedWithin_widen; [| |exact Hf]; lia.
    + unfold bind. specialize (IH hit changed n).
      destruct (hitLoop enemy es ps hit changed n) as [[[ps1 hit1] c1] n2].
      cbn [fst snd ret] in *. destruct IH as (IH1 & IH2 & IH3).
      split; [exact IH1|]. split.
      * constructor; [apply keepsFresh_same, IH1|exact IH2].
      * intros k p Hget Hh. cbn [players_get] in Hget |- *.
        destruct (String.eqb k0 k).
        -- injection Hget as <-. rewrite Hh in Ehit. discriminate Ehit.
        -- apply (IH3 k p Hget Hh).
Qed.

Lemma enemyLoop_fresh (n i : nat) (W : World) (hit : list string) (changed : bool) :
  let W' := fst (fst (enemyLoop n i W hit changed)) in
  (draws W <= draws W')%nat /\
  Forall2 (keepsFresh (draws W) (draws W')) (players W) (players W').
Proof.
  revert i W hit changed. induction n as [|n IH]; intros i W hit changed.
  - cbn. split; [lia|apply keepsFresh_all_same; lia].
  - cbn [enemyLoop]. destruct (enemies W !! i) as [enemy|] eqn:Ei;
      [|cbn; split; [lia|apply keepsFresh_all_same; lia]].
    cbv zeta.
    set (enemy1 := steppedEnemy enemy (players_values W)).
    set (W1 := with_enemies W (<[i := enemy1]> (enemies W))).
    pose proof (hitLoop_fresh enemy1 (enemies W1) (players W1) hit
                  (st_moved (moveEnemy enemy (players_values W)) || changed)
                  (draws W1)) as Hh.
    destruct (hitLoop enemy1 (enemies W1) (players W1) hit
                (st_moved (moveEnemy enemy (players_values W)) || changed)
                (draws W1)) as [[[ps hit1] changed2] d].
    cbn [fst snd] in Hh. destruct Hh as (Hh1 & Hh2 & _).
    specialize (IH (S i) (with_draws (with_players W1 ps) d) hit1 changed2).
    cbv zeta in IH. cbn [draws players with_draws with_players] in IH.
    destruct IH as [IH1 IH2].
    subst W1. cbn [draws players with_enemies] in Hh1, Hh2.
    split; [lia|].
    eapply keepsFresh_all_trans; [exact Hh1|exact Hh2|exact IH2].
Qed.

Lemma resetAll_draws (W : World) (hit : list string) :
  draws (fst (resetAll W hit)) = draws W.
Proof.
  revert W. induction hit as [|u hit IH]; intros W; cbn [resetAll].
  - reflexivity.
  - unfold resetUserScore. set (W2 := with_players _ _).
    specialize (IH W2). destruct (resetAll W2 hit) as [W3 e3].
    cbn [fst] in *. exact IH.
Qed.

(** C2. Take any point of one [updateEnemies] invocation: the loop has
    handled the first [j] enemies, enemy [j] makes its step, and connection
    [k]'s player is then within [PLAYER_RADIUS + ENEMY_RADIUS] of it.  When
    the invocation returns, the score of that player's user is 0 in the score
    map and on every live connection of the user, and the player has been
    given a new position: the result of a [spawnPlayerPosition()] call made
    during this invocation (its random numbers are drawn after the
    invocation started and before it returned), whose circle intersects no
    building. *)
Theorem enemy_hit_resets_and_relocates (W : World) (j : nat) (k : string)
    (enemy : EnemySpot) (p : ServerPlayer) :
  let Wj := fst (fst (enemyLoop j 0 W [] false)) in
  enemies Wj !! j = Some enemy ->
  players_get k (players Wj) = Some p ->
  hitBy (steppedEnemy enemy (players_values Wj)) p = true ->
  let W' := fst (fst (updateEnemies W)) in
  userScores W' !! pl_userId p = Some 0%Z /\
  (forall kq, kq ∈ players W' -> pl_userId (snd kq) = pl_userId p ->
     pl_score (snd kq) = 0%Z) /\
  exists p', players_get k (players W') = Some p' /\
             pl_userId p' = pl_userId p /\
             clear PLAYER_RADIUS (pl_x p') (pl_y p') /\
             (draws W < draws W')%nat /\
             exists es n, (draws W <= n < draws W')%nat /\
                          fst (spawnPlayerPosition es n) = (pl_x p', pl_y p').
Proof.
  intros Wj Hj Hk Hhit W'.
  pose proof (enemyLoop_spec (clear PLAYER_RADIUS)
                yields_spawnPlayerPosition_clear j 0 W [] false)
    as (Hpj & _ & _ & _).
  pose proof (enemyLoop_fresh j 0 W [] false) as [Hdj _].
  pose proof (enemyLoop_enemies_length j 0 W [] false) as Hlen.
  cbv zeta in Hdj. fold Wj in Hpj, Hlen, Hdj.
  assert (Hjlt : (j < length (enemies W))%nat).
  { rewrite <- Hlen. eapply lookup_lt_Some. exact Hj. }
  assert (Hps : players W <> []).
  { intros Hnil. rewrite Hnil in Hpj. apply Forall2_nil_inv_l in Hpj.
    rewrite Hpj in Hk. discriminate. }
  assert (Hguard :
    Nat.eqb (length (players W)) 0 || Nat.eqb (length (enemies W)) 0 = false).
  { destruct (players W); [contradiction|].
    destruct (enemies W); [cbn in Hjlt; lia|]. reflexivity. }
  subst W'. unfold updateEnemies. rewrite Hguard.
  assert (Hsplit : length (enemies W) = (j + S (length (enemies W) - S j))%nat)
    by lia.
  rewrite Hsplit, enemyLoop_app. cbv zeta. cbn [Nat.add].
  destruct (enemyLoop j 0 W [] false) as [[Wj' hitj] changedj] eqn:Eloop.
  cbn [fst snd] in *. subst Wj.
  cbn [enemyLoop]. rewrite Hj. cbv zeta.
  set (enemy1 := steppedEnemy enemy (players_values Wj')) in *.
  set (W1 := with_enemies Wj' (<[j := enemy1]> (enemies Wj'))).
  pose proof (hitLoop_spec (clear PLAYER_RADIUS) yields_spawnPlayerPosition_clear
                enemy1 (enemies W1) (players W1) hitj
                (st_moved (moveEnemy enemy (players_values Wj')) || changedj)
                (draws W1)) as Hh.
  pose proof (hitLoop_fresh enemy1 (enemies W1) (players W1) hitj
                (st_moved (moveEnemy enemy (players_values Wj')) || changedj)
                (draws W1)) as Hf.
  destruct (hitLoop enemy1 (enemies W1) (players W1) hitj
              (st_moved (moveEnemy enemy (players_values Wj')) || changedj)
              (draws W1)) as [[[ps hit1] changed2] d].
  cbn [fst snd] in Hh, Hf. destruct Hh as (Hh1 & _ & _ & Hh4).
  destruct Hf as (Hd1 & _ & Hf3).
  destruct (Hh4 k p Hk Hhit) as (Hu1 & p1 & Hp1 & Hgood1).
  destruct (Hf3 k p Hk Hhit) as (p1f & Hp1f & Hfresh1).
  rewrite Hp1 in Hp1f. injection Hp1f as <-.
  destruct (carried_get_fwd (clear PLAYER_RADIUS) _ _ k p Hh1 Hk)
    as (p1' & Hp1' & _ & _ & _ & Hu1' & _).
  rewrite Hp1 in Hp1'. injection Hp1' as <-.
  set (W2 := with_draws (with_players W1 ps) d).
  pose proof (enemyLoop_spec (clear PLAYER_RADIUS)
                yields_spawnPlayerPosition_clear
                (length (enemies W) - S j) (S j) W2 hit1 changed2)
    as (Hrest1 & _ & Hrest3 & _).
  pose proof (enemyLoop_fresh (length (enemies W) - S j) (S j) W2 hit1 changed2)
    as Hrestf.
  destruct (enemyLoop (length (enemies W) - S j) (S j) W2 hit1 changed2)
    as [[W3 hit3] changed3].
  cbn [fst snd] in *. cbv zeta in Hrestf.
  subst W2. cbn [draws players with_draws with_players] in Hrestf.
  destruct Hrestf as [Hd3 Hkeep3].
  subst W1. cbn [draws with_enemies] in Hd1, Hfresh1.
  pose proof (resetAll_zeroes W3 hit3 (pl_userId p) (Hrest3 _ Hu1)) as [Hz1 Hz2].
  pose proof (resetAll_carried (clear PLAYER_RADIUS) W3 hit3) as [Hr1 _].
  pose proof (resetAll_carried (respawnedWithin (draws W) (draws W3)) W3 hit3)
    as [Hr1f _].
  pose proof (resetAll_draws W3 hit3) as Hd4.
  destruct (resetAll W3 hit3) as [W4 effects]. cbn [fst snd] in *.
  split; [exact Hz1|]. split.
  - intros kq Hin. rewrite Forall_forall in Hz2. apply Hz2. exact Hin.
  - destruct (carried_get_fwd (clear PLAYER_RADIUS) _ _ k p1 Hrest1 Hp1)
      as (p3 & Hp3 & _ & _ & _ & Hu3 & Hg3).
    destruct (keepsFresh_get_fwd _ _ _ _ k p1 Hkeep3 Hp1)
      as (p3f & Hp3f & _ & _ & Hfresh3).
    rewrite Hp3 in Hp3f. injection Hp3f as <-. cbn [snd] in Hfresh3.
    destruct (carried_get_fwd (clear PLAYER_RADIUS) _ _ k p3 Hr1 Hp3)
      as (p4 & Hp4 & _ & _ & _ & Hu4 & Hg4).
    destruct (carried_get_fwd (respawnedWithin (draws W) (draws W3))
                _ _ k p3 Hr1f Hp3)
      as (p4f & Hp4f & _ & _ & _ & _ & Hfresh4).
    rewrite Hp4 in Hp4f. injection Hp4f as <-.
    cbn [fst snd] in *. exists p4. split; [exact Hp4|]. split; [congruence|].
    split; [auto|].
    assert (Hfresh : respawnedWithin (draws W) (draws W3) (pl_x p3) (pl_y p3)).
    { eapply respawnedWithin_widen; [exact Hdj|apply Nat.le_refl|].
      apply (Hfresh3 (draws Wj')); [exact Hd1|exact Hfresh1]. }
    specialize (Hfresh4 Hfresh). rewrite Hd4.
    destruct Hfresh4 as (es & n & Hn & Hxy).
    split; [lia|]. exists es, n. split; [exact Hn|exact Hxy].
Qed.

(** C8. One [updateEnemies] invocation resets scores for a duplicate-free
    list of users: its effects are exactly one absolute write of 0 per user
    of that list, however many enemies hit the user and however many of the
    user's connections were hit. *)
Theorem score_reset_once_per_invocation (W : World) :
  exists hitUserIds : list string,
    NoDup hitUserIds /\
    snd (fst (updateEnemies W)) = map (fun u => DbSetScore u 0) hitUserIds /\
    forall u,
      (length (List.filter (isScoreReset u) (snd (fst (updateEnemies W)))) <= 1)%nat.
Proof.
  unfold updateEnemies. destruct (_ || _).
  { exists []. cbn. split; [constructor|]. split; [reflexivity|]. intros; lia. }
  pose proof (enemyLoop_spec (clear PLAYER_RADIUS)
                yields_spawnPlayerPosition_clear
                (length (enemies W)) 0 W [] false) as (_ & _ & _ & Hnd).
  destruct (enemyLoop (length (enemies W)) 0 W [] false) as [[W1 hit] changed].
  cbn [fst snd] in Hnd. specialize (Hnd (NoDup_nil_2 (A:=string))).
  pose proof (resetAll_effects W1 hit) as He.
  destruct (resetAll W1 hit) as [W2 effects]. cbn [fst snd] in *. subst effects.
  exists hit. split; [exact Hnd|]. split; [reflexivity|].
  intros u. clear -Hnd. induction Hnd as [|v hit Hv Hnd IH]; [cbn; lia|].
  cbn [map List.filter isScoreReset]. destruct (String.eqb v u) eqn:E.
  - apply String.eqb_eq in E. subst v. cbn [andb Z.eqb length].
    assert (Hnone : List.filter (isScoreReset u)
                      (map (fun u0 => DbSetScore u0 0) hit) = []).
    { clear -Hv. induction hit as [|w hit IHh]; [reflexivity|].
      cbn [map List.filter isScoreReset]. destruct (String.eqb w u) eqn:E.
      - apply String.eqb_eq in E. subst w. exfalso. apply Hv. left.
      - cbn [andb]. apply IHh. intros Hin. apply Hv. right. exact Hin. }
    rewrite Hnone. cbn. lia.
  - cbn [andb]. exact IH.
Qed.

(** ** Powerup timers *)

(** C3. [extendPowerup e now d] is [max e now + d]: on an expired timer it is
    exactly [now + d], it is monotone in the current expiry, and for a
    duration [d >= 0] it never shortens the buff, so that applying the same
    powerup again at a later time gives an expiry at least as late as
    applying it once.  With the server's durations, [applyPowerup] never
    moves any of the three timers of a player backwards. *)
Theorem extendPowerup_monotone (e now d : Z) :
  (extendPowerup e now d = Z.max e now + d /\
   (e <= now -> extendPowerup e now d = now + d) /\
   (forall e', e <= e' -> extendPowerup e now d <= extendPowerup e' now d) /\
   (0 <= d ->
    e <= extendPowerup e now d /\
    forall now2, now <= now2 ->
      extendPowerup e now d <= extendPowerup (extendPowerup e now d) now2 d) /\
   forall player type,
     pl_speedUntil player <= pl_speedUntil (applyPowerup player type now) /\
     pl_magnetUntil player <= pl_magnetUntil (applyPowerup player type now) /\
     pl_doubleUntil player <= pl_doubleUntil (applyPowerup player type now))%Z.
Proof.
  assert (Hmax : forall a b c : Z, extendPowerup a b c = (Z.max a b + c)%Z).
  { intros a b c. unfold extendPowerup.
    destruct (Z.gtb_spec a b); lia. }
  split; [apply Hmax|]. split; [rewrite Hmax; lia|].
  split; [intros e' He'; rewrite !Hmax; lia|].
  split; [intros Hd; split; [rewrite Hmax; lia|intros now2 H2; rewrite !Hmax; lia]|].
  intros player [] ; cbn; rewrite ?Hmax;
    unfold SPEED_DURATION_MS, MAGNET_DURATION_MS, DOUBLE_DURATION_MS; lia.
Qed.

(** ** Target selection *)



(** ** Scoring *)


(** ** Colours *)

Lemma hex_not_space (c : ascii) :
  isHexDigit c = true -> isWhiteSpace c = false /\ Ascii.eqb c "#" = false.
Proof.
  destruct c as [[] [] [] [] [] [] [] []]; cbn; intros H;
    first [discriminate H | split; reflexivity].
Qed.

Lemma hex_lower (c : ascii) :
  isHexDigit c = true ->
  isHexDigit (lowerChar c) = true /\ Ascii.eqb (lowerChar c) "#" = false.
Proof.
  destruct c as [[] [] [] [] [] [] [] []]; cbn; intros H;
    first [discriminate H | split; reflexivity].
Qed.

Lemma sanitizeColor_short (withHash : bool) (r g b : ascii) :
  isHexDigit r = true -> isHexDigit g = true -> isHexDigit b = true ->
  sanitizeColor (V_string (shortHex withHash r g b)) =
  Some (doubledHex (lowerChar r) (lowerChar g) (lowerChar b)).
Proof.
  intros Hr Hg Hb.
  destruct (hex_not_space r Hr) as [Wr Nr].
  destruct (hex_not_space b Hb) as [Wb Nb].
  destruct (hex_lower r Hr) as [Lr Er].
  destruct (hex_lower g Hg) as [Lg _].
  destruct (hex_lower b Hb) as [Lb _].
  unfold sanitizeColor, shortHex, trim.
  destruct withHash.
  - cbn [trimStart isWhiteSpace]. unfold String.rev. cbn [String.rev_app].
    cbn [trimStart]. rewrite Wb. cbn [String.rev_app toLowerCase].
    change (lowerChar "#") with "#"%char.
    unfold hexMatch. change (Ascii.eqb "#" "#") with true.
    cbn [String.length Nat.eqb andb allHex].
    rewrite Lr, Lg, Lb. reflexivity.
  - cbn [trimStart]. rewrite Wr. unfold String.rev. cbn [String.rev_app].
    cbn [trimStart]. rewrite Wb. cbn [String.rev_app toLowerCase].
    unfold hexMatch. rewrite Er. cbn [String.length Nat.eqb andb allHex].
    rewrite Lr, Lg, Lb. reflexivity.
Qed.

Lemma applyColor_sets (userId color : string) (ps : list (string * ServerPlayer))
    (kq : string * ServerPlayer) :
  kq ∈ applyColorToConnectedPlayers userId color ps ->
  pl_userId (snd kq) = userId -> pl_color (snd kq) = color.
Proof.
  unfold applyColorToConnectedPlayers. intros Hin Hu.
  apply list_elem_of_fmap in Hin as ([k q] & -> & Hin). cbn [fst snd] in *.
  destruct (String.eqb (pl_userId q) userId) eqn:E; [reflexivity|].
  cbn in Hu. rewrite Hu, String.eqb_refl in E. discriminate.
Qed.

Lemma lower_is_hash (c : ascii) :
  Ascii.eqb (lowerChar c) "#" = true -> c = "#"%char.
Proof.
  destruct c as [[] [] [] [] [] [] [] []]; cbn; intros H;
    first [discriminate H | reflexivity].
Qed.

Lemma lower_keeps_hex (c : ascii) : isHexDigit (lowerChar c) = isHexDigit c.
Proof. destruct c as [[] [] [] [] [] [] [] []]; reflexivity. Qed.

Lemma toLowerCase_length (s : string) :
  String.length (toLowerCase s) = String.length s.
Proof. induction s as [|c r IH]; cbn; [reflexivity|rewrite IH; reflexivity]. Qed.

Lemma toLowerCase_allHex (s : string) : allHex (toLowerCase s) = allHex s.
Proof.
  induction s as [|c r IH]; cbn [toLowerCase allHex]; [reflexivity|].
  rewrite lower_keeps_hex, IH. reflexivity.
Qed.

Lemma hexMatch_length (n : nat) (s body : string) :
  hexMatch n s = Some body -> String.length body = n.
Proof.
  unfold hexMatch.
  set (b := match s with
            | String c r => if Ascii.eqb c "#" then r else s
            | EmptyString => s
            end).
  destruct (Nat.eqb (String.length b) n) eqn:En; cbn [andb]; [|discriminate].
  destruct (allHex b); [|discriminate].
  intros [= <-]. apply Nat.eqb_eq, En.
Qed.

(** The regular expression [/^#?([0-9a-f]{n})$/i] on a lower-cased text, in
    terms of the text itself. *)
Lemma hexMatch_lower_iff (n : nat) (u : string) :
  (exists body, hexMatch n (toLowerCase u) = Some body) <->
  exists digits,
    (u = digits \/ u = String "#" digits) /\
    String.length digits = n /\ allHex digits = true.
Proof.
  unfold hexMatch. split.
  - intros (body & Hbody). destruct u as [|c r].
    + cbn [toLowerCase] in Hbody. exists EmptyString.
      destruct (Nat.eqb _ n) eqn:En; cbn [andb] in Hbody; [|discriminate].
      split; [left; reflexivity|]. split; [apply Nat.eqb_eq, En|reflexivity].
    + cbn [toLowerCase] in Hbody.
      destruct (Ascii.eqb (lowerChar c) "#") eqn:Ec.
      * apply lower_is_hash in Ec. subst c. exists r.
        destruct (Nat.eqb _ n) eqn:En; cbn [andb] in Hbody; [|discriminate].
        destruct (allHex (toLowerCase r)) eqn:Eh; [|discriminate].
        split; [right; reflexivity|].
        rewrite toLowerCase_length in En. rewrite toLowerCase_allHex in Eh.
        split; [apply Nat.eqb_eq, En|exact Eh].
      * exists (String c r).
        change (String (lowerChar c) (toLowerCase r))
          with (toLowerCase (String c r)) in Hbody.
        destruct (Nat.eqb _ n) eqn:En; cbn [andb] in Hbody; [|discriminate].
        destruct (allHex (toLowerCase (String c r))) eqn:Eh; [|discriminate].
        split; [left; reflexivity|].
        rewrite toLowerCase_length in En. rewrite toLowerCase_allHex in Eh.
        split; [apply Nat.eqb_eq, En|exact Eh].
  - intros (digits & [->| ->] & Hlen & Hhex).
    + destruct digits as [|c r].
      * cbn [toLowerCase]. rewrite <- Hlen. cbn. eauto.
      * cbn [toLowerCase]. cbn [allHex] in Hhex.
        apply andb_prop in Hhex as [Hc Hr].
        destruct (hex_lower c Hc) as [_ Ec]. rewrite Ec.
        change (String (lowerChar c) (toLowerCase r))
          with (toLowerCase (String c r)).
        rewrite toLowerCase_length, toLowerCase_allHex, Hlen, Nat.eqb_refl.
        cbn [allHex]. rewrite Hc, Hr. cbn. eauto.
    + cbn [toLowerCase]. change (lowerChar "#") with "#"%char.
      change (Ascii.eqb "#" "#") with true. cbv iota.
      rewrite toLowerCase_length, toLowerCase_allHex, Hlen, Nat.eqb_refl, Hhex.
      cbn. eauto.
Qed.

(** [sanitizeColor] accepts exactly the colour texts. *)
Lemma sanitizeColor_accepts_iff (v : JsVal) :
  (exists c, sanitizeColor v = Some c) <-> hexColourValue v.
Proof.
  split.
  - intros (c & Hc). destruct v as [| |b|n|s|o]; try discriminate Hc.
    exists s. split; [reflexivity|]. unfold sanitizeColor in Hc.
    destruct (hexMatch 3 (toLowerCase (trim s))) as [body|] eqn:E3.
    + destruct (proj1 (hexMatch_lower_iff 3 (trim s)))
        as (digits & Hshape & Hlen & Hhex); [eauto|].
      exists digits. split; [exact Hshape|]. split; [left; exact Hlen|exact Hhex].
    + destruct (hexMatch 6 (toLowerCase (trim s))) as [full|] eqn:E6;
        [|discriminate Hc].
      destruct (proj1 (hexMatch_lower_iff 6 (trim s)))
        as (digits & Hshape & Hlen & Hhex); [eauto|].
      exists digits. split; [exact Hshape|]. split; [right; exact Hlen|exact Hhex].
  - intros (s & -> & digits & Hshape & [Hlen|Hlen] & Hhex); unfold sanitizeColor.
    + destruct (proj2 (hexMatch_lower_iff 3 (trim s))) as (body & Hbody);
        [exists digits; auto|].
      rewrite Hbody.
      pose proof (hexMatch_length _ _ _ Hbody) as Hbl.
      destruct body as [|r [|g [|b [|]]]]; try discriminate Hbl. eauto.
    + destruct (hexMatch 3 (toLowerCase (trim s))) as [body|] eqn:E3.
      * destruct (proj1 (hexMatch_lower_iff 3 (trim s)))
          as (digits3 & Hshape3 & Hlen3 & _); [eauto|].
        exfalso.
        assert (H6 : (String.length (trim s) = 6 \/ String.length (trim s) = 7)%nat)
          by (destruct Hshape as [->| ->]; cbn [String.length]; lia).
        assert (H3 : (String.length (trim s) = 3 \/ String.length (trim s) = 4)%nat)
          by (destruct Hshape3 as [->| ->]; cbn [String.length]; lia).
        lia.
      * destruct (proj2 (hexMatch_lower_iff 6 (trim s))) as (full & Hfull);
          [exists digits; auto|].
        rewrite Hfull. eauto.
Qed.

Lemma applyColor_recoloured (userId color : string)
    (ps : list (string * ServerPlayer)) (k : string) (p : ServerPlayer) :
  (k, p) ∈ ps -> pl_userId p = userId ->
  (k, set_color p color) ∈ applyColorToConnectedPlayers userId color ps.
Proof.
  intros Hin Hu. unfold applyColorToConnectedPlayers.
  apply list_elem_of_fmap. exists (k, p). split; [|exact Hin].
  cbn [fst snd]. rewrite Hu, String.eqb_refl. reflexivity.
Qed.

Lemma broadcastWorld_sends (W : World) (now : Z) (kq : string * ServerPlayer) :
  kq ∈ players W ->
  In (Send (pl_peer (snd kq)) (world_state (getWorldState W now)))
     (broadcastWorld W now).
Proof.
  intros Hin. unfold broadcastWorld, sendToPeer, players_values.
  apply in_flat_map. exists (snd kq). split; [|left; reflexivity].
  apply in_map. apply list_elem_of_In. exact Hin.
Qed.

(** C7. For a set-color intent of a registered player: a three-digit hex
    colour, with or without [#], in any case, is stored for the user as the
    lower-case six-digit colour with each digit doubled ("#ABC" gives
    "#aabbcc"), written to every connection of the user, persisted, and
    shown in the broadcast of the same intent: the snapshot is sent to every
    connection, the sender's included, it lists the sender, and every player
    of that user in it has the new colour.  A value that is not a colour
    text (anything but a string; a string that, once trimmed, is not an
    optional [#] followed by three or six hex digits), such as "zzz", gets
    one error reply to the sender: the state is unchanged and nothing else
    happens (no broadcast, no close).  [sanitizeColor] rejects exactly these
    values. *)
Theorem set_color_normalises_or_rejects (W : World) (peer : string)
    (player : ServerPlayer) (now sentAt : Z) :
  players_get peer (players W) = Some player ->
  (forall withHash r g b,
     isHexDigit r = true -> isHexDigit g = true -> isHexDigit b = true ->
     let color := doubledHex (lowerChar r) (lowerChar g) (lowerChar b) in
     let result :=
       message W peer
         (Some (payload_set_color (V_string (shortHex withHash r g b))))
         now sentAt in
     userColors (fst result) !! pl_userId player = Some color /\
     (forall kq, kq ∈ players (fst result) ->
        pl_userId (snd kq) = pl_userId player -> pl_color (snd kq) = color) /\
     snd result =
       DbSetColor (pl_userId player) color :: broadcastWorld (fst result) sentAt /\
     (forall s, s ∈ ws_players (getWorldState (fst result) sentAt) ->
        ps_userId s = pl_userId player -> ps_color s = color) /\
     In (Send (pl_peer player) (world_state (getWorldState (fst result) sentAt)))
        (snd result) /\
     (forall kq, kq ∈ players (fst result) ->
        In (Send (pl_peer (snd kq))
              (world_state (getWorldState (fst result) sentAt)))
           (snd result)) /\
     (exists s, s ∈ ws_players (getWorldState (fst result) sentAt) /\
        ps_connectionId s = pl_connectionId player /\
        ps_userId s = pl_userId player /\ ps_color s = color) /\
     length (ws_players (getWorldState (fst result) sentAt))
       = length (players W)) /\
  (shortHex true "A" "B" "C" = "#ABC" /\
   doubledHex (lowerChar "A") (lowerChar "B") (lowerChar "C") = "#aabbcc") /\
  (forall v, sanitizeColor v = None ->
     message W peer (Some (payload_set_color v)) now sentAt =
     (W, [Send peer (error "Invalid color format.")])) /\
  sanitizeColor (V_string "zzz") = None /\
  (forall v, ~ hexColourValue v ->
     message W peer (Some (payload_set_color v)) now sentAt =
     (W, [Send peer (error "Invalid color format.")])) /\
  (forall v, sanitizeColor v = None <-> ~ hexColourValue v) /\
  ~ hexColourValue (V_string "zzz").
Proof.
  intros Hplayer.
  assert (Hnone : forall v, sanitizeColor v = None <-> ~ hexColourValue v).
  { intros v. rewrite <- sanitizeColor_accepts_iff. split.
    - intros Hv (c & Hc). rewrite Hv in Hc. discriminate Hc.
    - intros Hv. destruct (sanitizeColor v) as [c|] eqn:E; [|reflexivity].
      contradiction Hv. eauto. }
  assert (Hreject : forall v, sanitizeColor v = None ->
            message W peer (Some (payload_set_color v)) now sentAt =
            (W, [Send peer (error "Invalid color format.")])).
  { intros v Hv. unfold message. rewrite Hplayer, Hv. reflexivity. }
  split; [|split; [split; reflexivity|split; [exact Hreject|split;
            [reflexivity|split; [|split; [exact Hnone|]]]]]].
  - intros withHash r g b Hr Hg Hb color result. subst result.
    unfold message. rewrite Hplayer.
    rewrite (sanitizeColor_short withHash r g b Hr Hg Hb). fold color.
    cbn [fst snd userColors players with_players with_userColors].
    set (W' := with_players _ _).
    assert (Hsender : (peer, set_color player color) ∈ players W').
    { subst W'. cbn [players with_players with_userColors].
      apply applyColor_recoloured; [|reflexivity].
      apply players_get_elem, Hplayer. }
    split; [apply lookup_insert_eq|]. split; [|split; [|split]].
    + intros kq Hin Hu. eapply applyColor_sets; eassumption.
    + reflexivity.
    + intros s Hs Hu. unfold getWorldState in Hs. cbn [ws_players] in Hs.
      unfold players_values in Hs. subst W'. cbn [players with_players] in Hs.
      apply list_elem_of_fmap in Hs as (q & -> & Hq).
      apply list_elem_of_fmap in Hq as (kq & -> & Hkq).
      cbn [snapshotPlayer ps_color ps_userId] in *.
      eapply applyColor_sets; eassumption.
    + split; [|split; [|split]].
      * unfold persistUserColor. cbn [app]. right.
        apply (broadcastWorld_sends W' sentAt (peer, set_color player color)).
        exact Hsender.
      * intros kq Hin. unfold persistUserColor. cbn [app]. right.
        apply broadcastWorld_sends. exact Hin.
      * exists (snapshotPlayer sentAt (set_color player color)).
        split; [|repeat split].
        unfold getWorldState, players_values. cbn [ws_players].
        apply list_elem_of_fmap. exists (set_color player color).
        split; [reflexivity|].
        apply list_elem_of_fmap. exists (peer, set_color player color).
        split; [reflexivity|exact Hsender].
      * unfold getWorldState, players_values. cbn [ws_players].
        subst W'. cbn [players with_players with_userColors].
        unfold applyColorToConnectedPlayers. rewrite !length_map. reflexivity.
  - intros v Hv. apply Hreject, Hnone, Hv.
  - apply Hnone. reflexivity.
Qed.

(** ** Move input *)

Lemma moveComponent_cases (v : JsVal) :
  match Number v with
  | NaN => moveComponent v = Fin 0
  | PosInf => moveComponent v = Fin 1
  | NegInf => moveComponent v = Fin (-1)
  | Fin q =>
      moveComponent v = Fin (clamp (if Qeq_bool q 0 then 0 else q) (-1) 1)
  end.
Proof.
  unfold moveComponent, clampNum, orZero.
  destruct (Number v) as [| |q|]; try reflexivity.
  destruct (Qeq_bool q 0); reflexivity.
Qed.

(** C10. A move component that [Number] turns into [NaN] counts as 0 and an
    infinite one as 1 or -1: the intent is handled exactly as if the client
    had sent that number, not answered with an error.  Every component ends
    up finite within [[-1, 1]].  When both components are 0 the intent does
    nothing at all: same state, no effect (no broadcast, no reply).  A
    payload that fails to parse, sent by a registered player, is answered
    with one error reply. *)
Theorem move_input_coercion (W : World) (peer : string) (now sentAt : Z) :
  (forall v, Number v = NaN -> moveComponent v = Fin 0) /\
  (forall v, Number v = PosInf -> moveComponent v = Fin 1) /\
  (forall v, Number v = NegInf -> moveComponent v = Fin (-1)) /\
  (forall v, exists q, moveComponent v = Fin q /\ -1 <= q <= 1) /\
  (forall dx dy,
     message W peer (Some (payload_move dx dy)) now sentAt =
     message W peer
       (Some (payload_move (handledAs (Number dx)) (handledAs (Number dy))))
       now sentAt) /\
  (forall dx dy qx qy,
     moveComponent dx = Fin qx -> moveComponent dy = Fin qy ->
     qx == 0 -> qy == 0 ->
     message W peer (Some (payload_move dx dy)) now sentAt = (W, [])) /\
  (forall player, players_get peer (players W) = Some player ->
     message W peer None now sentAt =
     (W, [Send peer (error "Invalid message payload.")])).
Proof.
  split; [|split; [|split; [|split; [|split; [|split]]]]].
  - intros v Hv. pose proof (moveComponent_cases v) as H. rewrite Hv in H.
    exact H.
  - intros v Hv. pose proof (moveComponent_cases v) as H. rewrite Hv in H.
    exact H.
  - intros v Hv. pose proof (moveComponent_cases v) as H. rewrite Hv in H.
    exact H.
  - intros v. pose proof (moveComponent_cases v) as H.
    destruct (Number v) as [| |q|]; eexists; (split; [exact H|]); try lra.
    apply clamp_bounds. lra.
  - intros dx dy.
    assert (Hsame : forall v, moveComponent (handledAs (Number v)) = moveComponent v).
    { intros v. unfold moveComponent. destruct (Number v); reflexivity. }
    unfold message. rewrite !Hsame. reflexivity.
  - intros dx dy qx qy Hx Hy Hqx Hqy. unfold message.
    destruct (players_get peer (players W)); [|reflexivity].
    rewrite Hx, Hy.
    apply Qeq_bool_iff in Hqx. apply Qeq_bool_iff in Hqy.
    rewrite Hqx, Hqy. reflexivity.
  - intros player Hp. unfold message. rewrite Hp. reflexivity.
Qed.

(** ** Connections waiting to join *)

Lemma spawn_anywhere (es : list EnemySpot) :
  yields (spawnPlayerPosition es) 256 (fun _ => True).
Proof.
  eapply yields_weaken; [apply yields_spawnPlayerPosition_clear|lia|auto].
Qed.

Lemma players_set_get_other (k k' : string) (p : ServerPlayer)
    (ps : list (string * ServerPlayer)) :
  k <> k' -> players_get k' (players_set k p ps) = players_get k' ps.
Proof.
  intros Hne. induction ps as [|[k0 p0] ps IH]; cbn.
  - destruct (String.eqb k k') eqn:E; [|reflexivity].
    apply String.eqb_eq in E. contradiction.
  - destruct (String.eqb k0 k) eqn:E; cbn.
    + apply String.eqb_eq in E. subst k0.
      destruct (String.eqb k k') eqn:E'; [|reflexivity].
      apply String.eqb_eq in E'. contradiction.
    + rewrite IH. reflexivity.
Qed.

Lemma players_set_get_same (k : string) (p : ServerPlayer)
    (ps : list (string * ServerPlayer)) :
  players_get k (players_set k p ps) = Some p.
Proof.
  induction ps as [|[k0 p0] ps IH]; cbn.
  - rewrite String.eqb_refl. reflexivity.
  - destruct (String.eqb k0 k) eqn:E; cbn; rewrite E; [reflexivity|exact IH].
Qed.

Lemma players_delete_get (k k' : string) (ps : list (string * ServerPlayer)) :
  players_get k' (players_delete k ps) =
  if String.eqb k k' then None else players_get k' ps.
Proof.
  unfold players_delete. induction ps as [|[k0 p0] ps IH]; cbn.
  - destruct (String.eqb k k'); reflexivity.
  - destruct (String.eqb k0 k) eqn:E; cbn.
    + rewrite IH. apply String.eqb_eq in E. subst k0.
      destruct (String.eqb k k'); reflexivity.
    + rewrite IH.
      destruct (String.eqb k0 k') eqn:E'; [|reflexivity].
      apply String.eqb_eq in E'. subst k0.
      rewrite String.eqb_sym, E. reflexivity.
Qed.

Lemma keyed_set (k : string) (p : ServerPlayer) (ps : list (string * ServerPlayer)) :
  pl_peer p = k -> pl_connectionId p = k -> keyed ps -> keyed (players_set k p ps).
Proof.
  intros Hp Hc HF. induction HF as [|[k0 p0] ps H0 HF IH]; cbn.
  - repeat constructor; assumption.
  - destruct (String.eqb k0 k) eqn:E.
    + apply String.eqb_eq in E. subst k0. constructor; [split; assumption|exact HF].
    + constructor; [exact H0|exact IH].
Qed.

Lemma keyed_delete (k : string) (ps : list (string * ServerPlayer)) :
  keyed ps -> keyed (players_delete k ps).
Proof.
  unfold keyed, players_delete. intros HF.
  induction HF as [|kp ps H0 HF IH]; cbn; [constructor|].
  destruct (negb _); [constructor; assumption|exact IH].
Qed.

Lemma keyed_carried (Good : Q -> Q -> Prop) (ps ps' : list (string * ServerPlayer)) :
  Forall2 (carried Good) ps ps' -> keyed ps -> keyed ps'.
Proof.
  induction 1 as [|kp kp' ps ps' (Hk & Hp & Hc & _) HF IH]; intros Hkeyed.
  - constructor.
  - inversion Hkeyed as [|? ? [H1 H2] Hrest]; subst.
    constructor; [split; congruence|apply IH, Hrest].
Qed.

(** One event that is not [peer]'s own join timer leaves [peer] outside the
    players, and neither writes to it nor lists it. *)
Lemma step_keeps_waiting (W : World) (peer : string) (e : Event) :
  keyed (players W) -> players_get peer (players W) = None ->
  isJoinOf peer e = false ->
  keyed (players (fst (step W e))) /\
  players_get peer (players (fst (step W e))) = None /\
  forall eff, eff ∈ snd (step W e) -> ~ reaches peer eff /\ ~ lists peer eff.
Proof.
  intros Hkeyed Hnone Hjoin.
  destruct (step_spec (fun _ _ => True) spawn_anywhere (fun _ _ _ _ _ => I) W e)
    as (Hps & _ & Hsent).
  set (W' := fst (step W e)) in *.
  assert (Hk' : keyed (players W') /\ players_get peer (players W') = None).
  { destruct e as [p context|[handle p userId displayName] now|p now
                  |p payload now sentAt|now|userId result now
                  |userId result now]; cbn [playersStep jt_peer] in Hps;
      try (split; [eapply keyed_carried; eassumption|];
           destruct (players_get peer (players W')) as [p'|] eqn:E;
             [|reflexivity];
           destruct (carried_get (fun _ _ => True) _ _ peer p' Hps E)
             as (p0 & Hp0 & _); congruence).
    - destruct Hps as [->|(player & -> & Hp & Hc & _)]; [auto|].
      cbn [isJoinOf jt_peer] in Hjoin. split; [apply keyed_set; assumption|].
      rewrite players_set_get_other; [exact Hnone|].
      intros ->. rewrite String.eqb_refl in Hjoin. discriminate.
    - rewrite Hps. split; [apply keyed_delete, Hkeyed|].
      rewrite players_delete_get, Hnone. destruct (String.eqb p peer);
        reflexivity. }
  destruct Hk' as [Hk1 Hk2]. split; [exact Hk1|]. split; [exact Hk2|].
  intros eff Hin. rewrite Forall_forall in Hsent. specialize (Hsent eff Hin).
  assert (Hkey : forall kp, kp ∈ players W' -> fst kp <> peer).
  { intros [k p] Hkp Heq. cbn in Heq. subst k.
    clear -Hkp Hk2. induction (players W') as [|[k0 p0] ps IH];
      [inversion Hkp|].
    cbn in Hk2. destruct (String.eqb k0 peer) eqn:E; [discriminate|].
    apply elem_of_cons in Hkp as [Heq|Hkp].
    - injection Heq as <- <-. rewrite String.eqb_refl in E. discriminate.
    - apply IH; assumption. }
  unfold keyed in Hk1. rewrite Forall_forall in Hk1.
  destruct eff as [q m| | | | | | | | |]; cbn in *;
    try (split; intros Hf; exact Hf).
  destruct Hsent as [(kp & Hkp & Hq) Hm]. split.
  - intros ->. destruct (Hk1 kp Hkp) as [Hp _].
    apply (Hkey kp Hkp). destruct Hq; congruence.
  - destruct m as [c|ws|msg]; try (intros Hf; exact Hf).
    destruct Hm as (t & ->). intros (s & Hs & Hc).
    unfold getWorldState, players_values in Hs. cbn [ws_players] in Hs.
    apply list_elem_of_fmap in Hs as (pl & -> & Hpl).
    apply list_elem_of_fmap in Hpl as (kp' & -> & Hkp').
    cbn [snapshotPlayer ps_connectionId] in Hc.
    destruct (Hk1 kp' Hkp') as [_ Hcid].
    apply (Hkey kp' Hkp'). congruence.
Qed.

(** C4, as the code has it.  From a state in which every player is filed
    under its own peer, a connection that is not yet a player is opened;
    with an authenticated context its join timer is pending, and whatever
    events follow before that timer fires, no message at all (so no
    world-state broadcast) is delivered to it, no broadcast lists it among
    the players, and it is still not a player. *)
Theorem waiting_connection_gets_no_broadcast (W : World) (peer : string)
    (context : PeerContext) (es : list Event) :
  keyed (players W) -> players_get peer (players W) = None ->
  Forall (fun e => isJoinOf peer e = false) es ->
  let W0 := fst (open W peer context) in
  let out := snd (open W peer context) ++ snd (steps W0 es) in
  (forall userId, ctx_userId context = Some userId -> userId <> "" ->
     is_Some (pendingJoinTimers W0 !! peer)) /\
  (forall eff, eff ∈ out -> ~ reaches peer eff /\ ~ lists peer eff) /\
  players_get peer (players (fst (steps W0 es))) = None.
Proof.
  intros Hkeyed Hnone Hes W0 out.
  split.
  { intros userId Hctx Hne. subst W0. unfold open. rewrite Hctx.
    destruct (String.eqb userId "") eqn:E;
      [apply String.eqb_eq in E; contradiction|].
    cbv zeta. destruct (hydrateUserScore W userId) as [W1 e1].
    destruct (hydrateUserColor W1 userId) as [W2 e2].
    cbn [fst pendingJoinTimers with_pendingJoinTimers].
    rewrite lookup_insert_eq. eexists. reflexivity. }
  destruct (step_keeps_waiting W peer (ev_open peer context) Hkeyed Hnone
              eq_refl) as (Hk0 & Hn0 & Hout0).
  cbn [step] in Hk0, Hn0, Hout0. fold W0 in Hk0, Hn0.
  assert (Hrest : (forall eff, eff ∈ snd (steps W0 es) ->
                     ~ reaches peer eff /\ ~ lists peer eff) /\
                  players_get peer (players (fst (steps W0 es))) = None).
  { clear Hout0 out. revert Hk0 Hn0. generalize W0. clear W0 Hkeyed Hnone.
    induction Hes as [|e es He Hes IH]; intros W0 Hk0 Hn0.
    - cbn. split; [intros eff Hin; inversion Hin|exact Hn0].
    - cbn [steps].
      destruct (step_keeps_waiting W0 peer e Hk0 Hn0 He) as (Hk1 & Hn1 & Hout1).
      destruct (step W0 e) as [W1 out1]. cbn [fst snd] in *.
      destruct (IH W1 Hk1 Hn1) as [IH1 IH2].
      destruct (steps W1 es) as [W2 out2]. cbn [fst snd] in *.
      split; [|exact IH2].
      intros eff Hin. apply elem_of_app in Hin as [Hin|Hin]; auto. }
  destruct Hrest as [Hr1 Hr2]. split; [|exact Hr2].
  intros eff Hin. subst out. apply elem_of_app in Hin as [Hin|Hin]; auto.
Qed.

(** ** More on the layout *)

Lemma blockBuildings_insideBlock (row col : nat) :
  (row < CITY_ROWS)%nat -> (col < CITY_COLS)%nat ->
  Forall (insideBlock row col) (blockBuildings row col).
Proof.
  intros Hrow Hcol.
  pose proof (Qnat_nonneg row) as Hr0. pose proof (Qnat_nonneg col) as Hc0.
  unfold blockBuildings. cbv zeta.
  set (seedBase := Qnat row * 101 + Qnat col * 37 + 1).
  pose proof (seededUnit_range seedBase) as H0.
  pose proof (seededUnit_range (seedBase + 1)) as H1.
  pose proof (seededUnit_range (seedBase + 2)) as H2.
  pose proof (seededUnit_range (seedBase + 3)) as H3.
  pose proof (seededUnit_range (seedBase + 6)) as H6.
  pose proof (seededUnit_range (seedBase + 7)) as H7.
  set (uw := Qmax 80 (blockWidth - BUILDING_MARGIN * 2)).
  set (uh := Qmax 80 (blockHeight - BUILDING_MARGIN * 2)).
  assert (Huw : uw == 966.75) by apply usable_value.
  assert (Huh : uh == 966.75) by apply usableHeight_value.
  pose proof blockWidth_value as Hbw. pose proof blockHeight_value as Hbh.
  set (aw := Qmax 60 (uw * (0.2 + seededUnit (seedBase + 6) * 0.22))).
  set (ah := Qmax 60 (uh * (0.2 + seededUnit (seedBase + 7) * 0.22))).
  assert (Haw : 60 <= aw <= uw).
  { split; [apply Q.le_max_l|]. apply Q.max_lub; nra. }
  assert (Hah : 60 <= ah <= uh).
  { split; [apply Q.le_max_l|]. apply Q.max_lub; nra. }
  clearbody aw ah uw uh.
  set (su0 := seededUnit seedBase) in *.
  set (su1 := seededUnit (seedBase + 1)) in *.
  set (su2 := seededUnit (seedBase + 2)) in *.
  set (su3 := seededUnit (seedBase + 3)) in *.
  clearbody su0 su1 su2 su3.
  assert (Hmain : insideBlock row col
    (mkRect ("tower-main-" +:+ pretty row +:+ "-" +:+ pretty col)
       (STREET_WIDTH + Qnat col * (blockWidth + STREET_WIDTH) + BUILDING_MARGIN
        + (uw - uw * (0.52 + su0 * 0.3)) * su2)
       (STREET_WIDTH + Qnat row * (blockHeight + STREET_WIDTH) + BUILDING_MARGIN
        + (uh - uh * (0.5 + su1 * 0.34)) * su3)
       (uw * (0.52 + su0 * 0.3))
       (uh * (0.5 + su1 * 0.34)))).
  { unfold insideBlock, blockOrigin, STREET_WIDTH, BUILDING_MARGIN in *.
    cbn [r_x r_y r_width r_height].
    split; [exact Hrow|]. split; [exact Hcol|].
    assert (Hox : 0 <= (uw - uw * (0.52 + su0 * 0.3)) * su2
                  <= uw - uw * (0.52 + su0 * 0.3)) by nra.
    assert (Hoy : 0 <= (uh - uh * (0.5 + su1 * 0.34)) * su3
                  <= uh - uh * (0.5 + su1 * 0.34)) by nra.
    repeat split; nra. }
  destruct (Qgtb (seededUnit (seedBase + 4)) 0.35).
  - constructor; [exact Hmain|]. constructor; [|constructor].
    unfold insideBlock, blockOrigin, STREET_WIDTH, BUILDING_MARGIN in *.
    cbn [r_x r_y r_width r_height].
    split; [exact Hrow|]. split; [exact Hcol|].
    repeat split; try lra;
      repeat match goal with |- context [if ?c then _ else _] => destruct c end;
      nra.
  - constructor; [exact Hmain|constructor].
Qed.

Lemma flat_map_length_between {A B} (f : A -> list B) (l : list A) (lo hi : nat) :
  (forall a, lo <= length (f a) <= hi)%nat ->
  (length l * lo <= length (flat_map f l) <= length l * hi)%nat.
Proof.
  intros Hf. induction l as [|a l IH]; cbn; [lia|].
  rewrite length_app. specialize (Hf a). lia.
Qed.

Lemma streets_fit : Forall streetFits (streets cityLayout).
Proof.
  unfold cityLayout, createCityLayout. cbn [streets].
  apply Forall_app. split; apply Forall_map, Forall_forall; intros i Hi;
    apply elem_of_seq in Hi; unfold streetFits, streetV, streetH;
    cbn [r_x r_y r_width r_height];
    pose proof (Qnat_nonneg i) as H0;
    assert (H8 : Qnat i <= 8)
      by (unfold Qnat; change 8 with (inject_Z 8); rewrite <- Zle_Qle;
          unfold CITY_COLS, CITY_ROWS in Hi; lia);
    pose proof blockWidth_value as Hbw; pose proof blockHeight_value as Hbh;
    unfold STREET_WIDTH, MAP_WIDTH, MAP_HEIGHT in *; repeat split; nra.
Qed.

Lemma buildings_in_blocks (b : RectSnapshot) :
  In b (buildings cityLayout) -> exists row col, insideBlock row col b.
Proof.
  intros Hb. unfold cityLayout, createCityLayout in Hb. cbn [buildings] in Hb.
  apply in_flat_map in Hb as (row & Hrow & Hb).
  apply in_flat_map in Hb as (col & Hcol & Hb).
  apply in_seq in Hrow. apply in_seq in Hcol.
  exists row, col.
  pose proof (blockBuildings_insideBlock row col) as HF.
  rewrite Forall_forall in HF. apply HF; [lia|lia|].
  apply list_elem_of_In. exact Hb.
Qed.

(** X1. The generated city: 18 streets, all inside the map and at least
    [STREET_WIDTH] wide; between 64 and 128 buildings, one or two per block;
    every building lies in one of the 8 x 8 blocks, with non-negative size
    and at least [BUILDING_MARGIN] away from the streets around that block,
    whatever values [Math.sin] returns. *)
Theorem city_layout_shape :
  length (streets cityLayout) = 18%nat /\
  Forall streetFits (streets cityLayout) /\
  (64 <= length (buildings cityLayout) <= 128)%nat /\
  (forall b, In b (buildings cityLayout) ->
     exists row col, insideBlock row col b).
Proof.
  split; [reflexivity|].
  split; [exact streets_fit|].
  split.
  { unfold cityLayout, createCityLayout. cbn [buildings].
    pose proof (flat_map_length_between
                  (fun row => flat_map (blockBuildings row) (seq 0 CITY_COLS))
                  (seq 0 CITY_ROWS) 8 16) as H.
    rewrite length_seq in H. unfold CITY_ROWS in H at 1 3. apply H.
    intros row.
    pose proof (flat_map_length_between (blockBuildings row) (seq 0 CITY_COLS) 1 2)
      as H'.
    rewrite length_seq in H'. unfold CITY_COLS in H' at 1 3. apply H'.
    intros col. unfold blockBuildings. cbv zeta.
    destruct (Qgtb _ _); cbn; lia. }
  apply buildings_in_blocks.
Qed.

Lemma street_is_column_or_row (s : RectSnapshot) :
  In s (streets cityLayout) ->
  exists i, (i <= 8)%nat /\
    ((r_x s = Qnat i * (blockWidth + STREET_WIDTH) /\ r_width s = STREET_WIDTH) \/
     (r_y s = Qnat i * (blockHeight + STREET_WIDTH) /\ r_height s = STREET_WIDTH)).
Proof.
  unfold cityLayout, createCityLayout. cbn [streets]. intros Hs.
  apply in_app_or in Hs as [Hs|Hs]; apply in_map_iff in Hs as (i & <- & Hi);
    apply in_seq in Hi; exists i; unfold CITY_COLS, CITY_ROWS in Hi;
    (split; [lia|]); [left|right]; split; reflexivity.
Qed.

Lemma Qnat_le (i j : nat) : (i <= j)%nat -> Qnat i <= Qnat j.
Proof. intros H. unfold Qnat. rewrite <- Zle_Qle. lia. Qed.

Lemma Qnat_succ (i : nat) : Qnat (S i) == Qnat i + 1.
Proof.
  unfold Qnat. rewrite Nat2Z.inj_succ. unfold Z.succ.
  rewrite inject_Z_plus. reflexivity.
Qed.

Lemma on_street_outside (s b : RectSnapshot) (x y radius : Q) :
  In s (streets cityLayout) -> onRect x y s ->
  0 <= radius < BUILDING_MARGIN -> In b (buildings cityLayout) ->
  outsideExpanded radius x y b.
Proof.
  intros Hs [Hx Hy] [Hr0 Hr] Hb.
  destruct (buildings_in_blocks b Hb)
    as (row & col & Hrow & Hcol & Hw & Hh & Hx0 & Hx1 & Hy0 & Hy1).
  destruct (street_is_column_or_row s Hs) as (i & Hi & [[Hsx Hsw]|[Hsy Hsh]]).
  - rewrite Hsx, Hsw in Hx. clear Hy.
    pose proof blockWidth_value as Hbw.
    unfold outsideExpanded, blockOrigin, STREET_WIDTH, BUILDING_MARGIN in *.
    destruct (le_lt_dec i col) as [Hle|Hgt].
    + left. pose proof (Qnat_le i col Hle). nra.
    + right. left. pose proof (Qnat_le (S col) i Hgt) as H.
      rewrite Qnat_succ in H. nra.
  - rewrite Hsy, Hsh in Hy. clear Hx.
    pose proof blockHeight_value as Hbh. pose proof blockWidth_value as Hbw.
    unfold outsideExpanded, blockOrigin, STREET_WIDTH, BUILDING_MARGIN in *.
    destruct (le_lt_dec i row) as [Hle|Hgt].
    + right. right. left. pose proof (Qnat_le i row Hle). nra.
    + right. right. right. pose proof (Qnat_le (S row) i Hgt) as H.
      rewrite Qnat_succ in H. nra.
Qed.

(** X2. Streets are free of buildings: a circle of radius below
    [BUILDING_MARGIN] whose centre is anywhere on a street rectangle
    intersects no building. *)
Theorem streets_are_clear (s : RectSnapshot) (x y radius : Q) :
  In s (streets cityLayout) -> onRect x y s ->
  0 <= radius < BUILDING_MARGIN ->
  isCircleBlockedByBuildings x y radius = false.
Proof.
  intros Hs Hon Hr. apply outsideExpanded_clear; [apply Hr|].
  intros b Hb. apply (on_street_outside s b); assumption.
Qed.

(** X3. The building test is monotone in the radius: a position that is
    clear for a radius is clear for every smaller one, and a centre that
    lies inside a building is blocked for every radius. *)
Theorem blocked_by_buildings_radius (x y : Q) :
  (forall radius radius',
     0 <= radius' <= radius ->
     isCircleBlockedByBuildings x y radius = false ->
     isCircleBlockedByBuildings x y radius' = false) /\
  (forall radius b,
     In b (buildings cityLayout) -> centreInside x y b ->
     isCircleBlockedByBuildings x y radius = true).
Proof.
  split.
  - intros radius radius' [H0 Hle] Hclear.
    unfold isCircleBlockedByBuildings, some in *.
    apply not_true_is_false. intros H.
    apply existsb_exists in H as (b & Hb & Hhit).
    assert (Hbig : existsb (circleIntersectsRect x y radius)
                     (buildings cityLayout) = true).
    { apply existsb_exists. exists b. split; [exact Hb|].
      unfold circleIntersectsRect in *. cbv zeta in *.
      apply Qle_bool_iff. apply Qle_bool_iff in Hhit.
      eapply Qle_trans; [exact Hhit|]. nra. }
    congruence.
  - intros radius b Hb [Hx Hy].
    unfold isCircleBlockedByBuildings, some. apply existsb_exists.
    exists b. split; [exact Hb|].
    unfold circleIntersectsRect. cbv zeta. apply Qle_bool_iff.
    rewrite (clamp_id x) by exact Hx. rewrite (clamp_id y) by exact Hy.
    pose proof (Qsquare_nonneg radius). nra.
Qed.

(** ** More on movement resolution *)

Lemma resolveBlockedMovement_axes (cx cy tx ty radius : Q) :
  let m := resolveBlockedMovement cx cy tx ty radius in
  (mv_x m = cx \/ mv_x m = clamp tx radius (MAP_WIDTH - radius)) /\
  (mv_y m = cy \/ mv_y m = clamp ty radius (MAP_HEIGHT - radius)) /\
  mv_movedSquared m
    = (mv_x m - cx) * (mv_x m - cx) + (mv_y m - cy) * (mv_y m - cy) /\
  (inBounds radius cx cy ->
   Qmin cx tx <= mv_x m <= Qmax cx tx /\ Qmin cy ty <= mv_y m <= Qmax cy ty).
Proof.
  intros m.
  assert (Hshape :
    (mv_x m = cx \/ mv_x m = clamp tx radius (MAP_WIDTH - radius)) /\
    (mv_y m = cy \/ mv_y m = clamp ty radius (MAP_HEIGHT - radius)) /\
    mv_movedSquared m
      = (mv_x m - cx) * (mv_x m - cx) + (mv_y m - cy) * (mv_y m - cy)).
  { subst m. unfold resolveBlockedMovement, tryOrder. cbv zeta.
    repeat match goal with
           | |- context [if negb ?c then _ else _] => destruct c; cbn [negb]
           end;
      destruct (Qle_bool _ _); cbn [mv_x mv_y mv_movedSquared]; auto. }
  destruct Hshape as (Hx & Hy & Hm). split; [exact Hx|].
  split; [exact Hy|]. split; [exact Hm|].
  intros [[Hx0 Hx1] [Hy0 Hy1]].
  assert (Hbetween : forall c t bound,
            radius <= c <= bound - radius ->
            Qmin c t <= clamp t radius (bound - radius) <= Qmax c t).
  { intros c t bound [Hc0 Hc1]. unfold clamp. split.
    - apply Q.min_glb.
      + eapply Qle_trans; [apply Q.le_min_l|exact Hc1].
      + eapply Qle_trans; [apply Q.le_min_r|apply Q.le_max_r].
    - eapply Qle_trans; [apply Q.le_min_r|].
      apply Q.max_le_compat_r. exact Hc0. }
  split.
  - destruct Hx as [->| ->]; [split; [apply Q.le_min_l|apply Q.le_max_l]|].
    apply Hbetween. split; assumption.
  - destruct Hy as [->| ->]; [split; [apply Q.le_min_l|apply Q.le_max_l]|].
    apply Hbetween. split; assumption.
Qed.

(** X4. [resolveBlockedMovement] moves axis by axis: each coordinate of the
    result is the current one or the target clamped to the map, the reported
    [movedSquared] is the squared length of the displacement and so never
    negative, and from a position inside the map no axis overshoots its
    target. *)
Theorem resolveBlockedMovement_axiswise (cx cy tx ty radius : Q) :
  let m := resolveBlockedMovement cx cy tx ty radius in
  (mv_x m = cx \/ mv_x m = clamp tx radius (MAP_WIDTH - radius)) /\
  (mv_y m = cy \/ mv_y m = clamp ty radius (MAP_HEIGHT - radius)) /\
  mv_movedSquared m
    = (mv_x m - cx) * (mv_x m - cx) + (mv_y m - cy) * (mv_y m - cy) /\
  0 <= mv_movedSquared m /\
  (inBounds radius cx cy ->
   Qmin cx tx <= mv_x m <= Qmax cx tx /\ Qmin cy ty <= mv_y m <= Qmax cy ty).
Proof.
  intros m.
  destruct (resolveBlockedMovement_axes cx cy tx ty radius)
    as (Hx & Hy & Hm & Hbetween).
  fold m in Hx, Hy, Hm, Hbetween.
  split; [exact Hx|]. split; [exact Hy|]. split; [exact Hm|].
  split; [|exact Hbetween].
  rewrite Hm.
  pose proof (Qsquare_nonneg (mv_x m - cx)) as H1.
  pose proof (Qsquare_nonneg (mv_y m - cy)) as H2.
  apply (Qplus_le_compat 0 _ 0 _ H1 H2).
Qed.

(** X5. The outcomes of a resolved move, with the target clamped to the
    map: when the clamped target is clear and one of the two one-axis
    positions on the way is clear, the move ends on the clamped target;
    when both one-axis positions are blocked the entity stays where it is;
    when only the vertical slide is possible (the x step blocked, the target
    blocked) it ends at the current x and the target y. *)
Theorem resolveBlockedMovement_outcomes (cx cy tx ty radius : Q) :
  let tx' := clamp tx radius (MAP_WIDTH - radius) in
  let ty' := clamp ty radius (MAP_HEIGHT - radius) in
  let m := resolveBlockedMovement cx cy tx ty radius in
  (isCircleBlockedByBuildings tx' ty' radius = false ->
   isCircleBlockedByBuildings tx' cy radius = false \/
   isCircleBlockedByBuildings cx ty' radius = false ->
   mv_x m == tx' /\ mv_y m == ty') /\
  (isCircleBlockedByBuildings tx' cy radius = true ->
   isCircleBlockedByBuildings cx ty' radius = true ->
   mv_x m = cx /\ mv_y m = cy /\ mv_movedSquared m == 0) /\
  (isCircleBlockedByBuildings tx' cy radius = true ->
   isCircleBlockedByBuildings cx ty' radius = false ->
   isCircleBlockedByBuildings tx' ty' radius = true ->
   mv_x m = cx /\ mv_y m = ty').
Proof.
  intros tx' ty' m. subst m. unfold resolveBlockedMovement, tryOrder.
  cbv zeta. fold tx' ty'.
  split; [|split].
  - intros Hfull Hway.
    destruct (isCircleBlockedByBuildings tx' cy radius) eqn:E1; cbn [negb].
    + destruct Hway as [Hway|Hway]; [discriminate|].
      repeat (first [rewrite Hway|rewrite Hfull|rewrite E1]; cbn [negb]).
      cbn [mv_movedSquared].
      destruct (Qle_bool _ _) eqn:Ele; cbn [mv_x mv_y];
        [|split; reflexivity].
      apply Qle_bool_iff in Ele. split; [|reflexivity].
      pose proof (Qsquare_nonneg (tx' - cx)) as Hsq.
      assert (Hz : (tx' - cx) * (tx' - cx) <= 0) by lra.
      destruct (Qlt_le_dec 0 (tx' - cx)) as [Hp|Hn1].
      * pose proof (Qmult_lt_0_compat _ _ Hp Hp). lra.
      * destruct (Qlt_le_dec (tx' - cx) 0) as [Hn|Hp']; [|lra].
        assert (Hp : 0 < - (tx' - cx)) by lra.
        pose proof (Qmult_lt_0_compat _ _ Hp Hp) as Hpp.
        assert (Heq : - (tx' - cx) * - (tx' - cx) == (tx' - cx) * (tx' - cx))
          by ring.
        rewrite Heq in Hpp. lra.
    + rewrite Hfull. cbn [negb mv_movedSquared].
      destruct (isCircleBlockedByBuildings cx ty' radius) eqn:E2; cbn [negb].
      * repeat (first [rewrite E1|rewrite Hfull]; cbn [negb]).
        cbn [mv_movedSquared].
        assert (Hle : Qle_bool ((tx' - cx) * (tx' - cx) + (cy - cy) * (cy - cy))
                        ((tx' - cx) * (tx' - cx) + (ty' - cy) * (ty' - cy)) = true).
        { apply Qle_bool_iff. pose proof (Qsquare_nonneg (ty' - cy)) as Hsq.
          assert (Heq : (cy - cy) * (cy - cy) == 0) by ring.
          rewrite Heq. lra. }
        rewrite Hle. cbn [mv_x mv_y]. split; reflexivity.
      * repeat (first [rewrite Hfull]; cbn [negb]).
        cbn [mv_movedSquared].
        destruct (Qle_bool _ _); cbn [mv_x mv_y]; split; reflexivity.
  - intros H1 H2.
    repeat (first [rewrite H1|rewrite H2]; cbn [negb]).
    cbn [mv_movedSquared]. destruct (Qle_bool _ _); cbn [mv_x mv_y mv_movedSquared];
      (split; [reflexivity|]; split; [reflexivity|]; ring).
  - intros H1 H2 H3.
    repeat (first [rewrite H1|rewrite H2|rewrite H3]; cbn [negb]).
    cbn [mv_movedSquared].
    destruct (Qle_bool _ _); cbn [mv_x mv_y]; split; reflexivity.
Qed.

(** From here on [Math.random()] is what the language promises: a number
    in [[0, 1)]. *)
Hypothesis Math_random_unit : forall n, 0 <= Math_random n < 1.

Lemma randomBetweenOf_range (u min max : Q) (z : Z) :
  0 <= u < 1 -> max - min == inject_Z z -> (0 <= z)%Z ->
  min <= randomBetweenOf u min max <= max.
Proof.
  intros [Hu0 Hu1] Hz Hz0. unfold randomBetweenOf, Math_floor.
  assert (Hz0' : 0 <= inject_Z z).
  { change 0 with (inject_Z 0). rewrite <- Zle_Qle. exact Hz0. }
  set (v := u * (max - min + 1)).
  assert (Hv0 : 0 <= v) by (unfold v; nra).
  assert (Hv1 : v < inject_Z (z + 1)).
  { rewrite inject_Z_plus. change (inject_Z 1) with 1. unfold v. nra. }
  assert (Hf0 : (0 <= Qfloor v)%Z).
  { apply (Qfloor_resp_le 0 v) in Hv0. exact Hv0. }
  assert (Hf1 : (Qfloor v < z + 1)%Z).
  { rewrite Zlt_Qlt. eapply Qle_lt_trans; [apply Qfloor_le|exact Hv1]. }
  assert (H0 : 0 <= inject_Z (Qfloor v)).
  { change 0 with (inject_Z 0). rewrite <- Zle_Qle. exact Hf0. }
  assert (H1 : inject_Z (Qfloor v) <= inject_Z z).
  { rewrite <- Zle_Qle. lia. }
  split; lra.
Qed.

Lemma yields_randomBetween (min max : Q) (z : Z) :
  max - min == inject_Z z -> (0 <= z)%Z ->
  yields (randomBetween min max) 1 (fun v => min <= v <= max).
Proof using Math_random_unit.
  intros Hz Hz0 n. unfold randomBetween, bind, random, ret. cbn.
  split; [|lia].
  eapply randomBetweenOf_range; eauto.
Qed.

Lemma yields_randomPowerupType : yields randomPowerupType 1 (fun _ => True).
Proof. intros n. cbn. split; [exact I|lia]. Qed.

Lemma yields_newPowerup (x y : Q) :
  yields (newPowerup x y) 2 (fun p => pu_x p = x /\ pu_y p = y).
Proof. intros n. cbn. split; [split; reflexivity|lia]. Qed.

(** ** Placement stays in the map *)

Lemma yields_spawnGrass (W : World) (existing : list GrassSpot)
    (skipIndex : option nat) :
  yields (spawnGrass W existing skipIndex) 128
    (fun g => inBounds GRASS_RADIUS (g_x g) (g_y g)).
Proof using Math_random_unit.
  unfold spawnGrass. cbv zeta.
  assert (Hx : MAP_WIDTH - GRASS_RADIUS - GRASS_RADIUS == inject_Z 9972)
    by reflexivity.
  assert (Hy : MAP_HEIGHT - GRASS_RADIUS - GRASS_RADIUS == inject_Z 9972)
    by reflexivity.
  eapply yields_le with (k := (32 * 2 + (32 * 2 + 0))%nat);
    [|cbn; lia].
  apply yields_for_return; [intros _|apply yields_for_return; [intros _|]].
  - eapply yields_le with (k := (1 + (1 + 0))%nat); [|lia].
    eapply yields_bind; [apply (yields_randomBetween _ _ _ Hx); lia|].
    intros nx Hnx. cbn beta.
    eapply yields_bind; [apply (yields_randomBetween _ _ _ Hy); lia|].
    intros ny Hny. cbn beta. apply yields_ret.
    intros a Ha. destruct (_ && _); [|discriminate].
    injection Ha as <-. split; assumption.
  - eapply yields_le with (k := (1 + (1 + 0))%nat); [|lia].
    eapply yields_bind; [apply (yields_randomBetween _ _ _ Hx); lia|].
    intros nx Hnx. cbn beta.
    eapply yields_bind; [apply (yields_randomBetween _ _ _ Hy); lia|].
    intros ny Hny. cbn beta. apply yields_ret.
    intros a Ha. destruct (negb _); [|discriminate].
    injection Ha as <-. split; assumption.
  - apply yields_ret. unfold inBounds, GRASS_RADIUS, MAP_WIDTH, MAP_HEIGHT.
    cbn. lra.
Qed.

Lemma yields_spawnPowerup (W : World) (existing : list PowerupSpot)
    (skipIndex : option nat) :
  yields (spawnPowerup W existing skipIndex) 258
    (fun p => inBounds POWERUP_RADIUS (pu_x p) (pu_y p)).
Proof using Math_random_unit.
  unfold spawnPowerup. cbv zeta.
  assert (Hx : MAP_WIDTH - POWERUP_RADIUS - POWERUP_RADIUS == inject_Z 9968)
    by reflexivity.
  assert (Hy : MAP_HEIGHT - POWERUP_RADIUS - POWERUP_RADIUS == inject_Z 9968)
    by reflexivity.
  assert (Hnew : forall x y, inBounds POWERUP_RADIUS x y ->
    yields (let* p := newPowerup x y in ret (Some p)) 2
      (fun r => forall a, r = Some a -> inBounds POWERUP_RADIUS (pu_x a) (pu_y a))).
  { intros x y Hxy.
    eapply yields_le with (k := (2 + 0)%nat); [|lia].
    eapply yields_bind; [apply yields_newPowerup|].
    intros p [Hpx Hpy]. apply yields_ret. intros a [= <-].
    rewrite Hpx, Hpy. exact Hxy. }
  eapply yields_le with (k := (32 * 4 + (32 * 4 + 2))%nat);
    [|cbn; lia].
  apply yields_for_return; [intros _|apply yields_for_return; [intros _|]].
  - eapply yields_le with (k := (1 + (1 + 2))%nat); [|lia].
    eapply yields_bind; [apply (yields_randomBetween _ _ _ Hx); lia|].
    intros nx Hnx. cbn beta.
    eapply yields_bind; [apply (yields_randomBetween _ _ _ Hy); lia|].
    intros ny Hny. cbn beta.
    destruct (_ && _).
    + apply Hnew. split; assumption.
    + eapply yields_le; [apply yields_ret|lia]. intros a [=].
  - eapply yields_le with (k := (1 + (1 + 2))%nat); [|lia].
    eapply yields_bind; [apply (yields_randomBetween _ _ _ Hx); lia|].
    intros nx Hnx. cbn beta.
    eapply yields_bind; [apply (yields_randomBetween _ _ _ Hy); lia|].
    intros ny Hny. cbn beta.
    destruct (negb _).
    + apply Hnew. split; assumption.
    + eapply yields_le; [apply yields_ret|lia]. intros a [=].
  - eapply yields_weaken; [apply yields_newPowerup|lia|].
    intros p [-> ->]. unfold inBounds, POWERUP_RADIUS, MAP_WIDTH, MAP_HEIGHT.
    lra.
Qed.

Lemma yields_randomStreet : yields randomStreet 1 streetFits.
Proof using Math_random_unit.
  intros n. unfold randomStreet, randomBetween, bind, random, ret. cbn [fst snd].
  split; [|lia].
  destruct (randomBetweenOf_range (Math_random n) 0
              (Qnat (length (streets cityLayout)) - 1) 17) as [Hlo Hhi];
    [apply Math_random_unit|reflexivity|lia|].
  set (i := randomBetweenOf (Math_random n) 0
              (Qnat (length (streets cityLayout)) - 1)) in *.
  unfold streetAt, at_index.
  assert (Hlt : Qltb i 0 = false) by (apply Qltb_false; exact Hlo).
  rewrite Hlt.
  assert (Hk : (Z.to_nat (Qfloor i) < length (streets cityLayout))%nat).
  { assert (Hi17 : i <= inject_Z 17) by exact Hhi.
    apply Qfloor_resp_le in Hi17. rewrite Qfloor_Z in Hi17.
    assert (H0 : 0 <= i) by exact Hlo.
    apply Qfloor_resp_le in H0. change (Qfloor 0) with 0%Z in H0.
    change (length (streets cityLayout)) with 18%nat. lia. }
  apply lookup_lt_is_Some_2 in Hk as [s Hs]. rewrite Hs. cbn.
  pose proof streets_fit as HF. rewrite Forall_forall in HF.
  apply HF. eapply list_elem_of_lookup_2. exact Hs.
Qed.

(** Sampling along a street: the integer range is not empty and lies in the
    map for every radius up to the enemy's. *)
Lemma street_range (lo w bound radius : Q) :
  0 <= lo -> lo + w <= bound -> STREET_WIDTH <= w ->
  0 <= radius <= ENEMY_RADIUS ->
  exists z : Z,
    Math_floor (lo + w - radius) - Math_ceil (lo + radius) == inject_Z z /\
    (0 <= z)%Z /\
    radius <= Math_ceil (lo + radius) /\
    Math_floor (lo + w - radius) <= bound - radius.
Proof.
  intros Hlo Hhi Hw [Hr0 Hr]. unfold Math_floor, Math_ceil.
  exists (Qfloor (lo + w - radius) - Qceiling (lo + radius))%Z.
  pose proof (Qle_ceiling (lo + radius)) as Hc1.
  pose proof (Qceiling_lt (lo + radius)) as Hc2.
  pose proof (Qfloor_le (lo + w - radius)) as Hf1.
  pose proof (Qlt_floor (lo + w - radius)) as Hf2.
  rewrite inject_Z_plus in Hf2. rewrite inject_Z_sub in Hc2.
  change (inject_Z 1) with 1 in *.
  unfold STREET_WIDTH, ENEMY_RADIUS in *.
  repeat split.
  - rewrite inject_Z_sub. reflexivity.
  - assert (H : inject_Z (Qceiling (lo + radius))
                <= inject_Z (Qfloor (lo + w - radius))) by lra.
    rewrite <- Zle_Qle in H. lia.
  - lra.
  - lra.
Qed.

Lemma tryOrder_inBounds (radius cx cy tx ty : Q) (order : Order) :
  inBounds radius cx cy -> inBounds radius tx ty ->
  inBounds radius
    (mv_x (tryOrder cx cy tx ty radius order))
    (mv_y (tryOrder cx cy tx ty radius order)).
Proof.
  intros [Hx Hy] [Htx Hty]. unfold tryOrder, inBounds in *.
  destruct order;
    repeat match goal with
           | |- context [if negb ?c then _ else _] => destruct c; cbn [negb]
           end; cbn [mv_x mv_y]; auto.
Qed.

Lemma resolveBlockedMovement_inBounds (radius cx cy tx ty : Q) :
  radius <= MAP_WIDTH - radius ->
  inBounds radius cx cy ->
  inBounds radius
    (mv_x (resolveBlockedMovement cx cy tx ty radius))
    (mv_y (resolveBlockedMovement cx cy tx ty radius)).
Proof.
  intros Hr Hp. unfold resolveBlockedMovement. cbv zeta.
  assert (Hb : inBounds radius (clamp tx radius (MAP_WIDTH - radius))
                 (clamp ty radius (MAP_HEIGHT - radius))).
  { split; apply clamp_bounds; unfold MAP_HEIGHT, MAP_WIDTH in *; lra. }
  destruct (Qle_bool _ _); apply tryOrder_inBounds; assumption.
Qed.

Lemma closerStreetPoint_inBounds (hx hy : Q) (best : (Q * Q) * option Q)
    (street : RectSnapshot) :
  streetFits street ->
  inBounds ENEMY_RADIUS (fst (fst best)) (snd (fst best)) ->
  inBounds ENEMY_RADIUS
    (fst (fst (closerStreetPoint hx hy best street)))
    (snd (fst (closerStreetPoint hx hy best street))).
Proof.
  intros (Hx0 & Hx1 & Hy0 & Hy1 & Hw & Hh) Hbest. unfold closerStreetPoint.
  cbv zeta. destruct (_ || _); [exact Hbest|].
  match goal with |- context [if ?c then _ else _] => destruct c end;
    [|exact Hbest].
  cbn [fst snd]. unfold inBounds, STREET_WIDTH, ENEMY_RADIUS, MAP_WIDTH,
    MAP_HEIGHT in *.
  pose proof (clamp_bounds hx (r_x street + 20) (r_x street + r_width street - 20)).
  pose proof (clamp_bounds hy (r_y street + 20) (r_y street + r_height street - 20)).
  split; split; lra.
Qed.

Lemma closestStreetPoint_inBounds (hx hy : Q) (ss : list RectSnapshot)
    (best : (Q * Q) * option Q) :
  Forall streetFits ss ->
  inBounds ENEMY_RADIUS (fst (fst best)) (snd (fst best)) ->
  inBounds ENEMY_RADIUS
    (fst (fst (fold_left (closerStreetPoint hx hy) ss best)))
    (snd (fst (fold_left (closerStreetPoint hx hy) ss best))).
Proof.
  intros HF. revert best. induction HF as [|s ss Hs HF IH]; intros best Hb.
  - exact Hb.
  - cbn [fold_left]. apply IH. apply closerStreetPoint_inBounds; assumption.
Qed.

Lemma yields_getEnemyHome (index : nat) :
  yields (getEnemyHome index) 2
    (fun h => inBounds ENEMY_RADIUS (homeX h) (homeY h)).
Proof.
  unfold getEnemyHome. cbv zeta.
  eapply yields_le with (k := (1 + (1 + 0))%nat); [|lia].
  eapply yields_bind; [apply yields_randomBetween_any|]. intros jx _. cbn beta.
  eapply yields_bind; [apply yields_randomBetween_any|]. intros jy _. cbn beta.
  match goal with
  | |- context [resolveBlockedMovement ?x ?y _ _ _] =>
      set (hx := x); set (hy := y)
  end.
  assert (Hh : inBounds ENEMY_RADIUS hx hy).
  { split; apply clamp_bounds; unfold ENEMY_RADIUS, MAP_WIDTH, MAP_HEIGHT; lra. }
  destruct (negb _); apply yields_ret; cbn [homeX homeY].
  - apply resolveBlockedMovement_inBounds; [|exact Hh].
    unfold ENEMY_RADIUS, MAP_WIDTH. lra.
  - apply (closestStreetPoint_inBounds hx hy (streets cityLayout) ((hx, hy), None));
      [apply streets_fit|exact Hh].
Qed.

Lemma yields_alongStreet (lo w bound radius : Q) :
  0 <= lo -> lo + w <= bound -> STREET_WIDTH <= w ->
  0 <= radius <= ENEMY_RADIUS ->
  yields (randomBetween (Math_ceil (lo + radius)) (Math_floor (lo + w - radius)))
    1 (fun v => radius <= v <= bound - radius).
Proof using Math_random_unit.
  intros Hlo Hhi Hw Hr.
  destruct (street_range lo w bound radius Hlo Hhi Hw Hr)
    as (z & Hz & Hz0 & Hmin & Hmax).
  eapply yields_weaken; [apply (yields_randomBetween _ _ z Hz Hz0)|lia|].
  cbn beta. intros v [H1 H2]. split; lra.
Qed.

Lemma yields_spawnEnemy (existing : list EnemySpot) (enemyIndex : nat) :
  yields (spawnEnemy existing enemyIndex) 163
    (fun e => inBounds ENEMY_RADIUS (en_x e) (en_y e)).
Proof using Math_random_unit.
  unfold spawnEnemy.
  eapply yields_le with (k := (2 + (16 * 2 + (32 * 4 + 1)))%nat); [|cbn; lia].
  eapply yields_bind; [apply yields_getEnemyHome|]. intros home Hhome. cbn beta.
  apply yields_for_return; [intros i|apply yields_for_return; [intros _|]].
  - eapply yields_le with (k := (1 + 1)%nat); [|lia].
    eapply yields_bind with (P := fun _ => True).
    { destruct (Nat.eqb i 0).
      - eapply yields_le; [apply yields_ret; exact I|lia].
      - apply yields_randomBetween_any. }
    intros spawnDistance _. cbv zeta. cbn beta.
    destruct (_ && _).
    + eapply yields_le with (k := (1 + 0)%nat); [|lia].
      eapply yields_bind; [apply yields_uuid|]. intros id _. cbn beta.
      apply yields_ret. intros a [= <-]. cbn [en_x en_y].
      split; apply clamp_bounds; unfold ENEMY_RADIUS, MAP_WIDTH, MAP_HEIGHT; lra.
    + eapply yields_le; [apply yields_ret|lia]. intros a [=].
  - eapply yields_le with (k := (1 + (1 + (1 + 1)))%nat); [|lia].
    eapply yields_bind; [apply yields_randomStreet|].
    intros street (Hx0 & Hx1 & Hy0 & Hy1 & Hw & Hh). cbn beta.
    eapply yields_bind.
    { apply (yields_alongStreet (r_x street) (r_width street) MAP_WIDTH
               ENEMY_RADIUS); try assumption.
      unfold ENEMY_RADIUS; lra. }
    intros x Hx. cbn beta.
    eapply yields_bind.
    { apply (yields_alongStreet (r_y street) (r_height street) MAP_HEIGHT
               ENEMY_RADIUS); try assumption.
      unfold ENEMY_RADIUS; lra. }
    intros y Hy. cbv zeta. cbn beta.
    destruct (_ && _).
    + eapply yields_le with (k := (1 + 0)%nat); [|lia].
      eapply yields_bind; [apply yields_uuid|]. intros id _. cbn beta.
      apply yields_ret. intros a [= <-]. cbn [en_x en_y]. split; assumption.
    + eapply yields_le; [apply yields_ret|lia]. intros a [=].
  - eapply yields_le with (k := (1 + 0)%nat); [|lia].
    eapply yields_bind; [apply yields_uuid|]. intros id _. cbn beta.
    apply yields_ret. cbn [en_x en_y]. exact Hhome.
Qed.

Lemma yields_spawnPlayerPosition_inBounds (es : list EnemySpot) :
  yields (spawnPlayerPosition es) 256
    (fun xy => inBounds PLAYER_RADIUS (fst xy) (snd xy)).
Proof using Math_random_unit.
  unfold spawnPlayerPosition.
  assert (Hx : MAP_WIDTH - PLAYER_RADIUS - PLAYER_RADIUS == inject_Z 9968)
    by reflexivity.
  assert (Hy : MAP_HEIGHT - PLAYER_RADIUS - PLAYER_RADIUS == inject_Z 9968)
    by reflexivity.
  eapply yields_le with (k := (32 * 2 + (64 * 3 + 0))%nat); [|cbn; lia].
  apply yields_for_return; [intros _|apply yields_for_return; [intros _|]].
  - eapply yields_le with (k := (1 + (1 + 0))%nat); [|lia].
    eapply yields_bind; [apply (yields_randomBetween _ _ _ Hx); lia|].
    intros x Hbx. cbn beta.
    eapply yields_bind; [apply (yields_randomBetween _ _ _ Hy); lia|].
    intros y Hby. cbn beta.
    apply yields_ret. intros a Ha.
    destruct (_ && _); [|discriminate]. injection Ha as <-.
    split; assumption.
  - eapply yields_le with (k := (1 + (1 + (1 + 0)))%nat); [|lia].
    eapply yields_bind; [apply yields_randomStreet|].
    intros street (Hx0 & Hx1 & Hy0 & Hy1 & Hw & Hh). cbv zeta. cbn beta.
    destruct (_ || _).
    { eapply yields_le; [apply yields_ret|lia]. intros a [=]. }
    eapply yields_bind.
    { apply (yields_alongStreet (r_x street) (r_width street) MAP_WIDTH
               PLAYER_RADIUS); try assumption.
      unfold PLAYER_RADIUS, ENEMY_RADIUS; lra. }
    intros x Hbx. cbn beta.
    eapply yields_bind.
    { apply (yields_alongStreet (r_y street) (r_height street) MAP_HEIGHT
               PLAYER_RADIUS); try assumption.
      unfold PLAYER_RADIUS, ENEMY_RADIUS; lra. }
    intros y Hby. cbn beta.
    apply yields_ret. intros a Ha.
    destruct (negb _); [|discriminate]. injection Ha as <-.
    split; assumption.
  - apply yields_ret. unfold inBounds, PLAYER_RADIUS, MAP_WIDTH, MAP_HEIGHT.
    cbn. lra.
Qed.

Lemma yields_spawnPlayerPosition (es : list EnemySpot) :
  yields (spawnPlayerPosition es) 256
    (fun xy => placed PLAYER_RADIUS (fst xy) (snd xy)).
Proof using Math_random_unit.
  apply yields_and;
    [apply yields_spawnPlayerPosition_inBounds
    |apply yields_spawnPlayerPosition_clear].
Qed.

(** C9. Every placement routine is a bounded retry: started from any state
    and any point of the entropy stream, [spawnGrass], [spawnPowerup],
    [spawnEnemy] and [spawnPlayerPosition] return after at most 128, 258, 163
    and 256 draws respectively, and the position returned is within
    [[radius, bound - radius]] on both axes for the entity's radius. *)
Theorem placement_terminates_in_bounds :
  (forall W existing skipIndex,
     yields (spawnGrass W existing skipIndex) 128
       (fun g => inBounds GRASS_RADIUS (g_x g) (g_y g))) /\
  (forall W existing skipIndex,
     yields (spawnPowerup W existing skipIndex) 258
       (fun p => inBounds POWERUP_RADIUS (pu_x p) (pu_y p))) /\
  (forall existing enemyIndex,
     yields (spawnEnemy existing enemyIndex) 163
       (fun e => inBounds ENEMY_RADIUS (en_x e) (en_y e))) /\
  (forall enemies,
     yields (spawnPlayerPosition enemies) 256
       (fun xy => inBounds PLAYER_RADIUS (fst xy) (snd xy))).
Proof using Math_random_unit.
  split; [|split; [|split]]; intros.
  - apply yields_spawnGrass.
  - apply yields_spawnPowerup.
  - apply yields_spawnEnemy.
  - apply yields_spawnPlayerPosition_inBounds.
Qed.

(** ** Positions under every sequence of events *)

Lemma move_placed (cx cy tx ty : Q) :
  placed PLAYER_RADIUS cx cy ->
  placed PLAYER_RADIUS
    (mv_x (resolveBlockedMovement cx cy tx ty PLAYER_RADIUS))
    (mv_y (resolveBlockedMovement cx cy tx ty PLAYER_RADIUS)).
Proof.
  apply resolveBlockedMovement_placed. unfold PLAYER_RADIUS, MAP_WIDTH. lra.
Qed.

Lemma playersStep_keeps (e : Event) (ps ps' : list (string * ServerPlayer)) :
  playersStep (placed PLAYER_RADIUS) e ps ps' ->
  keepsPlayers (placed PLAYER_RADIUS) ps ps' /\
  forall k p, isCloseOf k e = false -> players_get k ps = Some p ->
    exists p', players_get k ps' = Some p'.
Proof.
  intros Hstep.
  destruct e as [p context|[handle p userId displayName] now|p now
                |p payload now sentAt|now|userId result now
                |userId result now]; cbn [playersStep isCloseOf jt_peer] in *;
    try (split; [apply carried_keeps, Hstep|];
         intros k p0 _ Hget;
         destruct (carried_get_fwd _ _ _ k p0 Hstep Hget) as (p' & Hp' & _);
         eauto).
  - destruct Hstep as [->|(player & -> & _ & _ & Hg)].
    { split; [apply keepsPlayers_refl|eauto]. }
    split.
    + intros k p' Hget Hold. destruct (String.eqb p k) eqn:E.
      * apply String.eqb_eq in E. subst k.
        rewrite players_set_get_same in Hget. injection Hget as <-. exact Hg.
      * rewrite players_set_get_other in Hget; [apply Hold, Hget|].
        intros ->. rewrite String.eqb_refl in E. discriminate.
    + intros k p0 _ Hget. destruct (String.eqb p k) eqn:E.
      * apply String.eqb_eq in E. subst k.
        rewrite players_set_get_same. eauto.
      * rewrite players_set_get_other; [eauto|].
        intros ->. rewrite String.eqb_refl in E. discriminate.
  - subst ps'. split.
    + intros k p' Hget Hold. rewrite players_delete_get in Hget.
      destruct (String.eqb p k); [discriminate|]. apply Hold, Hget.
    + intros k p0 Hclose Hget. rewrite players_delete_get, Hclose. eauto.
Qed.

Lemma steps_keep (W : World) (es : list Event) :
  keepsPlayers (placed PLAYER_RADIUS) (players W) (players (fst (steps W es))) /\
  keepsEnemies (enemies W) (enemies (fst (steps W es))) /\
  forall k p, Forall (fun e => isCloseOf k e = false) es ->
    players_get k (players W) = Some p ->
    exists p', players_get k (players (fst (steps W es))) = Some p'.
Proof using Math_random_unit.
  revert W. induction es as [|e es IH]; intros W.
  - cbn. split; [apply keepsPlayers_refl|]. split; [apply keepsEnemies_refl|].
    eauto.
  - cbn [steps].
    destruct (step_spec (placed PLAYER_RADIUS) yields_spawnPlayerPosition
                move_placed W e) as (Hps & Hes & _).
    apply playersStep_keeps in Hps as [Hkeep Hex].
    destruct (step W e) as [W1 out1]. cbn [fst snd] in *.
    destruct (IH W1) as (IH1 & IH2 & IH3).
    destruct (steps W1 es) as [W2 out2]. cbn [fst snd] in *.
    split; [eapply keepsPlayers_trans; eassumption|].
    split; [eapply keepsEnemies_trans; eassumption|].
    intros k p Hall Hget. inversion Hall as [|? ? He Hall']; subst.
    destruct (Hex k p He Hget) as (p1 & Hp1). eapply IH3; eassumption.
Qed.

(** C1. Over any sequence of events (move intents and enemy ticks, and
    every other hook as well): a player that starts within
    [[PLAYER_RADIUS, bound - PLAYER_RADIUS]] on both axes with its circle
    clear of every building is, as long as the connection exists, still
    within these bounds and clear of every building, and so is every enemy
    for [ENEMY_RADIUS]; the connection does exist unless it was closed, and
    the enemies keep their slots.  A centre outside every building rectangle
    expanded by the radius is clear of the buildings, and a position that is
    clear of the buildings has its centre inside none of them. *)
Theorem movement_keeps_entities_placed (W : World) (es : list Event) :
  let W' := fst (steps W es) in
  (forall k p, players_get k (players W) = Some p -> playerPlaced p ->
     (forall p', players_get k (players W') = Some p' -> playerPlaced p') /\
     (Forall (fun e => isCloseOf k e = false) es ->
      exists p', players_get k (players W') = Some p')) /\
  (forall i e, enemies W !! i = Some e -> enemyPlaced e ->
     exists e', enemies W' !! i = Some e' /\ enemyPlaced e') /\
  (forall radius x y, 0 <= radius -> inBounds radius x y ->
     (forall b, In b (buildings cityLayout) -> outsideExpanded radius x y b) ->
     placed radius x y) /\
  (forall radius x y b, placed radius x y -> In b (buildings cityLayout) ->
     inBounds radius x y /\ ~ centreInside x y b).
Proof using Math_random_unit.
  intros W'. destruct (steps_keep W es) as (Hps & Hes & Hex). fold W' in Hps, Hes, Hex.
  split; [|split; [|split]].
  - intros k p Hget Hp. split.
    + intros p' Hget'. apply (Hps k p' Hget'). intros p0 Hp0.
      rewrite Hget in Hp0. injection Hp0 as <-. exact Hp.
    + intros Hall. eapply Hex; eassumption.
  - intros i e Hi He. unfold keepsEnemies in Hes.
    destruct (Forall2_lookup_l _ _ _ i e Hes Hi) as (e' & He' & Himp).
    exists e'. split; [exact He'|apply Himp, He].
  - intros radius x y Hr Hb Hout. split; [exact Hb|].
    apply outsideExpanded_clear; assumption.
  - intros radius x y b [Hb Hc] Hin. split; [exact Hb|].
    eapply clear_not_centreInside; eassumption.
Qed.

(** ** Placement is clear of buildings, whatever [Math.random()] returns *)

Lemma closerStreetPoint_onStreet (hx hy : Q) (best : (Q * Q) * option Q)
    (street : RectSnapshot) :
  In street (streets cityLayout) ->
  (snd best <> None ->
   exists s, In s (streets cityLayout) /\ onRect (fst (fst best)) (snd (fst best)) s) ->
  snd (closerStreetPoint hx hy best street) <> None /\
  exists s, In s (streets cityLayout) /\
    onRect (fst (fst (closerStreetPoint hx hy best street)))
           (snd (fst (closerStreetPoint hx hy best street))) s.
Proof.
  intros Hin Hbest.
  pose proof (proj1 (List.Forall_forall _ _) streets_fit street Hin)
    as (Hx0 & Hx1 & Hy0 & Hy1 & Hw & Hh).
  unfold closerStreetPoint. cbv zeta.
  set (pointX := clamp hx _ _). set (pointY := clamp hy _ _).
  assert (HpX : r_x street + ENEMY_RADIUS <= pointX
                <= r_x street + r_width street - ENEMY_RADIUS).
  { apply clamp_bounds. unfold STREET_WIDTH, ENEMY_RADIUS in *. lra. }
  assert (HpY : r_y street + ENEMY_RADIUS <= pointY
                <= r_y street + r_height street - ENEMY_RADIUS).
  { apply clamp_bounds. unfold STREET_WIDTH, ENEMY_RADIUS in *. lra. }
  clearbody pointX pointY.
  assert (Hon : onRect pointX pointY street).
  { unfold onRect, ENEMY_RADIUS in *. split; split; lra. }
  assert (E1 : Qltb pointX ENEMY_RADIUS = false) by (apply Qltb_false; lra).
  assert (E2 : Qltb pointY ENEMY_RADIUS = false) by (apply Qltb_false; lra).
  rewrite E1, E2. cbn [orb].
  destruct best as [point [d|]]; cbn [snd fst] in *.
  - destruct (Qltb _ d); cbn [fst snd].
    + split; [discriminate|]. exists street. split; assumption.
    + split; [discriminate|]. apply Hbest. discriminate.
  - split; [discriminate|]. exists street. split; assumption.
Qed.

Lemma closestStreetPoint_onStreet (hx hy : Q) (ss : list RectSnapshot)
    (best : (Q * Q) * option Q) :
  (forall s, In s ss -> In s (streets cityLayout)) ->
  snd best <> None /\
  (exists s, In s (streets cityLayout) /\ onRect (fst (fst best)) (snd (fst best)) s) ->
  exists s, In s (streets cityLayout) /\
    onRect (fst (fst (fold_left (closerStreetPoint hx hy) ss best)))
           (snd (fst (fold_left (closerStreetPoint hx hy) ss best))) s.
Proof.
  revert best. induction ss as [|street ss IH]; intros best Hss [_ Hbest].
  - exact Hbest.
  - cbn [fold_left]. apply IH; [intros s Hs; apply Hss; right; exact Hs|].
    apply closerStreetPoint_onStreet; [apply Hss; left; reflexivity|].
    intros _. exact Hbest.
Qed.

Lemma yields_getEnemyHome_placed (index : nat) :
  yields (getEnemyHome index) 2
    (fun h => placed ENEMY_RADIUS (homeX h) (homeY h) /\ 900 <= territoryRadius h).
Proof.
  unfold getEnemyHome. cbv zeta.
  eapply yields_le with (k := (1 + (1 + 0))%nat); [|lia].
  eapply yields_bind; [apply yields_randomBetween_any|]. intros jx _. cbn beta.
  eapply yields_bind; [apply yields_randomBetween_any|]. intros jy _. cbn beta.
  match goal with
  | |- context [resolveBlockedMovement ?x ?y _ _ _] =>
      set (hx := x); set (hy := y)
  end.
  assert (Hh : inBounds ENEMY_RADIUS hx hy).
  { split; apply clamp_bounds; unfold ENEMY_RADIUS, MAP_WIDTH, MAP_HEIGHT; lra. }
  destruct (isCircleBlockedByBuildings _ _ ENEMY_RADIUS) eqn:E; cbn [negb];
    apply yields_ret; cbn [homeX homeY territoryRadius];
    (split; [|apply Q.le_max_l]).
  - split.
    + apply (closestStreetPoint_inBounds hx hy (streets cityLayout) ((hx, hy), None));
        [apply streets_fit|exact Hh].
    + assert (Hne : exists s ss, streets cityLayout = s :: ss).
      { unfold cityLayout, createCityLayout. cbn [streets].
        unfold CITY_COLS. cbn [seq map app]. eauto. }
      destruct Hne as (s & ss & Hss). rewrite Hss. cbn [fold_left].
      destruct (closestStreetPoint_onStreet hx hy ss
                  (closerStreetPoint hx hy ((hx, hy), None) s))
        as (s' & Hs' & Hon).
      * intros s0 Hs0. rewrite Hss. right. exact Hs0.
      * apply closerStreetPoint_onStreet; [rewrite Hss; left; reflexivity|].
        cbn [snd]. intros Hnone. contradiction Hnone. reflexivity.
      * apply outsideExpanded_clear; [unfold ENEMY_RADIUS; lra|].
        intros b Hb. apply (on_street_outside s' b); try assumption.
        unfold ENEMY_RADIUS, BUILDING_MARGIN. lra.
  - split; [|exact E].
    apply resolveBlockedMovement_inBounds; [|exact Hh].
    unfold ENEMY_RADIUS, MAP_WIDTH. lra.
Qed.

(** X6. The home of an enemy is inside the map for the enemy radius and
    clear of every building, and its territory radius is at least 900,
    whatever [Math.random()] and [Math.sqrt] return: when the snapped
    position is blocked, the street loop always finds a point on a street.
    Computing it takes exactly two draws. *)
Theorem enemy_home_is_placed (index : nat) :
  yields (getEnemyHome index) 2
    (fun h => placed ENEMY_RADIUS (homeX h) (homeY h) /\ 900 <= territoryRadius h) /\
  forall n, snd (getEnemyHome index n) = S (S n).
Proof.
  split; [apply yields_getEnemyHome_placed|].
  intros n. unfold getEnemyHome. cbv zeta.
  cbv beta iota zeta delta [randomBetween random bind ret].
  match goal with
  | |- context [if ?c then _ else _] => destruct c
  end; reflexivity.
Qed.

Lemma yields_spawnGrass_clear (W : World) (existing : list GrassSpot)
    (skipIndex : option nat) :
  yields (spawnGrass W existing skipIndex) 128
    (fun g => clear GRASS_RADIUS (g_x g) (g_y g)).
Proof.
  unfold spawnGrass. cbv zeta.
  eapply yields_le with (k := (32 * 2 + (32 * 2 + 0))%nat); [|cbn; lia].
  apply yields_for_return; [intros _|apply yields_for_return; [intros _|]].
  - eapply yields_le with (k := (1 + (1 + 0))%nat); [|lia].
    eapply yields_bind; [apply yields_randomBetween_any|]. intros nx _. cbn beta.
    eapply yields_bind; [apply yields_randomBetween_any|]. intros ny _. cbn beta.
    apply yields_ret. intros a Ha.
    destruct (isCircleBlockedByBuildings nx ny GRASS_RADIUS) eqn:E;
      [rewrite andb_false_r in Ha; discriminate|].
    destruct (_ && _); [|discriminate]. injection Ha as <-. exact E.
  - eapply yields_le with (k := (1 + (1 + 0))%nat); [|lia].
    eapply yields_bind; [apply yields_randomBetween_any|]. intros nx _. cbn beta.
    eapply yields_bind; [apply yields_randomBetween_any|]. intros ny _. cbn beta.
    apply yields_ret. intros a Ha.
    destruct (isCircleBlockedByBuildings nx ny GRASS_RADIUS) eqn:E;
      [discriminate|].
    injection Ha as <-. exact E.
  - apply yields_ret. apply corner_clear;
      unfold GRASS_RADIUS, STREET_WIDTH, BUILDING_MARGIN; cbn; lra.
Qed.

Lemma yields_spawnPowerup_clear (W : World) (existing : list PowerupSpot)
    (skipIndex : option nat) :
  yields (spawnPowerup W existing skipIndex) 258
    (fun p => clear POWERUP_RADIUS (pu_x p) (pu_y p)).
Proof.
  unfold spawnPowerup. cbv zeta.
  assert (Hnew : forall x y, clear POWERUP_RADIUS x y ->
    yields (let* p := newPowerup x y in ret (Some p)) 2
      (fun r => forall a, r = Some a -> clear POWERUP_RADIUS (pu_x a) (pu_y a))).
  { intros x y Hxy.
    eapply yields_le with (k := (2 + 0)%nat); [|lia].
    eapply yields_bind; [apply yields_newPowerup|].
    intros p [Hpx Hpy]. apply yields_ret. intros a [= <-].
    rewrite Hpx, Hpy. exact Hxy. }
  eapply yields_le with (k := (32 * 4 + (32 * 4 + 2))%nat); [|cbn; lia].
  apply yields_for_return; [intros _|apply yields_for_return; [intros _|]].
  - eapply yields_le with (k := (1 + (1 + 2))%nat); [|lia].
    eapply yields_bind; [apply yields_randomBetween_any|]. intros nx _. cbn beta.
    eapply yields_bind; [apply yields_randomBetween_any|]. intros ny _. cbn beta.
    destruct (isCircleBlockedByBuildings nx ny POWERUP_RADIUS) eqn:E.
    + rewrite andb_false_r.
      eapply yields_le; [apply yields_ret|lia]. intros a [=].
    + destruct (_ && _).
      * apply Hnew. exact E.
      * eapply yields_le; [apply yields_ret|lia]. intros a [=].
  - eapply yields_le with (k := (1 + (1 + 2))%nat); [|lia].
    eapply yields_bind; [apply yields_randomBetween_any|]. intros nx _. cbn beta.
    eapply yields_bind; [apply yields_randomBetween_any|]. intros ny _. cbn beta.
    destruct (isCircleBlockedByBuildings nx ny POWERUP_RADIUS) eqn:E; cbn [negb].
    + eapply yields_le; [apply yields_ret|lia]. intros a [=].
    + apply Hnew. exact E.
  - eapply yields_weaken; [apply yields_newPowerup|lia|].
    intros p [-> ->]. apply corner_clear;
      unfold POWERUP_RADIUS, STREET_WIDTH, BUILDING_MARGIN; cbn; lra.
Qed.

Lemma yields_spawnEnemy_clear (existing : list EnemySpot) (enemyIndex : nat) :
  yields (spawnEnemy existing enemyIndex) 163
    (fun e => clear ENEMY_RADIUS (en_x e) (en_y e) /\
              placed ENEMY_RADIUS (en_homeX e) (en_homeY e) /\
              900 <= en_territoryRadius e).
Proof.
  unfold spawnEnemy.
  eapply yields_le with (k := (2 + (16 * 2 + (32 * 4 + 1)))%nat); [|cbn; lia].
  eapply yields_bind; [apply yields_getEnemyHome_placed|].
  intros home [Hhome Hterritory]. cbn beta.
  apply yields_for_return; [intros i|apply yields_for_return; [intros _|]].
  - eapply yields_le with (k := (1 + 1)%nat); [|lia].
    eapply yields_bind with (P := fun _ => True).
    { destruct (Nat.eqb i 0).
      - eapply yields_le; [apply yields_ret; exact I|lia].
      - apply yields_randomBetween_any. }
    intros spawnDistance _. cbv zeta. cbn beta.
    destruct (isCircleBlockedByBuildings _ _ ENEMY_RADIUS) eqn:E.
    + rewrite andb_false_r.
      eapply yields_le; [apply yields_ret|lia]. intros a [=].
    + destruct (_ && _).
      * eapply yields_le with (k := (1 + 0)%nat); [|lia].
         eapply yields_bind; [apply yields_uuid|]. intros id _. cbn beta.
         apply yields_ret. intros a [= <-].
         cbn [en_x en_y en_homeX en_homeY en_territoryRadius].
         split; [exact E|]. split; assumption.
      * eapply yields_le; [apply yields_ret|lia]. intros a [=].
  - eapply yields_le with (k := (1 + (1 + (1 + 1)))%nat); [|lia].
    eapply yields_bind; [apply yields_randomStreet_any|]. intros street _.
    cbn beta.
    eapply yields_bind; [apply yields_randomBetween_any|]. intros x _. cbn beta.
    eapply yields_bind; [apply yields_randomBetween_any|]. intros y _.
    cbv zeta. cbn beta.
    destruct (isCircleBlockedByBuildings x y ENEMY_RADIUS) eqn:E.
    + rewrite andb_false_r.
      eapply yields_le; [apply yields_ret|lia]. intros a [=].
    + destruct (_ && _).
      * eapply yields_le with (k := (1 + 0)%nat); [|lia].
         eapply yields_bind; [apply yields_uuid|]. intros id _. cbn beta.
         apply yields_ret. intros a [= <-].
         cbn [en_x en_y en_homeX en_homeY en_territoryRadius].
         split; [exact E|]. split; assumption.
      * eapply yields_le; [apply yields_ret|lia]. intros a [=].
  - eapply yields_le with (k := (1 + 0)%nat); [|lia].
    eapply yields_bind; [apply yields_uuid|]. intros id _. cbn beta.
    apply yields_ret. cbn [en_x en_y en_homeX en_homeY en_territoryRadius].
    split; [apply Hhome|]. split; assumption.
Qed.

(** X7. Every placement routine returns a position whose circle intersects
    no building, for every value [Math.random()] may return: both retry
    loops test the position, the last resort of grass, powerups and players
    is the map corner, which no building reaches, and the last resort of an
    enemy is its home.  A spawned enemy carries a home that is inside the
    map and clear of buildings. *)
Theorem placement_clear_of_buildings :
  (forall W existing skipIndex,
     yields (spawnGrass W existing skipIndex) 128
       (fun g => clear GRASS_RADIUS (g_x g) (g_y g))) /\
  (forall W existing skipIndex,
     yields (spawnPowerup W existing skipIndex) 258
       (fun p => clear POWERUP_RADIUS (pu_x p) (pu_y p))) /\
  (forall existing enemyIndex,
     yields (spawnEnemy existing enemyIndex) 163
       (fun e => clear ENEMY_RADIUS (en_x e) (en_y e) /\
                 placed ENEMY_RADIUS (en_homeX e) (en_homeY e) /\
                 900 <= en_territoryRadius e)) /\
  (forall enemies,
     yields (spawnPlayerPosition enemies) 256
       (fun xy => clear PLAYER_RADIUS (fst xy) (snd xy))).
Proof.
  split; [|split; [|split]].
  - apply yields_spawnGrass_clear.
  - apply yields_spawnPowerup_clear.
  - apply yields_spawnEnemy_clear.
  - apply yields_spawnPlayerPosition_clear.
Qed.

(** ** More on powerups *)

(** X8. What is reported as active is what the timers say: a type is listed
    by [getActivePowerups] exactly when its timer is later than [now], no
    type is listed twice, and the speed and the grass radius the move
    handler uses change with exactly these entries. *)
Theorem active_powerups_reflect_timers (player : ServerPlayer) (now : Z) :
  (forall type,
     In type (getActivePowerups player now) <-> (now < timerOf type player)%Z) /\
  NoDup (getActivePowerups player now) /\
  (In speed (getActivePowerups player now) ->
   getPlayerMoveSpeed player now == 17) /\
  (~ In speed (getActivePowerups player now) ->
   getPlayerMoveSpeed player now == 10) /\
  (In magnet (getActivePowerups player now) ->
   getGrassMagnetRadius player now == 138) /\
  (~ In magnet (getActivePowerups player now) ->
   getGrassMagnetRadius player now == 30).
Proof.
  assert (Hin : forall type,
    In type (getActivePowerups player now) <-> (now < timerOf type player)%Z).
  { intros type. unfold getActivePowerups.
    destruct (Z.gtb_spec (pl_speedUntil player) now);
      destruct (Z.gtb_spec (pl_magnetUntil player) now);
      destruct (Z.gtb_spec (pl_doubleUntil player) now);
      destruct type; cbn; split; intros H'; try lia;
      repeat (destruct H' as [H'|H']; try discriminate H'; try lia);
      auto. }
  split; [exact Hin|]. split.
  { unfold getActivePowerups.
    destruct (_ >? _)%Z; destruct (_ >? _)%Z; destruct (_ >? _)%Z; cbn;
      repeat (first [apply NoDup_nil_2|apply NoDup_cons_2]);
      rewrite ?elem_of_cons, elem_of_nil; intros H';
      repeat (destruct H' as [H'|H']; try discriminate H'); exact H'. }
  unfold getPlayerMoveSpeed, getGrassMagnetRadius, getGrassTouchRadius.
  split; [|split; [|split]]; rewrite Hin; cbn [timerOf]; intros H';
    match goal with
    | |- context [(?a >? ?b)%Z] => destruct (Z.gtb_spec a b)
    end; try lia; reflexivity.
Qed.

(** X9. A powerup that is picked up at [now] is active from then on for at
    least its whole duration, the speed or the magnet radius the move
    handler reads is the boosted one at once, the timers of the other types
    are left as they were, and nothing but timers changes on the player. *)
Theorem picked_powerup_is_active (player : ServerPlayer) (type : PowerupType)
    (now : Z) :
  let player' := applyPowerup player type now in
  (forall t, (now <= t < now + durationOf type)%Z ->
     In type (getActivePowerups player' t)) /\
  (forall other, other <> type -> timerOf other player' = timerOf other player) /\
  (type = speed -> getPlayerMoveSpeed player' now == 17) /\
  (type = magnet -> getGrassMagnetRadius player' now == 138) /\
  set_until player' (pl_speedUntil player) (pl_magnetUntil player)
    (pl_doubleUntil player) = player.
Proof.
  intros player'.
  assert (Hmax : forall a b c : Z, extendPowerup a b c = (Z.max a b + c)%Z).
  { intros a b c. unfold extendPowerup. destruct (Z.gtb_spec a b); lia. }
  split; [|split; [|split; [|split]]].
  - intros t Ht. subst player'. unfold getActivePowerups.
    destruct type; cbn [applyPowerup set_until pl_speedUntil pl_magnetUntil
                        pl_doubleUntil durationOf] in *; rewrite Hmax.
    + destruct (Z.gtb_spec (Z.max (pl_speedUntil player) now + SPEED_DURATION_MS) t);
        [left; reflexivity|lia].
    + destruct (Z.gtb_spec (Z.max (pl_magnetUntil player) now + MAGNET_DURATION_MS) t);
        [|lia].
      apply in_or_app. right. left. reflexivity.
    + destruct (Z.gtb_spec (Z.max (pl_doubleUntil player) now + DOUBLE_DURATION_MS) t);
        [|lia].
      apply in_or_app. right. apply in_or_app. right. left. reflexivity.
  - intros other Hne. subst player'.
    destruct type, other; try contradiction; reflexivity.
  - intros ->. subst player'. unfold getPlayerMoveSpeed.
    cbn [applyPowerup set_until pl_speedUntil]. rewrite Hmax.
    destruct (Z.gtb_spec (Z.max (pl_speedUntil player) now + SPEED_DURATION_MS) now);
      [reflexivity|unfold SPEED_DURATION_MS in *; lia].
  - intros ->. subst player'. unfold getGrassMagnetRadius.
    cbn [applyPowerup set_until pl_magnetUntil]. rewrite Hmax.
    destruct (Z.gtb_spec (Z.max (pl_magnetUntil player) now + MAGNET_DURATION_MS) now);
      [reflexivity|unfold MAGNET_DURATION_MS in *; lia].
  - subst player'. destruct player, type; reflexivity.
Qed.

(** ** More on colours *)

Lemma lowerHex_facts (c : ascii) :
  isLowerHex c = true ->
  isHexDigit c = true /\ lowerChar c = c /\ isWhiteSpace c = false /\
  Ascii.eqb c "#" = false.
Proof.
  destruct c as [[] [] [] [] [] [] [] []]; cbn; intros H;
    first [discriminate H | repeat split; reflexivity].
Qed.

Lemma lowered_hex (c : ascii) :
  isHexDigit (lowerChar c) = true -> isLowerHex (lowerChar c) = true.
Proof.
  destruct c as [[] [] [] [] [] [] [] []]; cbn; intros H;
    first [discriminate H | reflexivity].
Qed.

Lemma allHex_lowered (s : string) :
  allHex (toLowerCase s) = true -> allLowerHex (toLowerCase s) = true.
Proof.
  induction s as [|c r IH]; cbn [toLowerCase allHex allLowerHex]; [auto|].
  intros H. apply andb_prop in H as [Hc Hr].
  rewrite (lowered_hex c Hc), (IH Hr). reflexivity.
Qed.

Lemma hexMatch_lowered (n : nat) (s body : string) :
  hexMatch n (toLowerCase s) = Some body ->
  String.length body = n /\ allLowerHex body = true.
Proof.
  unfold hexMatch.
  match goal with
  | |- context [Nat.eqb (String.length ?b) n && allHex ?b] =>
      assert (Hb : exists r, b = toLowerCase r)
  end.
  { destruct s as [|c r]; cbn [toLowerCase].
    - exists EmptyString. reflexivity.
    - destruct (Ascii.eqb (lowerChar c) "#").
      + exists r. reflexivity.
      + exists (String c r). reflexivity. }
  destruct Hb as (r & ->).
  destruct (Nat.eqb _ n) eqn:En; cbn [andb]; [|discriminate].
  destruct (allHex _) eqn:Eh; [|discriminate].
  intros [= <-]. split; [apply Nat.eqb_eq, En|apply allHex_lowered, Eh].
Qed.

Lemma sanitizeColor_fixed (d1 d2 d3 d4 d5 d6 : ascii) :
  isLowerHex d1 = true -> isLowerHex d2 = true -> isLowerHex d3 = true ->
  isLowerHex d4 = true -> isLowerHex d5 = true -> isLowerHex d6 = true ->
  let c :=
    String "#" (String d1 (String d2 (String d3 (String d4 (String d5
      (String d6 EmptyString)))))) in
  sanitizeColor (V_string c) = Some c.
Proof.
  intros H1 H2 H3 H4 H5 H6 c. subst c.
  destruct (lowerHex_facts d1 H1) as (X1 & L1 & _ & _).
  destruct (lowerHex_facts d2 H2) as (X2 & L2 & _ & _).
  destruct (lowerHex_facts d3 H3) as (X3 & L3 & _ & _).
  destruct (lowerHex_facts d4 H4) as (X4 & L4 & _ & _).
  destruct (lowerHex_facts d5 H5) as (X5 & L5 & _ & _).
  destruct (lowerHex_facts d6 H6) as (X6 & L6 & W6 & _).
  unfold sanitizeColor, trim.
  cbn [trimStart isWhiteSpace]. unfold String.rev. cbn [String.rev_app].
  cbn [trimStart]. rewrite W6. cbn [String.rev_app toLowerCase].
  change (lowerChar "#") with "#"%char.
  rewrite L1, L2, L3, L4, L5, L6.
  unfold hexMatch. change (Ascii.eqb "#" "#") with true.
  cbn [String.length Nat.eqb andb allHex].
  rewrite X1, X2, X3, X4, X5, X6. reflexivity.
Qed.

Lemma sanitizeColor_output (v : JsVal) (c : string) :
  sanitizeColor v = Some c ->
  (exists s, v = V_string s) /\
  (exists six, c = String "#" six /\ String.length six = 6%nat /\
               allLowerHex six = true) /\
  sanitizeColor (V_string c) = Some c.
Proof.
  intros Hc.
  destruct v as [| |b|n|s|o]; try discriminate Hc.
  split; [exists s; reflexivity|].
  unfold sanitizeColor in Hc.
  destruct (hexMatch 3 (toLowerCase (trim s))) as [body|] eqn:E3.
  - apply hexMatch_lowered in E3 as [_ Hlow].
    destruct body as [|r [|g [|b [|]]]]; try discriminate Hc.
    injection Hc as <-. cbn [allLowerHex] in Hlow.
    apply andb_prop in Hlow as [Hr Hlow].
    apply andb_prop in Hlow as [Hg Hlow].
    apply andb_prop in Hlow as [Hb _].
    split.
    + eexists. split; [reflexivity|]. split; [reflexivity|].
      cbn [allLowerHex]. rewrite Hr, Hg, Hb. reflexivity.
    + apply sanitizeColor_fixed; assumption.
  - destruct (hexMatch 6 (toLowerCase (trim s))) as [full|] eqn:E6;
      [|discriminate Hc].
    injection Hc as <-.
    apply hexMatch_lowered in E6 as [Hlen Hlow].
    split; [exists full; auto|].
    destruct full as [|d1 [|d2 [|d3 [|d4 [|d5 [|d6 [|]]]]]]]; try discriminate Hlen.
    cbn [allLowerHex] in Hlow.
    repeat match type of Hlow with
           | (_ && _) = true => apply andb_prop in Hlow as [? Hlow]
           end.
    apply sanitizeColor_fixed; assumption.
Qed.

(** X10. What [sanitizeColor] accepts is a string, and what it returns is
    canonical: [#] followed by exactly six digits of [[0-9a-f]]; the
    sanitizer returns its own output unchanged.  Six hex digits, with or
    without [#], in any case, are accepted and returned in lower case after
    [#]. *)
Theorem sanitizeColor_canonical (v : JsVal) (c : string) :
  (sanitizeColor v = Some c ->
   (exists s, v = V_string s) /\
   (exists six, c = String "#" six /\ String.length six = 6%nat /\
                allLowerHex six = true) /\
   sanitizeColor (V_string c) = Some c) /\
  (forall (withHash : bool) d1 d2 d3 d4 d5 d6,
     isHexDigit d1 = true -> isHexDigit d2 = true -> isHexDigit d3 = true ->
     isHexDigit d4 = true -> isHexDigit d5 = true -> isHexDigit d6 = true ->
     let digits :=
       String d1 (String d2 (String d3 (String d4 (String d5
         (String d6 EmptyString))))) in
     sanitizeColor (V_string (if withHash then String "#" digits else digits))
       = Some (String "#" (toLowerCase digits))).
Proof.
  split; [apply sanitizeColor_output|].
  intros withHash d1 d2 d3 d4 d5 d6 H1 H2 H3 H4 H5 H6 digits. subst digits.
  destruct (hex_not_space d1 H1) as [W1 _].
  destruct (hex_not_space d6 H6) as [W6 _].
  destruct (hex_lower d1 H1) as [L1 E1].
  destruct (hex_lower d2 H2) as [L2 _].
  destruct (hex_lower d3 H3) as [L3 _].
  destruct (hex_lower d4 H4) as [L4 _].
  destruct (hex_lower d5 H5) as [L5 _].
  destruct (hex_lower d6 H6) as [L6 _].
  unfold sanitizeColor, trim.
  destruct withHash.
  - cbn [trimStart isWhiteSpace]. unfold String.rev. cbn [String.rev_app].
    cbn [trimStart]. rewrite W6. cbn [String.rev_app toLowerCase].
    change (lowerChar "#") with "#"%char.
    unfold hexMatch. change (Ascii.eqb "#" "#") with true.
    cbn [String.length Nat.eqb andb allHex].
    rewrite L1, L2, L3, L4, L5, L6. reflexivity.
  - cbn [trimStart]. rewrite W1. unfold String.rev. cbn [String.rev_app].
    cbn [trimStart]. rewrite W6. cbn [String.rev_app toLowerCase].
    unfold hexMatch. rewrite E1. cbn [String.length Nat.eqb andb allHex].
    rewrite L1, L2, L3, L4, L5, L6. reflexivity.
Qed.

(** ** The connection hooks *)

Lemma hydrateUserScore_shape (W : World) (userId : string) :
  exists l,
    hydrateUserScore W userId =
      (with_userScoreLoads W l,
       if bool_decide (userScores W !! userId = None /\ userId ∉ userScoreLoads W)
       then [DbSelectScore userId] else []) /\
    (userScores W !! userId = None -> userId ∈ l).
Proof.
  unfold hydrateUserScore. destruct W as [ps sc co sl cl pj gs pus es d nt].
  cbn [userScores userScoreLoads].
  destruct (sc !! userId) as [s|] eqn:Es.
  - rewrite bool_decide_eq_true_2 by eauto.
    rewrite bool_decide_eq_false_2 by (intros [Hf _]; discriminate Hf).
    exists sl. split; [reflexivity|discriminate].
  - rewrite (bool_decide_eq_false_2 (is_Some None))
      by (intros [x Hx]; discriminate Hx).
    destruct (decide (userId ∈ sl)) as [Hin|Hout].
    + rewrite (bool_decide_eq_true_2 _ Hin).
      rewrite bool_decide_eq_false_2 by (intros [_ Hf]; contradiction).
      exists sl. split; [reflexivity|intros _; exact Hin].
    + rewrite (bool_decide_eq_false_2 _ Hout).
      rewrite bool_decide_eq_true_2 by (split; [reflexivity|exact Hout]).
      eexists. split; [reflexivity|intros _].
      apply elem_of_union. left. apply elem_of_singleton. reflexivity.
Qed.

Lemma hydrateUserColor_shape (W : World) (userId : string) :
  exists l,
    hydrateUserColor W userId =
      (with_userColorLoads W l,
       if bool_decide (userColors W !! userId = None /\ userId ∉ userColorLoads W)
       then [DbSelectColor userId] else []) /\
    (userColors W !! userId = None -> userId ∈ l).
Proof.
  unfold hydrateUserColor. destruct W as [ps sc co sl cl pj gs pus es d nt].
  cbn [userColors userColorLoads].
  destruct (co !! userId) as [s|] eqn:Es.
  - rewrite bool_decide_eq_true_2 by eauto.
    rewrite bool_decide_eq_false_2 by (intros [Hf _]; discriminate Hf).
    exists cl. split; [reflexivity|discriminate].
  - rewrite (bool_decide_eq_false_2 (is_Some None))
      by (intros [x Hx]; discriminate Hx).
    destruct (decide (userId ∈ cl)) as [Hin|Hout].
    + rewrite (bool_decide_eq_true_2 _ Hin).
      rewrite bool_decide_eq_false_2 by (intros [_ Hf]; contradiction).
      exists cl. split; [reflexivity|intros _; exact Hin].
    + rewrite (bool_decide_eq_false_2 _ Hout).
      rewrite bool_decide_eq_true_2 by (split; [reflexivity|exact Hout]).
      eexists. split; [reflexivity|intros _].
      apply elem_of_union. left. apply elem_of_singleton. reflexivity.
Qed.

Lemma open_shape (W : World) (peer userId : string) (name : option string) :
  userId <> "" ->
  exists l1 l2,
    open W peer (mkContext (Some userId) name) =
      (with_pendingJoinTimers
         (with_nextTimer (with_userColorLoads (with_userScoreLoads W l1) l2)
            (S (nextTimer W)))
         (<[peer := nextTimer W]> (pendingJoinTimers W)),
       (if bool_decide (userScores W !! userId = None /\ userId ∉ userScoreLoads W)
        then [DbSelectScore userId] else []) ++
       (if bool_decide (userColors W !! userId = None /\ userId ∉ userColorLoads W)
        then [DbSelectColor userId] else []) ++
       [SetTimeout (mkJoinTimer (nextTimer W) peer userId (default "Player" name))
          JOIN_DELAY_MS]) /\
    (userScores W !! userId = None -> userId ∈ l1) /\
    (userColors W !! userId = None -> userId ∈ l2).
Proof.
  intros Hne. unfold open. cbn [ctx_userId ctx_name].
  destruct (String.eqb userId "") eqn:E;
    [apply String.eqb_eq in E; contradiction|].
  destruct (hydrateUserScore_shape W userId) as (l1 & -> & H1).
  destruct (hydrateUserColor_shape (with_userScoreLoads W l1) userId)
    as (l2 & -> & H2).
  exists l1, l2. split; [reflexivity|]. split; assumption.
Qed.

(** X11. [open]: without a user id (none, or the empty string) the
    connection is closed with code 4401 and nothing else happens.  With a
    user id nobody becomes a player yet and the caches are untouched; the
    join timer is scheduled for [JOIN_DELAY_MS] under a fresh handle and
    tracked under the peer; the user's score and colour are afterwards cached
    or being read, and a database read is started exactly when the value was
    neither cached nor already being read. *)
Theorem open_hook_outcomes (W : World) (peer : string) (context : PeerContext) :
  (ctx_userId context = None \/ ctx_userId context = Some "" ->
   open W peer context = (W, [ClosePeer peer 4401 "Unauthorized"])) /\
  (forall userId, ctx_userId context = Some userId -> userId <> "" ->
     let W' := fst (open W peer context) in
     let out := snd (open W peer context) in
     players W' = players W /\
     userScores W' = userScores W /\ userColors W' = userColors W /\
     pendingJoinTimers W' = <[peer := nextTimer W]> (pendingJoinTimers W) /\
     nextTimer W' = S (nextTimer W) /\
     (is_Some (userScores W !! userId) \/ userId ∈ userScoreLoads W') /\
     (is_Some (userColors W !! userId) \/ userId ∈ userColorLoads W') /\
     (In (DbSelectScore userId) out <->
      userScores W !! userId = None /\ userId ∉ userScoreLoads W) /\
     (In (DbSelectColor userId) out <->
      userColors W !! userId = None /\ userId ∉ userColorLoads W) /\
     In (SetTimeout
           (mkJoinTimer (nextTimer W) peer userId
              (default "Player" (ctx_name context)))
           JOIN_DELAY_MS) out).
Proof.
  split.
  - intros [Hc|Hc]; unfold open; rewrite Hc; reflexivity.
  - intros userId Hctx Hne. destruct context as [u name].
    cbn [ctx_userId ctx_name] in *. subst u.
    destruct (open_shape W peer userId name Hne) as (l1 & l2 & -> & H1 & H2).
    cbv zeta. cbn [fst snd players userScores userColors pendingJoinTimers
                   nextTimer userScoreLoads userColorLoads
                   with_pendingJoinTimers with_nextTimer with_userColorLoads
                   with_userScoreLoads].
    split; [reflexivity|]. split; [reflexivity|]. split; [reflexivity|].
    split; [reflexivity|]. split; [reflexivity|].
    split.
    { destruct (userScores W !! userId) eqn:E; [left; eauto|right; auto]. }
    split.
    { destruct (userColors W !! userId) eqn:E; [left; eauto|right; auto]. }
    split; [|split].
    + case_bool_decide as Hd; cbn.
      * split; [intros _; exact Hd|intros _; left; reflexivity].
      * split; [|intros Hd'; contradiction].
        intros Hin. apply in_app_or in Hin as [Hin|Hin].
        -- destruct (bool_decide _); cbn in Hin;
             [destruct Hin as [Hin|[]]; discriminate Hin|destruct Hin].
        -- destruct Hin as [Hin|[]]. discriminate Hin.
    + split.
      * intros Hin. apply in_app_or in Hin as [Hin|Hin].
        { destruct (bool_decide _); cbn in Hin;
            [destruct Hin as [Hin|[]]; discriminate Hin|destruct Hin]. }
        apply in_app_or in Hin as [Hin|Hin].
        -- case_bool_decide as Hd; [exact Hd|destruct Hin].
        -- destruct Hin as [Hin|[]]. discriminate Hin.
      * intros Hd. apply in_or_app. right. apply in_or_app. left.
        rewrite bool_decide_eq_true_2 by exact Hd. left. reflexivity.
    + apply in_or_app. right. apply in_or_app. right. left. reflexivity.
Qed.

Lemma snapshotRecipients_broadcast (W : World) (now : Z) :
  snapshotRecipients (broadcastWorld W now) = map pl_peer (players_values W).
Proof.
  unfold broadcastWorld, sendToPeer, snapshotRecipients.
  induction (players_values W) as [|p ps IH]; cbn; [reflexivity|].
  f_equal. exact IH.
Qed.

(** X12. A connection that was opened with a user id and whose timer then
    fires becomes a player: filed under its peer, with the user id and the
    display name of the context (["Player"] without one), the cached colour
    of the user or the colour derived from the user id, the cached score or
    0, no active powerup, at a position clear of buildings.  The timer is
    no longer tracked, and the connection is told [connected] and then
    receives the broadcast snapshot. *)
Theorem join_after_open (W : World) (peer userId : string)
    (name : option string) (now : Z) :
  userId <> "" ->
  let timer := mkJoinTimer (nextTimer W) peer userId (default "Player" name) in
  let W1 := fst (open W peer (mkContext (Some userId) name)) in
  let W2 := fst (joinTimerFired W1 timer now) in
  let out := snd (joinTimerFired W1 timer now) in
  (exists x y,
     clear PLAYER_RADIUS x y /\
     players_get peer (players W2) =
       Some (mkPlayer peer peer userId (default "Player" name)
               (getUserColor W userId) x y
               (default 0%Z (userScores W !! userId)) 0 0 0)) /\
  pendingJoinTimers W2 !! peer = None /\
  out = Send peer (connected peer) :: broadcastWorld W2 now /\
  In peer (snapshotRecipients out).
Proof.
  intros Hne timer W1 W2 out. subst W1 W2 out timer.
  destruct (open_shape W peer userId name Hne) as (l1 & l2 & -> & _ & _).
  cbn [fst]. unfold joinTimerFired.
  cbn [jt_peer jt_handle jt_userId jt_displayName pendingJoinTimers
       with_pendingJoinTimers].
  rewrite lookup_insert_eq.
  rewrite bool_decide_eq_true_2 by reflexivity. cbn [negb].
  unfold run.
  match goal with
  | |- context [spawnPlayerPosition ?es ?n] =>
      pose proof (proj1 (yields_spawnPlayerPosition_clear es n)) as Hclear;
      destruct (spawnPlayerPosition es n) as [[x y] n']
  end.
  cbn [fst snd] in *.
  split; [|split; [|split]].
  - exists x, y. split; [exact Hclear|].
    cbn [players with_players]. rewrite players_set_get_same. reflexivity.
  - cbn. apply lookup_delete_eq.
  - reflexivity.
  - unfold sendToPeer. cbn [app snapshotRecipients flat_map].
    fold (snapshotRecipients (broadcastWorld
      (with_players
         (with_draws
            (with_pendingJoinTimers
               (with_pendingJoinTimers
                  (with_nextTimer
                     (with_userColorLoads (with_userScoreLoads W l1) l2)
                     (S (nextTimer W)))
                  (<[peer:=nextTimer W]> (pendingJoinTimers W)))
               (delete peer (<[peer:=nextTimer W]> (pendingJoinTimers W))))
            n')
         (players_set peer
            (mkPlayer peer peer userId (default "Player" name)
               (getUserColor W userId) x y
               (default 0%Z (userScores W !! userId)) 0 0 0)
            (players W))) now)).
    rewrite snapshotRecipients_broadcast.
    unfold players_values. cbn [players with_players].
    apply in_map_iff.
    exists (mkPlayer peer peer userId (default "Player" name)
              (getUserColor W userId) x y
              (default 0%Z (userScores W !! userId)) 0 0 0).
    split; [reflexivity|].
    apply in_map_iff. exists (peer, mkPlayer peer peer userId (default "Player" name)
              (getUserColor W userId) x y
              (default 0%Z (userScores W !! userId)) 0 0 0).
    split; [reflexivity|].
    apply list_elem_of_In, players_get_elem, players_set_get_same.
Qed.

Lemma joinTimerFired_untracked (W : World) (timer : JoinTimer) (now : Z) :
  pendingJoinTimers W !! jt_peer timer <> Some (jt_handle timer) ->
  joinTimerFired W timer now = (W, []).
Proof.
  intros Hne. unfold joinTimerFired.
  rewrite bool_decide_eq_false_2 by exact Hne. reflexivity.
Qed.

Lemma close_pending (W : World) (peer : string) (now : Z) :
  pendingJoinTimers (fst (close W peer now)) = delete peer (pendingJoinTimers W).
Proof.
  unfold close.
  destruct (pendingJoinTimers W !! peer) as [h|] eqn:E; cbn [fst].
  - cbn [players with_pendingJoinTimers].
    destruct (players_get peer (players W)) as [p|]; [|reflexivity].
    destruct (hasConnectedPlayer _ _); reflexivity.
  - rewrite delete_id by exact E.
    destruct (players_get peer (players W)) as [p|]; [|reflexivity].
    destruct (hasConnectedPlayer _ _); reflexivity.
Qed.

(** X13. A join timer fires at most once and only while it is tracked: a
    timer that is not the one tracked for its peer changes nothing and sends
    nothing; after a timer has fired, after the connection was closed, and
    after the same peer was opened again (which issues a new handle), firing
    it has no effect. *)
Theorem join_timer_fires_once (W : World) (timer : JoinTimer) (now now' : Z) :
  (pendingJoinTimers W !! jt_peer timer <> Some (jt_handle timer) ->
   joinTimerFired W timer now = (W, [])) /\
  (let W' := fst (joinTimerFired W timer now) in
   joinTimerFired W' timer now' = (W', [])) /\
  (let W' := fst (close W (jt_peer timer) now) in
   joinTimerFired W' timer now' = (W', [])) /\
  (forall userId name,
     userId <> "" -> jt_handle timer <> nextTimer W ->
     let W' := fst (open W (jt_peer timer) (mkContext (Some userId) name)) in
     joinTimerFired W' timer now' = (W', [])).
Proof.
  split; [apply joinTimerFired_untracked|]. split; [|split].
  - cbv zeta. apply joinTimerFired_untracked.
    unfold joinTimerFired.
    destruct (bool_decide (pendingJoinTimers W !! jt_peer timer
                           = Some (jt_handle timer))) eqn:E; cbn [negb fst].
    + unfold run. destruct (spawnPlayerPosition _ _) as [start n'].
      cbn [fst pendingJoinTimers with_players with_draws with_pendingJoinTimers].
      rewrite lookup_delete_eq. discriminate.
    + apply bool_decide_eq_false_1 in E. exact E.
  - cbv zeta. apply joinTimerFired_untracked.
    rewrite close_pending, lookup_delete_eq. discriminate.
  - intros userId name Hne Hhandle. cbv zeta.
    apply joinTimerFired_untracked.
    destruct (open_shape W (jt_peer timer) userId name Hne)
      as (l1 & l2 & -> & _ & _).
    cbn [fst pendingJoinTimers with_pendingJoinTimers].
    rewrite lookup_insert_eq. intros [= Heq]. apply Hhandle. symmetry. exact Heq.
Qed.

Lemma players_delete_absent (k : string) (ps : list (string * ServerPlayer)) :
  players_get k ps = None -> players_delete k ps = ps.
Proof.
  unfold players_delete. induction ps as [|[k0 p0] ps IH]; cbn; [reflexivity|].
  destruct (String.eqb k0 k) eqn:E; [discriminate|].
  cbn. intros H. rewrite (IH H). reflexivity.
Qed.

(** X14. [close]: the connection is removed from the players and the other
    connections are untouched.  When it was the user's last connection, the
    user's cached score and colour are dropped; while another connection of
    the user remains, both caches are kept as they are.  The snapshot then
    goes to exactly the remaining players.  Closing a connection that is
    not a player changes neither the players nor the caches and sends no
    message. *)
Theorem close_evicts_last_connection (W : World) (peer : string) (now : Z) :
  let W' := fst (close W peer now) in
  let out := snd (close W peer now) in
  players W' = players_delete peer (players W) /\
  (forall player, players_get peer (players W) = Some player ->
     let userId := pl_userId player in
     (hasConnectedPlayer W' userId = false ->
      userScores W' = delete userId (userScores W) /\
      userColors W' = delete userId (userColors W)) /\
     (hasConnectedPlayer W' userId = true ->
      userScores W' = userScores W /\ userColors W' = userColors W) /\
     snapshotRecipients out = map pl_peer (players_values W')) /\
  (players_get peer (players W) = None ->
   players W' = players W /\ userScores W' = userScores W /\
   userColors W' = userColors W /\ snapshotRecipients out = []).
Proof.
  cbv zeta. unfold close.
  assert (Hrec : forall (e1 : list Effect) out,
            (forall eff, In eff e1 -> exists h, eff = ClearTimeout h) ->
            snapshotRecipients (e1 ++ out) = snapshotRecipients out).
  { intros e1 out He1. unfold snapshotRecipients. rewrite flat_map_app.
    replace (flat_map _ e1) with (@nil string); [reflexivity|].
    induction e1 as [|eff e1 IH]; [reflexivity|]. cbn.
    destruct (He1 eff (or_introl eq_refl)) as (h & ->). cbn.
    apply IH. intros eff' Hin. apply He1. right. exact Hin. }
  set (r := match pendingJoinTimers W !! peer with
            | Some pendingTimer =>
                (with_pendingJoinTimers W (delete peer (pendingJoinTimers W)),
                 [ClearTimeout pendingTimer])
            | None => (W, [])
            end).
  assert (Hr : players (fst r) = players W /\ userScores (fst r) = userScores W /\
               userColors (fst r) = userColors W /\
               forall eff, In eff (snd r) -> exists h, eff = ClearTimeout h).
  { subst r. destruct (pendingJoinTimers W !! peer) as [h|]; cbn.
    - repeat split. intros eff [<-|[]]. eauto.
    - repeat split. intros eff []. }
  destruct r as [W1 e1]. cbn [fst snd] in Hr.
  destruct Hr as (Hps & Hsc & Hco & He1). rewrite Hps.
  split; [|split].
  - destruct (players_get peer (players W)) as [p|]; cbn [fst];
      [destruct (hasConnectedPlayer _ _)|]; cbn [players with_players
        with_userColors with_userScores]; rewrite ?Hps; reflexivity.
  - intros player Hget. rewrite Hget.
    rewrite bool_decide_eq_true_2 by eauto.
    cbn [fst snd]. rewrite (Hrec e1 _ He1).
    destruct (hasConnectedPlayer (with_players W1 _) (pl_userId player)) eqn:Eh.
    + split; [|split].
      * intros Hf. unfold hasConnectedPlayer in *. cbn in Hf, Eh.
        rewrite ?Hps in Hf. rewrite ?Hps in Eh. congruence.
      * intros _. cbn. split; assumption.
      * apply snapshotRecipients_broadcast.
    + split; [|split].
      * intros _. cbn. rewrite Hsc, Hco. split; reflexivity.
      * intros Hf. unfold hasConnectedPlayer in *. cbn in Hf, Eh.
        rewrite ?Hps in Hf. rewrite ?Hps in Eh. congruence.
      * apply snapshotRecipients_broadcast.
  - intros Hnone. rewrite Hnone.
    rewrite bool_decide_eq_false_2 by (intros [x Hx]; discriminate Hx).
    cbn [fst snd players userScores userColors with_players].
    rewrite (players_delete_absent _ _ Hnone).
    split; [reflexivity|]. split; [exact Hsc|]. split; [exact Hco|].
    rewrite (Hrec e1 [] He1). reflexivity.
Qed.

(** ** Hydration *)

Lemma applyScore_sets (userId : string) (score : Z)
    (ps : list (string * ServerPlayer)) (kq : string * ServerPlayer) :
  kq ∈ applyScoreToConnectedPlayers userId score ps ->
  pl_userId (snd kq) = userId -> pl_score (snd kq) = score.
Proof.
  unfold applyScoreToConnectedPlayers. intros Hin Hu.
  apply list_elem_of_fmap in Hin as ([k q] & -> & Hin). cbn [fst snd] in *.
  destruct (String.eqb (pl_userId q) userId) eqn:E; [reflexivity|].
  cbn in Hu. rewrite Hu, String.eqb_refl in E. discriminate.
Qed.

(** X15. When the score read settles: with a row (or none) the cached
    score becomes the larger of the cached one and the stored one, missing
    values counting as 0, so it is never lowered, and it is not negative
    unless the cached one was; every connection of the user shows it; the read is no longer in flight, and a
    later [open] of this user starts no new read.  When the read failed, the
    scores are untouched, the error is logged, and a later [open] starts the
    read again unless a score got cached meanwhile. *)
Theorem score_hydration_merges (W : World) (userId : string) (now : Z) :
  (forall row,
     let W' := fst (scoreLoaded W userId (Some row) now) in
     let merged := Z.max (default 0%Z (userScores W !! userId)) (default 0%Z row) in
     userScores W' = <[userId := merged]> (userScores W) /\
     players W' = applyScoreToConnectedPlayers userId merged (players W) /\
     (forall kp, kp ∈ players W' -> pl_userId (snd kp) = userId ->
        pl_score (snd kp) = merged) /\
     (default 0 (userScores W !! userId) <= merged)%Z /\
     ((forall s, userScores W !! userId = Some s -> 0 <= s) -> 0 <= merged)%Z /\
     (userId ∉ userScoreLoads W') /\
     forall peer name,
       ~ In (DbSelectScore userId)
            (snd (open W' peer (mkContext (Some userId) name)))) /\
  (let W' := fst (scoreLoaded W userId None now) in
   userScores W' = userScores W /\ players W' = players W /\
   (userId ∉ userScoreLoads W') /\
   snd (scoreLoaded W userId None now)
     = [LogError ("Failed to hydrate score for user " +:+ userId)] /\
   forall peer name,
     userId <> "" -> userScores W !! userId = None ->
     In (DbSelectScore userId)
        (snd (open W' peer (mkContext (Some userId) name)))).
Proof.
  split.
  - intros row. cbv zeta. unfold scoreLoaded.
    cbn [fst userScores players userScoreLoads with_userScoreLoads
         with_players with_userScores].
    split; [reflexivity|]. split; [reflexivity|].
    split; [intros kp; apply applyScore_sets|].
    split; [apply Z.le_max_l|]. split.
    { intros Hs. apply Z.max_le_iff. left.
      destruct (userScores W !! userId) as [s|]; cbn [default];
        [apply Hs; reflexivity|reflexivity]. }
    split.
    { intros Hin. apply elem_of_difference in Hin as [_ Hin].
      apply Hin. apply elem_of_singleton. reflexivity. }
    intros peer name Hin.
    destruct (decide (userId = "")) as [->|Hne]; [cbn in Hin|].
    { destruct Hin as [Hin|[]]. discriminate Hin. }
    match type of Hin with
    | In _ (snd (open ?W0 _ _)) =>
        destruct (open_shape W0 peer userId name Hne) as (l1 & l2 & Ho & _ & _);
        rewrite Ho in Hin
    end.
    cbn [snd userScores with_userScoreLoads with_players with_userScores] in Hin.
    rewrite lookup_insert_eq in Hin.
    rewrite bool_decide_eq_false_2 in Hin by (intros [Hf _]; discriminate Hf).
    cbn [app] in Hin. apply in_app_or in Hin as [Hin|Hin].
    + destruct (bool_decide _); cbn in Hin;
        [destruct Hin as [Hin|[]]; discriminate Hin|destruct Hin].
    + destruct Hin as [Hin|[]]. discriminate Hin.
  - cbv zeta. unfold scoreLoaded.
    cbn [fst snd userScores players userScoreLoads with_userScoreLoads].
    split; [reflexivity|]. split; [reflexivity|]. split.
    { intros Hin. apply elem_of_difference in Hin as [_ Hin].
      apply Hin. apply elem_of_singleton. reflexivity. }
    split; [reflexivity|].
    intros peer name Hne Hnone.
    match goal with
    | |- In _ (snd (open ?W0 _ _)) =>
        destruct (open_shape W0 peer userId name Hne) as (l1 & l2 & -> & _ & _)
    end.
    cbn [snd userScores userScoreLoads with_userScoreLoads].
    rewrite bool_decide_eq_true_2.
    + left. reflexivity.
    + split; [exact Hnone|]. intros Hin.
      apply elem_of_difference in Hin as [_ Hin].
      apply Hin. apply elem_of_singleton. reflexivity.
Qed.

(** X16. When the colour read settles: a colour that is cached by then
    wins; otherwise the stored colour is taken if [sanitizeColor] accepts it,
    and the colour derived from the user id if not (or if there is no row).
    The chosen colour is cached and every connection of the user shows it.
    When the read failed, colours and players are untouched.  Either way the
    read is no longer in flight. *)
Theorem colour_hydration_prefers_cache (W : World) (userId : string) (now : Z) :
  (forall row,
     let W' := fst (colorLoaded W userId (Some row) now) in
     exists merged,
       userColors W' = <[userId := merged]> (userColors W) /\
       (forall kp, kp ∈ players W' -> pl_userId (snd kp) = userId ->
          pl_color (snd kp) = merged) /\
       (forall c, userColors W !! userId = Some c -> merged = c) /\
       (userColors W !! userId = None ->
        forall v, row = Some v ->
        forall c, sanitizeColor v = Some c -> merged = c) /\
       (userColors W !! userId = None ->
        (row = None \/ exists v, row = Some v /\ sanitizeColor v = None) ->
        merged = colorFromUser userId) /\
       userId ∉ userColorLoads W') /\
  (let W' := fst (colorLoaded W userId None now) in
   userColors W' = userColors W /\ players W' = players W /\
   userId ∉ userColorLoads W').
Proof.
  split.
  - intros row. cbv zeta. unfold colorLoaded.
    cbn [fst userColors players userColorLoads with_userColorLoads
         with_players with_userColors].
    eexists. split; [reflexivity|].
    split; [intros kp; apply applyColor_sets|].
    split; [intros c ->; reflexivity|].
    split; [intros -> v -> c Hc; cbn; rewrite Hc; reflexivity|].
    split.
    { intros -> [->|(v & -> & Hv)]; cbn; [reflexivity|].
      rewrite Hv. reflexivity. }
    intros Hin. apply elem_of_difference in Hin as [_ Hin].
    apply Hin. apply elem_of_singleton. reflexivity.
  - cbv zeta. unfold colorLoaded.
    cbn [fst userColors players userColorLoads with_userColorLoads].
    split; [reflexivity|]. split; [reflexivity|].
    intros Hin. apply elem_of_difference in Hin as [_ Hin].
    apply Hin. apply elem_of_singleton. reflexivity.
Qed.

(** ** What the loops leave alone

    The lemmas of this section hold for whatever properties of a grass item
    and of a powerup the placement routines guarantee and the magnet pull
    keeps. *)

Section Frames.

Variable GoodG : GrassSpot -> Prop.
Variable GoodP : PowerupSpot -> Prop.
Hypothesis spawnGrass_good :
  forall W existing skipIndex n, GoodG (fst (spawnGrass W existing skipIndex n)).
Hypothesis pullGrass_good :
  forall px py grass d, GoodG grass -> GoodG (pullGrass px py grass d).
Hypothesis spawnPowerup_good :
  forall W existing skipIndex n, GoodP (fst (spawnPowerup W existing skipIndex n)).

Lemma sameAccount_refl (kp : string * ServerPlayer) : sameAccount kp kp.
Proof. repeat split. Qed.

Lemma sameAccount_all_refl (ps : list (string * ServerPlayer)) :
  Forall2 sameAccount ps ps.
Proof. induction ps; constructor; [apply sameAccount_refl|assumption]. Qed.

Lemma sameAccount_all_trans (ps1 ps2 ps3 : list (string * ServerPlayer)) :
  Forall2 sameAccount ps1 ps2 -> Forall2 sameAccount ps2 ps3 ->
  Forall2 sameAccount ps1 ps3.
Proof.
  intros H12. revert ps3. induction H12 as [|a b l1 l2 Hab H12 IH]; intros ps3 H23.
  - inversion H23. constructor.
  - inversion H23 as [|? c ? l3 Hbc H23']; subst. constructor; [|apply IH, H23'].
    destruct Hab as (A1 & A2 & A3 & A4 & A5 & A6 & A7).
    destruct Hbc as (B1 & B2 & B3 & B4 & B5 & B6 & B7).
    repeat split; congruence.
Qed.

Lemma sameHome_all_refl (es : list EnemySpot) : Forall2 sameHome es es.
Proof. induction es; constructor; [repeat split|assumption]. Qed.

Lemma sameHome_all_trans (es1 es2 es3 : list EnemySpot) :
  Forall2 sameHome es1 es2 -> Forall2 sameHome es2 es3 -> Forall2 sameHome es1 es3.
Proof.
  intros H12. revert es3. induction H12 as [|a b l1 l2 Hab H12 IH]; intros es3 H23.
  - inversion H23. constructor.
  - inversion H23 as [|? c ? l3 Hbc H23']; subst. constructor; [|apply IH, H23'].
    destruct Hab as (A1 & A2 & A3 & A4). destruct Hbc as (B1 & B2 & B3 & B4).
    repeat split; congruence.
Qed.

Lemma keeps_refl {A} (P : A -> Prop) (l : list A) : keeps P l l.
Proof. unfold keeps. induction l; constructor; auto. Qed.

Lemma keeps_trans {A} (P : A -> Prop) (l1 l2 l3 : list A) :
  keeps P l1 l2 -> keeps P l2 l3 -> keeps P l1 l3.
Proof.
  unfold keeps. intros H12. revert l3.
  induction H12 as [|a b l1 l2 Hab H12 IH]; intros l3 H23.
  - inversion H23. constructor.
  - inversion H23 as [|? c ? l3' Hbc H23']; subst.
    constructor; [auto|apply IH, H23'].
Qed.

Lemma keeps_insert {A} (P : A -> Prop) (l : list A) (i : nat) (a a' : A) :
  l !! i = Some a -> (P a -> P a') -> keeps P l (<[i := a']> l).
Proof.
  unfold keeps. revert i. induction l as [|b l IH]; intros i Hi Himp.
  - discriminate Hi.
  - destruct i as [|i]; cbn in *.
    + injection Hi as ->. constructor; [exact Himp|apply (keeps_refl P)].
    + constructor; [auto|apply IH; assumption].
Qed.

Lemma keeps_Forall {A} (P : A -> Prop) (l l' : list A) :
  keeps P l l' -> Forall P l -> Forall P l'.
Proof.
  unfold keeps. induction 1 as [|a b l l' Hab H IH]; intros HF.
  - constructor.
  - inversion HF; subst. constructor; auto.
Qed.

Lemma moves_refl (W : World) : moves GoodG GoodP W W.
Proof.
  split; [apply sameAccount_all_refl|]. split; [reflexivity|].
  split; [reflexivity|]. split; [apply keeps_refl|].
  split; [apply keeps_refl|apply sameHome_all_refl].
Qed.

Lemma moves_trans (W1 W2 W3 : World) :
  moves GoodG GoodP W1 W2 -> moves GoodG GoodP W2 W3 -> moves GoodG GoodP W1 W3.
Proof.
  intros (A1 & A2 & A3 & A4 & A5 & A6) (B1 & B2 & B3 & B4 & B5 & B6).
  split; [eapply sameAccount_all_trans; eassumption|].
  split; [congruence|]. split; [congruence|].
  split; [eapply keeps_trans; eassumption|].
  split; [eapply keeps_trans; eassumption|].
  eapply sameHome_all_trans; eassumption.
Qed.

Lemma players_set_sameAccount (ps : list (string * ServerPlayer)) (k : string)
    (p p' : ServerPlayer) :
  players_get k ps = Some p -> sameAccount (k, p) (k, p') ->
  Forall2 sameAccount ps (players_set k p' ps).
Proof.
  intros Hget Hc. induction ps as [|[k0 p0] ps IH]; [discriminate|].
  cbn [players_get players_set] in *. destruct (String.eqb k0 k) eqn:E.
  - injection Hget as ->. apply String.eqb_eq in E. subst k0.
    constructor; [exact Hc|apply sameAccount_all_refl].
  - constructor; [apply sameAccount_refl|apply IH, Hget].
Qed.

Lemma hitLoop_sameAccount (enemy : EnemySpot) (es : list EnemySpot)
    (ps : list (string * ServerPlayer)) (hit : list string) (changed : bool)
    (n : nat) :
  Forall2 sameAccount ps (fst (fst (fst (hitLoop enemy es ps hit changed n)))).
Proof.
  revert hit changed n. induction ps as [|[k0 p0] ps IH]; intros hit changed n.
  - cbn. constructor.
  - cbn [hitLoop]. destruct (hitBy enemy p0).
    + unfold bind. destruct (spawnPlayerPosition es n) as [[x y] n1].
      specialize (IH (addHit hit (pl_userId p0)) true n1).
      destruct (hitLoop enemy es ps (addHit hit (pl_userId p0)) true n1)
        as [[[ps1 hit1] c1] n2].
      cbn [fst snd ret] in *. constructor; [repeat split|exact IH].
    + unfold bind. specialize (IH hit changed n).
      destruct (hitLoop enemy es ps hit changed n) as [[[ps1 hit1] c1] n2].
      cbn [fst snd ret] in *. constructor; [apply sameAccount_refl|exact IH].
Qed.

Lemma sameHome_insert (es : list EnemySpot) (i : nat) (e e' : EnemySpot) :
  es !! i = Some e -> sameHome e e' -> Forall2 sameHome es (<[i := e']> es).
Proof.
  revert i. induction es as [|b es IH]; intros i Hi Hh.
  - discriminate Hi.
  - destruct i as [|i]; cbn in *.
    + injection Hi as ->. constructor; [exact Hh|apply sameHome_all_refl].
    + constructor; [repeat split|apply IH; assumption].
Qed.

Lemma enemyLoop_moves (n i : nat) (W : World) (hit : list string) (changed : bool) :
  moves GoodG GoodP W (fst (fst (enemyLoop n i W hit changed))).
Proof.
  revert i W hit changed. induction n as [|n IH]; intros i W hit changed.
  - apply moves_refl.
  - cbn [enemyLoop]. destruct (enemies W !! i) as [enemy|] eqn:Ei;
      [|apply moves_refl].
    cbv zeta.
    set (enemy1 := steppedEnemy enemy (players_values W)).
    set (W1 := with_enemies W (<[i := enemy1]> (enemies W))).
    pose proof (hitLoop_sameAccount enemy1 (enemies W1) (players W1) hit
                  (st_moved (moveEnemy enemy (players_values W)) || changed)
                  (draws W1)) as Hh.
    destruct (hitLoop enemy1 (enemies W1) (players W1) hit
                (st_moved (moveEnemy enemy (players_values W)) || changed)
                (draws W1)) as [[[ps hit1] changed2] d].
    cbn [fst snd] in Hh.
    eapply moves_trans; [|apply IH].
    split; [exact Hh|]. split; [reflexivity|]. split; [reflexivity|].
    split; [apply keeps_refl|]. split; [apply keeps_refl|].
    cbn [enemies with_draws with_players]. subst W1. cbn [enemies with_enemies].
    apply (sameHome_insert _ _ enemy); [exact Ei|].
    subst enemy1. unfold steppedEnemy.
    destruct (st_moved _); repeat split.
Qed.

Lemma powerupLoop_moves (n i : nat) (peer : string) (now : Z) (W : World) :
  moves GoodG GoodP W (powerupLoop n i peer now W).
Proof using spawnPowerup_good.
  revert i W. induction n as [|n IH]; intros i W; cbn [powerupLoop].
  - apply moves_refl.
  - destruct (powerups W !! i) as [powerup|] eqn:Ei; [|apply moves_refl].
    destruct (players_get peer (players W)) as [player|] eqn:Ep;
      [|apply moves_refl].
    destruct (within _ _ _ _ _); [|apply IH].
    unfold run.
    set (W1 := with_players W _).
    pose proof (spawnPowerup_good W1 (powerups W1) (Some i) (draws W1)) as Hfresh.
    destruct (spawnPowerup W1 (powerups W1) (Some i) (draws W1)) as [fresh d].
    cbn [fst] in Hfresh.
    eapply moves_trans; [|apply IH].
    split.
    { cbn [players with_powerups with_draws]. subst W1. cbn [players with_players].
      apply (players_set_sameAccount (players W) peer player); [exact Ep|].
      destruct powerup as [id [] x y]; repeat split. }
    split; [reflexivity|]. split; [reflexivity|].
    split; [apply keeps_refl|].
    split; [|apply sameHome_all_refl].
    cbn [powerups with_powerups with_draws]. subst W1. cbn [powerups with_players].
    apply (keeps_insert GoodP _ _ powerup); [exact Ei|].
    intros _. exact Hfresh.
Qed.

Lemma grassLoop_moves (n i : nat) (px py : Q) (magnetOn : bool) (md : Q)
    (W : World) (count : Z) :
  moves GoodG GoodP W (fst (grassLoop n i px py magnetOn md W count)).
Proof using spawnGrass_good pullGrass_good.
  revert i W count. induction n as [|n IH]; intros i W count; cbn [grassLoop].
  - apply moves_refl.
  - destruct (grasses W !! i) as [grass|] eqn:Ei; [|apply moves_refl].
    cbv zeta. unfold run.
    destruct (within px py (g_x grass) (g_y grass) getGrassTouchRadius).
    + pose proof (spawnGrass_good W (grasses W) (Some i) (draws W)) as Hfresh.
      destruct (spawnGrass W (grasses W) (Some i) (draws W)) as [fresh d].
      cbn [fst] in Hfresh.
      eapply moves_trans; [|apply IH].
      split; [apply sameAccount_all_refl|]. split; [reflexivity|].
      split; [reflexivity|].
      split; [|split; [apply keeps_refl|apply sameHome_all_refl]].
      cbn [grasses with_grasses with_draws].
      apply (keeps_insert GoodG _ _ grass); [exact Ei|]. intros _. exact Hfresh.
    + match goal with
      | |- context [with_grasses W (<[i := ?g]> (grasses W))] =>
          set (grass1 := g);
          set (W1 := with_grasses W (<[i := grass1]> (grasses W)))
      end.
      assert (Hpull : moves GoodG GoodP W W1).
      { split; [apply sameAccount_all_refl|]. split; [reflexivity|].
        split; [reflexivity|].
        split; [|split; [apply keeps_refl|apply sameHome_all_refl]].
        subst W1. cbn [grasses with_grasses].
        apply (keeps_insert GoodG _ _ grass); [exact Ei|].
        subst grass1. destruct (_ && _); [apply pullGrass_good|auto]. }
      match goal with
      | |- context [if ?c then _ else _] => destruct c
      end.
      * pose proof (spawnGrass_good W1 (grasses W1) (Some i) (draws W1)) as Hfresh.
        destruct (spawnGrass W1 (grasses W1) (Some i) (draws W1)) as [fresh d].
        cbn [fst] in Hfresh.
        eapply moves_trans; [exact Hpull|].
        eapply moves_trans; [|apply IH].
        split; [apply sameAccount_all_refl|]. split; [reflexivity|].
        split; [reflexivity|].
        split; [|split; [apply keeps_refl|apply sameHome_all_refl]].
        cbn [grasses with_grasses with_draws].
        apply (keeps_insert GoodG _ _ grass1); [|intros _; exact Hfresh].
        subst W1. cbn [grasses with_grasses].
        apply list_lookup_insert_eq. apply lookup_lt_Some in Ei. exact Ei.
      * eapply moves_trans; [exact Hpull|apply IH].
Qed.

Lemma moveAndCollect_moves (W : World) (peer : string) (player : ServerPlayer)
    (dx dy : Q) (now : Z) :
  players_get peer (players W) = Some player ->
  moves GoodG GoodP W (fst (moveAndCollect W peer player dx dy now)).
Proof using spawnGrass_good pullGrass_good spawnPowerup_good.
  intros Hp. unfold moveAndCollect. cbv zeta.
  eapply moves_trans; [|apply grassLoop_moves].
  eapply moves_trans; [|apply powerupLoop_moves].
  split; [|split; [reflexivity|split; [reflexivity|
            split; [apply keeps_refl|split; [apply keeps_refl|
            apply sameHome_all_refl]]]]].
  cbn [players with_players].
  apply (players_set_sameAccount (players W) peer player); [exact Hp|].
  repeat split.
Qed.

Lemma pools_refl (W : World) : pools GoodG GoodP W W.
Proof.
  split; [apply keeps_refl|]. split; [apply keeps_refl|apply sameHome_all_refl].
Qed.

Lemma pools_same (W W' : World) :
  grasses W' = grasses W -> powerups W' = powerups W -> enemies W' = enemies W ->
  pools GoodG GoodP W W'.
Proof.
  intros Hg Hp He. unfold pools. rewrite Hg, Hp, He.
  split; [apply keeps_refl|]. split; [apply keeps_refl|apply sameHome_all_refl].
Qed.

Lemma pools_trans (W1 W2 W3 : World) :
  pools GoodG GoodP W1 W2 -> pools GoodG GoodP W2 W3 -> pools GoodG GoodP W1 W3.
Proof.
  intros (A1 & A2 & A3) (B1 & B2 & B3).
  split; [eapply keeps_trans; eassumption|].
  split; [eapply keeps_trans; eassumption|].
  eapply sameHome_all_trans; eassumption.
Qed.

Lemma pools_of_moves (W W' : World) :
  moves GoodG GoodP W W' -> pools GoodG GoodP W W'.
Proof. intros (_ & _ & _ & H1 & H2 & H3). split; [|split]; assumption. Qed.

Lemma resetAll_pools (W : World) (hit : list string) :
  grasses (fst (resetAll W hit)) = grasses W /\
  powerups (fst (resetAll W hit)) = powerups W /\
  enemies (fst (resetAll W hit)) = enemies W.
Proof.
  revert W. induction hit as [|u hit IH]; intros W; cbn [resetAll].
  - cbn. repeat split.
  - unfold resetUserScore. set (W2 := with_players _ _).
    specialize (IH W2). destruct (resetAll W2 hit) as [W3 e3].
    cbn [fst] in *. exact IH.
Qed.

Lemma updateEnemies_pools (W : World) :
  pools GoodG GoodP W (fst (fst (updateEnemies W))).
Proof.
  unfold updateEnemies. destruct (_ || _); [apply pools_refl|].
  pose proof (enemyLoop_moves (length (enemies W)) 0 W [] false) as He.
  destruct (enemyLoop (length (enemies W)) 0 W [] false) as [[W1 hit] changed].
  cbn [fst snd] in He.
  pose proof (resetAll_pools W1 hit) as (H1 & H2 & H3).
  destruct (resetAll W1 hit) as [W2 effects]. cbn [fst] in *.
  eapply pools_trans; [apply pools_of_moves, He|].
  apply pools_same; assumption.
Qed.

Lemma step_pools (W : World) (e : Event) :
  pools GoodG GoodP W (fst (step W e)).
Proof using spawnGrass_good pullGrass_good spawnPowerup_good.
  destruct e as [peer context|timer now|peer now
                |peer payload now sentAt|now|userId result now
                |userId result now]; cbn [step].
  - unfold open. destruct (ctx_userId context) as [userId|]; [|apply pools_refl].
    destruct (String.eqb userId ""); [apply pools_refl|].
    unfold hydrateUserScore, hydrateUserColor.
    repeat case_bool_decide; apply pools_same; reflexivity.
  - unfold joinTimerFired. destruct (negb _); [apply pools_refl|].
    unfold run. destruct (spawnPlayerPosition _ _) as [start d].
    apply pools_same; reflexivity.
  - unfold close.
    destruct (pendingJoinTimers W !! peer);
      (destruct (players_get peer _); [destruct (hasConnectedPlayer _ _)|]);
      apply pools_same; reflexivity.
  - unfold message.
    destruct (players_get peer (players W)) as [player|] eqn:Ep;
      [|apply pools_refl].
    destruct payload as [[color|dx dy|]|]; try apply pools_refl.
    + destruct (sanitizeColor color); [|apply pools_refl].
      apply pools_same; reflexivity.
    + destruct (moveComponent dx) as [| |qx|]; try apply pools_refl.
      destruct (moveComponent dy) as [| |qy|]; try apply pools_refl.
      destruct (_ && _); [apply pools_refl|].
      pose proof (moveAndCollect_moves W peer player qx qy now Ep) as Hm.
      destruct (moveAndCollect W peer player qx qy now) as [W1 count].
      cbn [fst] in Hm.
      set (player1 := default player (players_get peer (players W1))).
      assert (Ha : pools GoodG GoodP W1 (fst (awardPoints W1 player1 count now))).
      { unfold awardPoints. cbv zeta. destruct (_ >? 0)%Z;
          apply pools_same; reflexivity. }
      destruct (awardPoints W1 player1 count now) as [W2 e2]. cbn [fst] in Ha.
      pose proof (updateEnemies_pools W2) as Hu.
      destruct (updateEnemies W2) as [[W3 e3] changed]. cbn [fst] in *.
      eapply pools_trans; [apply pools_of_moves, Hm|].
      eapply pools_trans; eassumption.
  - unfold enemyTicker. pose proof (updateEnemies_pools W) as Hu.
    destruct (updateEnemies W) as [[W1 effects] changed]. exact Hu.
  - unfold scoreLoaded. destruct result as [row|]; apply pools_same; reflexivity.
  - unfold colorLoaded. destruct result as [row|]; apply pools_same; reflexivity.
Qed.

Lemma steps_pools (W : World) (es : list Event) :
  pools GoodG GoodP W (fst (steps W es)).
Proof using spawnGrass_good pullGrass_good spawnPowerup_good.
  revert W. induction es as [|e es IH]; intros W; cbn [steps].
  - apply pools_refl.
  - pose proof (step_pools W e) as H1.
    destruct (step W e) as [W1 out1]. cbn [fst] in H1.
    specialize (IH W1). destruct (steps W1 es) as [W2 out2]. cbn [fst] in *.
    eapply pools_trans; eassumption.
Qed.

End Frames.

(** ** Scores and colours agree with the caches *)

Lemma moves_cachesAgree (GoodG : GrassSpot -> Prop) (GoodP : PowerupSpot -> Prop)
    (W W' : World) :
  moves GoodG GoodP W W' -> cachesAgree W -> cachesAgree W'.
Proof.
  intros (Hps & Hsc & Hco & _) Hagree. unfold cachesAgree, getUserColor in *.
  rewrite Hsc, Hco. clear Hsc Hco.
  induction Hps as [|kp kp' ps ps' Hkp Hps IH]; [constructor|].
  inversion Hagree as [|? ? [H1 H2] Hrest]; subst.
  destruct Hkp as (_ & _ & _ & Hu & _ & Hc & Hs).
  constructor; [|apply IH, Hrest].
  rewrite Hu, Hc, Hs. split; assumption.
Qed.

Lemma setScore_cachesAgree (W : World) (userId : string) (score : Z) :
  cachesAgree W ->
  cachesAgree
    (with_players (with_userScores W (<[userId := score]> (userScores W)))
       (applyScoreToConnectedPlayers userId score (players W))).
Proof.
  unfold cachesAgree, getUserColor. cbn [players userScores userColors
    with_players with_userScores].
  intros Hagree. unfold applyScoreToConnectedPlayers.
  induction Hagree as [|[k p] ps [H1 H2] Hrest IH]; cbn [map]; constructor;
    [|exact IH].
  cbn [fst snd] in *. destruct (String.eqb (pl_userId p) userId) eqn:E.
  - apply String.eqb_eq in E. cbn [snd set_score pl_score pl_color pl_userId].
    rewrite E, lookup_insert_eq. split; [reflexivity|]. rewrite <- E. exact H2.
  - cbn [snd]. rewrite lookup_insert_ne; [split; assumption|].
    intros ->. rewrite String.eqb_refl in E. discriminate.
Qed.

Lemma setColor_cachesAgree (W : World) (userId color : string) :
  cachesAgree W ->
  cachesAgree
    (with_players (with_userColors W (<[userId := color]> (userColors W)))
       (applyColorToConnectedPlayers userId color (players W))).
Proof.
  unfold cachesAgree, getUserColor. cbn [players userScores userColors
    with_players with_userColors].
  intros Hagree. unfold applyColorToConnectedPlayers.
  induction Hagree as [|[k p] ps [H1 H2] Hrest IH]; cbn [map]; constructor;
    [|exact IH].
  cbn [fst snd] in *. destruct (String.eqb (pl_userId p) userId) eqn:E.
  - apply String.eqb_eq in E. cbn [snd set_color pl_score pl_color pl_userId].
    rewrite E, lookup_insert_eq. split; [|reflexivity]. rewrite <- E. exact H1.
  - cbn [snd]. rewrite lookup_insert_ne; [split; assumption|].
    intros ->. rewrite String.eqb_refl in E. discriminate.
Qed.

Lemma resetAll_cachesAgree (W : World) (hit : list string) :
  cachesAgree W -> cachesAgree (fst (resetAll W hit)).
Proof.
  revert W. induction hit as [|u hit IH]; intros W Hagree; cbn [resetAll].
  - exact Hagree.
  - unfold resetUserScore.
    pose proof (setScore_cachesAgree W u 0 Hagree) as H1.
    cbn [players userScores with_userScores] in *.
    match goal with
    | |- context [resetAll ?W2 hit] =>
        specialize (IH W2 H1); destruct (resetAll W2 hit) as [W3 e3]
    end.
    exact IH.
Qed.

Lemma updateEnemies_cachesAgree (W : World) :
  cachesAgree W -> cachesAgree (fst (fst (updateEnemies W))).
Proof.
  intros Hagree. unfold updateEnemies. destruct (_ || _); [exact Hagree|].
  pose proof (enemyLoop_moves (fun _ => True) (fun _ => True)
                (length (enemies W)) 0 W [] false) as He.
  destruct (enemyLoop (length (enemies W)) 0 W [] false) as [[W1 hit] changed].
  cbn [fst snd] in He.
  pose proof (resetAll_cachesAgree W1 hit
                (moves_cachesAgree _ _ _ _ He Hagree)) as Hr.
  destruct (resetAll W1 hit) as [W2 effects]. exact Hr.
Qed.

Lemma Forall_players_set (P : string * ServerPlayer -> Prop) (k : string)
    (p : ServerPlayer) (ps : list (string * ServerPlayer)) :
  Forall P ps -> P (k, p) -> Forall P (players_set k p ps).
Proof.
  intros HF Hp. induction HF as [|[k0 p0] ps H0 HF IH]; cbn [players_set].
  - repeat constructor. exact Hp.
  - destruct (String.eqb k0 k) eqn:E.
    + apply String.eqb_eq in E. subst k0. constructor; assumption.
    + constructor; assumption.
Qed.

Lemma Forall_players_delete (P : string * ServerPlayer -> Prop) (k : string)
    (ps : list (string * ServerPlayer)) :
  Forall P ps -> Forall P (players_delete k ps).
Proof.
  intros HF. unfold players_delete.
  induction HF as [|kp ps H0 HF IH]; cbn [List.filter]; [constructor|].
  destruct (negb _); [constructor|]; assumption.
Qed.

Lemma no_connection_of_user (W : World) (userId : string) :
  hasConnectedPlayer W userId = false ->
  Forall (fun kp => pl_userId (snd kp) <> userId) (players W).
Proof.
  unfold hasConnectedPlayer, some, players_values.
  induction (players W) as [|[k p] ps IH]; cbn; [constructor|].
  intros H. apply orb_false_elim in H as [H1 H2].
  constructor; [|apply IH, H2]. cbn. intros Heq.
  rewrite Heq, String.eqb_refl in H1. discriminate.
Qed.

Lemma step_cachesAgree (W : World) (e : Event) :
  cachesAgree W -> cachesAgree (fst (step W e)).
Proof.
  intros Hagree.
  destruct e as [peer context|timer now|peer now
                |peer payload now sentAt|now|userId result now
                |userId result now]; cbn [step].
  - unfold open. destruct (ctx_userId context) as [userId|]; [|exact Hagree].
    destruct (String.eqb userId ""); [exact Hagree|].
    unfold hydrateUserScore, hydrateUserColor.
    repeat case_bool_decide; exact Hagree.
  - unfold joinTimerFired. destruct (negb _); [exact Hagree|].
    unfold run. destruct (spawnPlayerPosition _ _) as [start d].
    unfold cachesAgree, getUserColor in *.
    cbn [fst players userScores userColors with_players with_draws
         with_pendingJoinTimers].
    apply Forall_players_set; [exact Hagree|].
    cbn [snd pl_score pl_color pl_userId]. split; reflexivity.
  - unfold close.
    set (r := match pendingJoinTimers W !! peer with
              | Some pendingTimer =>
                  (with_pendingJoinTimers W (delete peer (pendingJoinTimers W)),
                   [ClearTimeout pendingTimer])
              | None => (W, [])
              end).
    assert (Hr : cachesAgree (fst r)).
    { subst r. destruct (pendingJoinTimers W !! peer); exact Hagree. }
    destruct r as [W1 e1]. cbn [fst] in Hr.
    assert (Hdel : cachesAgree (with_players W1 (players_delete peer (players W1)))).
    { unfold cachesAgree, getUserColor in *. cbn [players userScores userColors
        with_players]. apply Forall_players_delete, Hr. }
    destruct (players_get peer (players W1)) as [closedPlayer|]; [|exact Hdel].
    destruct (hasConnectedPlayer _ (pl_userId closedPlayer)) eqn:Eh;
      [exact Hdel|].
    apply no_connection_of_user in Eh.
    unfold cachesAgree, getUserColor in *.
    cbn [fst players userScores userColors with_players with_userColors
         with_userScores] in *.
    revert Eh. induction Hdel as [|kp ps [H1 H2] Hrest IH]; intros Eh;
      [constructor|].
    inversion Eh as [|? ? Hne Eh']; subst.
    constructor; [|apply IH, Eh'].
    rewrite !lookup_delete_ne by (intros Heq; apply Hne; symmetry; exact Heq).
    split; assumption.
  - unfold message.
    destruct (players_get peer (players W)) as [player|] eqn:Ep;
      [|exact Hagree].
    destruct payload as [[color|dx dy|]|]; try exact Hagree.
    + destruct (sanitizeColor color) as [nextColor|]; [|exact Hagree].
      exact (setColor_cachesAgree W (pl_userId player) nextColor Hagree).
    + destruct (moveComponent dx) as [| |qx|]; try exact Hagree.
      destruct (moveComponent dy) as [| |qy|]; try exact Hagree.
      destruct (_ && _); [exact Hagree|].
      pose proof (moveAndCollect_moves (fun _ => True) (fun _ => True)
                    (fun _ _ _ _ => I) (fun _ _ _ _ _ => I) (fun _ _ _ _ => I)
                    W peer player qx qy now Ep) as Hm.
      destruct (moveAndCollect W peer player qx qy now) as [W1 count].
      cbn [fst] in Hm.
      pose proof (moves_cachesAgree _ _ _ _ Hm Hagree) as H1.
      set (player1 := default player (players_get peer (players W1))).
      assert (Ha : cachesAgree (fst (awardPoints W1 player1 count now))).
      { unfold awardPoints. cbv zeta. destruct (_ >? 0)%Z; [|exact H1].
        exact (setScore_cachesAgree W1 (pl_userId player1) _ H1). }
      destruct (awardPoints W1 player1 count now) as [W2 e2]. cbn [fst] in Ha.
      pose proof (updateEnemies_cachesAgree W2 Ha) as Hu.
      destruct (updateEnemies W2) as [[W3 e3] changed]. exact Hu.
  - unfold enemyTicker. pose proof (updateEnemies_cachesAgree W Hagree) as Hu.
    destruct (updateEnemies W) as [[W1 effects] changed]. exact Hu.
  - unfold scoreLoaded. destruct result as [row|]; [|exact Hagree].
    cbv zeta. cbn [fst].
    pose proof (setScore_cachesAgree W userId
      (Z.max (default 0%Z (userScores W !! userId)) (default 0%Z row)) Hagree)
      as H1.
    exact H1.
  - unfold colorLoaded. destruct result as [row|]; [|exact Hagree].
    cbv zeta. cbn [fst].
    match goal with
    | |- context [applyColorToConnectedPlayers userId ?c] =>
        pose proof (setColor_cachesAgree W userId c Hagree) as H1
    end.
    exact H1.
Qed.

(** X17. In every run of the server, each connection shows the cached
    score of its user (0 while none is cached) and the cached colour of its
    user (the colour derived from the user id while none is cached): if this
    holds of a state, it holds after every sequence of events.  So all the
    connections of one user always show the same score and the same
    colour. *)
Theorem caches_agree_with_players (W : World) (es : list Event) :
  cachesAgree W ->
  cachesAgree (fst (steps W es)) /\
  forall k p k' p',
    players_get k (players (fst (steps W es))) = Some p ->
    players_get k' (players (fst (steps W es))) = Some p' ->
    pl_userId p = pl_userId p' ->
    pl_score p = pl_score p' /\ pl_color p = pl_color p'.
Proof.
  intros Hagree.
  assert (Hend : cachesAgree (fst (steps W es))).
  { revert W Hagree. induction es as [|e es IH]; intros W Hagree; cbn [steps].
    - exact Hagree.
    - pose proof (step_cachesAgree W e Hagree) as H1.
      destruct (step W e) as [W1 out1]. cbn [fst] in H1.
      specialize (IH W1 H1). destruct (steps W1 es) as [W2 out2]. exact IH. }
  split; [exact Hend|].
  intros k p k' p' Hp Hp' Hu.
  unfold cachesAgree in Hend. rewrite List.Forall_forall in Hend.
  apply players_get_elem, list_elem_of_In in Hp.
  apply players_get_elem, list_elem_of_In in Hp'.
  destruct (Hend _ Hp) as [H1 H2]. destruct (Hend _ Hp') as [H3 H4].
  cbn [snd] in *. rewrite H1, H2, H3, H4, Hu. split; reflexivity.
Qed.

(** ** Scores are never negative *)

Lemma moves_nonNegative (GoodG : GrassSpot -> Prop) (GoodP : PowerupSpot -> Prop)
    (W W' : World) :
  moves GoodG GoodP W W' -> nonNegative W -> nonNegative W'.
Proof.
  intros (Hps & Hsc & _) [Hmap Hplayers]. unfold nonNegative.
  rewrite Hsc. split; [exact Hmap|]. clear Hsc Hmap.
  induction Hps as [|kp kp' ps ps' Hkp Hps IH]; [constructor|].
  inversion Hplayers as [|? ? H1 Hrest]; subst.
  destruct Hkp as (_ & _ & _ & _ & _ & _ & Hs).
  constructor; [rewrite Hs; exact H1|apply IH, Hrest].
Qed.

Lemma setScore_nonNegative (W : World) (userId : string) (score : Z) :
  (0 <= score)%Z -> nonNegative W ->
  nonNegative
    (with_players (with_userScores W (<[userId := score]> (userScores W)))
       (applyScoreToConnectedPlayers userId score (players W))).
Proof.
  intros Hs [Hmap Hplayers]. unfold nonNegative.
  cbn [players userScores with_players with_userScores]. split.
  - intros u s Hu. destruct (decide (userId = u)) as [->|Hne].
    + rewrite lookup_insert_eq in Hu. injection Hu as <-. exact Hs.
    + rewrite lookup_insert_ne in Hu by exact Hne. eapply Hmap, Hu.
  - unfold applyScoreToConnectedPlayers.
    induction Hplayers as [|[k p] ps H1 Hrest IH]; cbn [map]; constructor;
      [|exact IH].
    cbn [fst snd] in *. destruct (String.eqb (pl_userId p) userId); cbn; assumption.
Qed.

Lemma resetAll_nonNegative (W : World) (hit : list string) :
  nonNegative W -> nonNegative (fst (resetAll W hit)).
Proof.
  revert W. induction hit as [|u hit IH]; intros W Hnn; cbn [resetAll].
  - exact Hnn.
  - unfold resetUserScore.
    pose proof (setScore_nonNegative W u 0 (Z.le_refl 0) Hnn) as H1.
    cbn [players userScores with_userScores] in *.
    match goal with
    | |- context [resetAll ?W2 hit] =>
        specialize (IH W2 H1); destruct (resetAll W2 hit) as [W3 e3]
    end.
    exact IH.
Qed.

Lemma updateEnemies_nonNegative (W : World) :
  nonNegative W -> nonNegative (fst (fst (updateEnemies W))).
Proof.
  intros Hnn. unfold updateEnemies. destruct (_ || _); [exact Hnn|].
  pose proof (enemyLoop_moves (fun _ => True) (fun _ => True)
                (length (enemies W)) 0 W [] false) as He.
  destruct (enemyLoop (length (enemies W)) 0 W [] false) as [[W1 hit] changed].
  cbn [fst snd] in He.
  pose proof (resetAll_nonNegative W1 hit
                (moves_nonNegative _ _ _ _ He Hnn)) as Hr.
  destruct (resetAll W1 hit) as [W2 effects]. exact Hr.
Qed.

Lemma applyColor_nonNegative (userId color : string)
    (ps : list (string * ServerPlayer)) :
  Forall (fun kp => (0 <= pl_score (snd kp))%Z) ps ->
  Forall (fun kp => (0 <= pl_score (snd kp))%Z)
    (applyColorToConnectedPlayers userId color ps).
Proof.
  intros HF. unfold applyColorToConnectedPlayers.
  induction HF as [|[k p] ps H1 Hrest IH]; cbn [map]; [constructor|].
  constructor; [|exact IH].
  cbn [fst snd] in *. destruct (String.eqb _ _); cbn; assumption.
Qed.

Lemma step_nonNegative (W : World) (e : Event) :
  nonNegative W -> nonNegative (fst (step W e)).
Proof.
  intros Hnn.
  destruct e as [peer context|timer now|peer now
                |peer payload now sentAt|now|userId result now
                |userId result now]; cbn [step].
  - unfold open. destruct (ctx_userId context) as [userId|]; [|exact Hnn].
    destruct (String.eqb userId ""); [exact Hnn|].
    unfold hydrateUserScore, hydrateUserColor.
    repeat case_bool_decide; exact Hnn.
  - unfold joinTimerFired. destruct (negb _); [exact Hnn|].
    unfold run. destruct (spawnPlayerPosition _ _) as [start d].
    destruct Hnn as [Hmap Hplayers]. unfold nonNegative.
    cbn [fst players userScores with_players with_draws with_pendingJoinTimers].
    split; [exact Hmap|].
    apply Forall_players_set; [exact Hplayers|].
    cbn [snd pl_score].
    destruct (userScores W !! jt_userId timer) as [s|] eqn:Es; cbn [default];
      [eapply Hmap, Es|reflexivity].
  - unfold close.
    set (r := match pendingJoinTimers W !! peer with
              | Some pendingTimer =>
                  (with_pendingJoinTimers W (delete peer (pendingJoinTimers W)),
                   [ClearTimeout pendingTimer])
              | None => (W, [])
              end).
    assert (Hr : nonNegative (fst r)).
    { subst r. destruct (pendingJoinTimers W !! peer); exact Hnn. }
    destruct r as [W1 e1]. cbn [fst] in Hr. destruct Hr as [Hmap Hplayers].
    assert (Hdel : nonNegative (with_players W1 (players_delete peer (players W1)))).
    { split; [exact Hmap|]. cbn [players with_players].
      apply Forall_players_delete, Hplayers. }
    destruct (players_get peer (players W1)) as [closedPlayer|]; [|exact Hdel].
    destruct (hasConnectedPlayer _ (pl_userId closedPlayer)); [exact Hdel|].
    destruct Hdel as [_ Hdel]. split; [|exact Hdel].
    cbn [fst userScores with_players with_userColors with_userScores].
    intros u s Hu. apply lookup_delete_Some in Hu as [_ Hu]. eapply Hmap, Hu.
  - unfold message.
    destruct (players_get peer (players W)) as [player|] eqn:Ep; [|exact Hnn].
    destruct payload as [[color|dx dy|]|]; try exact Hnn.
    + destruct (sanitizeColor color) as [nextColor|]; [|exact Hnn].
      destruct Hnn as [Hmap Hplayers]. split; [exact Hmap|].
      cbn [fst players with_players with_userColors].
      apply applyColor_nonNegative, Hplayers.
    + destruct (moveComponent dx) as [| |qx|]; try exact Hnn.
      destruct (moveComponent dy) as [| |qy|]; try exact Hnn.
      destruct (_ && _); [exact Hnn|].
      pose proof (moveAndCollect_moves (fun _ => True) (fun _ => True)
                    (fun _ _ _ _ => I) (fun _ _ _ _ _ => I) (fun _ _ _ _ => I)
                    W peer player qx qy now Ep) as Hm.
      destruct (moveAndCollect W peer player qx qy now) as [W1 count].
      cbn [fst] in Hm.
      pose proof (moves_nonNegative _ _ _ _ Hm Hnn) as H1.
      set (player1 := default player (players_get peer (players W1))).
      assert (Hp1 : (0 <= pl_score player1)%Z).
      { subst player1. destruct (players_get peer (players W1)) as [p1|] eqn:E1;
          cbn [default].
        - destruct H1 as [_ H1]. rewrite List.Forall_forall in H1.
          apply players_get_elem, list_elem_of_In in E1. apply (H1 _ E1).
        - destruct Hnn as [_ H0]. rewrite List.Forall_forall in H0.
          apply players_get_elem, list_elem_of_In in Ep. apply (H0 _ Ep). }
      assert (Ha : nonNegative (fst (awardPoints W1 player1 count now))).
      { unfold awardPoints. cbv zeta.
        destruct (Z.gtb_spec (pointsFor count player1 now) 0) as [Hpos|];
          [|exact H1].
        refine (setScore_nonNegative W1 (pl_userId player1) _ _ H1).
        apply Z.add_nonneg_nonneg; [|apply Z.lt_le_incl, Hpos].
        destruct (userScores W1 !! pl_userId player1) as [s|] eqn:Es;
          cbn [default]; [|exact Hp1].
        destruct H1 as [Hmap _]. eapply Hmap, Es. }
      destruct (awardPoints W1 player1 count now) as [W2 e2]. cbn [fst] in Ha.
      pose proof (updateEnemies_nonNegative W2 Ha) as Hu.
      destruct (updateEnemies W2) as [[W3 e3] changed]. exact Hu.
  - unfold enemyTicker. pose proof (updateEnemies_nonNegative W Hnn) as Hu.
    destruct (updateEnemies W) as [[W1 effects] changed]. exact Hu.
  - unfold scoreLoaded. destruct result as [row|]; [|exact Hnn].
    cbv zeta. cbn [fst].
    refine (setScore_nonNegative W userId _ _ Hnn).
    apply Z.max_le_iff. left.
    destruct (userScores W !! userId) as [s|] eqn:Es; cbn [default];
      [|reflexivity].
    destruct Hnn as [Hmap _]. eapply Hmap, Es.
  - unfold colorLoaded. destruct result as [row|]; [|exact Hnn].
    cbv zeta. cbn [fst].
    destruct Hnn as [Hmap Hplayers]. split; [exact Hmap|].
    cbn [players with_players with_userColors with_userColorLoads].
    apply applyColor_nonNegative, Hplayers.
Qed.

(** X18. Scores are never negative: if no cached score and no player's
    score is negative, this is so after every sequence of events, whatever
    the database returns (a negative stored score is not taken over while
    the cached one counts as at least 0), and so every score in a broadcast
    snapshot is at least 0. *)
Theorem scores_never_negative (W : World) (es : list Event) :
  nonNegative W ->
  nonNegative (fst (steps W es)) /\
  forall now s, s ∈ ws_players (getWorldState (fst (steps W es)) now) ->
    (0 <= ps_score s)%Z.
Proof.
  intros Hnn.
  assert (Hend : nonNegative (fst (steps W es))).
  { revert W Hnn. induction es as [|e es IH]; intros W Hnn; cbn [steps].
    - exact Hnn.
    - pose proof (step_nonNegative W e Hnn) as H1.
      destruct (step W e) as [W1 out1]. cbn [fst] in H1.
      specialize (IH W1 H1). destruct (steps W1 es) as [W2 out2]. exact IH. }
  split; [exact Hend|].
  intros now s Hs. unfold getWorldState, players_values in Hs.
  cbn [ws_players] in Hs.
  apply list_elem_of_fmap in Hs as (pl & -> & Hpl).
  apply list_elem_of_fmap in Hpl as (kp & -> & Hkp).
  cbn [snapshotPlayer ps_score].
  destruct Hend as [_ Hend]. rewrite List.Forall_forall in Hend.
  apply (Hend kp). apply list_elem_of_In. exact Hkp.
Qed.

(** ** The pools *)

(** X19. The pools keep their shape over every sequence of events: there
    are as many grass items and as many powerups as before (a collected item
    is replaced in its slot), and slot by slot every enemy keeps its
    identifier, its home and its territory radius. *)
Theorem pools_keep_shape (W : World) (es : list Event) :
  let W' := fst (steps W es) in
  length (grasses W') = length (grasses W) /\
  length (powerups W') = length (powerups W) /\
  Forall2 sameHome (enemies W) (enemies W').
Proof.
  cbv zeta.
  destruct (steps_pools (fun _ => True) (fun _ => True)
              (fun _ _ _ _ => I) (fun _ _ _ _ _ => I) (fun _ _ _ _ => I) W es)
    as (Hg & Hp & He).
  split; [symmetry; eapply Forall2_length, Hg|].
  split; [symmetry; eapply Forall2_length, Hp|exact He].
Qed.

Lemma pullGrass_placed (px py : Q) (grass : GrassSpot) (d : Q) :
  grassPlaced grass -> grassPlaced (pullGrass px py grass d).
Proof.
  intros Hg. unfold pullGrass. cbv zeta.
  destruct (Qgtb _ 0.001); [|exact Hg].
  destruct (Qgtb _ 0); [|exact Hg].
  destruct (isCircleBlockedByBuildings _ _ GRASS_RADIUS) eqn:E; cbn [negb];
    [exact Hg|].
  split; [|exact E]. cbn [g_x g_y].
  split; apply clamp_bounds; unfold GRASS_RADIUS, MAP_WIDTH, MAP_HEIGHT; lra.
Qed.

Lemma spawnGrass_placed (W : World) (existing : list GrassSpot)
    (skipIndex : option nat) (n : nat) :
  grassPlaced (fst (spawnGrass W existing skipIndex n)).
Proof using Math_random_unit.
  split.
  - apply (proj1 (yields_spawnGrass W existing skipIndex n)).
  - apply (proj1 (yields_spawnGrass_clear W existing skipIndex n)).
Qed.

Lemma spawnPowerup_placed (W : World) (existing : list PowerupSpot)
    (skipIndex : option nat) (n : nat) :
  powerupPlaced (fst (spawnPowerup W existing skipIndex n)).
Proof using Math_random_unit.
  split.
  - apply (proj1 (yields_spawnPowerup W existing skipIndex n)).
  - apply (proj1 (yields_spawnPowerup_clear W existing skipIndex n)).
Qed.

(** X20. Grass and powerups stay placed: if every grass item and every
    powerup is inside the map for its radius and clear of the buildings,
    this is so after every sequence of events; a respawned item is placed by
    its placement routine, and the magnet moves a grass item only to a
    position that is clamped to the map and tested against the buildings. *)
Theorem items_stay_placed (W : World) (es : list Event) :
  let W' := fst (steps W es) in
  (Forall grassPlaced (grasses W) -> Forall grassPlaced (grasses W')) /\
  (Forall powerupPlaced (powerups W) -> Forall powerupPlaced (powerups W')).
Proof using Math_random_unit.
  cbv zeta.
  destruct (steps_pools grassPlaced powerupPlaced
              spawnGrass_placed pullGrass_placed spawnPowerup_placed W es)
    as (Hg & Hp & _).
  split; [apply (keeps_Forall _ _ _ Hg)|apply (keeps_Forall _ _ _ Hp)].
Qed.

Lemma fill_spec {A} (P : A -> Prop) (count from : nat)
    (spawn : list A -> nat -> Rand A) (all : list A) (n : nat) :
  (forall l i m, P (fst (spawn l i m))) -> Forall P all ->
  Forall P (fst (fill count from spawn all n)) /\
  length (fst (fill count from spawn all n)) = (length all + count)%nat.
Proof.
  intros Hspawn. revert from all n.
  induction count as [|count IH]; intros from all n Hall; cbn [fill].
  - cbn. split; [exact Hall|lia].
  - unfold bind. pose proof (Hspawn all from n) as Ha.
    destruct (spawn all from n) as [a n1]. cbn [fst] in Ha.
    destruct (IH (S from) (all ++ [a]) n1) as [IH1 IH2].
    { apply Forall_app. split; [exact Hall|]. repeat constructor. exact Ha. }
    split; [exact IH1|]. rewrite IH2, length_app. cbn. lia.
Qed.

(** X21. The world the module starts with: no player, [GRASS_COUNT] grass
    items, [POWERUP_COUNT] powerups and [ENEMY_COUNT] enemies; every item and
    every enemy is inside the map for its radius and clear of the buildings,
    and every enemy has a home that is inside the map and clear of the
    buildings and a territory radius of at least 900. *)
Theorem initial_world_is_placed :
  players initialWorld = [] /\
  length (grasses initialWorld) = GRASS_COUNT /\
  length (powerups initialWorld) = POWERUP_COUNT /\
  length (enemies initialWorld) = ENEMY_COUNT /\
  Forall grassPlaced (grasses initialWorld) /\
  Forall powerupPlaced (powerups initialWorld) /\
  Forall (fun e => enemyPlaced e /\
                   placed ENEMY_RADIUS (en_homeX e) (en_homeY e) /\
                   900 <= en_territoryRadius e)
    (enemies initialWorld).
Proof using Math_random_unit.
  unfold initialWorld, run, initializeGrass, initializePowerups, initializeEnemies.
  match goal with
  | |- context [fill GRASS_COUNT 0 ?sp [] ?n] =>
      destruct (fill_spec grassPlaced GRASS_COUNT 0 sp [] n) as [Hg1 Hg2];
      [intros l i m; apply spawnGrass_placed|constructor|];
      destruct (fill GRASS_COUNT 0 sp [] n) as [g d1]
  end.
  cbn [fst] in Hg1, Hg2.
  match goal with
  | |- context [fill POWERUP_COUNT 0 ?sp [] ?n] =>
      destruct (fill_spec powerupPlaced POWERUP_COUNT 0 sp [] n) as [Hp1 Hp2];
      [intros l i m; apply spawnPowerup_placed|constructor|];
      destruct (fill POWERUP_COUNT 0 sp [] n) as [p d2]
  end.
  cbn [fst] in Hp1, Hp2.
  match goal with
  | |- context [fill ENEMY_COUNT 0 ?sp [] ?n] =>
      destruct (fill_spec
                  (fun e => enemyPlaced e /\
                            placed ENEMY_RADIUS (en_homeX e) (en_homeY e) /\
                            900 <= en_territoryRadius e)
                  ENEMY_COUNT 0 sp [] n) as [He1 He2];
      [intros l i m|constructor|];
      [|destruct (fill ENEMY_COUNT 0 sp [] n) as [e d3]]
  end.
  { destruct (proj1 (yields_spawnEnemy_clear l i m)) as (Hc & Hh & Ht).
    split; [|split; assumption].
    split; [apply (proj1 (yields_spawnEnemy l i m))|exact Hc]. }
  cbn [fst] in He1, He2.
  cbn [players grasses powerups enemies with_enemies with_draws with_powerups
       with_grasses emptyWorld].
  split; [reflexivity|]. split; [exact Hg2|]. split; [exact Hp2|].
  split; [exact He2|]. split; [exact Hg1|]. split; [exact Hp1|exact He1].
Qed.

(** ** A tick in which nothing happens *)

Lemma hitLoop_quiet (enemy : EnemySpot) (es : list EnemySpot)
    (ps : list (string * ServerPlayer)) (hit : list string) (changed : bool)
    (n : nat) :
  snd (fst (hitLoop enemy es ps hit changed n)) = false ->
  hitLoop enemy es ps hit changed n = (ps, hit, false, n) /\ changed = false.
Proof.
  revert hit changed n. induction ps as [|[k0 p0] ps IH]; intros hit changed n.
  - cbn. intros ->. split; reflexivity.
  - cbn [hitLoop]. destruct (hitBy enemy p0).
    + unfold bind. destruct (spawnPlayerPosition es n) as [[x y] n1].
      specialize (IH (addHit hit (pl_userId p0)) true n1).
      destruct (hitLoop enemy es ps (addHit hit (pl_userId p0)) true n1)
        as [[[ps1 hit1] c1] n2].
      cbn [fst snd ret] in *. intros Hc. destruct (IH Hc) as [_ Hf].
      discriminate Hf.
    + unfold bind. specialize (IH hit changed n).
      destruct (hitLoop enemy es ps hit changed n) as [[[ps1 hit1] c1] n2].
      cbn [fst snd ret] in *. intros Hc. destruct (IH Hc) as [Heq ->].
      injection Heq as -> -> -> ->. split; reflexivity.
Qed.

Lemma enemyLoop_quiet (n i : nat) (W : World) (hit : list string) (changed : bool) :
  snd (enemyLoop n i W hit changed) = false ->
  enemyLoop n i W hit changed = (W, hit, false) /\ changed = false.
Proof.
  revert i W hit changed. induction n as [|n IH]; intros i W hit changed.
  - cbn. intros ->. split; reflexivity.
  - cbn [enemyLoop]. destruct (enemies W !! i) as [enemy|] eqn:Ei;
      [|cbn; intros ->; split; reflexivity].
    cbv zeta.
    set (enemy1 := steppedEnemy enemy (players_values W)).
    set (W1 := with_enemies W (<[i := enemy1]> (enemies W))).
    pose proof (hitLoop_quiet enemy1 (enemies W1) (players W1) hit
                  (st_moved (moveEnemy enemy (players_values W)) || changed)
                  (draws W1)) as Hh.
    destruct (hitLoop enemy1 (enemies W1) (players W1) hit
                (st_moved (moveEnemy enemy (players_values W)) || changed)
                (draws W1)) as [[[ps hit1] changed2] d].
    cbn [fst snd] in Hh.
    intros Hc. destruct (IH _ _ _ _ Hc) as [Hrest ->].
    destruct (Hh eq_refl) as [Heq Hor].
    injection Heq as -> -> ->.
    apply orb_false_elim in Hor as [Hmoved ->].
    rewrite Hrest. split; [|reflexivity]. f_equal. f_equal.
    subst W1 enemy1. unfold steppedEnemy. rewrite Hmoved.
    rewrite list_insert_id by exact Ei.
    destruct W. reflexivity.
Qed.

(** X22. A tick in which no enemy moves and no player is hit changes
    nothing: when [updateEnemies] returns [false], the state is exactly as
    before and nothing is written, and the interval callback then sends no
    broadcast.  With no player connected, [updateEnemies] returns [false],
    so the enemies stand still. *)
Theorem quiet_tick_changes_nothing (W : World) (now : Z) :
  (snd (updateEnemies W) = false ->
   updateEnemies W = (W, [], false) /\ enemyTicker W now = (W, [])) /\
  (players W = [] -> updateEnemies W = (W, [], false)).
Proof.
  split.
  - intros Hc. assert (Hu : updateEnemies W = (W, [], false)).
    { revert Hc. unfold updateEnemies. destruct (_ || _); [reflexivity|].
      pose proof (enemyLoop_quiet (length (enemies W)) 0 W [] false) as Hq.
      destruct (enemyLoop (length (enemies W)) 0 W [] false)
        as [[W1 hit] changed].
      cbn [snd] in Hq.
      destruct (resetAll W1 hit) as [W2 effects] eqn:Er. cbn [snd].
      intros Hc. apply orb_false_elim in Hc as [-> Hhit].
      destruct (Hq eq_refl) as [Hq' _]. injection Hq' as -> ->.
      cbn in Er. injection Er as <- <-. reflexivity. }
    split; [exact Hu|]. unfold enemyTicker. rewrite Hu. reflexivity.
  - intros Hps. unfold updateEnemies. rewrite Hps. reflexivity.
Qed.

(** ** What is written to the database *)

Lemma broadcastWorld_soundWrite (W : World) (now : Z) :
  Forall soundWrite (broadcastWorld W now).
Proof.
  unfold broadcastWorld, sendToPeer.
  induction (players_values W) as [|p ps IH]; cbn; constructor;
    [exact I|exact IH].
Qed.

Lemma updateEnemies_soundWrite (W : World) :
  Forall soundWrite (snd (fst (updateEnemies W))).
Proof.
  unfold updateEnemies. destruct (_ || _); [constructor|].
  destruct (enemyLoop _ _ _ _ _) as [[W1 hit] changed].
  pose proof (resetAll_effects W1 hit) as He.
  destruct (resetAll W1 hit) as [W2 effects]. cbn [fst snd] in *. subst effects.
  induction hit as [|u hit IH]; cbn; constructor; [reflexivity|exact IH].
Qed.

Lemma step_soundWrite (W : World) (e : Event) :
  Forall soundWrite (snd (step W e)).
Proof.
  destruct e as [peer context|timer now|peer now
                |peer payload now sentAt|now|userId result now
                |userId result now]; cbn [step].
  - unfold open. destruct (ctx_userId context) as [userId|];
      [|repeat constructor].
    destruct (String.eqb userId ""); [repeat constructor|].
    unfold hydrateUserScore, hydrateUserColor.
    repeat case_bool_decide; cbn; repeat constructor.
  - unfold joinTimerFired. destruct (negb _); [constructor|].
    unfold run. destruct (spawnPlayerPosition _ _) as [start d].
    cbn [snd sendToPeer app]. constructor; [exact I|].
    apply broadcastWorld_soundWrite.
  - unfold close.
    destruct (pendingJoinTimers W !! peer);
      (destruct (players_get peer _); [destruct (hasConnectedPlayer _ _)|]);
      cbn [snd fst app]; repeat (constructor; [exact I|]);
      first [constructor|destruct (bool_decide _);
             [apply broadcastWorld_soundWrite|constructor]].
  - unfold message.
    destruct (players_get peer (players W)) as [player|] eqn:Ep;
      [|constructor].
    destruct payload as [[color|dx dy|]|]; try (repeat constructor).
    + destruct (sanitizeColor color) as [nextColor|] eqn:Ec;
        [|repeat constructor].
      cbn [snd persistUserColor app]. constructor.
      * cbn. apply (sanitizeColor_output color nextColor Ec).
      * apply broadcastWorld_soundWrite.
    + destruct (moveComponent dx) as [| |qx|]; try constructor.
      destruct (moveComponent dy) as [| |qy|]; try constructor.
      destruct (_ && _); [constructor|].
      destruct (moveAndCollect W peer player qx qy now) as [W1 count].
      set (player1 := default player (players_get peer (players W1))).
      assert (Ha : Forall soundWrite (snd (awardPoints W1 player1 count now))).
      { unfold awardPoints, persistScoreDelta. cbv zeta.
        destruct (Z.gtb_spec (pointsFor count player1 now) 0) as [Hpos|];
          [|constructor].
        cbn [snd]. destruct (Z.leb_spec (pointsFor count player1 now) 0);
          [constructor|]. repeat constructor. assumption. }
      destruct (awardPoints W1 player1 count now) as [W2 e2]. cbn [snd] in Ha.
      pose proof (updateEnemies_soundWrite W2) as Hu.
      destruct (updateEnemies W2) as [[W3 e3] changed]. cbn [fst snd] in *.
      apply Forall_app. split; [exact Ha|].
      apply Forall_app. split; [exact Hu|apply broadcastWorld_soundWrite].
  - unfold enemyTicker. pose proof (updateEnemies_soundWrite W) as Hu.
    destruct (updateEnemies W) as [[W1 effects] changed]. cbn [fst snd] in *.
    apply Forall_app. split; [exact Hu|].
    destruct changed; [apply broadcastWorld_soundWrite|constructor].
  - unfold scoreLoaded. destruct result as [row|]; cbn [snd];
      [|repeat constructor].
    destruct (hasConnectedPlayer _ _);
      [apply broadcastWorld_soundWrite|constructor].
  - unfold colorLoaded. destruct result as [row|]; cbn [snd];
      [|repeat constructor].
    destruct (hasConnectedPlayer _ _);
      [apply broadcastWorld_soundWrite|constructor].
Qed.

(** X23. What the server writes to the database, in every run: a score is
    only ever increased by a positive amount or set to 0 (after an enemy
    hit), and a colour is only written in the six-digit lower-case form that
    [sanitizeColor] returns. *)
Theorem database_writes_are_sound (W : World) (es : list Event) :
  Forall soundWrite (snd (steps W es)).
Proof.
  revert W. induction es as [|e es IH]; intros W; cbn [steps].
  - constructor.
  - pose proof (step_soundWrite W e) as H1.
    destruct (step W e) as [W1 out1]. cbn [snd] in H1.
    specialize (IH W1). destruct (steps W1 es) as [W2 out2]. cbn [snd] in *.
    apply Forall_app. split; assumption.
Qed.

(** ** How far a move intent can take a player *)

Lemma powerupLoop_position (n i : nat) (peer : string) (now : Z) (W : World)
    (p : ServerPlayer) :
  players_get peer (players W) = Some p ->
  exists p', players_get peer (players (powerupLoop n i peer now W)) = Some p' /\
             pl_x p' = pl_x p /\ pl_y p' = pl_y p.
Proof.
  revert i W p. induction n as [|n IH]; intros i W p Hp; cbn [powerupLoop].
  - eauto.
  - destruct (powerups W !! i) as [powerup|]; [|eauto].
    rewrite Hp. destruct (within _ _ _ _ _); [|apply IH, Hp].
    unfold run. set (W1 := with_players W _).
    destruct (spawnPowerup W1 (powerups W1) (Some i) (draws W1)) as [fresh d].
    destruct (IH (S i) (with_powerups (with_draws W1 d)
                          (<[i := fresh]> (powerups (with_draws W1 d))))
                (applyPowerup p (pu_type powerup) now))
      as (p' & Hp' & Hx & Hy).
    { cbn [players with_powerups with_draws]. subst W1.
      cbn [players with_players]. apply players_set_get_same. }
    exists p'. split; [exact Hp'|].
    rewrite Hx, Hy. destruct (pu_type powerup); split; reflexivity.
Qed.

(** X24. A move intent takes the player at most one step of the current
    speed along each axis, and that speed is 10, or 17 under the speed
    powerup: from a position inside the map, with components within
    [[-1, 1]] and a diagonal scale within [[0, 1]], the position recorded for
    the sender after the movement and the pickups differs from the old one
    by at most [getPlayerMoveSpeed] on each axis. *)
Theorem move_speed_limit (W : World) (peer : string) (player : ServerPlayer)
    (dx dy : Q) (now : Z) :
  players_get peer (players W) = Some player ->
  inBounds PLAYER_RADIUS (pl_x player) (pl_y player) ->
  -1 <= dx <= 1 -> -1 <= dy <= 1 -> 0 <= Math_SQRT1_2 <= 1 ->
  let moveSpeed := getPlayerMoveSpeed player now in
  (moveSpeed == 10 \/ moveSpeed == 17) /\
  exists p',
    players_get peer (players (fst (moveAndCollect W peer player dx dy now)))
      = Some p' /\
    - moveSpeed <= pl_x p' - pl_x player <= moveSpeed /\
    - moveSpeed <= pl_y p' - pl_y player <= moveSpeed.
Proof.
  intros Hp Hin Hdx Hdy Hscale moveSpeed.
  assert (Hspeed : moveSpeed == 10 \/ moveSpeed == 17).
  { subst moveSpeed. unfold getPlayerMoveSpeed, PLAYER_SPEED, SPEED_MULTIPLIER.
    destruct (_ >? _)%Z; [right|left]; reflexivity. }
  split; [exact Hspeed|].
  assert (Hpos : 0 <= moveSpeed) by (destruct Hspeed as [->| ->]; lra).
  unfold moveAndCollect. cbv zeta. fold moveSpeed.
  set (scale := if negb (Qeq_bool dx 0) && negb (Qeq_bool dy 0)
                then Math_SQRT1_2 else 1).
  assert (Hsc : 0 <= scale <= 1).
  { subst scale. destruct (_ && _); [exact Hscale|lra]. }
  set (m := resolveBlockedMovement (pl_x player) (pl_y player)
              (pl_x player + dx * moveSpeed * scale)
              (pl_y player + dy * moveSpeed * scale) PLAYER_RADIUS).
  destruct (resolveBlockedMovement_axes (pl_x player) (pl_y player)
              (pl_x player + dx * moveSpeed * scale)
              (pl_y player + dy * moveSpeed * scale) PLAYER_RADIUS)
    as (_ & _ & _ & Hbetween).
  destruct (Hbetween Hin) as [[Hx0 Hx1] [Hy0 Hy1]]. fold m in Hx0, Hx1, Hy0, Hy1.
  assert (Hstep : forall d, -1 <= d <= 1 ->
            - moveSpeed <= d * moveSpeed * scale <= moveSpeed).
  { intros d [Hd0 Hd1]. clearbody moveSpeed scale. clear - Hd0 Hd1 Hpos Hsc.
    destruct Hsc as [Hs0 Hs1].
    assert (Ha : - moveSpeed <= d * moveSpeed <= moveSpeed) by (split; nra).
    destruct Ha as [Ha0 Ha1]. split; nra. }
  destruct (Hstep dx Hdx) as [Sx0 Sx1]. destruct (Hstep dy Hdy) as [Sy0 Sy1].
  match goal with
  | |- context [grassLoop ?n 0 ?px ?py ?mg ?md ?W2 0%Z] =>
      destruct (grassLoop_players n 0 px py mg md W2 0%Z) as [Hg _];
      rewrite Hg
  end.
  match goal with
  | |- context [powerupLoop ?n 0 peer now ?W1] =>
      destruct (powerupLoop_position n 0 peer now W1
                  (set_pos player (mv_x m) (mv_y m)))
        as (p' & Hp' & Hx & Hy)
  end.
  { cbn [players with_players]. apply players_set_get_same. }
  exists p'. split; [exact Hp'|].
  rewrite Hx, Hy. cbn [set_pos pl_x pl_y].
  assert (Lx : pl_x player - moveSpeed <= Qmin (pl_x player)
                 (pl_x player + dx * moveSpeed * scale))
    by (apply Q.min_glb; lra).
  assert (Ux : Qmax (pl_x player) (pl_x player + dx * moveSpeed * scale)
               <= pl_x player + moveSpeed)
    by (apply Q.max_lub; lra).
  assert (Ly : pl_y player - moveSpeed <= Qmin (pl_y player)
                 (pl_y player + dy * moveSpeed * scale))
    by (apply Q.min_glb; lra).
  assert (Uy : Qmax (pl_y player) (pl_y player + dy * moveSpeed * scale)
               <= pl_y player + moveSpeed)
    by (apply Q.max_lub; lra).
  split; split; lra.
Qed.

(** ** Numbers *)

(** X25. [clamp] projects onto the interval: for [min <= max] the result
    lies in [[min, max]], a value inside the interval is returned as it is, a
    second application changes nothing, and the function is monotone; for
    bounds given the wrong way round the result is [max]. *)
Theorem clamp_is_projection (value min max : Q) :
  (min <= max ->
   min <= clamp value min max <= max /\
   (min <= value <= max -> clamp value min max == value) /\
   clamp (clamp value min max) min max == clamp value min max /\
   forall value', value <= value' -> clamp value min max <= clamp value' min max) /\
  (max < min -> clamp value min max == max).
Proof.
  split.
  - intros Hle. split; [apply clamp_bounds, Hle|].
    split; [apply clamp_id|]. split.
    + apply clamp_id. apply clamp_bounds, Hle.
    + intros value' Hv. unfold clamp.
      apply Q.min_le_compat_l. apply Q.max_le_compat_l. exact Hv.
  - intros Hlt. unfold clamp. apply Q.min_l.
    eapply Qle_trans; [apply Qlt_le_weak, Hlt|apply Q.le_max_l].
Qed.

(** X26. [randomBetween] on integer bounds [a <= b], for a draw in
    [[0, 1)]: the result is an integer between [a] and [b], both included;
    every integer of that range is the result for some draw; exactly one
    draw of [Math.random()] is used; and the index [randomPowerupType]
    computes always selects one of the three powerup types. *)
Theorem randomBetween_integer_in_range (a b : Z) :
  (a <= b)%Z ->
  (forall u, 0 <= u < 1 ->
     exists k, (a <= k <= b)%Z /\
       randomBetweenOf u (inject_Z a) (inject_Z b) == inject_Z k) /\
  (forall k, (a <= k <= b)%Z ->
     exists u, 0 <= u < 1 /\
       randomBetweenOf u (inject_Z a) (inject_Z b) == inject_Z k) /\
  (forall n, snd (randomBetween (inject_Z a) (inject_Z b) n) = S n) /\
  (forall u, 0 <= u < 1 ->
     exists type,
       at_index POWERUP_TYPES
         (randomBetweenOf u 0 (Qnat (length POWERUP_TYPES) - 1)) = Some type).
Proof.
  intros Hab.
  assert (Hwidth : inject_Z b - inject_Z a + 1 == inject_Z (b - a + 1)).
  { rewrite inject_Z_plus, inject_Z_sub. reflexivity. }
  assert (Hfloor : forall u, 0 <= u < 1 ->
            (0 <= Qfloor (u * (inject_Z b - inject_Z a + 1)) <= b - a)%Z).
  { intros u [Hu0 Hu1].
    assert (Hw : 0 < inject_Z (b - a + 1)).
    { change 0 with (inject_Z 0). rewrite <- Zlt_Qlt. lia. }
    set (v := u * (inject_Z b - inject_Z a + 1)).
    assert (Hv0 : 0 <= v) by (unfold v; rewrite Hwidth; nra).
    assert (Hv1 : v < inject_Z (b - a + 1)) by (unfold v; rewrite Hwidth; nra).
    split.
    - apply (Qfloor_resp_le 0 v) in Hv0. exact Hv0.
    - assert (Hlt : (Qfloor v < b - a + 1)%Z).
      { rewrite Zlt_Qlt. eapply Qle_lt_trans; [apply Qfloor_le|exact Hv1]. }
      lia. }
  split; [|split; [|split]].
  - intros u Hu. destruct (Hfloor u Hu) as [H0 H1].
    exists (Qfloor (u * (inject_Z b - inject_Z a + 1)) + a)%Z.
    split; [lia|]. unfold randomBetweenOf, Math_floor.
    rewrite inject_Z_plus. reflexivity.
  - intros k Hk.
    assert (Hw : 0 < inject_Z (b - a + 1)).
    { change 0 with (inject_Z 0). rewrite <- Zlt_Qlt. lia. }
    exists (inject_Z (k - a) / inject_Z (b - a + 1)).
    assert (Hk0 : 0 <= inject_Z (k - a)).
    { change 0 with (inject_Z 0). rewrite <- Zle_Qle. lia. }
    assert (Hk1 : inject_Z (k - a) < inject_Z (b - a + 1)).
    { rewrite <- Zlt_Qlt. lia. }
    split.
    + split.
      * apply Qle_shift_div_l; [exact Hw|]. lra.
      * apply Qlt_shift_div_r; [exact Hw|]. lra.
    + unfold randomBetweenOf, Math_floor.
      assert (Hv : inject_Z (k - a) / inject_Z (b - a + 1)
                   * (inject_Z b - inject_Z a + 1) == inject_Z (k - a)).
      { rewrite Hwidth. field. lra. }
      rewrite Hv, Qfloor_Z, <- inject_Z_plus.
      replace (k - a + a)%Z with k by lia. reflexivity.
  - intros n. reflexivity.
  - intros u [Hu0 Hu1]. unfold POWERUP_TYPES, randomBetweenOf, Math_floor.
    cbn [length].
    set (v := u * (Qnat 3 - 1 - 0 + 1)).
    assert (Hn : Qnat 3 - 1 - 0 + 1 == 3) by reflexivity.
    assert (Hv0 : 0 <= v) by (unfold v; rewrite Hn; lra).
    assert (Hv1 : v < 3) by (unfold v; rewrite Hn; lra).
    assert (Hf0 : (0 <= Qfloor v)%Z).
    { apply (Qfloor_resp_le 0 v) in Hv0. exact Hv0. }
    assert (Hf1 : (Qfloor v < 3)%Z).
    { rewrite Zlt_Qlt. eapply Qle_lt_trans; [apply Qfloor_le|exact Hv1]. }
    assert (Hcase : Qfloor v = 0%Z \/ Qfloor v = 1%Z \/ Qfloor v = 2%Z) by lia.
    destruct Hcase as [->|[->| ->]]; eexists; vm_compute; reflexivity.
Qed.

(** ** The players form a map *)

Lemma carried_keys (Good : Q -> Q -> Prop) (ps ps' : list (string * ServerPlayer)) :
  Forall2 (carried Good) ps ps' -> map fst ps' = map fst ps.
Proof.
  induction 1 as [|kp kp' ps ps' (Hk & _) HF IH]; [reflexivity|].
  cbn [map]. rewrite Hk, IH. reflexivity.
Qed.

Lemma players_set_keys (k : string) (p : ServerPlayer)
    (ps : list (string * ServerPlayer)) :
  map fst (players_set k p ps) =
  if bool_decide (k ∈ map fst ps) then map fst ps else map fst ps ++ [k].
Proof.
  induction ps as [|[k0 p0] ps IH]; cbn [players_set map fst].
  - rewrite bool_decide_eq_false_2 by (apply not_elem_of_nil). reflexivity.
  - destruct (String.eqb k0 k) eqn:E.
    + apply String.eqb_eq in E. subst k0.
      rewrite bool_decide_eq_true_2 by (apply elem_of_cons; left; reflexivity).
      reflexivity.
    + assert (Hne : k <> k0).
      { intros ->. rewrite String.eqb_refl in E. discriminate. }
      cbn [map fst]. rewrite IH. case_bool_decide as Hin.
      * rewrite bool_decide_eq_true_2
          by (apply elem_of_cons; right; exact Hin). reflexivity.
      * rewrite bool_decide_eq_false_2; [reflexivity|].
        intros Hin'. apply elem_of_cons in Hin' as [Heq|Hin']; contradiction.
Qed.

Lemma players_set_NoDup (k : string) (p : ServerPlayer)
    (ps : list (string * ServerPlayer)) :
  NoDup (map fst ps) -> NoDup (map fst (players_set k p ps)).
Proof.
  intros Hnd. rewrite players_set_keys. case_bool_decide as Hin; [exact Hnd|].
  apply NoDup_app. split; [exact Hnd|]. split.
  - intros x Hx Hx'. apply list_elem_of_singleton in Hx'. subst x. contradiction.
  - apply NoDup_singleton.
Qed.

Lemma players_delete_NoDup (k : string) (ps : list (string * ServerPlayer)) :
  NoDup (map fst ps) -> NoDup (map fst (players_delete k ps)).
Proof.
  unfold players_delete. induction ps as [|[k0 p0] ps IH]; cbn; [auto|].
  intros Hnd. apply NoDup_cons in Hnd as [Hout Hnd].
  destruct (negb (String.eqb k0 k)); cbn; [|apply IH, Hnd].
  apply NoDup_cons. split; [|apply IH, Hnd].
  intros Hin. apply Hout.
  apply list_elem_of_fmap in Hin as (kp & -> & Hkp).
  apply list_elem_of_fmap. exists kp. split; [reflexivity|].
  apply list_elem_of_In. apply list_elem_of_In in Hkp.
  apply List.filter_In in Hkp as [Hkp _]. exact Hkp.
Qed.

Lemma step_wellKeyed (W : World) (e : Event) :
  wellKeyed (players W) -> wellKeyed (players (fst (step W e))).
Proof.
  intros [Hkeyed Hnd].
  destruct (step_spec (fun _ _ => True) spawn_anywhere (fun _ _ _ _ _ => I) W e)
    as (Hps & _ & _).
  destruct e as [peer context|timer now|peer now
                |peer payload now sentAt|now|userId result now
                |userId result now]; cbn [playersStep] in Hps;
    try (split; [eapply keyed_carried; eassumption|];
         rewrite (carried_keys _ _ _ Hps); exact Hnd).
  - destruct Hps as [->|(player & -> & Hp & Hc & _)]; [split; assumption|].
    split; [apply keyed_set; assumption|apply players_set_NoDup, Hnd].
  - rewrite Hps. split; [apply keyed_delete, Hkeyed|].
    apply players_delete_NoDup, Hnd.
Qed.

Lemma wellKeyed_get (ps : list (string * ServerPlayer)) (k : string)
    (p : ServerPlayer) :
  NoDup (map fst ps) -> (k, p) ∈ ps -> players_get k ps = Some p.
Proof.
  induction ps as [|[k0 p0] ps IH]; intros Hnd Hin; [inversion Hin|].
  cbn [map fst] in Hnd. apply NoDup_cons in Hnd as [Hout Hnd].
  cbn [players_get]. apply elem_of_cons in Hin as [Heq|Hin].
  - injection Heq as -> ->. rewrite String.eqb_refl. reflexivity.
  - destruct (String.eqb k0 k) eqn:E; [|apply IH; assumption].
    apply String.eqb_eq in E. subst k0. contradiction Hout.
    apply list_elem_of_fmap. exists (k, p). split; [reflexivity|exact Hin].
Qed.

(** X27. The players form a map in every run: if every player is filed
    under the id of its own peer and no id occurs twice, this is so after
    every sequence of events.  Then a lookup by connection id finds exactly
    the listed players, and one broadcast sends each connection one
    snapshot, never two. *)
Theorem players_form_a_map (W : World) (es : list Event) :
  wellKeyed (players W) ->
  let W' := fst (steps W es) in
  wellKeyed (players W') /\
  (forall k p, (k, p) ∈ players W' <-> players_get k (players W') = Some p) /\
  forall now, NoDup (snapshotRecipients (broadcastWorld W' now)).
Proof.
  intros Hwell. cbv zeta.
  assert (Hend : wellKeyed (players (fst (steps W es)))).
  { revert W Hwell. induction es as [|e es IH]; intros W Hwell; cbn [steps].
    - exact Hwell.
    - pose proof (step_wellKeyed W e Hwell) as H1.
      destruct (step W e) as [W1 out1]. cbn [fst] in H1.
      specialize (IH W1 H1). destruct (steps W1 es) as [W2 out2]. exact IH. }
  split; [exact Hend|]. destruct Hend as [Hkeyed Hnd]. split.
  - intros k p. split; [apply wellKeyed_get, Hnd|apply players_get_elem].
  - intros now. rewrite snapshotRecipients_broadcast. unfold players_values.
    replace (map pl_peer (map snd (players (fst (steps W es)))))
      with (map fst (players (fst (steps W es)))); [exact Hnd|].
    clear Hnd. induction Hkeyed as [|kp ps [Hp _] HF IH]; [reflexivity|].
    cbn [map]. rewrite Hp, IH. reflexivity.
Qed.

(** ** The upgrade request *)

Lemma sanitizeName_nonempty (user : SessionUser) : sanitizeName user <> "".
Proof.
  unfold sanitizeName. cbv zeta.
  assert (Hemail : match user_email user with
                   | Some email =>
                       if String.eqb (trim (beforeAt email)) ""
                       then "Player" else trim (beforeAt email)
                   | None => "Player"
                   end <> "").
  { destruct (user_email user) as [email|]; [|discriminate].
    destruct (String.eqb (trim (beforeAt email)) "") eqn:E; [discriminate|].
    intros Heq. rewrite Heq in E. discriminate E. }
  destruct (user_name user) as [name|]; [|exact Hemail].
  destruct (String.eqb (trim name) "") eqn:E; [exact Hemail|].
  intros Heq. rewrite Heq in E. discriminate E.
Qed.

(** X28. The upgrade request: a display name is never empty; it is the
    trimmed name of the user when that is not empty, otherwise the trimmed
    part of the e-mail address before [@] when that is not empty, otherwise
    ["Player"].  A request without a user, or with an empty user id, is
    answered with 401.  A context that [upgrade] hands out is never turned
    away by [open]: the connection is not closed and its join timer is
    scheduled with that user id and that name. *)
Theorem upgrade_gives_a_usable_context (sessionUser : option SessionUser) :
  (forall user, sanitizeName user <> "") /\
  (forall user name,
     user_name user = Some name -> trim name <> "" ->
     sanitizeName user = trim name) /\
  (forall user email,
     (user_name user = None \/ exists name, user_name user = Some name /\ trim name = "") ->
     user_email user = Some email -> trim (beforeAt email) <> "" ->
     sanitizeName user = trim (beforeAt email)) /\
  (sessionUser = None \/ (exists user, sessionUser = Some user /\ user_id user = "") ->
   upgrade sessionUser = Unauthorized) /\
  (forall context W peer,
     upgrade sessionUser = Accepted context ->
     exists userId name,
       context = mkContext (Some userId) (Some name) /\
       userId <> "" /\ name <> "" /\
       open W peer context <> (W, [ClosePeer peer 4401 "Unauthorized"]) /\
       In (SetTimeout (mkJoinTimer (nextTimer W) peer userId name) JOIN_DELAY_MS)
          (snd (open W peer context))).
Proof.
  split; [apply sanitizeName_nonempty|].
  split; [|split; [|split]].
  - intros user name Hn Ht. unfold sanitizeName. rewrite Hn. cbv zeta.
    destruct (String.eqb (trim name) "") eqn:E; [|reflexivity].
    apply String.eqb_eq in E. contradiction.
  - intros user email Hname He Ht. unfold sanitizeName. rewrite He. cbv zeta.
    assert (E : String.eqb (trim (beforeAt email)) "" = false).
    { destruct (String.eqb (trim (beforeAt email)) "") eqn:E; [|reflexivity].
      apply String.eqb_eq in E. contradiction. }
    rewrite E. destruct Hname as [->|(name & -> & ->)]; reflexivity.
  - intros [->|(user & -> & Hid)]; [reflexivity|].
    unfold upgrade, resolveUser. rewrite Hid. reflexivity.
  - intros context W peer Hup. unfold upgrade, resolveUser in Hup.
    destruct sessionUser as [user|]; [|discriminate Hup].
    destruct (String.eqb (user_id user) "") eqn:E; [discriminate Hup|].
    injection Hup as <-.
    assert (Hne : user_id user <> "").
    { intros Heq. rewrite Heq in E. discriminate E. }
    exists (user_id user), (sanitizeName user).
    split; [reflexivity|]. split; [exact Hne|].
    split; [apply sanitizeName_nonempty|].
    destruct (open_shape W peer (user_id user) (Some (sanitizeName user)) Hne)
      as (l1 & l2 & -> & _ & _).
    cbn [default snd].
    match goal with
    | |- _ /\ In ?t ?out =>
        assert (Hin : In t out)
          by (apply in_or_app; right; apply in_or_app; right; left; reflexivity);
        generalize dependent out
    end.
    intros out Hin. split; [|exact Hin].
    intros Heq. injection Heq as _ ->.
    destruct Hin as [Hin|[]]. discriminate Hin.
Qed.

(** ** Steps along a direction *)

(** A direction [(dx, dy)] divided by [d] and scaled by [s]: when the true
    length of the direction is at most [k * d], the scaled vector is at most
    [k * s] long. *)
Lemma scaled_step (dx dy d s k : Q) :
  0 < d -> dx * dx + dy * dy <= (k * d) * (k * d) ->
  (dx / d * s) * (dx / d * s) + (dy / d * s) * (dy / d * s) <= (k * s) * (k * s).
Proof.
  intros Hd H.
  set (rx := dx / d). set (ry := dy / d).
  assert (Hx : rx * d == dx) by (unfold rx; field; lra).
  assert (Hy : ry * d == dy) by (unfold ry; field; lra).
  clearbody rx ry.
  assert (Hu : (rx * rx + ry * ry) * (d * d) <= (k * k) * (d * d)).
  { assert (E1 : (rx * rx + ry * ry) * (d * d)
                 == rx * d * (rx * d) + ry * d * (ry * d)) by ring.
    assert (E2 : k * k * (d * d) == k * d * (k * d)) by ring.
    rewrite E1, E2, Hx, Hy. exact H. }
  assert (Hdd : 0 < d * d).
  { pose proof (Qsquare_far 0 d (Qle_refl 0) Hd). lra. }
  assert (Hle : rx * rx + ry * ry <= k * k).
  { destruct (Qlt_le_dec (k * k) (rx * rx + ry * ry)) as [Hlt|Hle];
      [|exact Hle].
    pose proof (Qmult_lt_compat_r _ _ (d * d) Hdd Hlt). lra. }
  pose proof (Qmult_le_compat_r _ _ (s * s) Hle (Qsquare_nonneg s)) as Hfin.
  assert (E3 : rx * s * (rx * s) + ry * s * (ry * s)
               == (rx * rx + ry * ry) * (s * s)) by ring.
  assert (E4 : k * s * (k * s) == k * k * (s * s)) by ring.
  rewrite E3, E4. exact Hfin.
Qed.

Lemma Qsquare_le (u v : Q) : 0 <= u -> u <= v -> u * u <= v * v.
Proof.
  intros Hu Huv. destruct (Qlt_le_dec u v) as [Hlt|Hge].
  - apply Qlt_le_weak, Qsquare_far; assumption.
  - assert (E : u == v) by lra. rewrite E. apply Qle_refl.
Qed.

(** A value between 0 and [a] has a square of at most [a * a]. *)
Lemma within_square (a v : Q) : Qmin 0 a <= v <= Qmax 0 a -> v * v <= a * a.
Proof.
  intros [H0 H1]. destruct (Qlt_le_dec a 0) as [Hneg|Hpos].
  - rewrite Q.min_r in H0 by lra. rewrite Q.max_l in H1 by lra.
    assert (E : forall x, x * x == - x * - x) by (intros x; ring).
    rewrite (E v), (E a). apply Qsquare_le; lra.
  - rewrite Q.min_l in H0 by lra. rewrite Q.max_r in H1 by lra.
    apply Qsquare_le; lra.
Qed.

Lemma square_sum_bound (a b c : Q) :
  0 <= c -> a * a + b * b <= c * c -> - c <= a <= c.
Proof.
  intros Hc H. pose proof (Qsquare_nonneg b) as Hb. split.
  - destruct (Qlt_le_dec a (- c)) as [Hlt|Hle]; [|exact Hle].
    assert (Hlt' : c < - a) by lra.
    pose proof (Qsquare_far c (- a) Hc Hlt') as Hf.
    assert (E : - a * - a == a * a) by ring. rewrite E in Hf. lra.
  - destruct (Qlt_le_dec c a) as [Hlt|Hle]; [|exact Hle].
    pose proof (Qsquare_far c a Hc Hlt). lra.
Qed.

Lemma between_shift (c a v : Q) :
  Qmin c (c + a) <= v <= Qmax c (c + a) -> Qmin 0 a <= v - c <= Qmax 0 a.
Proof.
  intros [H0 H1]. destruct (Qlt_le_dec a 0) as [Hneg|Hpos].
  - rewrite Q.min_r in H0 by lra. rewrite Q.max_l in H1 by lra.
    rewrite Q.min_r by lra. rewrite Q.max_l by lra. lra.
  - rewrite Q.min_l in H0 by lra. rewrite Q.max_r in H1 by lra.
    rewrite Q.min_l by lra. rewrite Q.max_r by lra. lra.
Qed.

(** Clamping [c + a] to a range that holds [c] leaves a value between [c]
    and [c + a]. *)
Lemma clamp_between (c a lo hi : Q) :
  lo <= c <= hi -> Qmin 0 a <= clamp (c + a) lo hi - c <= Qmax 0 a.
Proof.
  intros [Hlo Hhi]. unfold clamp.
  pose proof (Q.le_min_l 0 a) as Hm0. pose proof (Q.le_min_r 0 a) as Hm1.
  pose proof (Q.le_max_l 0 a) as HM0. pose proof (Q.le_max_r 0 a) as HM1.
  assert (L : c + Qmin 0 a <= Qmin hi (Qmax lo (c + a))).
  { apply Q.min_glb; [lra|].
    eapply Qle_trans; [|apply Q.le_max_r]. lra. }
  assert (U : Qmin hi (Qmax lo (c + a)) <= c + Qmax 0 a).
  { eapply Qle_trans; [apply Q.le_min_r|]. apply Q.max_lub; lra. }
  split; lra.
Qed.

(** A displacement that stays, on each axis, between 0 and the component of
    a vector at most [k * s] long, with [s] at most [limit]: at most
    [k * limit] long, and so on each axis. *)
Lemma step_within_limit (sx sy ax ay k s limit : Q) :
  Qmin 0 ax <= sx <= Qmax 0 ax -> Qmin 0 ay <= sy <= Qmax 0 ay ->
  ax * ax + ay * ay <= (k * s) * (k * s) ->
  0 <= k -> 0 <= s -> s <= limit ->
  sx * sx + sy * sy <= (k * limit) * (k * limit) /\
  - (k * limit) <= sx <= k * limit /\
  - (k * limit) <= sy <= k * limit.
Proof.
  intros Hx Hy Hlen Hk Hs Hlimit.
  pose proof (within_square ax sx Hx) as Hsx.
  pose proof (within_square ay sy Hy) as Hsy.
  assert (Hks : 0 <= k * s) by (apply Qmult_le_0_compat; assumption).
  assert (Hkl : k * s <= k * limit).
  { rewrite (Qmult_comm k s), (Qmult_comm k limit).
    apply Qmult_le_compat_r; assumption. }
  pose proof (Qsquare_le (k * s) (k * limit) Hks Hkl) as Hsq.
  assert (Hsum : sx * sx + sy * sy <= (k * limit) * (k * limit)) by lra.
  assert (Hkl0 : 0 <= k * limit) by lra.
  split; [exact Hsum|]. split.
  - apply (square_sum_bound sx sy (k * limit) Hkl0 Hsum).
  - apply (square_sum_bound sy sx (k * limit) Hkl0). lra.
Qed.

(** Whatever positive value [Math.sqrt] returns for a squared distance, some
    factor [k] makes [k] times that value reach the true distance. *)
Lemma root_within_some_factor (ds d : Q) :
  0 < d -> exists k, 0 <= k /\ ds <= (k * d) * (k * d).
Proof.
  intros Hd. destruct (Qlt_le_dec ds 0) as [Hneg|Hpos].
  - exists 0. split; [lra|]. assert (E : 0 * d * (0 * d) == 0) by ring.
    rewrite E. lra.
  - exists ((ds + 1) / d). split.
    + apply Qle_shift_div_l; [exact Hd|]. lra.
    + assert (E : (ds + 1) / d * d == ds + 1) by (field; lra).
      rewrite E.
      assert (E2 : (ds + 1) * (ds + 1) == ds * ds + 2 * ds + 1) by ring.
      rewrite E2. pose proof (Qsquare_nonneg ds). lra.
Qed.

(** X29. An enemy step is at most [maxStep] long, up to the accuracy of
    [Math.sqrt].  Let [d] be the positive value [Math.sqrt] returns for the
    squared distance to the target, and [k] any factor with
    [distanceSquared <= (k * d) * (k * d)]: [k] bounds how far [d] falls
    short of the true distance, and [k = 1] whenever [d * d] is not below
    the squared distance.  Then the position [movePointToward] returns from
    a position inside the map is at most [k * maxStep] away from the current
    one (squared Euclidean length), and so on each axis.  Such a [k] exists
    for every target, whatever root is returned.  For a target closer than
    0.01 the enemy does not move at all. *)
Theorem movePointToward_speed_limit (cx cy tx ty maxStep : Q) :
  let distanceSquared := (tx - cx) * (tx - cx) + (ty - cy) * (ty - cy) in
  let distance := Math_sqrt distanceSquared in
  let next := movePointToward cx cy tx ty maxStep in
  let stepX := st_x next - cx in
  let stepY := st_y next - cy in
  (distanceSquared <= 0.0001 ->
   st_x next = cx /\ st_y next = cy /\ st_moved next = false) /\
  (forall k,
     0 < distance -> 0 <= k ->
     distanceSquared <= (k * distance) * (k * distance) ->
     0 <= maxStep -> inBounds ENEMY_RADIUS cx cy ->
     stepX * stepX + stepY * stepY <= (k * maxStep) * (k * maxStep) /\
     - (k * maxStep) <= stepX <= k * maxStep /\
     - (k * maxStep) <= stepY <= k * maxStep) /\
  (0 < distance ->
   exists k, 0 <= k /\ distanceSquared <= (k * distance) * (k * distance)).
Proof.
  cbv zeta. unfold movePointToward. cbv zeta.
  set (ds := (tx - cx) * (tx - cx) + (ty - cy) * (ty - cy)).
  set (d := Math_sqrt ds).
  split; [|split].
  - intros Hclose. apply Qle_bool_iff in Hclose. rewrite Hclose.
    repeat split.
  - intros k Hd Hk Hroot Hmax Hin.
    assert (Hkm : 0 <= k * maxStep) by (apply Qmult_le_0_compat; assumption).
    destruct (Qle_bool ds 0.0001); cbn [st_x st_y].
    { assert (E : (cx - cx) * (cx - cx) + (cy - cy) * (cy - cy) == 0) by ring.
      rewrite E.
      pose proof (Qsquare_nonneg (k * maxStep)).
      repeat split; lra. }
    set (s := Qmin maxStep d).
    assert (Hs0 : 0 <= s) by (apply Q.min_glb; lra).
    assert (Hs1 : s <= maxStep) by apply Q.le_min_l.
    pose proof (scaled_step (tx - cx) (ty - cy) d s k Hd Hroot) as Hlen.
    destruct (resolveBlockedMovement_axes cx cy
                (cx + (tx - cx) / d * s) (cy + (ty - cy) / d * s) ENEMY_RADIUS)
      as (_ & _ & _ & Hbetween).
    destruct (Hbetween Hin) as [Hbx Hby].
    apply between_shift in Hbx. apply between_shift in Hby.
    exact (step_within_limit _ _ _ _ k s maxStep Hbx Hby Hlen Hk Hs0 Hs1).
  - apply root_within_some_factor.
Qed.

(** X30. The magnet pulls a grass item at most [MAGNET_PULL_PER_TICK], up
    to the accuracy of [Math.sqrt].  Let [d] be the positive value
    [Math.sqrt] returns for the squared distance between the item and the
    player, and [k] any factor with [distanceSquared <= (k * d) * (k * d)]
    ([k = 1] whenever [d * d] is not below the squared distance).  Then the
    item [pullGrass] returns for an item inside the map is at most [k * 8]
    away from it (squared Euclidean length), and so on each axis.  Such a
    [k] exists for every item, whatever root is returned.  An item at most
    the touching distance away is not moved. *)
Theorem magnet_pull_limit (px py : Q) (grass : GrassSpot) :
  let distanceSquared :=
    (px - g_x grass) * (px - g_x grass) + (py - g_y grass) * (py - g_y grass) in
  let distance := Math_sqrt distanceSquared in
  let pulled := pullGrass px py grass distanceSquared in
  let pullX := g_x pulled - g_x grass in
  let pullY := g_y pulled - g_y grass in
  (distance <= getGrassTouchRadius -> pulled = grass) /\
  (forall k,
     0 < distance -> 0 <= k ->
     distanceSquared <= (k * distance) * (k * distance) ->
     inBounds GRASS_RADIUS (g_x grass) (g_y grass) ->
     pullX * pullX + pullY * pullY
       <= (k * MAGNET_PULL_PER_TICK) * (k * MAGNET_PULL_PER_TICK) /\
     - (k * MAGNET_PULL_PER_TICK) <= pullX <= k * MAGNET_PULL_PER_TICK /\
     - (k * MAGNET_PULL_PER_TICK) <= pullY <= k * MAGNET_PULL_PER_TICK) /\
  (0 < distance ->
   exists k, 0 <= k /\ distanceSquared <= (k * distance) * (k * distance)).
Proof.
  cbv zeta. unfold pullGrass. cbv zeta.
  set (ds := (px - g_x grass) * (px - g_x grass)
             + (py - g_y grass) * (py - g_y grass)).
  set (d := Math_sqrt ds).
  set (pullAmount := Qmin MAGNET_PULL_PER_TICK (Qmax 0 (d - getGrassTouchRadius))).
  assert (Hp0 : 0 <= pullAmount).
  { apply Q.min_glb; [unfold MAGNET_PULL_PER_TICK; lra|apply Q.le_max_l]. }
  assert (Hp1 : pullAmount <= MAGNET_PULL_PER_TICK) by apply Q.le_min_l.
  split; [|split].
  - intros Htouch. destruct (Qgtb d 0.001); [|reflexivity].
    assert (Hz : pullAmount == 0).
    { unfold pullAmount. rewrite (Q.max_l 0 (d - getGrassTouchRadius)) by lra.
      apply Q.min_r. unfold MAGNET_PULL_PER_TICK. lra. }
    assert (E : Qgtb pullAmount 0 = false) by (apply Qgtb_false; lra).
    rewrite E. reflexivity.
  - intros k Hd Hk Hroot [[Hx0 Hx1] [Hy0 Hy1]].
    set (limit := k * MAGNET_PULL_PER_TICK).
    assert (Hlimit : 0 <= limit).
    { apply Qmult_le_0_compat; [exact Hk|unfold MAGNET_PULL_PER_TICK; lra]. }
    assert (Hsame :
      (g_x grass - g_x grass) * (g_x grass - g_x grass)
        + (g_y grass - g_y grass) * (g_y grass - g_y grass) <= limit * limit /\
      - limit <= g_x grass - g_x grass <= limit /\
      - limit <= g_y grass - g_y grass <= limit).
    { assert (E : (g_x grass - g_x grass) * (g_x grass - g_x grass)
                  + (g_y grass - g_y grass) * (g_y grass - g_y grass) == 0)
        by ring.
      rewrite E. pose proof (Qsquare_nonneg limit). repeat split; lra. }
    destruct (Qgtb d 0.001); [|exact Hsame].
    destruct (Qgtb pullAmount 0); [|exact Hsame].
    destruct (isCircleBlockedByBuildings _ _ GRASS_RADIUS); cbn [negb];
      [exact Hsame|]. cbn [g_x g_y].
    pose proof (scaled_step (px - g_x grass) (py - g_y grass) d pullAmount k
                  Hd Hroot) as Hlen.
    pose proof (clamp_between (g_x grass) ((px - g_x grass) / d * pullAmount)
                  GRASS_RADIUS (MAP_WIDTH - GRASS_RADIUS) (conj Hx0 Hx1)) as Hbx.
    pose proof (clamp_between (g_y grass) ((py - g_y grass) / d * pullAmount)
                  GRASS_RADIUS (MAP_HEIGHT - GRASS_RADIUS) (conj Hy0 Hy1)) as Hby.
    exact (step_within_limit _ _ _ _ k pullAmount MAGNET_PULL_PER_TICK
             Hbx Hby Hlen Hk Hp0 Hp1).
  - apply root_within_some_factor.
Qed.

End Server.

(** * Concrete runs

The runtime primitives are instantiated with simple computable
    functions, and the hooks are run on small worlds. *)

Lemma demo_random_unit : forall n, 0 <= demo_random n < 1.
Proof.
  intros n. unfold demo_random, Qle, Qlt. cbn.
  pose proof (Nat.mod_upper_bound n 10). lia.
Qed.

Lemma demoPlayer_placed : playerPlaced demo_sin (demoPlayer "a" "u1" 100 100 7).
Proof.
  split; [|vm_compute; reflexivity].
  unfold inBounds, PLAYER_RADIUS, MAP_WIDTH, MAP_HEIGHT. cbn. lra.
Qed.

Lemma demoEnemy_placed :
  enemyPlaced demo_sin (demoEnemy "enemy-0" 600 100 500 100).
Proof.
  split; [|vm_compute; reflexivity].
  unfold inBounds, ENEMY_RADIUS, MAP_WIDTH, MAP_HEIGHT. cbn. lra.
Qed.

(** A move to the right followed by a timer tick: the player and the enemy
    are still placed. *)
Lemma placed_after_move_and_tick :
  let W' :=
    fst (steps demo_sin demo_sqrt demo_SQRT1_2 demo_random demo_uuid
           demo_StringToNumber chaseWorld
           [ev_message "a" (Some (payload_move (V_number (Fin 1)) V_null)) 1000 1001;
            ev_enemyTick 1060]) in
  (exists p', players_get "a" (players W') = Some p' /\ playerPlaced demo_sin p') /\
  (exists e', enemies W' !! 0%nat = Some e' /\ enemyPlaced demo_sin e').
Proof.
  intros W'.
  destruct (movement_keeps_entities_placed demo_sin demo_sqrt demo_SQRT1_2
              demo_random demo_uuid demo_StringToNumber demo_random_unit
              chaseWorld
              [ev_message "a" (Some (payload_move (V_number (Fin 1)) V_null))
                 1000 1001;
               ev_enemyTick 1060]) as (Hp & He & _ & _).
  destruct (Hp "a" (demoPlayer "a" "u1" 100 100 7) eq_refl demoPlayer_placed)
    as [Hkeep Hex].
  split.
  - destruct Hex as (p' & Hp'); [repeat constructor|].
    exists p'. split; [exact Hp'|apply Hkeep, Hp'].
  - apply (He 0%nat (demoEnemy "enemy-0" 600 100 500 100) eq_refl demoEnemy_placed).
Defined.

(** The player standing on the enemy is sent to a position drawn in this
    tick, with a score of 0. *)
Lemma caught_player_is_reset :
  let W' := fst (fst (updateEnemies demo_sin demo_sqrt demo_random caughtWorld)) in
  userScores W' !! "u1" = Some 0%Z /\
  (forall kq, kq ∈ players W' -> pl_userId (snd kq) = "u1" ->
     pl_score (snd kq) = 0%Z) /\
  exists p', players_get "a" (players W') = Some p' /\
             pl_userId p' = "u1" /\
             clear demo_sin PLAYER_RADIUS (pl_x p') (pl_y p') /\
             (draws caughtWorld < draws W')%nat /\
             exists es n, (draws caughtWorld <= n < draws W')%nat /\
               fst (spawnPlayerPosition demo_sin demo_random es n) =
               (pl_x p', pl_y p').
Proof.
  apply (enemy_hit_resets_and_relocates demo_sin demo_sqrt demo_random
           caughtWorld 0%nat "a" (demoEnemy "enemy-0" 100 100 100 100)
           (demoPlayer "a" "u1" 100 100 7)).
  - reflexivity.
  - reflexivity.
  - vm_compute. reflexivity.
Defined.

(** The position the caught player is given is the one the first
    [spawnPlayerPosition()] call of the tick returns, not the old one. *)
Example caught_player_new_position :
  let W' := fst (fst (updateEnemies demo_sin demo_sqrt demo_random caughtWorld)) in
  option_map (fun p => (pl_x p, pl_y p)) (players_get "a" (players W'))
    = Some (fst (spawnPlayerPosition demo_sin demo_random
                   (enemies caughtWorld) (draws caughtWorld))) /\
  option_map (fun p => (pl_x p, pl_y p)) (players_get "a" (players W'))
    = Some (16, 1012) /\
  draws W' = 2%nat.
Proof. vm_compute. repeat split. Qed.

(** Two enemies catch two connections of one user: one reset. *)
Example two_tabs_one_reset :
  snd (fst (updateEnemies demo_sin demo_sqrt demo_random twoTabsWorld)) =
  [DbSetScore "u1" 0].
Proof. vm_compute. reflexivity. Qed.

(** A speed powerup picked up at 6000 on a timer that ran out at 5000. *)
Lemma expired_timer_restarts :
  extendPowerup 5000 6000 SPEED_DURATION_MS = (6000 + SPEED_DURATION_MS)%Z /\
  (5000 <= extendPowerup 5000 6000 SPEED_DURATION_MS)%Z /\
  (extendPowerup 5000 6000 SPEED_DURATION_MS
   <= extendPowerup (extendPowerup 5000 6000 SPEED_DURATION_MS) 7000
        SPEED_DURATION_MS)%Z.
Proof.
  destruct (extendPowerup_monotone 5000 6000 SPEED_DURATION_MS)
    as (_ & Hreset & _ & Hextend & _).
  split; [apply Hreset; lia|].
  destruct Hextend as [Hlonger Htwice]; [unfold SPEED_DURATION_MS; lia|].
  split; [exact Hlonger|apply Htwice; lia].
Defined.

(** While "b" waits, "a" changes colour and the enemies tick. *)
Lemma waiting_run :
  let W0 := fst (open caughtWorld "b" bobContext) in
  let es :=
    [ev_message "a" (Some (payload_set_color (V_string "#abc"))) 10 11;
     ev_enemyTick 60] in
  let out :=
    snd (open caughtWorld "b" bobContext)
    ++ snd (steps demo_sin demo_sqrt demo_SQRT1_2 demo_random demo_uuid
              demo_StringToNumber W0 es) in
  (forall userId, ctx_userId bobContext = Some userId -> userId <> "" ->
     is_Some (pendingJoinTimers W0 !! "b")) /\
  (forall eff, eff ∈ out -> ~ reaches "b" eff /\ ~ lists "b" eff) /\
  players_get "b"
    (players (fst (steps demo_sin demo_sqrt demo_SQRT1_2 demo_random demo_uuid
                     demo_StringToNumber W0 es))) = None.
Proof.
  apply (waiting_connection_gets_no_broadcast demo_sin demo_sqrt demo_SQRT1_2
           demo_random demo_uuid demo_StringToNumber caughtWorld "b" bobContext).
  - repeat constructor.
  - reflexivity.
  - repeat constructor.
Defined.

(** C4, counterexample to the specification's wording.  A waiting
    connection does not receive the broadcasts: "b" has been opened and its
    join timer is pending; "a" changes colour, the world is broadcast, and
    the only recipient is "a". *)
Lemma broadcast_skips_waiting_connection :
  let W0 := fst (open caughtWorld "b" bobContext) in
  let out :=
    snd (message demo_sin demo_sqrt demo_SQRT1_2 demo_random demo_uuid
           demo_StringToNumber W0 "a"
           (Some (payload_set_color (V_string "#abc"))) 10 11) in
  pendingJoinTimers W0 !! "b" = Some 0%nat /\
  players_get "b" (players W0) = None /\
  snapshotRecipients out = ["a"] /\
  ~ In "b" (snapshotRecipients out).
Proof.
  cbv zeta. split; [vm_compute; reflexivity|].
  split; [reflexivity|].
  assert (H : snapshotRecipients
                (snd (message demo_sin demo_sqrt demo_SQRT1_2 demo_random
                        demo_uuid demo_StringToNumber
                        (fst (open caughtWorld "b" bobContext)) "a"
                        (Some (payload_set_color (V_string "#abc"))) 10 11))
              = ["a"]) by (vm_compute; reflexivity).
  split; [exact H|]. rewrite H. intros [Heq|[]]. discriminate Heq.
Qed.




(** "#ABC" is stored as "#aabbcc" and the snapshot is sent to "a"; "zzz" is
    not a colour text and is answered with an error. *)
Lemma set_color_run :
  let result :=
    message demo_sin demo_sqrt demo_SQRT1_2 demo_random demo_uuid
      demo_StringToNumber caughtWorld "a"
      (Some (payload_set_color (V_string "#ABC"))) 10 11 in
  userColors (fst result) !! "u1" = Some "#aabbcc" /\
  In (Send "a" (world_state (getWorldState demo_sin (fst result) 11)))
     (snd result) /\
  message demo_sin demo_sqrt demo_SQRT1_2 demo_random demo_uuid
    demo_StringToNumber caughtWorld "a"
    (Some (payload_set_color (V_string "zzz"))) 10 11 =
  (caughtWorld, [Send "a" (error "Invalid color format.")]).
Proof.
  destruct (set_color_normalises_or_rejects demo_sin demo_sqrt demo_SQRT1_2
              demo_random demo_uuid demo_StringToNumber caughtWorld "a"
              (demoPlayer "a" "u1" 100 100 7) 10 11 eq_refl)
    as (Hok & _ & _ & _ & Hbad & _ & Hzzz).
  destruct (Hok true "A" "B" "C" eq_refl eq_refl eq_refl)%char
    as (Hstored & _ & _ & _ & Hsent & _).
  split; [exact Hstored|]. split; [exact Hsent|].
  apply Hbad, Hzzz.
Defined.

(** A spawn position drawn from the demo entropy lies in the map. *)
Lemma spawn_run :
  inBounds PLAYER_RADIUS
    (fst (fst (spawnPlayerPosition demo_sin demo_random [] 0%nat)))
    (snd (fst (spawnPlayerPosition demo_sin demo_random [] 0%nat))).
Proof.
  destruct (placement_terminates_in_bounds demo_sin demo_cos demo_sqrt demo_PI
              demo_random demo_uuid demo_random_unit) as (_ & _ & _ & H).
  apply (H [] 0%nat).
Defined.

(** A move whose components are a non-numeric string and [undefined] does
    nothing. *)
Lemma garbage_move_is_ignored :
  message demo_sin demo_sqrt demo_SQRT1_2 demo_random demo_uuid
    demo_StringToNumber caughtWorld "a"
    (Some (payload_move (V_string "abc") V_undefined)) 10 11 = (caughtWorld, []).
Proof.
  destruct (move_input_coercion demo_sin demo_sqrt demo_SQRT1_2 demo_random
              demo_uuid demo_StringToNumber caughtWorld "a" 10 11)
    as (Hnan & _ & _ & _ & _ & Hzero & _).
  apply (Hzero (V_string "abc") V_undefined 0 0).
  - apply Hnan. reflexivity.
  - apply Hnan. reflexivity.
  - reflexivity.
  - reflexivity.
Defined.

(** ** Further runs *)

(** The first generated building lies in one of the blocks. *)
Lemma first_building_in_a_block :
  exists row col,
    insideBlock row col
      (hd (mkRect "" 0 0 0 0) (buildings (cityLayout demo_sin))).
Proof.
  destruct (city_layout_shape demo_sin) as (_ & _ & _ & Hblocks).
  apply Hblocks. vm_compute. left. reflexivity.
Defined.

(** An enemy-sized circle in the middle of the leftmost street. *)
Lemma leftmost_street_is_clear :
  isCircleBlockedByBuildings demo_sin 100 5000 20 = false.
Proof.
  apply (streets_are_clear demo_sin (streetV 0%nat) 100 5000 20).
  - apply in_or_app. left. apply in_map. apply in_seq.
    unfold CITY_COLS. lia.
  - unfold onRect, streetV, STREET_WIDTH, MAP_HEIGHT, Qnat.
    cbn [r_x r_y r_width r_height]. split; split; vm_compute; discriminate.
  - unfold BUILDING_MARGIN. lra.
Defined.

(** What is clear for an enemy is clear for a player. *)
Lemma smaller_circle_is_clear :
  isCircleBlockedByBuildings demo_sin 100 100 16 = false.
Proof.
  destruct (blocked_by_buildings_radius demo_sin 100 100) as [Hsmaller _].
  apply (Hsmaller 20 16); [lra|vm_compute; reflexivity].
Defined.

(** A step to the right on the top street. *)
Lemma step_right_stays_between :
  Qmin 100 110 <= mv_x (resolveBlockedMovement demo_sin 100 100 110 100 16)
    <= Qmax 100 110.
Proof.
  destruct (resolveBlockedMovement_axiswise demo_sin 100 100 110 100 16)
    as (_ & _ & _ & _ & Hbetween).
  apply Hbetween. unfold inBounds, MAP_WIDTH, MAP_HEIGHT. lra.
Defined.

Lemma step_right_reaches_target :
  mv_x (resolveBlockedMovement demo_sin 100 100 110 100 16)
    == clamp 110 16 (MAP_WIDTH - 16).
Proof.
  destruct (resolveBlockedMovement_outcomes demo_sin 100 100 110 100 16)
    as (Hfree & _ & _).
  apply Hfree; [vm_compute; reflexivity|left; vm_compute; reflexivity].
Defined.

(** A player whose speed timer runs until 5000, seen at 1000. *)
Lemma fast_player_moves_at_17 :
  getPlayerMoveSpeed (mkPlayer "a" "a" "u1" "Ann" "#336699" 100 100 7 5000 0 0) 1000
    == 17.
Proof.
  destruct (active_powerups_reflect_timers
              (mkPlayer "a" "a" "u1" "Ann" "#336699" 100 100 7 5000 0 0) 1000)
    as (_ & _ & Hfast & _).
  apply Hfast. vm_compute. left. reflexivity.
Defined.

(** A speed powerup picked up at 1000 is still active at 5000. *)
Lemma speed_lasts_eight_seconds :
  In speed
    (getActivePowerups (applyPowerup (demoPlayer "a" "u1" 100 100 7) speed 1000)
       5000).
Proof.
  destruct (picked_powerup_is_active (demoPlayer "a" "u1" 100 100 7) speed 1000)
    as (Hactive & _).
  apply Hactive. unfold durationOf, SPEED_DURATION_MS. lia.
Defined.

(** An upper-case short colour with blanks around it. *)
Lemma sanitized_colour_is_fixed :
  sanitizeColor (V_string "#aabbcc") = Some "#aabbcc".
Proof.
  destruct (sanitizeColor_canonical (V_string " #ABC ") "#aabbcc")
    as [Hcanonical _].
  destruct Hcanonical as (_ & _ & Hfixed); [vm_compute; reflexivity|exact Hfixed].
Defined.

(** "b" opens a connection as user "u2". *)
Lemma open_schedules_the_join :
  players (fst (open caughtWorld "b" bobContext)) = players caughtWorld /\
  nextTimer (fst (open caughtWorld "b" bobContext)) = 1%nat.
Proof.
  destruct (open_hook_outcomes caughtWorld "b" bobContext) as [_ Hopen].
  destruct (Hopen "u2") as (Hps & _ & _ & _ & Hnext & _);
    [reflexivity|discriminate|].
  split; [exact Hps|exact Hnext].
Defined.

(** ... and its timer fires. *)
Lemma bob_joins :
  pendingJoinTimers
    (fst (joinTimerFired demo_sin demo_random
            (fst (open caughtWorld "b" bobContext))
            (mkJoinTimer 0 "b" "u2" "Bob") 5000)) !! "b" = None.
Proof.
  pose proof (join_after_open demo_sin demo_random caughtWorld "b" "u2"
                (Some "Bob") 5000) as H.
  destruct H as (_ & Hpending & _); [discriminate|exact Hpending].
Defined.

(** A timer that was never scheduled. *)
Lemma unknown_timer_is_ignored :
  joinTimerFired demo_sin demo_random caughtWorld (mkJoinTimer 0 "b" "u2" "Bob")
    5000 = (caughtWorld, []).
Proof.
  destruct (join_timer_fires_once demo_sin demo_random caughtWorld
              (mkJoinTimer 0 "b" "u2" "Bob") 5000 5000) as [Huntracked _].
  apply Huntracked. cbn [jt_peer jt_handle]. unfold caughtWorld, demoWorld.
  cbn [pendingJoinTimers]. rewrite lookup_empty. discriminate.
Defined.

(** One of two tabs of user "u1" is closed: the caches stay. *)
Lemma closing_one_tab_keeps_the_caches :
  userScores (fst (close demo_sin twoTabsWorld "a" 1000)) = userScores twoTabsWorld.
Proof.
  destruct (close_evicts_last_connection demo_sin twoTabsWorld "a" 1000)
    as (_ & Hplayer & _).
  destruct (Hplayer (demoPlayer "a" "u1" 100 100 7) eq_refl) as (_ & Hkept & _).
  destruct Hkept as [Hscores _]; [vm_compute; reflexivity|exact Hscores].
Defined.

(** The score of "u1" is read after a failure: the read is started again. *)
Lemma failed_score_read_is_retried :
  In (DbSelectScore "u1")
     (snd (open (fst (scoreLoaded demo_sin caughtWorld "u1" None 1000)) "b"
             (mkContext (Some "u1") None))).
Proof.
  destruct (score_hydration_merges demo_sin caughtWorld "u1" 1000)
    as (_ & _ & _ & _ & _ & Hretry).
  apply Hretry; [discriminate|].
  unfold caughtWorld, demoWorld. cbn [userScores]. apply lookup_empty.
Defined.

(** A stored short colour is taken when none is cached. *)
Lemma stored_colour_is_sanitized :
  exists merged,
    userColors (fst (colorLoaded demo_sin caughtWorld "u1"
                       (Some (Some (V_string "#ABC"))) 1000))
      = <[ "u1" := merged ]> (userColors caughtWorld) /\
    merged = "#aabbcc".
Proof.
  destruct (colour_hydration_prefers_cache demo_sin caughtWorld "u1" 1000)
    as [Hrow _].
  destruct (Hrow (Some (V_string "#ABC")))
    as (merged & Hmap & _ & _ & Hstored & _).
  exists merged. split; [exact Hmap|].
  apply (Hstored (lookup_empty _) (V_string "#ABC") eq_refl).
  vm_compute. reflexivity.
Defined.

(** "b" joins an empty server and its score is read. *)
Lemma caches_agree_after_join :
  cachesAgree
    (fst (steps demo_sin demo_sqrt demo_SQRT1_2 demo_random demo_uuid
            demo_StringToNumber emptyStreets
            [ev_open "b" bobContext;
             ev_joinTimer (mkJoinTimer 0 "b" "u2" "Bob") 5000;
             ev_scoreLoaded "u2" (Some (Some 12%Z)) 5001])).
Proof.
  apply (caches_agree_with_players demo_sin demo_sqrt demo_SQRT1_2 demo_random
           demo_uuid demo_StringToNumber emptyStreets).
  constructor.
Defined.

Lemma scores_stay_nonnegative_after_join :
  nonNegative
    (fst (steps demo_sin demo_sqrt demo_SQRT1_2 demo_random demo_uuid
            demo_StringToNumber emptyStreets
            [ev_open "b" bobContext;
             ev_joinTimer (mkJoinTimer 0 "b" "u2" "Bob") 5000;
             ev_scoreLoaded "u2" (Some (Some (-5)%Z)) 5001])).
Proof.
  apply (scores_never_negative demo_sin demo_sqrt demo_SQRT1_2 demo_random
           demo_uuid demo_StringToNumber emptyStreets).
  split; [|constructor].
  intros u s Hu. unfold emptyStreets, demoWorld in Hu. cbn [userScores] in Hu.
  rewrite lookup_empty in Hu. discriminate Hu.
Defined.

(** The grass item of the demo world after a move and a tick. *)
Lemma grass_stays_placed_after_move :
  Forall (grassPlaced demo_sin)
    (grasses
       (fst (steps demo_sin demo_sqrt demo_SQRT1_2 demo_random demo_uuid
               demo_StringToNumber chaseWorld
               [ev_message "a" (Some (payload_move (V_number (Fin 1)) V_null))
                  1000 1001;
                ev_enemyTick 1060]))).
Proof.
  destruct (items_stay_placed demo_sin demo_sqrt demo_SQRT1_2 demo_random
              demo_uuid demo_StringToNumber demo_random_unit chaseWorld
              [ev_message "a" (Some (payload_move (V_number (Fin 1)) V_null))
                 1000 1001;
               ev_enemyTick 1060]) as [Hgrass _].
  apply Hgrass. constructor; [|constructor].
  split; [|vm_compute; reflexivity].
  unfold inBounds, GRASS_RADIUS, MAP_WIDTH, MAP_HEIGHT. cbn. lra.
Defined.

(** The world generated from the demo entropy. *)
Lemma demo_world_is_full :
  length (grasses (initialWorld demo_sin demo_cos demo_sqrt demo_PI demo_random
                     demo_uuid)) = GRASS_COUNT.
Proof.
  apply (initial_world_is_placed demo_sin demo_cos demo_sqrt demo_PI demo_random
           demo_uuid demo_random_unit).
Defined.

(** With nobody connected the enemy that is away from home stays there. *)
Lemma empty_server_is_quiet :
  updateEnemies demo_sin demo_sqrt demo_random emptyStreets
    = (emptyStreets, [], false).
Proof.
  destruct (quiet_tick_changes_nothing demo_sin demo_sqrt demo_random
              emptyStreets 1000) as [_ Hempty].
  apply Hempty. reflexivity.
Defined.

(** A move to the right at normal speed. *)
Lemma one_step_right :
  exists p',
    players_get "a"
      (players (fst (moveAndCollect demo_sin demo_sqrt demo_SQRT1_2 demo_random
                       demo_uuid chaseWorld "a" (demoPlayer "a" "u1" 100 100 7)
                       1 0 1000))) = Some p' /\
    pl_x p' - 100 <= 10.
Proof.
  destruct (move_speed_limit demo_sin demo_sqrt demo_SQRT1_2 demo_random
              demo_uuid chaseWorld "a" (demoPlayer "a" "u1" 100 100 7) 1 0 1000)
    as (_ & p' & Hp' & [_ Hx] & _).
  - reflexivity.
  - unfold inBounds, PLAYER_RADIUS, MAP_WIDTH, MAP_HEIGHT. cbn. lra.
  - lra.
  - lra.
  - unfold demo_SQRT1_2. lra.
  - exists p'. split; [exact Hp'|]. exact Hx.
Defined.

Lemma clamp_of_five :
  0 <= clamp 5 0 10 <= 10.
Proof.
  destruct (clamp_is_projection 5 0 10) as [Hordered _].
  destruct Hordered as [Hrange _]; [lra|exact Hrange].
Defined.

(** A draw of one half between 0 and 17. *)
Lemma half_way_draw :
  exists k, (0 <= k <= 17)%Z /\
    randomBetweenOf (1 # 2) (inject_Z 0) (inject_Z 17) == inject_Z k.
Proof.
  destruct (randomBetween_integer_in_range demo_random 0 17) as [Hrange _];
    [lia|].
  apply Hrange. lra.
Defined.

Lemma one_snapshot_per_connection :
  NoDup
    (snapshotRecipients
       (broadcastWorld demo_sin
          (fst (steps demo_sin demo_sqrt demo_SQRT1_2 demo_random demo_uuid
                  demo_StringToNumber twoTabsWorld [ev_enemyTick 1060]))
          1061)).
Proof.
  destruct (players_form_a_map demo_sin demo_sqrt demo_SQRT1_2 demo_random
              demo_uuid demo_StringToNumber twoTabsWorld [ev_enemyTick 1060])
    as (_ & _ & Honce).
  - split; [repeat constructor|].
    cbn. repeat (first [apply NoDup_nil_2|apply NoDup_cons_2]);
      rewrite ?elem_of_cons, ?elem_of_nil; intros H';
      repeat (destruct H' as [H'|H']; try discriminate H'); exact H'.
  - apply Honce.
Defined.

(** A user whose name has blanks around it. *)
Lemma bob_is_accepted :
  exists userId name,
    mkContext (Some "u2") (Some "Bob") = mkContext (Some userId) (Some name) /\
    userId <> "" /\ name <> "".
Proof.
  destruct (upgrade_gives_a_usable_context
              (Some (mkUser "u2" (Some " Bob ") None)))
    as (_ & _ & _ & _ & Haccepted).
  destruct (Haccepted (mkContext (Some "u2") (Some "Bob")) caughtWorld "b")
    as (userId & name & Hctx & Hid & Hname & _); [vm_compute; reflexivity|].
  exists userId, name. split; [exact Hctx|]. split; assumption.
Defined.

(** An enemy at (100, 100) chasing a player at (130, 150): the squared
    distance 3400 has no rational root, the sample [Math.sqrt] answers 58,
    and 1.01 * 58 is more than the true distance. *)
Lemma enemy_step_is_short :
  let next := movePointToward demo_sin demo_sqrt 100 100 130 150 7 in
  (st_x next - 100) * (st_x next - 100) + (st_y next - 100) * (st_y next - 100)
    <= (1.01 * 7) * (1.01 * 7) /\
  - (1.01 * 7) <= st_x next - 100 <= 1.01 * 7 /\
  - (1.01 * 7) <= st_y next - 100 <= 1.01 * 7.
Proof.
  destruct (movePointToward_speed_limit demo_sin demo_sqrt 100 100 130 150 7)
    as (_ & Hlimit & _).
  apply (Hlimit 1.01).
  - vm_compute. reflexivity.
  - lra.
  - vm_compute. discriminate.
  - lra.
  - unfold inBounds, ENEMY_RADIUS, MAP_WIDTH, MAP_HEIGHT. lra.
Defined.

(** With a [Math.sqrt] that rounds down, that step is longer than
    [maxStep] itself. *)
Example rounded_down_root_lengthens_step :
  let next := movePointToward demo_sin demo_sqrt 100 100 130 150 7 in
  demo_sqrt 3400 == 58 /\
  st_x next == 100 + (105 # 29) /\ st_y next == 100 + (175 # 29) /\
  7 * 7 < (st_x next - 100) * (st_x next - 100)
          + (st_y next - 100) * (st_y next - 100).
Proof. cbv zeta. repeat split; vm_compute; reflexivity. Qed.

(** A grass item at (100, 100) pulled by a player at (130, 150), with the
    same squared distance 3400. *)
Lemma grass_pull_is_short :
  let pulled :=
    pullGrass demo_sin demo_sqrt 130 150 (mkGrass 100 100)
      ((130 - 100) * (130 - 100) + (150 - 100) * (150 - 100)) in
  (g_x pulled - 100) * (g_x pulled - 100) + (g_y pulled - 100) * (g_y pulled - 100)
    <= (1.01 * MAGNET_PULL_PER_TICK) * (1.01 * MAGNET_PULL_PER_TICK) /\
  - (1.01 * MAGNET_PULL_PER_TICK) <= g_x pulled - 100
    <= 1.01 * MAGNET_PULL_PER_TICK /\
  - (1.01 * MAGNET_PULL_PER_TICK) <= g_y pulled - 100
    <= 1.01 * MAGNET_PULL_PER_TICK.
Proof.
  destruct (magnet_pull_limit demo_sin demo_sqrt 130 150 (mkGrass 100 100))
    as (_ & Hlimit & _).
  apply (Hlimit 1.01).
  - vm_compute. reflexivity.
  - lra.
  - vm_compute. discriminate.
  - unfold inBounds, GRASS_RADIUS, MAP_WIDTH, MAP_HEIGHT. cbn. lra.
Defined.
